(** * bcoin: binary codec, HD derivation, merkleblock and BIP151 transport

    A shallow embedding of the parts of bcoin that its specification makes
    claims about:

    - [lib/utils/reader.js] and [lib/utils/writer.js] (the binary codec),
    - [lib/hd/public.js] and [lib/hd/common.js] (public HD derivation),
    - [lib/primitives/merkleblock.js] (partial merkle trees),
    - [lib/net/bip151.js] (the encrypted peer transport),
    - [lib/blockchain/compress.js] (the compression of amounts and keys),
    - [lib/hd/mnemonic.js] (the phrase of a mnemonic).

    Buffers are lists of byte values, JavaScript numbers that hold integers
    are [Z], exceptions are results of a small state-and-exception monad,
    and the objects that closures capture and mutate become explicit state
    records.  Collaborators that live outside these files (the elliptic
    curve, the stream cipher, the varint encoding, the LRU cache, Node's
    string codecs) are interfaces, given as type classes. *)

From Stdlib Require Import ZArith Lia Bool Ascii String.
From stdpp Require Import base list strings pretty gmap.
From Equations Require Import Equations.

Local Open Scope Z_scope.

(* ===================================================================== *)
(** * Part I: definitions                                                  *)
(* ===================================================================== *)

(** ** Buffers and JavaScript numbers *)

(** A Node [Buffer]: a sequence of byte values. *)
Abbreviation Buffer := (list Z).

Definition buf_length (b : Buffer) : Z := Z.of_nat (length b).

(** [new Buffer(n)] followed by [fill(0)]; a non-positive size gives the
    empty buffer. *)
Definition buf_zero (n : Z) : Buffer := replicate (Z.to_nat n) 0.

(** [buf.slice(start, end)] for [0 <= start]; the end is clamped to the
    length of the buffer. *)
Definition buf_slice (b : Buffer) (start end_ : Z) : Buffer :=
  take (Z.to_nat (end_ - start)) (drop (Z.to_nat start) b).

(** ToUint32 and ToInt32 of ECMAScript, on integers. *)
Definition to_uint32 (x : Z) : Z := x mod 2 ^ 32.

Definition to_int32 (x : Z) : Z :=
  let u := to_uint32 x in if u <? 2 ^ 31 then u else u - 2 ^ 32.

(** [a << n], [a >>> n] and [a | 0] of ECMAScript. *)
Definition js_shl (a n : Z) : Z := to_int32 (Z.shiftl (to_uint32 a) (n mod 32)).

Definition js_ushr (a n : Z) : Z := Z.shiftr (to_uint32 a) (n mod 32).

(** [a | b] and [a & b] of ECMAScript. *)
Definition js_or (a b : Z) : Z := to_int32 (Z.lor (to_int32 a) (to_int32 b)).

Definition js_and (a b : Z) : Z := to_int32 (Z.land (to_int32 a) (to_int32 b)).

(** [buf.readUInt32LE(off, true)] and [buf.readUInt32BE(off, true)]. *)
Definition byte_at (b : Buffer) (i : Z) : Z := default 0 (b !! Z.to_nat i).

Definition readUInt32LE (b : Buffer) (off : Z) : Z :=
  byte_at b off + byte_at b (off + 1) * 2 ^ 8
  + byte_at b (off + 2) * 2 ^ 16 + byte_at b (off + 3) * 2 ^ 24.

Definition readUInt32BE (b : Buffer) (off : Z) : Z :=
  byte_at b off * 2 ^ 24 + byte_at b (off + 1) * 2 ^ 16
  + byte_at b (off + 2) * 2 ^ 8 + byte_at b (off + 3).

(** [buf.readUInt16LE(off, true)], [buf.readUInt16BE(off, true)] and the
    signed reads [readInt8], [readInt16LE], [readInt16BE], [readInt32LE]
    and [readInt32BE]: the unsigned value, taken as a two's complement
    number of the width. *)
Definition readUInt16LE (b : Buffer) (off : Z) : Z :=
  byte_at b off + byte_at b (off + 1) * 2 ^ 8.

Definition readUInt16BE (b : Buffer) (off : Z) : Z :=
  byte_at b off * 2 ^ 8 + byte_at b (off + 1).

Definition to_signed (bits : Z) (u : Z) : Z :=
  if u <? 2 ^ (bits - 1) then u else u - 2 ^ bits.

Definition readInt8 (b : Buffer) (off : Z) : Z := to_signed 8 (byte_at b off).
Definition readInt16LE (b : Buffer) (off : Z) : Z := to_signed 16 (readUInt16LE b off).
Definition readInt16BE (b : Buffer) (off : Z) : Z := to_signed 16 (readUInt16BE b off).
Definition readInt32LE (b : Buffer) (off : Z) : Z := to_signed 32 (readUInt32LE b off).
Definition readInt32BE (b : Buffer) (off : Z) : Z := to_signed 32 (readUInt32BE b off).

(** The bytes that [writeUInt32LE], [writeUInt32BE] and their narrower
    relatives store for a value. *)
Definition le_bytes (width : nat) (v : Z) : Buffer :=
  (fun i => Z.land (Z.shiftr v (8 * Z.of_nat i)) 255) <$> seq 0 width.

Definition be_bytes (width : nat) (v : Z) : Buffer := reverse (le_bytes width v).

(** A JavaScript value in an argument position that the code inspects
    with [typeof], [!x] or [x || d]. *)
Inductive jsval : Type :=
  | JUndefined
  | JBool (b : bool)
  | JNum (n : Z).

Definition truthy (v : jsval) : bool :=
  match v with
  | JUndefined => false
  | JBool b => b
  | JNum n => negb (n =? 0)
  end.

(** ** Results and the state-and-exception monad *)

(** The outcome of a call: a value, or a thrown error with its message. *)
Inductive res (A : Type) : Type :=
  | Ok (a : A)
  | Throw (msg : string).
Arguments Ok {A} a.
Arguments Throw {A} msg.

Definition is_ok {A} (r : res A) : bool :=
  match r with Ok _ => true | Throw _ => false end.

(** A method of an object with state [S]: it returns or throws, and leaves
    the object in a new state either way. *)
Definition M (S A : Type) : Type := S -> res A * S.

Definition ret {S A} (a : A) : M S A := fun s => (Ok a, s).

Definition bind {S A B} (m : M S A) (k : A -> M S B) : M S B :=
  fun s => match m s with
           | (Ok a, s') => k a s'
           | (Throw e, s') => (Throw e, s')
           end.

Definition throw {S A} (msg : string) : M S A := fun s => (Throw msg, s).

Definition assert {S} (c : bool) (msg : string) : M S unit :=
  if c then ret tt else throw msg.

Definition get {S} : M S S := fun s => (Ok s, s).

Definition put {S} (s : S) : M S unit := fun _ => (Ok tt, s).

Declare Scope m_scope.
Delimit Scope m_scope with M.
Notation "'let!' x ':=' m 'in' k" := (bind m (fun x => k))
  (at level 10, x name, m at level 200, k at level 200) : m_scope.
Notation "'let!' ' ( x , y ) ':=' m 'in' k" := (bind m (fun '(x, y) => k))
  (at level 10, x name, y name, m at level 200, k at level 200) : m_scope.
Notation "'do!' m 'in' k" := (bind m (fun _ => k))
  (at level 10, m at level 200, k at level 200) : m_scope.

(** ** SHA-256 and the hashes built on it *)

(** Modelled from the spec: [crypto.sha256] and [crypto.hash256] belong to
    [lib/crypto/crypto.js], which is not among the sources.  The spec lists
    SHA-256 and double-SHA256 as the hashing capability; SHA-256 is written
    out here after FIPS 180-4 so that hashes can be evaluated. *)
Module SHA256.

Definition w32 (x : Z) : Z := Z.land x 0xffffffff.

Definition add32 (x y : Z) : Z := w32 (x + y).

Definition rotr (n x : Z) : Z :=
  Z.lor (Z.shiftr x n) (w32 (Z.shiftl x (32 - n))).

Definition Ch (x y z : Z) : Z :=
  Z.lxor (Z.land x y) (Z.land (Z.lxor x 0xffffffff) z).

Definition Maj (x y z : Z) : Z :=
  Z.lxor (Z.lxor (Z.land x y) (Z.land x z)) (Z.land y z).

Definition bsig0 (x : Z) : Z := Z.lxor (Z.lxor (rotr 2 x) (rotr 13 x)) (rotr 22 x).
Definition bsig1 (x : Z) : Z := Z.lxor (Z.lxor (rotr 6 x) (rotr 11 x)) (rotr 25 x).
Definition ssig0 (x : Z) : Z := Z.lxor (Z.lxor (rotr 7 x) (rotr 18 x)) (Z.shiftr x 3).
Definition ssig1 (x : Z) : Z := Z.lxor (Z.lxor (rotr 17 x) (rotr 19 x)) (Z.shiftr x 10).

(** The round constants are the first 32 bits of the fractional parts of
    the cube roots of the first 64 primes, and the initial hash value
    those of the square roots of the first 8. *)
Definition is_prime (n : Z) : bool :=
  forallb (fun d => negb (n mod Z.of_nat d =? 0)) (seq 2 (Z.to_nat n - 2)).

Definition primes : list Z := filter (fun n => is_prime n = true) (Z.of_nat <$> seq 2 310).

(** The integer cube root, found bit by bit from the top. *)
Fixpoint icbrt_go (bits : nat) (n r : Z) : Z :=
  match bits with
  | O => r
  | S b =>
      let c := r + 2 ^ Z.of_nat b in
      if c * c * c <=? n then icbrt_go b n c else icbrt_go b n r
  end.

Definition icbrt (n : Z) : Z := icbrt_go 48 n 0.

Definition K : list Z :=
  Eval vm_compute in (fun p => w32 (icbrt (p * 2 ^ 96))) <$> primes.

Definition H0 : list Z :=
  Eval vm_compute in (fun p => w32 (Z.sqrt (p * 2 ^ 64))) <$> take 8 primes.

(** Padding: a one bit, zero bits, and the bit length on 64 bits. *)
Definition pad (msg : Buffer) : Buffer :=
  let len := Z.of_nat (length msg) in
  msg ++ [0x80] ++ replicate (Z.to_nat ((55 - len) mod 64)) 0 ++ be_bytes 8 (8 * len).

(** Big-endian 32-bit words of a byte sequence. *)
Fixpoint words (b : Buffer) : list Z :=
  match b with
  | b0 :: b1 :: b2 :: b3 :: rest =>
      (b0 * 2 ^ 24 + b1 * 2 ^ 16 + b2 * 2 ^ 8 + b3) :: words rest
  | _ => []
  end.

(** The message schedule, most recent word first. *)
Fixpoint schedule (n : nat) (ws : list Z) : list Z :=
  match n with
  | O => ws
  | S n' =>
      let w := add32 (add32 (ssig1 (nth 1 ws 0)) (nth 6 ws 0))
                     (add32 (ssig0 (nth 14 ws 0)) (nth 15 ws 0)) in
      schedule n' (w :: ws)
  end.

Definition round (st : list Z) (kw : Z * Z) : list Z :=
  match st with
  | [a; b; c; d; e; f; g; h] =>
      let t1 := add32 (add32 (add32 h (bsig1 e)) (add32 (Ch e f g) kw.1)) kw.2 in
      let t2 := add32 (bsig0 a) (Maj a b c) in
      [add32 t1 t2; a; b; c; add32 d t1; e; f; g]
  | _ => st
  end.

Definition compress (h : list Z) (block : list Z) : list Z :=
  let ws := rev (schedule 48 (rev block)) in
  zip_with add32 h (fold_left round (zip K ws) h).

Fixpoint blocks (n : nat) (ws : list Z) (h : list Z) : list Z :=
  match n with
  | O => h
  | S n' => blocks n' (drop 16 ws) (compress h (take 16 ws))
  end.

Definition sha256 (msg : Buffer) : Buffer :=
  let ws := words (pad msg) in
  mjoin (be_bytes 4 <$> blocks (length ws / 16)%nat ws H0).

End SHA256.

(** [crypto.sha256(data)]. *)
Definition sha256 (data : Buffer) : Buffer := SHA256.sha256 data.

(** [crypto.hash256(data)]: SHA-256 applied twice. *)
Definition hash256 (data : Buffer) : Buffer := sha256 (sha256 data).

(** Lower-case hexadecimal text of a buffer, [buf.toString('hex')]. *)
Definition hex_digit (n : Z) : string :=
  match n with
  | 0 => "0" | 1 => "1" | 2 => "2" | 3 => "3" | 4 => "4" | 5 => "5" | 6 => "6" | 7 => "7"
  | 8 => "8" | 9 => "9" | 10 => "a" | 11 => "b" | 12 => "c" | 13 => "d" | 14 => "e" | _ => "f"
  end%string.

Fixpoint to_hex (b : Buffer) : string :=
  match b with
  | [] => ""
  | x :: rest => (hex_digit (x / 16 mod 16) +:+ hex_digit (x mod 16) +:+ to_hex rest)%string
  end.

(** [buf.toString('ascii')] and [new Buffer(str, 'ascii')]. *)
Definition ascii_toString (b : Buffer) : string :=
  string_of_list_ascii ((fun x => ascii_of_nat (Z.to_nat x)) <$> b).

Definition ascii_encode (s : string) : Buffer :=
  (fun c => Z.of_nat (nat_of_ascii c)) <$> list_ascii_of_string s.

(** ** External collaborators of the codec *)

(** [lib/utils/encoding.js], which is not among the sources: the variable
    length integers and the 64-bit writes that reader and writer delegate
    to.  Each write is given by the bytes it stores; the offset it returns
    is the offset it was given plus their number. *)
Class Encoding : Type := {
  (** [encoding.readVarint(data, off)]: the decoded [value] and the
      [size] of its encoding, in this order, or an error. *)
  enc_readVarint : Buffer -> Z -> res (Z * Z);
  enc_sizeVarint : Z -> Z;
  enc_writeVarint : Z -> Buffer;
  enc_sizeVarint2 : Z -> Z;
  enc_writeVarint2 : Z -> Buffer;
  enc_writeU64 : Z -> Buffer;
  enc_writeU64BE : Z -> Buffer;
  enc_write64 : Z -> Buffer;
  enc_write64BE : Z -> Buffer
}.

(** What the writer relies on: a varint occupies the size announced for
    it, and a 64-bit write stores eight bytes. *)
Class EncodingLaws `{Encoding} : Prop := {
  enc_writeVarint_size : forall v, buf_length (enc_writeVarint v) = enc_sizeVarint v;
  enc_writeVarint2_size : forall v, buf_length (enc_writeVarint2 v) = enc_sizeVarint2 v;
  enc_writeU64_size : forall v, buf_length (enc_writeU64 v) = 8;
  enc_writeU64BE_size : forall v, buf_length (enc_writeU64BE v) = 8;
  enc_write64_size : forall v, buf_length (enc_write64 v) = 8;
  enc_write64BE_size : forall v, buf_length (enc_write64BE v) = 8
}.

(** Node's own [Buffer] codecs: strings in a named encoding and IEEE
    floating point numbers, the latter kept abstract. *)
Class NodeBuffer : Type := {
  jsfloat : Type;
  (** [buf.toString(enc)] *)
  buf_toString : string -> Buffer -> string;
  (** [Buffer.byteLength(str, enc)] *)
  buf_byteLength : string -> string -> Z;
  (** the bytes that [buf.write(str, off, enc)] stores when there is room *)
  buf_encode : string -> string -> Buffer;
  float_bytesLE : jsfloat -> Buffer;
  float_bytesBE : jsfloat -> Buffer;
  double_bytesLE : jsfloat -> Buffer;
  double_bytesBE : jsfloat -> Buffer
}.

Class NodeBufferLaws `{NodeBuffer} : Prop := {
  float_bytesLE_size : forall f, buf_length (float_bytesLE f) = 4;
  float_bytesBE_size : forall f, buf_length (float_bytesBE f) = 4;
  double_bytesLE_size : forall f, buf_length (double_bytesLE f) = 8;
  double_bytesBE_size : forall f, buf_length (double_bytesBE f) = 8;
  (** the empty string has no bytes, in any encoding *)
  buf_byteLength_empty : forall enc, buf_byteLength "" enc = 0
}.

(** ** BufferReader ([lib/utils/reader.js]) *)

Module Reader.

(** The span stack is an array: [push] appends, [pop] takes the last. *)
Record BufferReader : Type := {
  data : Buffer;
  offset : Z;
  zeroCopy : bool;
  stack : list Z
}.

Definition new (raw : Buffer) (zc : bool) : BufferReader :=
  {| data := raw; offset := 0; zeroCopy := zc; stack := [] |}.

Definition set_offset (o : Z) (r : BufferReader) : BufferReader :=
  {| data := data r; offset := o; zeroCopy := zeroCopy r; stack := stack r |}.

Definition set_stack (st : list Z) (r : BufferReader) : BufferReader :=
  {| data := data r; offset := offset r; zeroCopy := zeroCopy r; stack := st |}.

Section Methods.
Context `{Encoding} `{NodeBuffer}.
Local Open Scope m_scope.

Definition getSize : M BufferReader Z :=
  let! r := get in ret (buf_length (data r)).

Definition left : M BufferReader Z :=
  let! r := get in
  do! assert (offset r <=? buf_length (data r)) "AssertionError" in
  ret (buf_length (data r) - offset r).

Definition seek (off : Z) : M BufferReader Z :=
  let! r := get in
  do! assert (0 <=? offset r + off) "AssertionError" in
  do! assert (offset r + off <=? buf_length (data r)) "AssertionError" in
  do! put (set_offset (offset r + off) r) in
  ret off.

Definition start : M BufferReader Z :=
  let! r := get in
  do! put (set_stack (stack r ++ [offset r]) r) in
  ret (offset r).

Definition end_ : M BufferReader Z :=
  let! r := get in
  do! assert (0 <? Z.of_nat (length (stack r))) "AssertionError" in
  match last (stack r) with
  | Some st =>
      do! put (set_stack (removelast (stack r)) r) in
      ret (offset r - st)
  | None => throw "AssertionError"
  end.

Definition readU8 : M BufferReader Z :=
  let! r := get in
  do! assert (offset r + 1 <=? buf_length (data r)) "AssertionError" in
  do! put (set_offset (offset r + 1) r) in
  ret (byte_at (data r) (offset r)).

Definition readU32 : M BufferReader Z :=
  let! r := get in
  do! assert (offset r + 4 <=? buf_length (data r)) "AssertionError" in
  do! put (set_offset (offset r + 4) r) in
  ret (readUInt32LE (data r) (offset r)).

Definition readU32BE : M BufferReader Z :=
  let! r := get in
  do! assert (offset r + 4 <=? buf_length (data r)) "AssertionError" in
  do! put (set_offset (offset r + 4) r) in
  ret (readUInt32BE (data r) (offset r)).

Definition readVarint : M BufferReader Z :=
  let! r := get in
  match enc_readVarint (data r) (offset r) with
  | Ok (value, size) =>
      do! put (set_offset (offset r + size) r) in
      ret value
  | Throw e => throw e
  end.

(** [readBytes(size, zeroCopy)].  A zero-copy read returns a view of
    the source and a copying read a fresh buffer; the bytes are the
    same. *)
Definition readBytes (size : Z) (zc : jsval) : M BufferReader Buffer :=
  let! r := get in
  do! assert (0 <=? size) "AssertionError" in
  do! assert (offset r + size <=? buf_length (data r)) "AssertionError" in
  let ret_ :=
    if zeroCopy r || truthy zc
    then buf_slice (data r) (offset r) (offset r + size)
    else buf_slice (data r) (offset r) (offset r + size) in
  do! put (set_offset (offset r + size) r) in
  ret ret_.

(** [readVarBytes(zeroCopy)]: its one parameter is the zero-copy flag. *)
Definition readVarBytes (zc : jsval) : M BufferReader Buffer :=
  let! size := readVarint in
  readBytes size zc.

Definition readString (enc : string) (size : Z) : M BufferReader string :=
  let! r := get in
  do! assert (0 <=? size) "AssertionError" in
  do! assert (offset r + size <=? buf_length (data r)) "AssertionError" in
  do! put (set_offset (offset r + size) r) in
  ret (buf_toString enc (buf_slice (data r) (offset r) (offset r + size))).

(** [readVarString(enc, limit)]: [!limit || size <= limit]. *)
Definition limit_ok (limit : jsval) (size : Z) : bool :=
  negb (truthy limit)
  || match limit with
     | JNum l => size <=? l
     | JBool b => size <=? (if b then 1 else 0)
     | JUndefined => false
     end.

Definition readVarString (enc : string) (limit : jsval) : M BufferReader string :=
  let! size := readVarint in
  do! assert (limit_ok limit size) "String exceeds limit." in
  readString enc size.

(** [this.stack[this.stack.length - 1] || 0] *)
Definition checksum_start (r : BufferReader) : Z :=
  match last (stack r) with
  | Some st => if st =? 0 then 0 else st
  | None => 0
  end.

Definition createChecksum : M BufferReader Z :=
  let! r := get in
  let start := checksum_start r in
  let data := buf_slice (data r) start (offset r) in
  ret (readUInt32LE (hash256 data) 0).

Definition verifyChecksum : M BufferReader Z :=
  let! chk := createChecksum in
  let! checksum := readU32 in
  do! assert (chk =? checksum) "Checksum mismatch." in
  ret checksum.

(** *** The other reads *)

(** [endData(zeroCopy)].  The slice and the copy hold the same bytes. *)
Definition endData (zc : jsval) : M BufferReader Buffer :=
  let! r := get in
  do! assert (0 <? Z.of_nat (length (stack r))) "AssertionError" in
  match last (stack r) with
  | Some st =>
      do! put (set_stack (removelast (stack r)) r) in
      let size := offset r - st in
      if size =? buf_length (data r) then ret (data r)
      else if zeroCopy r || truthy zc then ret (buf_slice (data r) st (offset r))
      else ret (buf_slice (data r) st (offset r))
  | None => throw "AssertionError"
  end.

(** A read of [width] bytes that [decode] interprets. *)
Definition read_fixed (width : Z) (decode : Buffer -> Z -> Z) : M BufferReader Z :=
  let! r := get in
  do! assert (offset r + width <=? buf_length (data r)) "AssertionError" in
  do! put (set_offset (offset r + width) r) in
  ret (decode (data r) (offset r)).

Definition readU16 : M BufferReader Z := read_fixed 2 readUInt16LE.
Definition readU16BE : M BufferReader Z := read_fixed 2 readUInt16BE.
Definition read8 : M BufferReader Z := read_fixed 1 readInt8.
Definition read16 : M BufferReader Z := read_fixed 2 readInt16LE.
Definition read16BE : M BufferReader Z := read_fixed 2 readInt16BE.
Definition read32 : M BufferReader Z := read_fixed 4 readInt32LE.
Definition read32BE : M BufferReader Z := read_fixed 4 readInt32BE.

(** [readHash(enc)]: a string when an encoding is named, else the 32
    bytes. *)
Inductive hashval : Type :=
  | HashStr (s : string)
  | HashBuf (b : Buffer).

Definition readHash (enc : option string) : M BufferReader hashval :=
  match enc with
  | Some e =>
      if String.eqb e "" then let! b := readBytes 32 JUndefined in ret (HashBuf b)
      else let! s := readString e 32 in ret (HashStr s)
  | None => let! b := readBytes 32 JUndefined in ret (HashBuf b)
  end.

(** The number of bytes before the first zero byte, or the length when
    there is none. *)
Fixpoint zero_index (l : Buffer) : nat :=
  match l with
  | [] => O
  | x :: rest => if x =? 0 then O else S (zero_index rest)
  end.

(** [readNullString(enc)].  The loop starts at the offset; an index
    below zero holds no byte. *)
Definition readNullString (enc : string) : M BufferReader string :=
  let! r := get in
  do! assert (offset r + 1 <=? buf_length (data r)) "AssertionError" in
  let i := Z.max 0 (offset r) + Z.of_nat (zero_index (drop (Z.to_nat (offset r)) (data r))) in
  do! assert (negb (i =? buf_length (data r))) "AssertionError" in
  let! ret_ := readString enc (i - offset r) in
  let! r := get in
  do! put (set_offset (i + 1) r) in
  ret ret_.

End Methods.

(** *** The reads that are delegated whole *)

(** The 64-bit integers and the varints are decoded by
    [lib/utils/encoding.js], which is not among the sources, and the
    floating point numbers by Node's [Buffer].  A read of [encoding.js]
    returns or throws, and leaves the buffer as it is; a big number is
    given by the integer it holds, a varint by its [value] and [size],
    in this order.  The reads of Node are called with [noAssert] and
    return a number at every offset. *)
Class WideReads `{NodeBuffer} : Type := {
  (** [encoding.readU64(data, off)] and its like *)
  enc_readU64 : Buffer -> Z -> res Z;
  enc_readU64BE : Buffer -> Z -> res Z;
  enc_read64 : Buffer -> Z -> res Z;
  enc_read64BE : Buffer -> Z -> res Z;
  (** [encoding.readU64N(data, off, force53)] and its like *)
  enc_readU64N : Buffer -> Z -> jsval -> res Z;
  enc_readU64NBE : Buffer -> Z -> jsval -> res Z;
  enc_read64N : Buffer -> Z -> jsval -> res Z;
  enc_read64NBE : Buffer -> Z -> jsval -> res Z;
  (** [encoding.readVarint(data, off, big)] with a [big] that is given *)
  enc_readVarint_big : Buffer -> Z -> jsval -> res (Z * Z);
  (** [encoding.skipVarint(data, off)]: the size of the varint *)
  enc_skipVarint : Buffer -> Z -> res Z;
  (** [encoding.readVarint2(data, off, big)] *)
  enc_readVarint2 : Buffer -> Z -> jsval -> res (Z * Z);
  (** [data.readFloatLE(off, true)] and its like *)
  buf_readFloatLE : Buffer -> Z -> jsfloat;
  buf_readFloatBE : Buffer -> Z -> jsfloat;
  buf_readDoubleLE : Buffer -> Z -> jsfloat;
  buf_readDoubleBE : Buffer -> Z -> jsfloat
}.

Section WideMethods.
Context `{NodeBuffer} `{!WideReads}.
Local Open Scope m_scope.

(** A read of eight bytes that [encoding.js] decodes: the assertion,
    the decoding, which can throw, then the offset. *)
Definition read_wide (decode : Buffer -> Z -> res Z) : M BufferReader Z :=
  let! r := get in
  do! assert (offset r + 8 <=? buf_length (data r)) "AssertionError" in
  match decode (data r) (offset r) with
  | Ok ret_ =>
      do! put (set_offset (offset r + 8) r) in
      ret ret_
  | Throw e => throw e
  end.

Definition readU64 : M BufferReader Z := read_wide enc_readU64.
Definition readU64BE : M BufferReader Z := read_wide enc_readU64BE.

Definition readU64N (force53 : jsval) : M BufferReader Z :=
  read_wide (fun data off => enc_readU64N data off force53).

Definition readU64NBE (force53 : jsval) : M BufferReader Z :=
  read_wide (fun data off => enc_readU64NBE data off force53).

Definition readU53 : M BufferReader Z := readU64N (JBool true).
Definition readU53BE : M BufferReader Z := readU64NBE (JBool true).

Definition read64 : M BufferReader Z := read_wide enc_read64.
Definition read64BE : M BufferReader Z := read_wide enc_read64BE.

Definition read64N (force53 : jsval) : M BufferReader Z :=
  read_wide (fun data off => enc_read64N data off force53).

Definition read64NBE (force53 : jsval) : M BufferReader Z :=
  read_wide (fun data off => enc_read64NBE data off force53).

Definition read53 : M BufferReader Z := read64N (JBool true).
Definition read53BE : M BufferReader Z := read64NBE (JBool true).

(** A read of [width] bytes that Node decodes to a floating point
    number. *)
Definition read_float (width : Z) (decode : Buffer -> Z -> jsfloat) : M BufferReader jsfloat :=
  let! r := get in
  do! assert (offset r + width <=? buf_length (data r)) "AssertionError" in
  do! put (set_offset (offset r + width) r) in
  ret (decode (data r) (offset r)).

Definition readFloat : M BufferReader jsfloat := read_float 4 buf_readFloatLE.
Definition readFloatBE : M BufferReader jsfloat := read_float 4 buf_readFloatBE.
Definition readDouble : M BufferReader jsfloat := read_float 8 buf_readDoubleLE.
Definition readDoubleBE : M BufferReader jsfloat := read_float 8 buf_readDoubleBE.

(** [readVarint(big)] with a [big] that is given; [readVarint] above is
    the call without it. *)
Definition readVarint_big (big : jsval) : M BufferReader Z :=
  let! r := get in
  match enc_readVarint_big (data r) (offset r) big with
  | Ok (value, size) =>
      do! put (set_offset (offset r + size) r) in
      ret value
  | Throw e => throw e
  end.

(** [skipVarint()], which returns nothing. *)
Definition skipVarint : M BufferReader unit :=
  let! r := get in
  match enc_skipVarint (data r) (offset r) with
  | Ok size =>
      do! assert (offset r + size <=? buf_length (data r)) "AssertionError" in
      put (set_offset (offset r + size) r)
  | Throw e => throw e
  end.

(** [readVarint2(big)] *)
Definition readVarint2 (big : jsval) : M BufferReader Z :=
  let! r := get in
  match enc_readVarint2 (data r) (offset r) big with
  | Ok (value, size) =>
      do! put (set_offset (offset r + size) r) in
      ret value
  | Throw e => throw e
  end.

End WideMethods.

(** *** Sequences of reads *)

(** What the reader relies on for the offset it adds after a varint:
    the size that [encoding.readVarint] reports is positive and lies
    within the buffer. *)
Class VarintInBounds `{Encoding} : Prop := {
  enc_readVarint_bounds : forall data off value size,
    enc_readVarint data off = Ok (value, size) ->
    0 < size /\ off + size <= buf_length data
}.

(** The same of the varints that [WideReads] decodes: [readVarint] and
    [readVarint2] add the size that is reported without a look at the
    length of the buffer, and [skipVarint] compares the sum with the
    length, not with zero. *)
Class WideReadsInBounds `{WideReads} : Prop := {
  enc_readVarint_big_bounds : forall data off big value size,
    enc_readVarint_big data off big = Ok (value, size) ->
    0 < size /\ off + size <= buf_length data;
  enc_readVarint2_bounds : forall data off big value size,
    enc_readVarint2 data off big = Ok (value, size) ->
    0 < size /\ off + size <= buf_length data;
  enc_skipVarint_size : forall data off size,
    enc_skipVarint data off = Ok size -> 0 <= size
}.

Section Calls.
Context `{Encoding} `{NodeBuffer} `{!WideReads}.
Local Open Scope m_scope.

(** A call of a method of the reader: every method but [destroy],
    which sets [data], [offset] and [stack] to [null] and so ends the
    reader that the record describes. *)
Inductive rcall : Type :=
  | RgetSize | Rleft | Rseek (off : Z) | Rstart | Rend | RendData (zc : jsval)
  | RreadU8 | RreadU16 | RreadU16BE | RreadU32 | RreadU32BE
  | Rread8 | Rread16 | Rread16BE | Rread32 | Rread32BE
  | RreadVarint
  | RreadBytes (size : Z) (zc : jsval) | RreadVarBytes (zc : jsval)
  | RreadString (enc : string) (size : Z) | RreadHash (enc : option string)
  | RreadVarString (enc : string) (limit : jsval) | RreadNullString (enc : string)
  | RcreateChecksum | RverifyChecksum
  | RreadU64 | RreadU64BE | RreadU64N (force53 : jsval) | RreadU64NBE (force53 : jsval)
  | RreadU53 | RreadU53BE
  | Rread64 | Rread64BE | Rread64N (force53 : jsval) | Rread64NBE (force53 : jsval)
  | Rread53 | Rread53BE
  | RreadFloat | RreadFloatBE | RreadDouble | RreadDoubleBE
  | RreadVarint_big (big : jsval) | RskipVarint | RreadVarint2 (big : jsval).

(** What a call returns. *)
Inductive rvalue : Type :=
  | VNum (n : Z)
  | VBuf (b : Buffer)
  | VStr (s : string)
  | VFloat (f : jsfloat)
  | VUndefined.

Definition rexec (c : rcall) : M BufferReader rvalue :=
  match c with
  | RgetSize => let! n := getSize in ret (VNum n)
  | Rleft => let! n := left in ret (VNum n)
  | Rseek off => let! n := seek off in ret (VNum n)
  | Rstart => let! n := start in ret (VNum n)
  | Rend => let! n := end_ in ret (VNum n)
  | RendData zc => let! b := endData zc in ret (VBuf b)
  | RreadU8 => let! n := readU8 in ret (VNum n)
  | RreadU16 => let! n := readU16 in ret (VNum n)
  | RreadU16BE => let! n := readU16BE in ret (VNum n)
  | RreadU32 => let! n := readU32 in ret (VNum n)
  | RreadU32BE => let! n := readU32BE in ret (VNum n)
  | Rread8 => let! n := read8 in ret (VNum n)
  | Rread16 => let! n := read16 in ret (VNum n)
  | Rread16BE => let! n := read16BE in ret (VNum n)
  | Rread32 => let! n := read32 in ret (VNum n)
  | Rread32BE => let! n := read32BE in ret (VNum n)
  | RreadVarint => let! n := readVarint in ret (VNum n)
  | RreadBytes size zc => let! b := readBytes size zc in ret (VBuf b)
  | RreadVarBytes zc => let! b := readVarBytes zc in ret (VBuf b)
  | RreadString enc size => let! s := readString enc size in ret (VStr s)
  | RreadHash enc =>
      let! h := readHash enc in
      ret (match h with HashStr s => VStr s | HashBuf b => VBuf b end)
  | RreadVarString enc limit => let! s := readVarString enc limit in ret (VStr s)
  | RreadNullString enc => let! s := readNullString enc in ret (VStr s)
  | RcreateChecksum => let! n := createChecksum in ret (VNum n)
  | RverifyChecksum => let! n := verifyChecksum in ret (VNum n)
  | RreadU64 => let! n := readU64 in ret (VNum n)
  | RreadU64BE => let! n := readU64BE in ret (VNum n)
  | RreadU64N force53 => let! n := readU64N force53 in ret (VNum n)
  | RreadU64NBE force53 => let! n := readU64NBE force53 in ret (VNum n)
  | RreadU53 => let! n := readU53 in ret (VNum n)
  | RreadU53BE => let! n := readU53BE in ret (VNum n)
  | Rread64 => let! n := read64 in ret (VNum n)
  | Rread64BE => let! n := read64BE in ret (VNum n)
  | Rread64N force53 => let! n := read64N force53 in ret (VNum n)
  | Rread64NBE force53 => let! n := read64NBE force53 in ret (VNum n)
  | Rread53 => let! n := read53 in ret (VNum n)
  | Rread53BE => let! n := read53BE in ret (VNum n)
  | RreadFloat => let! f := readFloat in ret (VFloat f)
  | RreadFloatBE => let! f := readFloatBE in ret (VFloat f)
  | RreadDouble => let! f := readDouble in ret (VFloat f)
  | RreadDoubleBE => let! f := readDoubleBE in ret (VFloat f)
  | RreadVarint_big big => let! n := readVarint_big big in ret (VNum n)
  | RskipVarint => let! _ := skipVarint in ret VUndefined
  | RreadVarint2 big => let! n := readVarint2 big in ret (VNum n)
  end.

(** The calls one after the other; a call that throws is caught, and
    the next call finds the reader as the failed one left it. *)
Fixpoint rexec_all (calls : list rcall) (r : BufferReader) : BufferReader :=
  match calls with
  | [] => r
  | c :: rest => rexec_all rest (rexec c r).2
  end.

(** The offset lies within the buffer. *)
Definition in_bounds (r : BufferReader) : Prop := 0 <= offset r <= buf_length (data r).

(** The calls that can fail after they have moved the offset: a
    failure behind a length prefix leaves the prefix consumed, and a
    checksum that does not match is found after it has been read. *)
Definition fails_late (c : rcall) : bool :=
  match c with
  | RreadVarBytes _ | RreadVarString _ _ | RverifyChecksum => true
  | _ => false
  end.

(** What a call leaves: the same buffer, an offset within it, and, when
    it throws before it has moved the offset, the reader as it was. *)
Definition kept (c : rcall) (r : BufferReader) (out : res rvalue * BufferReader) : Prop :=
  data out.2 = data r
  /\ zeroCopy out.2 = zeroCopy r
  /\ in_bounds out.2
  /\ (is_ok out.1 = false -> fails_late c = false -> out.2 = r).

End Calls.

End Reader.

(** ** BufferWriter ([lib/utils/writer.js]) *)

Module Writer.

Section Ops.
Context `{Encoding} `{NodeBuffer}.
Local Open Scope m_scope.

(** A queued write ([WriteOp]): its type code with the value, and for
    strings the encoding, for fills the size. *)
Inductive WriteOp : Type :=
  | SEEK (value : Z)
  | UI8 (value : Z) | UI16 (value : Z) | UI16BE (value : Z)
  | UI32 (value : Z) | UI32BE (value : Z)
  | UI64 (value : Z) | UI64BE (value : Z)
  | I8 (value : Z) | I16 (value : Z) | I16BE (value : Z)
  | I32 (value : Z) | I32BE (value : Z)
  | I64 (value : Z) | I64BE (value : Z)
  | FL (value : jsfloat) | FLBE (value : jsfloat)
  | DBL (value : jsfloat) | DBLBE (value : jsfloat)
  | VARINT (value : Z) | VARINT2 (value : Z)
  | BYTES (value : Buffer)
  | STR (value : string) (enc : string)
  | CHECKSUM
  | FILL (value : Z) (size : Z).

(** [ops] and [written]; [destroy] sets both to [null], which
    [destroyed] records. *)
Record BufferWriter : Type := {
  ops : list WriteOp;
  written : Z;
  destroyed : bool
}.

Definition new : BufferWriter := {| ops := []; written := 0; destroyed := false |}.

(** [this.written += n; this.ops.push(op)].  On a destroyed writer the
    [push] is a call on [null]. *)
Definition add_written (n : Z) : M BufferWriter unit :=
  fun w => (Ok tt, {| ops := ops w; written := written w + n; destroyed := destroyed w |}).

Definition push (op : WriteOp) : M BufferWriter unit :=
  fun w =>
    if destroyed w then (Throw "TypeError", w)
    else (Ok tt, {| ops := ops w ++ [op]; written := written w; destroyed := false |}).

Definition getSize : M BufferWriter Z := let! w := get in ret (written w).

Definition destroy : M BufferWriter unit :=
  put {| ops := []; written := 0; destroyed := true |}.

Definition seek (offset : Z) : M BufferWriter unit :=
  do! add_written offset in push (SEEK offset).

Definition writeU8 (value : Z) : M BufferWriter unit := do! add_written 1 in push (UI8 value).
Definition writeU16 (value : Z) : M BufferWriter unit := do! add_written 2 in push (UI16 value).
Definition writeU16BE (value : Z) : M BufferWriter unit := do! add_written 2 in push (UI16BE value).
Definition writeU32 (value : Z) : M BufferWriter unit := do! add_written 4 in push (UI32 value).
Definition writeU32BE (value : Z) : M BufferWriter unit := do! add_written 4 in push (UI32BE value).
Definition writeU64 (value : Z) : M BufferWriter unit := do! add_written 8 in push (UI64 value).
Definition writeU64BE (value : Z) : M BufferWriter unit := do! add_written 8 in push (UI64BE value).
Definition write8 (value : Z) : M BufferWriter unit := do! add_written 1 in push (I8 value).
Definition write16 (value : Z) : M BufferWriter unit := do! add_written 2 in push (I16 value).
Definition write16BE (value : Z) : M BufferWriter unit := do! add_written 2 in push (I16BE value).
Definition write32 (value : Z) : M BufferWriter unit := do! add_written 4 in push (I32 value).
Definition write32BE (value : Z) : M BufferWriter unit := do! add_written 4 in push (I32BE value).
Definition write64 (value : Z) : M BufferWriter unit := do! add_written 8 in push (I64 value).
Definition write64BE (value : Z) : M BufferWriter unit := do! add_written 8 in push (I64BE value).
Definition writeFloat (value : jsfloat) : M BufferWriter unit := do! add_written 4 in push (FL value).
Definition writeFloatBE (value : jsfloat) : M BufferWriter unit := do! add_written 4 in push (FLBE value).
Definition writeDouble (value : jsfloat) : M BufferWriter unit := do! add_written 8 in push (DBL value).
Definition writeDoubleBE (value : jsfloat) : M BufferWriter unit := do! add_written 8 in push (DBLBE value).

Definition writeVarint (value : Z) : M BufferWriter unit :=
  do! assert (0 <=? value) "AssertionError" in
  do! add_written (enc_sizeVarint value) in
  push (VARINT value).

Definition writeVarint2 (value : Z) : M BufferWriter unit :=
  do! assert (0 <=? value) "AssertionError" in
  do! add_written (enc_sizeVarint2 value) in
  push (VARINT2 value).

Definition writeBytes (value : Buffer) : M BufferWriter unit :=
  if buf_length value =? 0 then ret tt
  else do! add_written (buf_length value) in push (BYTES value).

Definition writeVarBytes (value : Buffer) : M BufferWriter unit :=
  do! add_written (enc_sizeVarint (buf_length value)) in
  do! push (VARINT (buf_length value)) in
  if buf_length value =? 0 then ret tt
  else do! add_written (buf_length value) in push (BYTES value).

(** The argument of the string writes: a string, or a buffer, which
    they hand to the byte writes. *)
Inductive strarg : Type :=
  | AStr (s : string)
  | ABuf (b : Buffer).

Definition writeString (value : strarg) (enc : string) : M BufferWriter unit :=
  match value with
  | ABuf b => writeBytes b
  | AStr s =>
      do! add_written (buf_byteLength s enc) in
      if String.eqb s "" then ret tt
      else push (STR s enc)
  end.

Definition writeHash (value : strarg) : M BufferWriter unit := writeString value "hex".

Definition writeVarString (value : strarg) (enc : string) : M BufferWriter unit :=
  match value with
  | ABuf b => writeVarBytes b
  | AStr s =>
      let size := buf_byteLength s enc in
      do! add_written (enc_sizeVarint size) in
      do! add_written size in
      do! push (VARINT size) in
      if String.eqb s "" then ret tt
      else push (STR s enc)
  end.

Definition writeNullString (value : strarg) (enc : string) : M BufferWriter unit :=
  do! writeString value enc in writeU8 0.

Definition writeChecksum : M BufferWriter unit := do! add_written 4 in push CHECKSUM.

Definition fill (value : Z) (size : Z) : M BufferWriter unit :=
  do! assert (0 <=? size) "AssertionError" in
  if size =? 0 then ret tt
  else do! add_written size in push (FILL value size).

(** *** [render] *)

(** Storing bytes at an offset of a buffer: the bytes that fall outside
    the buffer are dropped and its length stays. *)
Definition overlay (data : Buffer) (off : Z) (bytes : Buffer) : Buffer :=
  imap (fun i x =>
          let j := Z.of_nat i - off in
          if (0 <=? j) && (j <? buf_length bytes) then byte_at bytes j else x) data.

(** The number of bytes that [src.copy(data, off)] and
    [data.write(str, off, enc)] store and return. *)
Definition room (data : Buffer) (off : Z) (n : Z) : Z :=
  Z.max 0 (Z.min n (buf_length data - off)).

(** One turn of the loop of [render]: the buffer and the offset after
    the operation.  The fixed-width writes are made with [noAssert],
    and return the offset advanced by their width; a copy, a string
    write and a fill at a negative offset throw. *)
Definition replay_op (op : WriteOp) (st : Buffer * Z) : res (Buffer * Z) :=
  let '(data, off) := st in
  let fixed bytes := Ok (overlay data off bytes, off + buf_length bytes) in
  let copied bytes :=
    if off <? 0 then Throw "RangeError"
    else Ok (overlay data off bytes, off + room data off (buf_length bytes)) in
  match op with
  | SEEK value => Ok (data, off + value)
  | UI8 value => fixed (le_bytes 1 value)
  | UI16 value => fixed (le_bytes 2 value)
  | UI16BE value => fixed (be_bytes 2 value)
  | UI32 value => fixed (le_bytes 4 value)
  | UI32BE value => fixed (be_bytes 4 value)
  | UI64 value => fixed (enc_writeU64 value)
  | UI64BE value => fixed (enc_writeU64BE value)
  | I8 value => fixed (le_bytes 1 value)
  | I16 value => fixed (le_bytes 2 value)
  | I16BE value => fixed (be_bytes 2 value)
  | I32 value => fixed (le_bytes 4 value)
  | I32BE value => fixed (be_bytes 4 value)
  | I64 value => fixed (enc_write64 value)
  | I64BE value => fixed (enc_write64BE value)
  | FL value => fixed (float_bytesLE value)
  | FLBE value => fixed (float_bytesBE value)
  | DBL value => fixed (double_bytesLE value)
  | DBLBE value => fixed (double_bytesBE value)
  | VARINT value => fixed (enc_writeVarint value)
  | VARINT2 value => fixed (enc_writeVarint2 value)
  | BYTES value => copied value
  | STR value enc => copied (buf_encode value enc)
  | CHECKSUM => copied (buf_slice (hash256 (buf_slice data 0 off)) 0 4)
  | FILL value size =>
      if off <? 0 then Throw "RangeError"
      else Ok (overlay data off (replicate (Z.to_nat size) (Z.land value 255)), off + size)
  end.

(** [for (i = 0; i < this.ops.length; i++)]: the operations in the
    order in which they were queued. *)
Fixpoint replay (l : list WriteOp) (st : Buffer * Z) : res (Buffer * Z) :=
  match l with
  | [] => Ok st
  | op :: rest =>
      match replay_op op st with
      | Ok st' => replay rest st'
      | Throw e => Throw e
      end
  end.

(** [render(keep)].  [new Buffer(n)] is taken zero-filled, and empty
    for a negative [n], as Node did up to version 7 (later versions
    throw a RangeError there). *)
Definition render (keep : bool) : M BufferWriter Buffer :=
  let! w := get in
  if destroyed w then throw "TypeError"
  else
    match replay (ops w) (buf_zero (written w), 0) with
    | Throw e => throw e
    | Ok (data, off) =>
        do! assert (off =? buf_length data) "AssertionError" in
        do! (if keep then ret tt else destroy) in
        ret data
    end.

(** *** Sequences of operations *)

(** A call of a method that queues. *)
Inductive call : Type :=
  | Cseek (offset : Z)
  | CwriteU8 (v : Z) | CwriteU16 (v : Z) | CwriteU16BE (v : Z)
  | CwriteU32 (v : Z) | CwriteU32BE (v : Z) | CwriteU64 (v : Z) | CwriteU64BE (v : Z)
  | Cwrite8 (v : Z) | Cwrite16 (v : Z) | Cwrite16BE (v : Z)
  | Cwrite32 (v : Z) | Cwrite32BE (v : Z) | Cwrite64 (v : Z) | Cwrite64BE (v : Z)
  | CwriteFloat (v : jsfloat) | CwriteFloatBE (v : jsfloat)
  | CwriteDouble (v : jsfloat) | CwriteDoubleBE (v : jsfloat)
  | CwriteVarint (v : Z) | CwriteVarint2 (v : Z)
  | CwriteBytes (v : Buffer) | CwriteVarBytes (v : Buffer)
  | CwriteString (v : strarg) (enc : string)
  | CwriteHash (v : strarg)
  | CwriteVarString (v : strarg) (enc : string)
  | CwriteNullString (v : strarg) (enc : string)
  | CwriteChecksum
  | Cfill (v : Z) (size : Z).

Definition exec (c : call) : M BufferWriter unit :=
  match c with
  | Cseek offset => seek offset
  | CwriteU8 v => writeU8 v | CwriteU16 v => writeU16 v | CwriteU16BE v => writeU16BE v
  | CwriteU32 v => writeU32 v | CwriteU32BE v => writeU32BE v
  | CwriteU64 v => writeU64 v | CwriteU64BE v => writeU64BE v
  | Cwrite8 v => write8 v | Cwrite16 v => write16 v | Cwrite16BE v => write16BE v
  | Cwrite32 v => write32 v | Cwrite32BE v => write32BE v
  | Cwrite64 v => write64 v | Cwrite64BE v => write64BE v
  | CwriteFloat v => writeFloat v | CwriteFloatBE v => writeFloatBE v
  | CwriteDouble v => writeDouble v | CwriteDoubleBE v => writeDoubleBE v
  | CwriteVarint v => writeVarint v | CwriteVarint2 v => writeVarint2 v
  | CwriteBytes v => writeBytes v | CwriteVarBytes v => writeVarBytes v
  | CwriteString v enc => writeString v enc
  | CwriteHash v => writeHash v
  | CwriteVarString v enc => writeVarString v enc
  | CwriteNullString v enc => writeNullString v enc
  | CwriteChecksum => writeChecksum
  | Cfill v size => fill v size
  end.

Fixpoint exec_all (l : list call) : M BufferWriter unit :=
  match l with
  | [] => ret tt
  | c :: rest => do! exec c in exec_all rest
  end.

(** A string is written in full: [buf.write] stores as many bytes as
    [Buffer.byteLength] counts (invalid hex digits, for one, make it
    store fewer). *)
Definition string_ok (v : strarg) (enc : string) : Prop :=
  match v with
  | AStr s => buf_length (buf_encode s enc) = buf_byteLength s enc
  | ABuf _ => True
  end.

(** A call that keeps the size counter and the replay in step: a seek
    does not go backwards and a string is written in full. *)
Definition call_ok (c : call) : Prop :=
  match c with
  | Cseek offset => 0 <= offset
  | CwriteString v enc | CwriteVarString v enc | CwriteNullString v enc => string_ok v enc
  | CwriteHash v => string_ok v "hex"
  | _ => True
  end.

(** The number of bytes by which a queued operation advances the
    offset when there is room for it. *)
Definition op_size (op : WriteOp) : Z :=
  match op with
  | SEEK value => value
  | UI8 _ | I8 _ => 1
  | UI16 _ | UI16BE _ | I16 _ | I16BE _ => 2
  | UI32 _ | UI32BE _ | I32 _ | I32BE _ | FL _ | FLBE _ | CHECKSUM => 4
  | UI64 _ | UI64BE _ | I64 _ | I64BE _ | DBL _ | DBLBE _ => 8
  | VARINT value => enc_sizeVarint value
  | VARINT2 value => enc_sizeVarint2 value
  | BYTES value => buf_length value
  | STR value enc => buf_length (buf_encode value enc)
  | FILL _ size => size
  end.

Definition ops_size (l : list WriteOp) : Z := foldr (fun op n => op_size op + n) 0 l.

(** The writer is live, its counter is the sum of the sizes of the
    queued operations, and no queued operation has a negative size. *)
Definition consistent (w : BufferWriter) : Prop :=
  destroyed w = false
  /\ written w = ops_size (ops w)
  /\ Forall (fun op => 0 <= op_size op) (ops w).

End Ops.

End Writer.

(** ** The bytes that a writer renders *)

(** What [render] is compared with: the encoding of each queued
    operation, one after the other. *)
Module Wire.

Section Bytes.
Context `{Encoding} `{NodeBuffer}.
Import Writer.

(** The bytes that a queued operation stores behind the bytes
    [before]; a seek stores none and leaves a gap. *)
Definition op_bytes (before : Buffer) (op : WriteOp) : Buffer :=
  match op with
  | SEEK value => buf_zero value
  | UI8 value | I8 value => le_bytes 1 value
  | UI16 value | I16 value => le_bytes 2 value
  | UI16BE value | I16BE value => be_bytes 2 value
  | UI32 value | I32 value => le_bytes 4 value
  | UI32BE value | I32BE value => be_bytes 4 value
  | UI64 value => enc_writeU64 value
  | UI64BE value => enc_writeU64BE value
  | I64 value => enc_write64 value
  | I64BE value => enc_write64BE value
  | FL value => float_bytesLE value
  | FLBE value => float_bytesBE value
  | DBL value => double_bytesLE value
  | DBLBE value => double_bytesBE value
  | VARINT value => enc_writeVarint value
  | VARINT2 value => enc_writeVarint2 value
  | BYTES value => value
  | STR value enc => buf_encode value enc
  | CHECKSUM => buf_slice (hash256 before) 0 4
  | FILL value size => replicate (Z.to_nat size) (Z.land value 255)
  end.

Fixpoint encode (before : Buffer) (l : list WriteOp) : Buffer :=
  match l with
  | [] => before
  | op :: rest => encode (before ++ op_bytes before op) rest
  end.

Definition is_seek (op : WriteOp) : bool :=
  match op with SEEK _ => true | _ => false end.

(** The same for the calls that queue the operations. *)
Definition str_bytes (v : strarg) (enc : string) : Buffer :=
  match v with
  | AStr s => buf_encode s enc
  | ABuf b => b
  end.

Definition call_bytes (before : Buffer) (c : call) : Buffer :=
  match c with
  | Cseek offset => buf_zero offset
  | CwriteU8 v | Cwrite8 v => le_bytes 1 v
  | CwriteU16 v | Cwrite16 v => le_bytes 2 v
  | CwriteU16BE v | Cwrite16BE v => be_bytes 2 v
  | CwriteU32 v | Cwrite32 v => le_bytes 4 v
  | CwriteU32BE v | Cwrite32BE v => be_bytes 4 v
  | CwriteU64 v => enc_writeU64 v
  | CwriteU64BE v => enc_writeU64BE v
  | Cwrite64 v => enc_write64 v
  | Cwrite64BE v => enc_write64BE v
  | CwriteFloat v => float_bytesLE v
  | CwriteFloatBE v => float_bytesBE v
  | CwriteDouble v => double_bytesLE v
  | CwriteDoubleBE v => double_bytesBE v
  | CwriteVarint v => enc_writeVarint v
  | CwriteVarint2 v => enc_writeVarint2 v
  | CwriteBytes v => v
  | CwriteVarBytes v => enc_writeVarint (buf_length v) ++ v
  | CwriteString v enc => str_bytes v enc
  | CwriteHash v => str_bytes v "hex"
  | CwriteVarString v enc => enc_writeVarint (buf_length (str_bytes v enc)) ++ str_bytes v enc
  | CwriteNullString v enc => str_bytes v enc ++ [0]
  | CwriteChecksum => buf_slice (hash256 before) 0 4
  | Cfill v size => replicate (Z.to_nat size) (Z.land v 255)
  end.

Fixpoint wire (before : Buffer) (calls : list call) : Buffer :=
  match calls with
  | [] => before
  | c :: rest => wire (before ++ call_bytes before c) rest
  end.

Definition is_Cseek (c : call) : bool :=
  match c with Cseek _ => true | _ => false end.

(** What a successful call appends to the queue encodes to the bytes
    of the call. *)
Definition appends (c : call) (w w' : BufferWriter) : Prop :=
  exists l, ops w' = ops w ++ l
    /\ destroyed w' = false
    /\ Forall (fun op => is_seek op = false) l
    /\ forall before, encode before l = before ++ call_bytes before c.

(** A call that the writer does not refuse: the value of a varint and
    the size of a fill are not negative. *)
Definition accepted (c : call) : Prop :=
  match c with
  | CwriteVarint v | CwriteVarint2 v => 0 <= v
  | Cfill _ size => 0 <= size
  | _ => True
  end.

(** [new BufferWriter()], the calls, and [render()]. *)
Definition rendered (calls : list call) : res Buffer :=
  (bind (exec_all calls) (fun _ => render false) new).1.

End Bytes.

End Wire.

(** ** Values written and read back *)

(** What the reader relies on when it reads a length prefix that the
    writer stored: [encoding.readVarint] decodes what
    [encoding.writeVarint] stores, wherever it stands in a buffer, for
    the lengths that buffers have. *)
Class VarintRoundTrip `{Encoding} : Prop := {
  enc_readVarint_written : forall before v after,
    0 <= v < 2 ^ 32 ->
    enc_readVarint (before ++ enc_writeVarint v ++ after) (buf_length before)
    = Ok (v, enc_sizeVarint v)
}.

(** What a block relies on when it stores a hash as a string in hex:
    Node's hex codec writes the bytes that [toString('hex')] printed,
    and counts them. *)
Class HexCodec `{NodeBuffer} : Prop := {
  hex_toString : forall b, buf_toString "hex" b = to_hex b;
  hex_encode : forall b,
    Forall (fun x => 0 <= x < 256) b -> buf_encode (to_hex b) "hex" = b;
  hex_byteLength : forall b, buf_byteLength (to_hex b) "hex" = buf_length b
}.

Module Fields.

Section Fields.
Context `{Encoding} `{NodeBuffer}.
Local Open Scope m_scope.

(** A value with its layout: the call of the writer that stores it
    and the call of the reader that reads it. *)
Inductive field : Type :=
  | FU8 (v : Z) | FU16 (v : Z) | FU16BE (v : Z) | FU32 (v : Z) | FU32BE (v : Z)
  | F8 (v : Z) | F16 (v : Z) | F16BE (v : Z) | F32 (v : Z) | F32BE (v : Z)
  | FBytes (b : Buffer)
  | FVarBytes (b : Buffer).

Definition write_field (f : field) : Writer.call :=
  match f with
  | FU8 v => Writer.CwriteU8 v
  | FU16 v => Writer.CwriteU16 v
  | FU16BE v => Writer.CwriteU16BE v
  | FU32 v => Writer.CwriteU32 v
  | FU32BE v => Writer.CwriteU32BE v
  | F8 v => Writer.Cwrite8 v
  | F16 v => Writer.Cwrite16 v
  | F16BE v => Writer.Cwrite16BE v
  | F32 v => Writer.Cwrite32 v
  | F32BE v => Writer.Cwrite32BE v
  | FBytes b => Writer.CwriteBytes b
  | FVarBytes b => Writer.CwriteVarBytes b
  end.

(** The read for the layout of [f]; bytes without a length prefix are
    read by their number. *)
Definition read_field (f : field) : M Reader.BufferReader field :=
  match f with
  | FU8 _ => let! v := Reader.readU8 in ret (FU8 v)
  | FU16 _ => let! v := Reader.readU16 in ret (FU16 v)
  | FU16BE _ => let! v := Reader.readU16BE in ret (FU16BE v)
  | FU32 _ => let! v := Reader.readU32 in ret (FU32 v)
  | FU32BE _ => let! v := Reader.readU32BE in ret (FU32BE v)
  | F8 _ => let! v := Reader.read8 in ret (F8 v)
  | F16 _ => let! v := Reader.read16 in ret (F16 v)
  | F16BE _ => let! v := Reader.read16BE in ret (F16BE v)
  | F32 _ => let! v := Reader.read32 in ret (F32 v)
  | F32BE _ => let! v := Reader.read32BE in ret (F32BE v)
  | FBytes b => let! x := Reader.readBytes (buf_length b) JUndefined in ret (FBytes x)
  | FVarBytes _ => let! x := Reader.readVarBytes JUndefined in ret (FVarBytes x)
  end.

Fixpoint read_fields (fs : list field) : M Reader.BufferReader (list field) :=
  match fs with
  | [] => ret []
  | f :: rest =>
      let! x := read_field f in
      let! xs := read_fields rest in
      ret (x :: xs)
  end.

(** The value fits the width of its layout. *)
Definition field_ok (f : field) : Prop :=
  match f with
  | FU8 v => 0 <= v < 2 ^ 8
  | FU16 v | FU16BE v => 0 <= v < 2 ^ 16
  | FU32 v | FU32BE v => 0 <= v < 2 ^ 32
  | F8 v => - 2 ^ 7 <= v < 2 ^ 7
  | F16 v | F16BE v => - 2 ^ 15 <= v < 2 ^ 15
  | F32 v | F32BE v => - 2 ^ 31 <= v < 2 ^ 31
  | FBytes _ => True
  | FVarBytes b => buf_length b < 2 ^ 32
  end.

Definition field_bytes (f : field) : Buffer := Wire.call_bytes [] (write_field f).

End Fields.

End Fields.

(** ** HD public keys ([lib/hd/common.js], [lib/hd/public.js]) *)

(** Modelled from the spec: [lib/utils/lru.js] is not among the sources.
    The derivation cache is an LRU keyed by strings: a list of entries,
    most recently used first, that holds at most [capacity] of them. *)
Module LRU.

Record t (V : Type) : Type := {
  capacity : nat;
  entries : list (string * V)
}.
Arguments capacity {V} _.
Arguments entries {V} _.

Definition new {V} (cap : nat) : t V := {| capacity := cap; entries := [] |}.

Fixpoint assoc {V} (k : string) (l : list (string * V)) : option V :=
  match l with
  | [] => None
  | (k', v) :: rest => if String.eqb k k' then Some v else assoc k rest
  end.

Fixpoint remove {V} (k : string) (l : list (string * V)) : list (string * V) :=
  match l with
  | [] => []
  | (k', v) :: rest => if String.eqb k k' then remove k rest else (k', v) :: remove k rest
  end.

Definition lookup {V} (c : t V) (k : string) : option V := assoc k (entries c).

(** [cache.get(key)]: a hit moves the entry to the front. *)
Definition get {V} (k : string) (c : t V) : option V * t V :=
  match assoc k (entries c) with
  | Some v => (Some v, {| capacity := capacity c; entries := (k, v) :: remove k (entries c) |})
  | None => (None, c)
  end.

(** [cache.set(key, value)]: the entry goes to the front and the least
    recently used entries beyond the capacity are dropped. *)
Definition set {V} (k : string) (v : V) (c : t V) : t V :=
  {| capacity := capacity c;
     entries := take (capacity c) ((k, v) :: remove k (entries c)) |}.

End LRU.

(** The elliptic curve and the keyed hashes that derivation calls
    ([lib/crypto/ec.js] and [lib/crypto/crypto.js], not among the
    sources). *)
Class HDCrypto : Type := {
  (** [crypto.hmac('sha512', data, key)] *)
  hmac_sha512 : Buffer -> Buffer -> Buffer;
  (** [crypto.hash160(data)] *)
  hash160 : Buffer -> Buffer;
  (** [ec.publicKeyTweakAdd(key, tweak, true)]: the tweaked point, or an
      error when the result is not a valid point. *)
  publicKeyTweakAdd : Buffer -> Buffer -> res Buffer
}.

Module HD.

(** Modelled from the spec: [constants.hd.HARDENED] of
    [lib/protocol/constants.js], which is not among the sources; the
    high bit of a 32-bit child index denotes hardened. *)
Definition HARDENED : Z := 0x80000000.

(** Modelled from the spec: [constants.hd.MAX_INDEX], the end of the
    32-bit range of child indexes. *)
Definition MAX_INDEX : Z := 2 * HARDENED.

(** Modelled from the spec: [constants.ZERO_HASH] and
    [constants.ZERO_KEY], 32 and 33 zero bytes. *)
Definition ZERO_HASH : Buffer := buf_zero 32.
Definition ZERO_KEY : Buffer := buf_zero 33.

(** A network, with the fields of [keyPrefix] that public keys use
    ([lib/protocol/networks.js]). *)
Record Network : Type := {
  net_type : string;
  xpubkey : Z;
  xpubkey58 : string
}.

Definition main : Network := {| net_type := "main"; xpubkey := 0x0488b21e; xpubkey58 := "xpub" |}.
Definition testnet : Network := {| net_type := "testnet"; xpubkey := 0x043587cf; xpubkey58 := "tpub" |}.
Definition regtest : Network := {| net_type := "regtest"; xpubkey := 0x043587cf; xpubkey58 := "tpub" |}.
Definition segnet3 : Network := {| net_type := "segnet3"; xpubkey := 0x053587cf; xpubkey58 := "2793" |}.
Definition segnet4 : Network := {| net_type := "segnet4"; xpubkey := 0x053587cf; xpubkey58 := "2793" |}.
Definition simnet : Network := {| net_type := "simnet"; xpubkey := 0x0420bd3a; xpubkey58 := "spub" |}.

(** [networks.types], in order. *)
Definition types : list Network := [main; testnet; regtest; segnet3; segnet4; simnet].

Record HDPublicKey : Type := {
  network : Network;
  depth : Z;
  parentFingerPrint : Buffer;
  childIndex : Z;
  chainCode : Buffer;
  publicKey : Buffer;
  fingerPrint : option Buffer;
  _xpubkey : option string
}.

(** [new HDPublicKey()]; [Network.primary] is the main network. *)
Definition new : HDPublicKey :=
  {| network := main; depth := 0; parentFingerPrint := buf_zero 4; childIndex := 0;
     chainCode := ZERO_HASH; publicKey := ZERO_KEY; fingerPrint := None; _xpubkey := None |}.

Definition set_fingerPrint (fp : option Buffer) (k : HDPublicKey) : HDPublicKey :=
  {| network := network k; depth := depth k; parentFingerPrint := parentFingerPrint k;
     childIndex := childIndex k; chainCode := chainCode k; publicKey := publicKey k;
     fingerPrint := fp; _xpubkey := _xpubkey k |}.

(** *** [common.parsePath] *)

Definition quote : ascii := "'"%char.

(** [path.split('/')] *)
Fixpoint split_slash (cur : string) (s : string) : list string :=
  match s with
  | EmptyString => [String.rev cur]
  | String c rest =>
      if Ascii.eqb c "/"%char then String.rev cur :: split_slash EmptyString rest
      else split_slash (String c cur) rest
  end.

Definition is_digit (c : ascii) : bool :=
  let n := Z.of_nat (nat_of_ascii c) in (48 <=? n) && (n <=? 57).

(** [/^\d+$/.test(s)] *)
Definition all_digits (s : string) : bool :=
  negb (String.eqb s "") && forallb is_digit (list_ascii_of_string s).

(** [parseInt(s, 10)] on a string of digits. *)
Definition parseInt (s : string) : Z :=
  fold_left (fun acc c => 10 * acc + (Z.of_nat (nat_of_ascii c) - 48)) (list_ascii_of_string s) 0.

Definition last_char (s : string) : option ascii := last (list_ascii_of_string s).

(** [index.slice(0, -1)] *)
Definition drop_last (s : string) : string :=
  string_of_list_ascii (removelast (list_ascii_of_string s)).

Definition parse_segment (max : Z) (part : string) : res Z :=
  let hardened := bool_decide (last_char part = Some quote) in
  let index := if hardened then drop_last part else part in
  if negb (all_digits index) then Throw "Non-number path index."
  else
    let index := parseInt index in
    let index := if hardened then index + HARDENED else index in
    if negb ((0 <=? index) && (index <? max)) then Throw "Index out of range."
    else Ok index.

Fixpoint parse_segments (max : Z) (parts : list string) : res (list Z) :=
  match parts with
  | [] => Ok []
  | part :: rest =>
      match parse_segment max part with
      | Throw e => Throw e
      | Ok index =>
          match parse_segments max rest with
          | Throw e => Throw e
          | Ok result => Ok (index :: result)
          end
      end
  end.

Definition parsePath (path : string) (max : option Z) : res (list Z) :=
  let parts := split_slash EmptyString path in
  let root := default EmptyString (head parts) in
  let parts := tail parts in
  let max := default MAX_INDEX max in
  if negb (String.eqb root "m") && negb (String.eqb root "M")
     && negb (String.eqb root "m'") && negb (String.eqb root "M'")
  then Throw "Bad path root."
  else parse_segments max parts.

(** *** [HDPublicKey.prototype.derive] *)

(** The first argument of [derive]: a child index or a path. *)
Inductive index_arg : Type :=
  | IdxNum (n : Z)
  | IdxPath (path : string).

Section Derive.
Context `{HDCrypto}.
Local Open Scope m_scope.

Abbreviation Cache := (LRU.t HDPublicKey).

(** [getID(index)] *)
Definition getID (this : HDPublicKey) (index : Z) : string :=
  (xpubkey58 (network this) +:+ to_hex (publicKey this) +:+ pretty index)%string.

(** [hash.slice(0, 32)] of the HMAC over key and index: the tweak. *)
Definition tweak_data (this : HDPublicKey) (index : Z) : Buffer :=
  publicKey this ++ be_bytes 4 index.

Definition tweak_hash (this : HDPublicKey) (index : Z) : Buffer :=
  hmac_sha512 (tweak_data this index) (chainCode this).

(** The call [ec.publicKeyTweakAdd(this.publicKey, left, true)] that
    [derive(index)] makes. *)
Definition tweak_add (this : HDPublicKey) (index : Z) : res Buffer :=
  publicKeyTweakAdd (publicKey this) (buf_slice (tweak_hash this index) 0 32).

Definition own_fingerPrint (this : HDPublicKey) : Buffer :=
  match fingerPrint this with
  | Some fp => fp
  | None => buf_slice (hash160 (publicKey this)) 0 4
  end.

Definition make_child (this : HDPublicKey) (index : Z) (key : Buffer) : HDPublicKey :=
  {| network := network this;
     depth := depth this + 1;
     parentFingerPrint := own_fingerPrint this;
     childIndex := index;
     chainCode := buf_slice (tweak_hash this index) 32 64;
     publicKey := key;
     fingerPrint := None;
     _xpubkey := None |}.

(** [derive] on a numeric index.  The state is the cache in use (the
    one passed in, or [common.cache]); the result is the child
    together with the receiver, whose [fingerPrint] the call may have
    filled in.  The retry of the [catch] branch is the call
    [this.derive(index + 1, cache)], in which [hardened] is false. *)
Equations? derive_number (this : HDPublicKey) (index : Z) (hardened : bool)
  : M Cache (HDPublicKey * HDPublicKey)
  by wf (Z.to_nat (HARDENED - index)) lt :=
derive_number this index hardened with decide (HARDENED <= index \/ hardened = true) := {
  | left _ => throw "Index out of range."
  | right _ =>
      if index <? 0 then throw "Index out of range."
      else if 0xff <=? depth this then throw "Depth too high."
      else
        let id := getID this index in
        fun cache =>
        match LRU.get id cache with
        | (Some child, cache) => (Ok (child, this), cache)
        | (None, cache) =>
            match tweak_add this index with
            | Throw _ => derive_number this (index + 1) false cache
            | Ok key =>
                let this' := set_fingerPrint (Some (own_fingerPrint this)) this in
                let child := make_child this index key in
                (Ok (child, this'), LRU.set id child cache)
            end
        end }.
Proof. unfold HARDENED in *. lia. Qed.

(** [derivePath(path, cache)]: each step derives from the child of the
    one before, and the receiver itself is the first of them.  The
    result is the last key, with the receiver as the first step left
    it.  A step may fill in the [fingerPrint] of the key it derives
    from; for the keys in between that memo is not carried along, as
    it is recomputed to the same bytes when needed. *)
Fixpoint derive_indexes (key : HDPublicKey) (indexes : list Z)
  : M Cache (HDPublicKey * HDPublicKey) :=
  match indexes with
  | [] => ret (key, key)
  | index :: rest =>
      let! '(child, key') := derive_number key index false in
      let! '(final, _) := derive_indexes child rest in
      ret (final, key')
  end.

Definition derivePath (this : HDPublicKey) (path : string)
  : M Cache (HDPublicKey * HDPublicKey) :=
  match parsePath path (Some HARDENED) with
  | Throw e => throw e
  | Ok indexes => derive_indexes this indexes
  end.

(** [derive(index, hardened, cache)].  [hardened] is [Some b] when the
    second argument is a boolean and [None] when it is the cache or
    absent.  The result is the derived key and the receiver. *)
Definition derive (this : HDPublicKey) (index : index_arg) (hardened : option bool)
  : M Cache (HDPublicKey * HDPublicKey) :=
  let hardened := default false hardened in
  match index with
  | IdxPath path => derivePath this path
  | IdxNum index => derive_number this index hardened
  end.

(** The call [derive(index)] gets as far as the tweak-add, and the
    tweak-add throws: the index is in the non-hardened range, the key
    is not at the maximal depth, the cache has no entry for the index,
    and the tweaked point is invalid. *)
Definition tweak_fails (this : HDPublicKey) (index : Z) (cache : Cache) : Prop :=
  0 <= index < HARDENED
  /\ depth this < 0xff
  /\ LRU.lookup cache (getID this index) = None
  /\ is_ok (tweak_add this index) = false.

(** Every child that the cache holds for this key is filed under the
    index it records, as the entries that [derive] stores are. *)
Definition cache_indexed (this : HDPublicKey) (cache : Cache) : Prop :=
  forall j child,
    LRU.lookup cache (getID this j) = Some child -> childIndex child = j.

(** [isValidPath(path)] *)
Definition isValidPath (path : string) : bool := is_ok (parsePath path (Some HARDENED)).

End Derive.

(** *** [HDPublicKey.prototype.fromRaw] *)

Section FromRaw.
Context `{Encoding} `{NodeBuffer}.
Local Open Scope m_scope.

(** A reader method called from a method of the key. *)
Definition on_reader {A} (m : M Reader.BufferReader A)
  : M (HDPublicKey * Reader.BufferReader) A :=
  fun s => let '(r, br) := m s.2 in (r, (s.1, br)).

Definition update_key (f : HDPublicKey -> HDPublicKey)
  : M (HDPublicKey * Reader.BufferReader) unit :=
  fun s => (Ok tt, (f s.1, s.2)).

(** The loop over [networks.types] that looks the version up. *)
Definition find_network (version : Z) : option Network :=
  find (fun n => bool_decide (version = xpubkey n)) types.

Definition fromRaw_body : M (HDPublicKey * Reader.BufferReader) unit :=
  let! version := on_reader Reader.readU32BE in
  let! d := on_reader Reader.readU8 in
  do! update_key (fun k =>
    {| network := network k; depth := d; parentFingerPrint := parentFingerPrint k;
       childIndex := childIndex k; chainCode := chainCode k; publicKey := publicKey k;
       fingerPrint := fingerPrint k; _xpubkey := _xpubkey k |}) in
  let! fp := on_reader (Reader.readBytes 4 JUndefined) in
  do! update_key (fun k =>
    {| network := network k; depth := depth k; parentFingerPrint := fp;
       childIndex := childIndex k; chainCode := chainCode k; publicKey := publicKey k;
       fingerPrint := fingerPrint k; _xpubkey := _xpubkey k |}) in
  let! ci := on_reader Reader.readU32BE in
  do! update_key (fun k =>
    {| network := network k; depth := depth k; parentFingerPrint := parentFingerPrint k;
       childIndex := ci; chainCode := chainCode k; publicKey := publicKey k;
       fingerPrint := fingerPrint k; _xpubkey := _xpubkey k |}) in
  let! cc := on_reader (Reader.readBytes 32 JUndefined) in
  do! update_key (fun k =>
    {| network := network k; depth := depth k; parentFingerPrint := parentFingerPrint k;
       childIndex := childIndex k; chainCode := cc; publicKey := publicKey k;
       fingerPrint := fingerPrint k; _xpubkey := _xpubkey k |}) in
  let! pk := on_reader (Reader.readBytes 33 JUndefined) in
  do! update_key (fun k =>
    {| network := network k; depth := depth k; parentFingerPrint := parentFingerPrint k;
       childIndex := childIndex k; chainCode := chainCode k; publicKey := pk;
       fingerPrint := fingerPrint k; _xpubkey := _xpubkey k |}) in
  do! on_reader Reader.verifyChecksum in
  match find_network version with
  | None => throw "Network not found."
  | Some net =>
      update_key (fun k =>
        {| network := net; depth := depth k; parentFingerPrint := parentFingerPrint k;
           childIndex := childIndex k; chainCode := chainCode k; publicKey := publicKey k;
           fingerPrint := fingerPrint k; _xpubkey := _xpubkey k |})
  end.

(** [this.fromRaw(raw)]: the reader is created on [raw], and no
    [start()] is called on it. *)
Definition fromRaw (this : HDPublicKey) (raw : Buffer) : res unit * HDPublicKey :=
  let '(r, (this', _)) := fromRaw_body (this, Reader.new raw false) in (r, this').

End FromRaw.

(** *** [HDPublicKey.prototype.toRaw] and the tests of [common.js] *)

Section ToRaw.
Context `{Encoding} `{NodeBuffer}.

(** The writes of [toRaw(network)], with [Network.get] taken to return
    the network it is given. *)
Definition toRaw_calls (this : HDPublicKey) (net : Network) : list Writer.call :=
  [ Writer.CwriteU32BE (xpubkey net);
    Writer.CwriteU8 (depth this);
    Writer.CwriteBytes (parentFingerPrint this);
    Writer.CwriteU32BE (childIndex this);
    Writer.CwriteBytes (chainCode this);
    Writer.CwriteBytes (publicKey this);
    Writer.CwriteChecksum ].

(** [toRaw(network)], without a writer to append to: the rendered
    buffer.  [network] is [None] when the argument is absent. *)
Definition toRaw (this : HDPublicKey) (net : option Network) : res Buffer :=
  Wire.rendered (toRaw_calls this (default (network this) net)).

(** [HDPublicKey.isRaw(data)] on a buffer: the type of the first network
    with the version as its prefix, or nothing ([false]). *)
Definition isRaw (data : Buffer) : option string :=
  net_type <$> find_network (readUInt32BE data 0).

End ToRaw.

(** [common.isMaster(key)] *)
Definition isMaster (key : HDPublicKey) : bool :=
  (depth key =? 0) && (childIndex key =? 0) && (readUInt32LE (parentFingerPrint key) 0 =? 0).

(** [common.isAccount44(key, accountIndex)] *)
Definition isAccount44 (key : HDPublicKey) (accountIndex : option Z) : bool :=
  match accountIndex with
  | Some a =>
      if negb (childIndex key =? HARDENED + a) then false
      else (depth key =? 3) && (HARDENED <=? childIndex key)
  | None => (depth key =? 3) && (HARDENED <=? childIndex key)
  end.

(** [common.isPurpose45(key)] *)
Definition isPurpose45 (key : HDPublicKey) : bool :=
  (depth key =? 1) && (childIndex key =? HARDENED + 45).

(** [deriveAccount44(accountIndex)] and [derivePurpose45()] *)
Definition deriveAccount44 (this : HDPublicKey) (accountIndex : option Z) : res HDPublicKey :=
  if isAccount44 this accountIndex then Ok this else Throw "Cannot derive account index.".

Definition derivePurpose45 (this : HDPublicKey) : res HDPublicKey :=
  if isPurpose45 this then Ok this else Throw "Cannot derive purpose 45.".

(** A key as [toRaw] can store it: the depth is a byte, the child
    index a 32-bit number, and the three buffers have 4, 32 and 33
    bytes. *)
Definition storable (key : HDPublicKey) : Prop :=
  0 <= depth key < 2 ^ 8
  /\ 0 <= childIndex key < 2 ^ 32
  /\ buf_length (parentFingerPrint key) = 4
  /\ buf_length (chainCode key) = 32
  /\ buf_length (publicKey key) = 33.

End HD.

(** ** Instances of the interfaces, for running the code on examples *)

Module Examples.

(** The compact-size integers of the Bitcoin wire format, as an instance
    of [Encoding]: one byte below [0xfd], else a marker byte and a
    little-endian value on 2, 4 or 8 bytes. *)
Definition readVarint (data : Buffer) (off : Z) : res (Z * Z) :=
  if negb ((0 <=? off) && (off <? buf_length data)) then Throw "AssertionError"
  else
    let b := byte_at data off in
    if b =? 0xff then
      if off + 9 <=? buf_length data
      then Ok (readUInt32LE data (off + 1) + readUInt32LE data (off + 5) * 2 ^ 32, 9)
      else Throw "AssertionError"
    else if b =? 0xfe then
      if off + 5 <=? buf_length data
      then Ok (readUInt32LE data (off + 1), 5)
      else Throw "AssertionError"
    else if b =? 0xfd then
      if off + 3 <=? buf_length data
      then Ok (byte_at data (off + 1) + byte_at data (off + 2) * 2 ^ 8, 3)
      else Throw "AssertionError"
    else Ok (b, 1).

Definition sizeVarint (v : Z) : Z :=
  if v <? 0xfd then 1 else if v <=? 0xffff then 3 else if v <=? 0xffffffff then 5 else 9.

Definition writeVarint (v : Z) : Buffer :=
  if v <? 0xfd then le_bytes 1 v
  else if v <=? 0xffff then 0xfd :: le_bytes 2 v
  else if v <=? 0xffffffff then 0xfe :: le_bytes 4 v
  else 0xff :: le_bytes 8 v.

#[export] Instance compact_size : Encoding := {|
  enc_readVarint := readVarint;
  enc_sizeVarint := sizeVarint;
  enc_writeVarint := writeVarint;
  enc_sizeVarint2 := sizeVarint;
  enc_writeVarint2 := writeVarint;
  enc_writeU64 := le_bytes 8;
  enc_writeU64BE := be_bytes 8;
  enc_write64 := le_bytes 8;
  enc_write64BE := be_bytes 8
|}.

(** One-byte characters as an instance of [NodeBuffer]: every encoding
    name is read as ['ascii'].  Floating point values are not
    interpreted; a write stores zero bytes of the right width. *)
#[export] Instance ascii_codec : NodeBuffer := {|
  jsfloat := unit;
  buf_toString := fun _ b => ascii_toString b;
  buf_byteLength := fun s _ => Z.of_nat (String.length s);
  buf_encode := fun s _ => ascii_encode s;
  float_bytesLE := fun _ => buf_zero 4;
  float_bytesBE := fun _ => buf_zero 4;
  double_bytesLE := fun _ => buf_zero 8;
  double_bytesBE := fun _ => buf_zero 8
|}.

(** The 64-bit integers and the varints of the second kind, as an
    instance of [Reader.WideReads] that stands in for [encoding.js]:
    eight bytes hold an integer, which is a number when it is below
    [2^53] or when [force53] cuts it down, and a varint of the second
    kind holds seven bits in a byte, with the high bit set on every byte
    but the last.  Floating point values are not interpreted. *)
Definition readU64_le (data : Buffer) (off : Z) : Z :=
  readUInt32LE data off + readUInt32LE data (off + 4) * 2 ^ 32.

Definition readU64_be (data : Buffer) (off : Z) : Z :=
  readUInt32BE data off * 2 ^ 32 + readUInt32BE data (off + 4).

Definition signed64 (v : Z) : Z := if v <? 2 ^ 63 then v else v - 2 ^ 64.

Definition as_number (force53 : jsval) (v : Z) : res Z :=
  if truthy force53 then Ok (Z.rem v (2 ^ 53))
  else if Z.abs v <? 2 ^ 53 then Ok v
  else Throw "Number exceeds 2^53-1".

Definition skipVarint (data : Buffer) (off : Z) : res Z :=
  if negb ((0 <=? off) && (off <? buf_length data)) then Throw "AssertionError"
  else
    let b := byte_at data off in
    Ok (if b =? 0xff then 9 else if b =? 0xfe then 5 else if b =? 0xfd then 3 else 1).

Fixpoint readVarint2_from (bytes : list Z) (num size : Z) : res (Z * Z) :=
  match bytes with
  | [] => Throw "AssertionError"
  | ch :: rest =>
      let num := num * 128 + Z.land ch 0x7f in
      if Z.land ch 0x80 =? 0 then Ok (num, size + 1)
      else readVarint2_from rest (num + 1) (size + 1)
  end.

Definition readVarint2 (data : Buffer) (off : Z) : res (Z * Z) :=
  if off <? 0 then Throw "AssertionError"
  else readVarint2_from (drop (Z.to_nat off) data) 0 0.

#[export] Instance compact_wide : @Reader.WideReads ascii_codec := {|
  Reader.enc_readU64 := fun data off => Ok (readU64_le data off);
  Reader.enc_readU64BE := fun data off => Ok (readU64_be data off);
  Reader.enc_read64 := fun data off => Ok (signed64 (readU64_le data off));
  Reader.enc_read64BE := fun data off => Ok (signed64 (readU64_be data off));
  Reader.enc_readU64N := fun data off force53 => as_number force53 (readU64_le data off);
  Reader.enc_readU64NBE := fun data off force53 => as_number force53 (readU64_be data off);
  Reader.enc_read64N := fun data off force53 => as_number force53 (signed64 (readU64_le data off));
  Reader.enc_read64NBE := fun data off force53 => as_number force53 (signed64 (readU64_be data off));
  Reader.enc_readVarint_big := fun data off _ => readVarint data off;
  Reader.enc_skipVarint := skipVarint;
  Reader.enc_readVarint2 := fun data off _ => readVarint2 data off;
  Reader.buf_readFloatLE := fun _ _ => tt;
  Reader.buf_readFloatBE := fun _ _ => tt;
  Reader.buf_readDoubleLE := fun _ _ => tt;
  Reader.buf_readDoubleBE := fun _ _ => tt
|}.

(** A stand-in for the elliptic curve, so that derivation can be run:
    the keyed hash is built from SHA-256, and a tweak whose first byte
    is 128 or more counts as producing an invalid point. *)
#[export] Instance hash_curve : HDCrypto := {|
  hmac_sha512 := fun data key => sha256 (key ++ data) ++ sha256 (data ++ key);
  hash160 := fun data => take 20 (sha256 data);
  publicKeyTweakAdd := fun key tweak =>
    if 128 <=? byte_at tweak 0 then Throw "Invalid point."
    else Ok (2 :: sha256 (key ++ tweak))
|}.

(** A public key to derive from. *)
Definition key0 : HD.HDPublicKey :=
  {| HD.network := HD.main; HD.depth := 0; HD.parentFingerPrint := buf_zero 4;
     HD.childIndex := 0; HD.chainCode := buf_zero 32; HD.publicKey := 2 :: buf_zero 32;
     HD.fingerPrint := None; HD._xpubkey := None |}.

(** The key [key0] on another network. *)
Definition key_on (net : HD.Network) : HD.HDPublicKey :=
  {| HD.network := net; HD.depth := 0; HD.parentFingerPrint := buf_zero 4;
     HD.childIndex := 0; HD.chainCode := buf_zero 32; HD.publicKey := 2 :: buf_zero 32;
     HD.fingerPrint := None; HD._xpubkey := None |}.

Definition cache0 : LRU.t HD.HDPublicKey := LRU.new 500.

(** Five calls on a writer. *)
Definition example_calls : list Writer.call :=
  [ Writer.CwriteVarString (Writer.AStr "tx") "ascii"; Writer.CwriteU32 3;
    Writer.CwriteBytes [1; 2; 3]; Writer.Cseek 2; Writer.CwriteChecksum ].

(** The serialization of [key0] for the main network: 78 bytes and
    their checksum. *)
Definition raw_body : Buffer :=
  be_bytes 4 0x0488b21e ++ [0] ++ buf_zero 4 ++ be_bytes 4 0 ++ buf_zero 32 ++ (2 :: buf_zero 32).

Definition raw_key0 : Buffer := raw_body ++ take 4 (hash256 raw_body).

End Examples.

(** ** The encrypted transport ([lib/net/bip151.js]) *)

(** [lib/crypto/chachapoly.js], which is not among the sources: the
    ChaCha20 stream and the ChaCha20-Poly1305 AEAD, as objects with a
    state.  [init(key, iv)] with a [null] key or nonce keeps the one in
    place.  The operations that the code applies in place return the bytes
    that the buffer then holds. *)
Class ChaChaPoly : Type := {
  ChaCha20 : Type;
  AEAD : Type;
  chacha_new : ChaCha20;
  aead_new : AEAD;
  chacha_init : option Buffer -> option Buffer -> ChaCha20 -> ChaCha20;
  chacha_encrypt : Buffer -> ChaCha20 -> Buffer * ChaCha20;
  aead_init : option Buffer -> option Buffer -> AEAD -> AEAD;
  (** [aead.encrypt(data)]: updates cipher and MAC *)
  aead_encrypt : Buffer -> AEAD -> Buffer * AEAD;
  (** [aead.chacha20.encrypt(data)]: updates the cipher only *)
  aead_stream : Buffer -> AEAD -> Buffer * AEAD;
  (** [aead.auth(data)]: updates the MAC only *)
  aead_auth : Buffer -> AEAD -> Buffer * AEAD;
  (** [aead.finish()]: the tag *)
  aead_finish : AEAD -> Buffer * AEAD;
  (** [Poly1305.verify(mac1, mac2)] *)
  poly1305_verify : Buffer -> Buffer -> bool
}.

(** The key agreement and derivation of [lib/crypto/ec.js] and
    [lib/crypto/crypto.js], and the largest message size
    [constants.MAX_MESSAGE] of [lib/protocol/constants.js]; none of them
    is among the sources. *)
Class SessionCrypto : Type := {
  ecdh : Buffer -> Buffer -> Buffer;
  publicKeyCreate : Buffer -> Buffer;
  (** [crypto.hkdfExtract(ikm, salt, 'sha256')] *)
  hkdfExtract : Buffer -> Buffer -> Buffer;
  (** [crypto.hkdfExpand(prk, info, len, 'sha256')] *)
  hkdfExpand : Buffer -> Buffer -> Z -> Buffer;
  MAX_MESSAGE : Z
}.

Class SessionCryptoLaws `{SessionCrypto} : Prop := {
  hkdfExpand_length : forall prk info len, 0 <= len -> buf_length (hkdfExpand prk info len) = len
}.

(** What two peers rely on when they derive their keys: the secret that
    one computes from the public key of the other is the secret that
    the other computes, and no public key is the all-zero key that
    announces a rekey. *)
Class KeyAgreement `{SessionCrypto} : Prop := {
  ecdh_agrees : forall a b, ecdh (publicKeyCreate a) b = ecdh (publicKeyCreate b) a;
  publicKey_not_zero : forall a, publicKeyCreate a <> HD.ZERO_KEY
}.

(** What the receiver of a packet relies on.  The stream cipher keeps
    the length and, applied again at the same position of the key
    stream, gives the plain text back; the MAC of [encrypt] is taken
    over the cipher text, as is the one of [auth]; the tag has 16 bytes
    and verifies against itself; and [init] with a new nonce starts both
    ciphers over, whatever they have processed. *)
Class ChaChaPolyLaws `{ChaChaPoly} : Prop := {
  chacha_encrypt_length : forall d c, buf_length (chacha_encrypt d c).1 = buf_length d;
  chacha_decrypts : forall d c, (chacha_encrypt (chacha_encrypt d c).1 c).1 = d;
  aead_encrypt_length : forall d a, buf_length (aead_encrypt d a).1 = buf_length d;
  aead_finish_length : forall a, buf_length (aead_finish a).1 = 16;
  aead_auth_tag : forall d a,
    (aead_finish (aead_auth (aead_encrypt d a).1 a).2).1 = (aead_finish (aead_encrypt d a).2).1;
  poly1305_verify_same : forall t, poly1305_verify t t = true;
  aead_decrypts : forall d a,
    (aead_stream (aead_encrypt d a).1 (aead_finish (aead_auth (aead_encrypt d a).1 a).2).2).1
    = d;
  chacha_init_encrypt : forall v d c,
    chacha_init None (Some v) (chacha_encrypt d c).2 = chacha_init None (Some v) c;
  aead_init_encrypt : forall v d a,
    aead_init None (Some v) (aead_encrypt d a).2 = aead_init None (Some v) a;
  aead_init_stream : forall v d a,
    aead_init None (Some v) (aead_stream d a).2 = aead_init None (Some v) a;
  aead_init_auth : forall v d a,
    aead_init None (Some v) (aead_auth d a).2 = aead_init None (Some v) a;
  aead_init_finish : forall v a,
    aead_init None (Some v) (aead_finish a).2 = aead_init None (Some v) a
}.

Module BIP151.

Definition HKDF_SALT : Buffer := ascii_encode "bitcoinecdh".
Definition INFO_KEY1 : Buffer := ascii_encode "BitcoinK1".
Definition INFO_KEY2 : Buffer := ascii_encode "BitcoinK2".
Definition INFO_SID : Buffer := ascii_encode "BitcoinSessionID".
Definition HIGH_WATERMARK : Z := 1024 * js_shl 1 20.

(** What a session emits. *)
Inductive event : Type :=
  | EvRekey
  | EvHandshake
  (** ['packet'], with the command and the body *)
  | EvPacket (cmd : string) (body : Buffer)
  (** ['error'], "Bad packet size" with the size *)
  | EvBadSize (size : Z)
  (** ['error'], "Bad tag" with the tag *)
  | EvBadTag (tag : Buffer)
  (** ['error'], with an error caught from the reader *)
  | EvError (msg : string).

Definition is_packet (e : event) : bool :=
  match e with EvPacket _ _ => true | _ => false end.

Section Session.
Context `{ChaChaPoly} `{SessionCrypto} `{Encoding} `{NodeBuffer}.
Local Open Scope m_scope.

(** *** [BIP151Stream] *)

Record BIP151Stream : Type := {
  cipher : Z;
  privateKey : Buffer;
  publicKey : option Buffer;
  secret : option Buffer;
  prk : option Buffer;
  k1 : option Buffer;
  k2 : option Buffer;
  sid : option Buffer;
  chacha : ChaCha20;
  aead : AEAD;
  tag : option Buffer;
  seq : Z;
  iv : Buffer;
  processed : Z;
  lastRekey : Z
}.

(** [new BIP151Stream(cipher)], with the private key that
    [ec.generatePrivateKey()] returned. *)
Definition new_stream (key : Buffer) : BIP151Stream :=
  {| cipher := 0; privateKey := key; publicKey := None; secret := None; prk := None;
     k1 := None; k2 := None; sid := None; chacha := chacha_new; aead := aead_new;
     tag := None; seq := 0; iv := buf_zero 8; processed := 0; lastRekey := 0 |}.

Definition set_keys (a b : option Buffer) (s : BIP151Stream) : BIP151Stream :=
  {| cipher := cipher s; privateKey := privateKey s; publicKey := publicKey s;
     secret := secret s; prk := prk s; k1 := a; k2 := b; sid := sid s;
     chacha := chacha s; aead := aead s; tag := tag s; seq := seq s; iv := iv s;
     processed := processed s; lastRekey := lastRekey s |}.

Definition set_ciphers (c : ChaCha20) (a : AEAD) (s : BIP151Stream) : BIP151Stream :=
  {| cipher := cipher s; privateKey := privateKey s; publicKey := publicKey s;
     secret := secret s; prk := prk s; k1 := k1 s; k2 := k2 s; sid := sid s;
     chacha := c; aead := a; tag := tag s; seq := seq s; iv := iv s;
     processed := processed s; lastRekey := lastRekey s |}.

Definition set_tag (t : option Buffer) (s : BIP151Stream) : BIP151Stream :=
  {| cipher := cipher s; privateKey := privateKey s; publicKey := publicKey s;
     secret := secret s; prk := prk s; k1 := k1 s; k2 := k2 s; sid := sid s;
     chacha := chacha s; aead := aead s; tag := t; seq := seq s; iv := iv s;
     processed := processed s; lastRekey := lastRekey s |}.

Definition set_seq (n : Z) (v : Buffer) (s : BIP151Stream) : BIP151Stream :=
  {| cipher := cipher s; privateKey := privateKey s; publicKey := publicKey s;
     secret := secret s; prk := prk s; k1 := k1 s; k2 := k2 s; sid := sid s;
     chacha := chacha s; aead := aead s; tag := tag s; seq := n; iv := v;
     processed := processed s; lastRekey := lastRekey s |}.

Definition set_clock (p l : Z) (s : BIP151Stream) : BIP151Stream :=
  {| cipher := cipher s; privateKey := privateKey s; publicKey := publicKey s;
     secret := secret s; prk := prk s; k1 := k1 s; k2 := k2 s; sid := sid s;
     chacha := chacha s; aead := aead s; tag := tag s; seq := seq s; iv := iv s;
     processed := p; lastRekey := l |}.

(** [update()]: [this.iv.writeUInt32LE(this.seq, 0, true)]. *)
Definition update_iv (n : Z) (v : Buffer) : Buffer := Writer.overlay v 0 (le_bytes 4 n).

Definition update : M BIP151Stream Buffer :=
  let! s := get in
  let v := update_iv (seq s) (iv s) in
  do! put (set_seq (seq s) v s) in
  ret v.

(** [init(publicKey)], at the time [now] that [util.now()] returns. *)
Definition init (peer : Buffer) (now : Z) : M BIP151Stream unit :=
  let! s := get in
  let sec := ecdh peer (privateKey s) in
  let ikm := sec ++ le_bytes 1 (cipher s) in
  let p := hkdfExtract ikm HKDF_SALT in
  let a := hkdfExpand p INFO_KEY1 32 in
  let b := hkdfExpand p INFO_KEY2 32 in
  let i := hkdfExpand p INFO_SID 32 in
  let v := update_iv 0 (iv s) in
  put {| cipher := cipher s; privateKey := privateKey s; publicKey := Some peer;
         secret := Some sec; prk := Some p; k1 := Some a; k2 := Some b; sid := Some i;
         chacha := chacha_init (Some a) (Some v) (chacha s);
         aead := aead_init (Some b) (Some v) (aead s);
         tag := tag s; seq := 0; iv := v; processed := processed s; lastRekey := now |}.

(** [shouldRekey(data)], at the time [now]. *)
Definition shouldRekey (data : Buffer) (now : Z) : M BIP151Stream bool :=
  let! s := get in
  let p := processed s + buf_length data in
  if (lastRekey s + 10 <=? now) || (HIGH_WATERMARK <=? p)
  then do! put (set_clock 0 now s) in ret true
  else do! put (set_clock p (lastRekey s) s) in ret false.

(** [src.copy(seed, off)] into the 64 bytes of the seed. *)
Definition copy_into (seed : Buffer) (off : Z) (src : Buffer) : Buffer :=
  Writer.overlay seed off src.

(** [rekey(k1, k2)].  The seed is one buffer of 64 bytes: the session
    ID is copied to its first half once, and each key in turn to its
    second half. *)
Definition rekey (new_k1 new_k2 : option Buffer) : M BIP151Stream unit :=
  let! s := get in
  do! assert (bool_decide (is_Some (prk s))) "Cannot rekey before initialization." in
  do! match new_k1 with
      | None =>
          match sid s, k1 s, k2 s with
          | Some i, Some a, Some b =>
              let seed := buf_zero 64 in
              let seed := copy_into seed 0 i in
              let seed := copy_into seed 32 a in
              let a' := hash256 seed in
              let seed := copy_into seed 32 b in
              let b' := hash256 seed in
              put (set_keys (Some a') (Some b') s)
          | _, _, _ => throw "TypeError"
          end
      | Some a => put (set_keys (Some a) new_k2 s)
      end in
  let! s := get in
  put (set_ciphers (chacha_init (k1 s) (Some (iv s)) (chacha s))
                   (aead_init (k2 s) (Some (iv s)) (aead s)) s).

(** [++this.seq === 0x100000000] *)
Definition next_seq (n : Z) : Z := if n + 1 =? 0x100000000 then 0 else n + 1.

Definition sequence : M BIP151Stream unit :=
  let! s := get in
  let n := next_seq (seq s) in
  let v := update_iv n (iv s) in
  put (set_ciphers (chacha_init None (Some v) (chacha s))
                   (aead_init None (Some v) (aead s)) (set_seq n v s)).

Definition getPublicKey : M BIP151Stream Buffer :=
  let! s := get in ret (publicKeyCreate (privateKey s)).

Definition encryptSize (size : Z) : M BIP151Stream Buffer :=
  let! s := get in
  let '(out, c) := chacha_encrypt (le_bytes 4 size) (chacha s) in
  do! put (set_ciphers c (aead s) s) in
  ret out.

Definition decryptSize (data : Buffer) : M BIP151Stream Z :=
  let! s := get in
  let '(out, c) := chacha_encrypt data (chacha s) in
  do! put (set_ciphers c (aead s) s) in
  ret (readUInt32LE out 0).

Definition encrypt (data : Buffer) : M BIP151Stream Buffer :=
  let! s := get in
  let '(out, a) := aead_encrypt data (aead s) in
  do! put (set_ciphers (chacha s) a s) in
  ret out.

Definition decrypt (data : Buffer) : M BIP151Stream Buffer :=
  let! s := get in
  let '(out, a) := aead_stream data (aead s) in
  do! put (set_ciphers (chacha s) a s) in
  ret out.

Definition auth (data : Buffer) : M BIP151Stream Buffer :=
  let! s := get in
  let '(out, a) := aead_auth data (aead s) in
  do! put (set_ciphers (chacha s) a s) in
  ret out.

Definition finish : M BIP151Stream Buffer :=
  let! s := get in
  let '(t, a) := aead_finish (aead s) in
  do! put (set_tag (Some t) (set_ciphers (chacha s) a s)) in
  ret t.

Definition verify (t : Buffer) : M BIP151Stream bool :=
  let! s := get in
  match tag s with
  | Some mac => ret (poly1305_verify mac t)
  | None => throw "TypeError"
  end.

(** *** [BIP151] *)

(** The session: the two streams, the handshake flags, the queue of
    chunks not yet framed with the count of their bytes, and the
    events emitted so far. *)
Record Session : Type := {
  input : BIP151Stream;
  output : BIP151Stream;
  initReceived : bool;
  ackReceived : bool;
  initSent : bool;
  ackSent : bool;
  handshake : bool;
  pending : list Buffer;
  total : Z;
  waiting : Z;
  hasSize : bool;
  emitted : list event
}.

Definition new (key_in key_out : Buffer) : Session :=
  {| input := new_stream key_in; output := new_stream key_out;
     initReceived := false; ackReceived := false; initSent := false; ackSent := false;
     handshake := false; pending := []; total := 0; waiting := 4; hasSize := false;
     emitted := [] |}.

Definition set_input (i : BIP151Stream) (s : Session) : Session :=
  {| input := i; output := output s; initReceived := initReceived s;
     ackReceived := ackReceived s; initSent := initSent s; ackSent := ackSent s;
     handshake := handshake s; pending := pending s; total := total s;
     waiting := waiting s; hasSize := hasSize s; emitted := emitted s |}.

Definition set_output (o : BIP151Stream) (s : Session) : Session :=
  {| input := input s; output := o; initReceived := initReceived s;
     ackReceived := ackReceived s; initSent := initSent s; ackSent := ackSent s;
     handshake := handshake s; pending := pending s; total := total s;
     waiting := waiting s; hasSize := hasSize s; emitted := emitted s |}.

Definition set_queue (p : list Buffer) (t : Z) (s : Session) : Session :=
  {| input := input s; output := output s; initReceived := initReceived s;
     ackReceived := ackReceived s; initSent := initSent s; ackSent := ackSent s;
     handshake := handshake s; pending := p; total := t;
     waiting := waiting s; hasSize := hasSize s; emitted := emitted s |}.

Definition set_frame (h : bool) (w : Z) (s : Session) : Session :=
  {| input := input s; output := output s; initReceived := initReceived s;
     ackReceived := ackReceived s; initSent := initSent s; ackSent := ackSent s;
     handshake := handshake s; pending := pending s; total := total s;
     waiting := w; hasSize := h; emitted := emitted s |}.

Definition set_emitted (l : list event) (s : Session) : Session :=
  {| input := input s; output := output s; initReceived := initReceived s;
     ackReceived := ackReceived s; initSent := initSent s; ackSent := ackSent s;
     handshake := handshake s; pending := pending s; total := total s;
     waiting := waiting s; hasSize := hasSize s; emitted := l |}.

(** [this.emit(...)]: the listeners are taken to return. *)
Definition emit (e : event) : M Session unit :=
  fun s => (Ok tt, set_emitted (emitted s ++ [e]) s).

(** A method of the input or of the output stream. *)
Definition on_input {A} (m : M BIP151Stream A) : M Session A :=
  fun s => let '(r, i) := m (input s) in (r, set_input i s).

Definition on_output {A} (m : M BIP151Stream A) : M Session A :=
  fun s => let '(r, o) := m (output s) in (r, set_output o s).

Definition isReady (s : Session) : bool :=
  initSent s && ackReceived s && initReceived s && ackSent s.

(** [maybeRekey(data)], for a session without BIP150. *)
Definition maybeRekey (data : Buffer) (now : Z) : M Session unit :=
  let! should := on_output (shouldRekey data now) in
  if negb should then ret tt
  else do! emit EvRekey in on_output (rekey None None).

(** [packet(cmd, body)], at the time [now]. *)
Definition packet (cmd : string) (body : Buffer) (now : Z) : M Session Buffer :=
  let framed :=
    bind (Writer.exec_all
            [ Writer.CwriteVarString (Writer.AStr cmd) "ascii";
              Writer.CwriteU32 (buf_length body);
              Writer.CwriteBytes body ])
         (fun _ => Writer.render false) Writer.new in
  match framed with
  | (Throw e, _) => throw e
  | (Ok payload, _) =>
      let packet := buf_zero (4 + buf_length payload + 16) in
      do! maybeRekey packet now in
      let! size := on_output (encryptSize (buf_length payload)) in
      let packet := Writer.overlay packet 0 size in
      let! body := on_output (encrypt payload) in
      let packet := Writer.overlay packet 4 body in
      let! t := on_output finish in
      let packet := Writer.overlay packet (4 + buf_length payload) t in
      do! on_output sequence in
      ret packet
  end.

(** The loop of [read] that gathers a chunk from several pending
    buffers: [need] bytes are still to be copied behind [acc]. *)
Fixpoint read_loop (pend : list Buffer) (acc : Buffer) (need : Z)
  : res (Buffer * list Buffer) :=
  if need <=? 0 then Ok (acc, pend)
  else
    match pend with
    | [] => Throw "TypeError"
    | p :: rest =>
        let len := Z.min (buf_length p) need in
        if len =? buf_length p then read_loop rest (acc ++ p) (need - len)
        else Ok (acc ++ buf_slice p 0 len, buf_slice p len (buf_length p) :: rest)
    end.

(** [read(size)] *)
Definition read (size : Z) : M Session Buffer :=
  let! s := get in
  do! assert (size <=? total s) "Reading too much." in
  if size =? 0 then ret []
  else
    match pending s with
    | [] => throw "TypeError"
    | p :: rest =>
        if size <? buf_length p then
          let chunk := buf_slice p 0 size in
          do! put (set_queue (buf_slice p size (buf_length p) :: rest)
                             (total s - buf_length chunk) s) in
          ret chunk
        else if buf_length p =? size then
          do! put (set_queue rest (total s - buf_length p) s) in
          ret p
        else
          match read_loop (pending s) [] size with
          | Throw e => throw e
          | Ok (chunk, pend) =>
              do! assert (buf_length chunk =? size) "AssertionError" in
              do! put (set_queue pend (total s - buf_length chunk) s) in
              ret chunk
          end
    end.

(** The loop of [parse] over the messages of a decrypted payload:
    the events that it emits.  Every turn reads at least the four
    bytes of a length, so as many turns as the payload has bytes are
    allowed for. *)
Fixpoint parse_messages (fuel : nat) (br : Reader.BufferReader) : list event :=
  match fuel with
  | O => []
  | S fuel' =>
      match Reader.left br with
      | (Throw e, _) => [EvError e]
      | (Ok n, _) =>
          if n =? 0 then []
          else
            match bind (Reader.readVarString "ascii" JUndefined)
                    (fun cmd => bind Reader.readU32
                       (fun len => bind (Reader.readBytes len JUndefined)
                          (fun body => ret (cmd, body)))) br with
            | (Throw e, _) => [EvError e]
            | (Ok (cmd, body), br') => EvPacket cmd body :: parse_messages fuel' br'
            end
      end
  end.

Fixpoint emit_all (l : list event) : M Session unit :=
  match l with
  | [] => ret tt
  | e :: rest => do! emit e in emit_all rest
  end.

(** [parse(data)] *)
Definition parse (data : Buffer) : M Session unit :=
  let! s := get in
  if negb (hasSize s) then
    let! size := on_input (decryptSize data) in
    if (size <? 6) || (MAX_MESSAGE * 3 <? size) then
      do! (fun s => (Ok tt, set_frame (hasSize s) 4 s)) in
      emit (EvBadSize size)
    else
      fun s => (Ok tt, set_frame true (size + 16) s)
  else
    let payload := buf_slice data 0 (waiting s - 16) in
    let t := buf_slice data (waiting s - 16) (waiting s) in
    do! (fun s => (Ok tt, set_frame false 4 s)) in
    do! on_input (auth payload) in
    do! on_input finish in
    let! good := on_input (verify t) in
    if negb good then
      do! on_input sequence in
      emit (EvBadTag t)
    else
      let! payload := on_input (decrypt payload) in
      do! on_input sequence in
      emit_all (parse_messages (S (length payload)) (Reader.new payload false)).

(** The loop of [feed]: [while (this.total >= this.waiting)].  A turn
    takes [waiting] bytes off the queue, and [waiting] is positive in
    every session, so one turn more than there are bytes is enough;
    the loop reports if it is cut short. *)
Fixpoint feed_loop (fuel : nat) : M Session unit :=
  fun s =>
    if waiting s <=? total s then
      match fuel with
      | O => (Throw "feed: loop cut short", s)
      | S fuel' =>
          bind (read (waiting s)) (fun chunk => bind (parse chunk) (fun _ => feed_loop fuel')) s
      end
    else (Ok tt, s).

(** [feed(data)] *)
Definition feed (data : Buffer) : M Session unit :=
  let! s := get in
  do! put (set_queue (pending s ++ [data]) (total s + buf_length data) s) in
  let! s := get in
  feed_loop (S (Z.to_nat (total s))).

(** Feeding chunks one call at a time. *)
Fixpoint feed_all (chunks : list Buffer) : M Session unit :=
  match chunks with
  | [] => ret tt
  | c :: rest => do! feed c in feed_all rest
  end.

(** *** The handshake *)

Definition set_flags (ir ar is_ as_ hs : bool) (s : Session) : Session :=
  {| input := input s; output := output s; initReceived := ir;
     ackReceived := ar; initSent := is_; ackSent := as_;
     handshake := hs; pending := pending s; total := total s;
     waiting := waiting s; hasSize := hasSize s; emitted := emitted s |}.

(** [if (this.isReady()) { this.handshake = true; this.emit('handshake'); }] *)
Definition check_ready : M Session unit :=
  let! s := get in
  if isReady s then
    do! put (set_flags (initReceived s) (ackReceived s) (initSent s) (ackSent s) true s) in
    emit EvHandshake
  else ret tt.

(** [toEncinit()]: the public key and the cipher number that the
    [EncinitPacket] is made of. *)
Definition toEncinit : M Session (Buffer * Z) :=
  let! s := get in
  do! assert (negb (initSent s)) "Cannot init twice." in
  do! put (set_flags (initReceived s) (ackReceived s) true (ackSent s) (handshake s) s) in
  let! key := on_input getPublicKey in
  let! s := get in
  ret (key, cipher (input s)).

(** [toEncack()]: the public key of the [EncackPacket]. *)
Definition toEncack : M Session Buffer :=
  let! s := get in
  do! assert (bool_decide (is_Some (prk (output s)))) "Cannot ack before init." in
  do! assert (negb (ackSent s)) "Cannot ack twice." in
  do! put (set_flags (initReceived s) (ackReceived s) (initSent s) true (handshake s) s) in
  do! check_ready in
  on_output getPublicKey.

(** [toRekey()]: the key of the [EncackPacket], all zero. *)
Definition toRekey : M Session Buffer :=
  let! s := get in
  do! assert (handshake s) "Cannot rekey before handshake." in
  ret HD.ZERO_KEY.

(** [encinit(publicKey, cipher)], at the time [now]. *)
Definition encinit (peer : Buffer) (c : Z) (now : Z) : M Session unit :=
  let! s := get in
  do! assert (c =? cipher (output s)) "Cipher mismatch." in
  do! assert (negb (initReceived s)) "Already initialized." in
  do! put (set_flags true (ackReceived s) (initSent s) (ackSent s) (handshake s) s) in
  on_output (init peer now).

(** [encack(publicKey)], at the time [now], for a session without
    BIP150. *)
Definition encack (peer : Buffer) (now : Z) : M Session unit :=
  let! s := get in
  do! assert (initSent s) "Unsolicited ACK." in
  if bool_decide (peer = HD.ZERO_KEY) then
    do! assert (handshake s) "No initialization before rekey." in
    on_input (rekey None None)
  else
    do! assert (negb (ackReceived s)) "Already ACKed." in
    do! put (set_flags (initReceived s) true (initSent s) (ackSent s) (handshake s) s) in
    do! on_input (init peer now) in
    check_ready.

(** A call of a method of the session. *)
Inductive scall : Type :=
  | StoEncinit | StoEncack | StoRekey
  | Sencinit (peer : Buffer) (c : Z) (now : Z)
  | Sencack (peer : Buffer) (now : Z)
  | SmaybeRekey (data : Buffer) (now : Z)
  | Spacket (cmd : string) (body : Buffer) (now : Z)
  | Sfeed (data : Buffer).

Definition sexec (c : scall) : M Session unit :=
  match c with
  | StoEncinit => do! toEncinit in ret tt
  | StoEncack => do! toEncack in ret tt
  | StoRekey => do! toRekey in ret tt
  | Sencinit peer c now => encinit peer c now
  | Sencack peer now => encack peer now
  | SmaybeRekey data now => maybeRekey data now
  | Spacket cmd body now => do! packet cmd body now in ret tt
  | Sfeed data => feed data
  end.

(** The calls one after the other; a call that throws is caught, and
    the next call finds the session as the failed one left it. *)
Fixpoint sexec_all (calls : list scall) (s : Session) : Session :=
  match calls with
  | [] => s
  | c :: rest => sexec_all rest (sexec c s).2
  end.

(** A stream that [init] has given its keys. *)
Definition keyed (s : BIP151Stream) : Prop :=
  is_Some (prk s) /\ is_Some (k1 s) /\ is_Some (k2 s) /\ is_Some (sid s).

Definition is_handshake (e : event) : bool :=
  match e with EvHandshake => true | _ => false end.

(** What the handshake keeps: the flag [handshake] is set when the four
    messages have passed, and ['handshake'] has been emitted once then
    and never before; an acknowledgement is sent or received only
    behind its [encinit]; and a stream has its keys when its [encinit]
    or [encack] has arrived, and no pseudo-random key before. *)
Definition handshake_ok (s : Session) : Prop :=
  handshake s = isReady s
  /\ (ackSent s = true -> initReceived s = true)
  /\ (ackReceived s = true -> initSent s = true)
  /\ (initReceived s = true -> keyed (output s))
  /\ (ackReceived s = true -> keyed (input s))
  /\ (is_Some (prk (output s)) -> initReceived s = true)
  /\ (is_Some (prk (input s)) -> ackReceived s = true)
  /\ length (filter (fun e => is_handshake e = true) (emitted s))
     = if handshake s then 1%nat else 0%nat.

(** What the calls that are no part of the handshake keep of a stream
    and of a session: the pseudo-random key and the presence of the
    keys, the flags, and the number of ['handshake'] events. *)
Definition same_init (t t' : BIP151Stream) : Prop :=
  prk t' = prk t /\ (keyed t -> keyed t').

Definition same_handshake (s s' : Session) : Prop :=
  initReceived s' = initReceived s
  /\ ackReceived s' = ackReceived s
  /\ initSent s' = initSent s
  /\ ackSent s' = ackSent s
  /\ handshake s' = handshake s
  /\ filter (fun e => is_handshake e = true) (emitted s')
     = filter (fun e => is_handshake e = true) (emitted s)
  /\ same_init (input s) (input s')
  /\ same_init (output s) (output s').

Definition keeps_init {A} (m : M BIP151Stream A) : Prop :=
  forall t, same_init t (m t).2.

Definition keeps_handshake {A} (m : M Session A) : Prop :=
  forall s, same_handshake s (m s).2.

(** *** What the claims speak of *)

(** An initialized stream: [init] has set the pseudo-random key and
    the three sub-keys of 32 bytes. *)
Definition initialized (s : BIP151Stream) (i a b : Buffer) : Prop :=
  is_Some (prk s) /\ sid s = Some i /\ k1 s = Some a /\ k2 s = Some b
  /\ buf_length i = 32 /\ buf_length a = 32 /\ buf_length b = 32.

(** The queue of a session holds as many bytes as it counts, and the
    number of bytes waited for is positive. *)
Definition queue_ok (s : Session) : Prop :=
  total s = buf_length (mjoin (pending s)) /\ 0 < waiting s.

(** The bytes that a session has buffered, and the session without
    them. *)
Definition buffered (s : Session) : Buffer := mjoin (pending s).

Definition core (s : Session) : Session := set_queue [] 0 s.

(** The first step of [feed]: the chunk is queued and counted. *)
Definition enqueue (d : Buffer) (s : Session) : Session :=
  set_queue (pending s ++ [d]) (total s + buf_length d) s.

(** Two sessions that differ at most in how their pending bytes are
    cut into buffers. *)
Definition same_stream (s1 s2 : Session) : Prop :=
  mjoin (pending s1) = mjoin (pending s2)
  /\ set_queue [] 0 s1 = set_queue [] 0 s2
  /\ total s1 = total s2.

(** *** Two sessions *)

(** The output stream of a sender and the input stream of a receiver
    that are in step: the same keys, ciphers in the same state, and the
    same sequence number and nonce. *)
Definition linked (o i : BIP151Stream) : Prop :=
  keyed o
  /\ k1 o = k1 i /\ k2 o = k2 i /\ sid o = sid i
  /\ chacha o = chacha i /\ aead o = aead i
  /\ seq o = seq i /\ iv o = iv i.

(** A session between two frames: nothing is buffered and the size of
    the next frame is waited for. *)
Definition at_frame_start (s : Session) : Prop :=
  buffered s = [] /\ total s = 0 /\ hasSize s = false /\ waiting s = 4.

(** A method of the first or of the second of two sessions. *)
Definition on_fst {A} (m : M Session A) : M (Session * Session) A :=
  fun p => let '(r, a) := m p.1 in (r, (a, p.2)).

Definition on_snd {A} (m : M Session A) : M (Session * Session) A :=
  fun p => let '(r, b) := m p.2 in (r, (p.1, b)).

(** The handshake as two peers carry it out, at the time [now]: the
    first sends its [encinit], the second takes it in and acknowledges
    it, and the first takes the acknowledgement in; then the same with
    the roles exchanged. *)
Definition exchange (now : Z) : M (Session * Session) unit :=
  let! '(key, c) := on_fst toEncinit in
  do! on_snd (encinit key c now) in
  let! ack := on_snd toEncack in
  do! on_fst (encack ack now) in
  let! '(key, c) := on_snd toEncinit in
  do! on_fst (encinit key c now) in
  let! ack := on_fst toEncack in
  on_snd (encack ack now).

End Session.

End BIP151.

(** ** Mnemonics ([lib/hd/mnemonic.js]) *)

Module Mnemonic.

(** [words.join(sep)], and [phrase.split(/[ \u3000]+/)]: the pieces
    between the runs of spaces and ideographic spaces, an empty piece
    before a run that opens the string and behind one that closes it.
    Strings are sequences of bytes here; the ideographic space is the
    three bytes of its UTF-8 form. *)
Definition IDEOGRAPHIC_SPACE : string := String "227" (String "128" (String "128" "")).

Definition join_words (sep : string) (words : list string) : string :=
  String.concat sep words.

Fixpoint split_from (s : string) (piece : string) (in_run : bool) : list string :=
  match s with
  | EmptyString => [piece]
  | String " " rest =>
      if in_run then split_from rest "" true else piece :: split_from rest "" true
  | String "227" (String "128" (String "128" rest)) =>
      if in_run then split_from rest "" true else piece :: split_from rest "" true
  | String c rest => split_from rest (piece +:+ String c "") false
  end.

Definition split_phrase (phrase : string) : list string := split_from phrase "" false.

(** [Mnemonic.languages] *)
Definition languages : list string :=
  [ "simplified chinese"; "traditional chinese"; "english"; "french"; "italian";
    "japanese" ]%string.

(** What this file takes from outside: the bounds [constants.hd.MIN_ENTROPY]
    and [constants.hd.MAX_ENTROPY] of [lib/protocol/constants.js], the
    word lists that [wordlist.get(language)] of [lib/hd/wordlist.js]
    returns for the languages of the list, and [util.binarySearch(items,
    key, util.strcmp)] of [lib/utils/util.js], which returns the index
    of the key or -1.  None of them is among the sources. *)
Class MnemonicEnv : Type := {
  MIN_ENTROPY : Z;
  MAX_ENTROPY : Z;
  getWordlist : string -> list string;
  binarySearch : list string -> string -> Z
}.

(** What a phrase relies on: at most 992 bits of entropy, so that the
    checksum has less than 32 bits; for every language of the list
    2048 words, among which the search finds every word at its place;
    and words that come back from a phrase when it is split, as they
    are not empty and hold no space. *)
Class MnemonicLaws `{MnemonicEnv} : Prop := {
  MIN_ENTROPY_pos : 0 < MIN_ENTROPY;
  MAX_ENTROPY_bound : MAX_ENTROPY < 1024;
  wordlist_length : forall lang, lang ∈ languages -> length (getWordlist lang) = 2048%nat;
  search_finds : forall lang i word,
    lang ∈ languages ->
    getWordlist lang !! i = Some word -> binarySearch (getWordlist lang) word = Z.of_nat i;
  words_split : forall lang sep words,
    lang ∈ languages ->
    words <> [] -> Forall (fun word => word ∈ getWordlist lang) words ->
    sep = " "%string \/ sep = IDEOGRAPHIC_SPACE ->
    split_phrase (join_words sep words) = words
}.

Section Mnemonic.
Context `{MnemonicEnv}.
Local Open Scope m_scope.

Record Mnemonic : Type := {
  bits : Z;
  language : string;
  entropy : option Buffer;
  phrase : option string;
  passphrase : string
}.

(** [new Mnemonic()] *)
Definition new : Mnemonic :=
  {| bits := MIN_ENTROPY; language := "english"; entropy := None; phrase := None;
     passphrase := "" |}.

Definition set_entropy (e : option Buffer) (this : Mnemonic) : Mnemonic :=
  {| bits := bits this; language := language this; entropy := e; phrase := phrase this;
     passphrase := passphrase this |}.

Definition set_phrase (p : option string) (this : Mnemonic) : Mnemonic :=
  {| bits := bits this; language := language this; entropy := entropy this; phrase := p;
     passphrase := passphrase this |}.

(** [Math.ceil(a / b)] for a positive [b]. *)
Definition ceil_of (a b : Z) : Z := (a + b - 1) / b.

(** [getEntropy()]; [random] is what [crypto.randomBytes(this.bits / 8)]
    returns when it is called. *)
Definition getEntropy (random : Buffer) : M Mnemonic Buffer :=
  let! this := get in
  let ent := match entropy this with Some ent => ent | None => random end in
  do! put (set_entropy (Some ent) this) in
  do! assert (bits this =? 8 * buf_length ent) "AssertionError" in
  ret ent.

(** [(entropy[oct] >>> (7 - bit)) & 1] for the position [pos] of a bit,
    which is not negative. *)
Definition read_bit (entropy : Buffer) (pos : Z) : Z :=
  let bit := pos mod 8 in
  let oct := (pos - bit) / 8 in
  js_and (js_ushr (byte_at entropy oct) (7 - bit)) 1.

(** The inner loop of [getPhrase]: the index that the eleven bits from
    the position [i * 11] on spell. *)
Definition word_index (entropy : Buffer) (i : Z) : Z :=
  foldl (fun index j => js_or (js_shl index 1) (read_bit entropy (i * 11 + Z.of_nat j)))
        0 (seq 0 11).

(** The buffer that [getPhrase] reads the bits from: the entropy and,
    behind it, as much of its hash as the buffer has room for.  The
    size is [Math.ceil(bits / 8)] for [bits + bits / 32], the quotient
    taken exactly, that is the ceiling of [33 * bits / 256]. *)
Definition entropy_buffer (bits : Z) (ent : Buffer) : Buffer :=
  let size := ceil_of (33 * bits) 256 in
  Writer.overlay (Writer.overlay (buf_zero size) 0 ent) (buf_length ent) (sha256 ent).

(** The words of [getPhrase]: one for every [i] from 0 that is less
    than [(bits + bits / 32) / 11]; their number is the ceiling of
    [3 * bits / 32].  A place outside the word list gives [undefined],
    which [join] prints as the empty string. *)
Definition phrase_words (wordlist : list string) (bits : Z) (ent : Buffer) : list string :=
  let entropy := entropy_buffer bits ent in
  (fun i => default ""%string (wordlist !! Z.to_nat (word_index entropy (Z.of_nat i))))
    <$> seq 0 (Z.to_nat (ceil_of (3 * bits) 32)).

Definition separator (lang : string) : string :=
  if String.eqb lang "japanese" then IDEOGRAPHIC_SPACE else " "%string.

(** [getPhrase()] *)
Definition getPhrase (random : Buffer) : M Mnemonic string :=
  let! this := get in
  let compute :=
    let wordlist := getWordlist (language this) in
    let! ent := getEntropy random in
    let phrase := join_words (separator (language this))
                    (phrase_words wordlist (bits this) ent) in
    let! this := get in
    do! put (set_phrase (Some phrase) this) in
    ret phrase in
  match phrase this with
  | Some p => if String.eqb p "" then compute else ret p
  | None => compute
  end.

(** [Mnemonic.getLanguage(word)] *)
Definition getLanguage (word : string) : res string :=
  match List.find (fun lang => negb (binarySearch (getWordlist lang) word =? -1)) languages with
  | Some lang => Ok lang
  | None => Throw "Could not determine language."
  end.

(** [ent[oct] |= b << (7 - bit)] for the position [pos] of a bit. *)
Definition write_bit (ent : Buffer) (pos b : Z) : Buffer :=
  let bit := pos mod 8 in
  let oct := (pos - bit) / 8 in
  <[Z.to_nat oct := js_or (byte_at ent oct) (js_shl b (7 - bit)) mod 256]> ent.

(** The inner loop of [fromPhrase] for the word [i] with its index. *)
Definition write_index (i index : Z) (ent : Buffer) : Buffer :=
  foldl (fun ent j =>
           write_bit ent (i * 11 + Z.of_nat j) (js_and (js_ushr index (10 - Z.of_nat j)) 1))
        ent (seq 0 11).

(** The outer loop of [fromPhrase], from the word [i] on. *)
Fixpoint write_words (wordlist : list string) (i : Z) (words : list string) (ent : Buffer)
  : res Buffer :=
  match words with
  | [] => Ok ent
  | word :: rest =>
      let index := binarySearch wordlist word in
      if index =? -1 then Throw "Could not find word."
      else write_words wordlist (i + 1) rest (write_index i index ent)
  end.

(** The loop over the bits of the checksum. *)
Definition checksum_matches (ent chk : Buffer) (cbits : Z) : bool :=
  forallb (fun i => read_bit ent (Z.of_nat i) =? read_bit chk (Z.of_nat i))
          (seq 0 (Z.to_nat cbits)).

(** [fromPhrase(phrase)] *)
Definition fromPhrase (phrase : string) : M Mnemonic unit :=
  let words := split_phrase phrase in
  let bits := Z.of_nat (length words) * 11 in
  let cbits := bits mod 32 in
  let cbytes := ceil_of cbits 8 in
  let bits := bits - cbits in
  do! assert (MIN_ENTROPY <=? bits) "AssertionError" in
  do! assert (bits <=? MAX_ENTROPY) "AssertionError" in
  do! assert (bits mod 32 =? 0) "AssertionError" in
  do! assert (negb (cbits =? 0)) "Invalid checksum." in
  let ent := buf_zero (ceil_of (bits + cbits) 8) in
  match getLanguage (default ""%string (head words)) with
  | Throw e => throw e
  | Ok lang =>
      match write_words (getWordlist lang) 0 words ent with
      | Throw e => throw e
      | Ok ent =>
          let entropy := buf_slice ent 0 (buf_length ent - cbytes) in
          let ent := buf_slice ent (buf_length ent - cbytes) (buf_length ent) in
          let chk := sha256 entropy in
          do! assert (checksum_matches ent chk cbits) "Invalid checksum." in
          do! assert (bits =? 8 * buf_length entropy) "AssertionError" in
          let! this := get in
          put {| bits := bits; language := lang; entropy := Some entropy;
                 phrase := Some phrase; passphrase := passphrase this |}
      end
  end.

End Mnemonic.

End Mnemonic.

(** [lib/crypto/ec.js], which is not among the sources:
    [ec.publicKeyConvert(key, compress)] returns a new buffer with the
    point of [key] in the other format, or throws. *)
Class ECPoint : Type := {
  publicKeyConvert : Buffer -> bool -> res Buffer
}.

(** What the compression of keys relies on: a compressed point has 33
    bytes and the prefix 2 or 3, and it is converted back to the point
    it came from, with the prefix 4. *)
Class ECPointLaws `{ECPoint} : Prop := {
  convert_compressed : forall key out,
    publicKeyConvert key true = Ok out ->
    buf_length out = 33 /\ (byte_at out 0 = 2 \/ byte_at out 0 = 3);
  convert_back : forall key out,
    publicKeyConvert key true = Ok out ->
    byte_at key 0 = 4 \/ byte_at key 0 = 6 \/ byte_at key 0 = 7 ->
    publicKeyConvert out false = Ok (<[0%nat := 4]> key)
}.

(** ** Coin compression ([lib/blockchain/compress.js]) *)

(** The numbers of [compressValue] and [decompressValue] are amounts and
    their compressed forms: JavaScript numbers, that is doubles, which
    the callers fill with integers.  A double holds every integer from
    [-2^53] to [2^53] exactly, and an operation on such integers whose
    result is such an integer gives this result.  The model follows the
    code as far as that: [exactly x] is the number [x] within these
    bounds and [None] beyond them, where the code goes on with a rounded
    number; so [None] is no error of the code, it is the end of what
    the model says.  The argument and every sum, difference and product
    pass through [exactly], in the order in which the code computes
    them.  On the integers [%] is the remainder with the sign of the
    dividend ([Z.rem]), and every division that the code makes is
    exact, as it divides what it has just found divisible or has just
    made so; such a quotient, and a number less its own remainder, is
    no further from zero than the number it is taken from. *)
Module Compress.

Definition MAX_EXACT : Z := 2 ^ 53.

Definition exactly (x : Z) : option Z :=
  if (- MAX_EXACT <=? x) && (x <=? MAX_EXACT) then Some x else None.

(** [while (value % 10 === 0 && exp < 9) { value /= 10; exp++; }], with
    the value and the exponent it ends on.  The loop makes nine turns at
    most; [fuel] counts them.  A quotient is no further from zero than
    its dividend. *)
Fixpoint strip_zeros (fuel : nat) (value exp : Z) : Z * Z :=
  if (Z.rem value 10 =? 0) && (exp <? 9) then
    match fuel with
    | O => (value, exp)
    | S fuel' => strip_zeros fuel' (Z.quot value 10) (exp + 1)
    end
  else (value, exp).

(** [compressValue(value)]; the sum of the result is
    [((1 + 10 * (((9 * value) + last) - 1)) + exp)]. *)
Definition compressValue (value : Z) : option Z :=
  value ← exactly value;
  if value =? 0 then Some 0
  else
    let '(value, exp) := strip_zeros 9 value 0 in
    if exp <? 9 then
      let last := Z.rem value 10 in
      let value := Z.quot (value - last) 10 in
      a ← exactly (9 * value);
      b ← exactly (a + last);
      c ← exactly (b - 1);
      d ← exactly (10 * c);
      e ← exactly (1 + d);
      exactly (e + exp)
    else
      a ← exactly (value - 1);
      b ← exactly (10 * a);
      exactly (10 + b).

(** [while (exp > 0) { n *= 10; exp--; }] *)
Fixpoint scale (fuel : nat) (n exp : Z) : option Z :=
  if 0 <? exp then
    match fuel with
    | O => Some n
    | S fuel' => n ← exactly (n * 10); scale fuel' n (exp - 1)
    end
  else Some n.

(** [decompressValue(value)].  The exponent is a remainder by ten, so
    the loop makes nine turns at most. *)
Definition decompressValue (value : Z) : option Z :=
  value ← exactly value;
  if value =? 0 then Some 0
  else
    value ← exactly (value - 1);
    let exp := Z.rem value 10 in
    let value := Z.quot (value - exp) 10 in
    n ← (if exp <? 9 then
           let last := Z.rem value 9 in
           let value := Z.quot (value - last) 9 in
           a ← exactly (value * 10);
           b ← exactly (a + last);
           exactly (b + 1)
         else exactly (value + 1));
    scale 9 n exp.

(** The assignment [buf[i] = v], which keeps the low eight bits and
    does nothing outside the buffer. *)
Definition set_byte (i : nat) (v : Z) (b : Buffer) : Buffer := <[i := v mod 256]> b.

Section Keys.
Context `{ECPoint}.
Local Open Scope m_scope.

(** [compressKey(key)].  A key that is compressed already is returned
    as it is; the prefix of another is kept in the bits above the two
    lowest of the first byte. *)
Definition compressKey (key : Buffer) : res Buffer :=
  let prefix := byte_at key 0 in
  let converted :=
    if (prefix =? 2) || (prefix =? 3) then Ok key
    else if (prefix =? 4) || (prefix =? 6) || (prefix =? 7) then
      match publicKeyConvert key true with
      | Ok out => Ok (set_byte 0 (js_or (byte_at out 0) (js_shl prefix 2)) out)
      | Throw e => Throw e
      end
    else Throw "Bad point format." in
  match converted with
  | Ok out => if buf_length out =? 33 then Ok out else Throw "AssertionError"
  | Throw e => Throw e
  end.

(** [decompressKey(key)], a method on the buffer it is given: it clears
    the high bits of the first byte for the conversion and sets them
    again after it. *)
Definition decompressKey : M Buffer Buffer :=
  let! key := get in
  let format := js_ushr (byte_at key 0) 2 in
  do! assert (buf_length key =? 33) "AssertionError" in
  if format =? 0 then ret key
  else
    do! put (set_byte 0 (js_and (byte_at key 0) 3) key) in
    let! key := get in
    let! out := (fun s => (publicKeyConvert key false, s)) in
    do! put (set_byte 0 (js_or (byte_at key 0) (js_shl format 2)) key) in
    ret (set_byte 0 format out).

End Keys.

End Compress.

(** ** Partial merkle trees ([lib/primitives/merkleblock.js]) *)

(** [constants.block.MAX_SIZE] of [lib/protocol/constants.js], which is
    not among the sources: the largest size of a block in bytes. *)
Class Consensus : Type := {
  BLOCK_MAX_SIZE : Z
}.

(** The bound on it that keeps the 32-bit shifts of [width] exact. *)
Class ConsensusLaws `{Consensus} : Prop := {
  BLOCK_MAX_SIZE_bound : BLOCK_MAX_SIZE <= 60 * 2 ^ 30
}.

Module Merkle.

(** Modelled from the spec: [util.equal(a, b)] of [lib/utils/util.js],
    which is not among the sources, compares two buffers byte for byte. *)
Definition equal (a b : Buffer) : bool := bool_decide (a = b).

(** [width(height)]: [(totalTX + (1 << height) - 1) >>> height]. *)
Definition width (totalTX : Z) (height : Z) : Z :=
  js_ushr (totalTX + js_shl 1 height - 1) height.

(** [height = 0; while (width(height) > 1) height++].  The loop ends
    within 32 turns for every 32-bit count of transactions. *)
Fixpoint find_height (fuel : nat) (totalTX : Z) (height : Z) : res Z :=
  if 1 <? width totalTX height then
    match fuel with
    | O => Throw "height: loop cut short"
    | S fuel' => find_height fuel' totalTX (height + 1)
    end
  else Ok height.

(** [left.copy(buf, 0); right.copy(buf, 32); crypto.hash256(buf)] on the
    buffer of 64 bytes that the closures share: the hash, and the buffer
    as the copies leave it. *)
Definition hash_pair (buf left_ right_ : Buffer) : Buffer * Buffer :=
  let buf := Writer.overlay buf 0 left_ in
  let buf := Writer.overlay buf 32 right_ in
  (hash256 buf, buf).

(** A block, as far as [fromMatches] reads it: the header fields, with the
    merkle root in hex, and the hash [tx.hash()] of every transaction. *)
Record Block : Type := {
  b_version : Z;
  b_prevBlock : string;
  b_merkleRoot : string;
  b_ts : Z;
  b_bits : Z;
  b_nonce : Z;
  b_height : Z;
  b_txs : list Buffer
}.

(** What [extractTree] returns ([PartialTree]). *)
Record PartialTree : Type := {
  root : string;
  t_matches : list Buffer;
  t_indexes : list Z;
  t_map : gmap string Z
}.

Record MerkleBlock : Type := {
  version : Z;
  prevBlock : string;
  merkleRoot : string;
  ts : Z;
  bits_ : Z;
  nonce : Z;
  totalTX : Z;
  height : Z;
  hashes : list Buffer;
  flags : Buffer;
  (** the matched transactions, by their hashes *)
  txs : list Buffer;
  map : gmap string Z;
  matches : list Buffer;
  _validPartial : option bool
}.

(** *** [MerkleBlock.fromMatches] *)

Section Build.
Variable leaves : list Buffer.
Variable matched : list bool.

Definition leaf_count : Z := Z.of_nat (length leaves).

(** [leaves[pos]], for the positions of the traversals, which are never
    negative. *)
Definition leaf (pos : Z) : Buffer := default [] (leaves !! Z.to_nat pos).

(** [matches[p]]: nothing ([undefined]) outside the array, also at the
    negative [p] of a shift that wrapped. *)
Definition match_at (p : Z) : bool :=
  if p <? 0 then false else default false (matched !! Z.to_nat p).

(** [hash(height, pos, leaves)], with the shared buffer. *)
Fixpoint hash (height : nat) (pos : Z) (buf : Buffer) : Buffer * Buffer :=
  match height with
  | O => (leaf pos, buf)
  | S h =>
      let '(left_, buf) := hash h (pos * 2) buf in
      let '(right_, buf) :=
        if pos * 2 + 1 <? width leaf_count (Z.of_nat h)
        then hash h (pos * 2 + 1) buf
        else (left_, buf) in
      hash_pair buf left_ right_
  end.

(** The loop over the leaves below a node:
    [for (p = pos << height; p < (pos + 1) << height && p < totalTX; p++)
     parent |= matches[p]]. *)
Definition first_leaf (height : nat) (pos : Z) : Z := js_shl pos (Z.of_nat height).

Definition end_leaf (height : nat) (pos : Z) : Z :=
  Z.min (js_shl (pos + 1) (Z.of_nat height)) leaf_count.

Definition parent_bit (height : nat) (pos : Z) : bool :=
  existsb match_at
    (seqZ (first_leaf height pos) (end_leaf height pos - first_leaf height pos)).

(** The arrays [bits] and [hashes] that [traverse] pushes to, and the
    shared buffer. *)
Record BuildState : Type := {
  bld_bits : list bool;
  bld_hashes : list Buffer;
  bld_buf : Buffer
}.

(** [traverse(height, pos, leaves, matches)] *)
Fixpoint traverse (height : nat) (pos : Z) (st : BuildState) : BuildState :=
  let parent := parent_bit height pos in
  let st := {| bld_bits := bld_bits st ++ [parent]; bld_hashes := bld_hashes st;
               bld_buf := bld_buf st |} in
  match height with
  | O =>
      let '(h, buf) := hash O pos (bld_buf st) in
      {| bld_bits := bld_bits st; bld_hashes := bld_hashes st ++ [h]; bld_buf := buf |}
  | S h' =>
      if negb parent then
        let '(h, buf) := hash height pos (bld_buf st) in
        {| bld_bits := bld_bits st; bld_hashes := bld_hashes st ++ [h]; bld_buf := buf |}
      else
        let st := traverse h' (pos * 2) st in
        if pos * 2 + 1 <? width leaf_count (Z.of_nat h')
        then traverse h' (pos * 2 + 1) st
        else st
  end.

(** [flags[p / 8 | 0] |= bits[p] << (p % 8)], for [p] from [start] on. *)
Fixpoint pack (bits : list bool) (p : nat) (flags : Buffer) : Buffer :=
  match bits with
  | [] => flags
  | b :: rest =>
      pack rest (S p)
        (alter (fun x => Z.land (Z.lor x (Z.shiftl (Z.b2z b) (Z.of_nat p mod 8))) 255)
               (p / 8)%nat flags)
  end.

Definition pack_flags (bits : list bool) : Buffer :=
  pack bits 0 (buf_zero ((Z.of_nat (length bits) + 7) / 8)).

(** **** The tree that the traversals walk *)

(** The hash of the node at [pos] of level [height]: a leaf, or the double
    SHA-256 of its two children side by side, the left one twice when it
    has no right sibling. *)
Fixpoint tree_hash (height : nat) (pos : Z) : Buffer :=
  match height with
  | O => leaf pos
  | S h =>
      let left_ := tree_hash h (pos * 2) in
      let right_ :=
        if pos * 2 + 1 <? width leaf_count (Z.of_nat h) then tree_hash h (pos * 2 + 1)
        else left_ in
      hash256 (left_ ++ right_)
  end.

(** The flag bits and the hashes that the traversal of a node pushes. *)
Fixpoint node_bits (height : nat) (pos : Z) : list bool :=
  parent_bit height pos ::
  match height with
  | O => []
  | S h =>
      if negb (parent_bit height pos) then []
      else node_bits h (pos * 2)
           ++ (if pos * 2 + 1 <? width leaf_count (Z.of_nat h)
               then node_bits h (pos * 2 + 1) else [])
  end.

Fixpoint node_hashes (height : nat) (pos : Z) : list Buffer :=
  match height with
  | O => [tree_hash O pos]
  | S h =>
      if negb (parent_bit height pos) then [tree_hash height pos]
      else node_hashes h (pos * 2)
           ++ (if pos * 2 + 1 <? width leaf_count (Z.of_nat h)
               then node_hashes h (pos * 2 + 1) else [])
  end.

(** The matched leaves below a node, by position, from left to right. *)
Definition found (height : nat) (pos : Z) : list Z :=
  filter (fun p => match_at p = true)
    (seqZ (first_leaf height pos) (end_leaf height pos - first_leaf height pos)).

(** No node on the way to a matched leaf has two children with the same
    hash. *)
Fixpoint siblings_differ (height : nat) (pos : Z) : bool :=
  match height with
  | O => true
  | S h =>
      if parent_bit height pos then
        siblings_differ h (pos * 2)
        && (if pos * 2 + 1 <? width leaf_count (Z.of_nat h)
            then siblings_differ h (pos * 2 + 1)
                 && negb (equal (tree_hash h (pos * 2 + 1)) (tree_hash h (pos * 2)))
            else true)
      else true
  end.

(** The height of the tree over the leaves. *)
Definition tree_height : nat :=
  match find_height 32 leaf_count 0 with
  | Ok h => Z.to_nat h
  | Throw _ => O
  end.

(** The merkle root, as the spec builds it: bottom-up, level by level,
    the last node of a level of odd width paired with itself. *)
Fixpoint pair_up (level : list Buffer) : list Buffer :=
  match level with
  | [] => []
  | [x] => [hash256 (x ++ x)]
  | x :: y :: rest => hash256 (x ++ y) :: pair_up rest
  end.

Fixpoint level_up (n : nat) (level : list Buffer) : list Buffer :=
  match n with
  | O => level
  | S n' => level_up n' (pair_up level)
  end.

Definition merkle_root : Buffer := default [] (head (level_up tree_height leaves)).

(** The nodes of the tree: a position of a level of at most 30 with a leaf
    below it. *)
Definition in_tree (height : nat) (pos : Z) : Prop :=
  Z.of_nat height <= 30 /\ 0 <= pos /\ pos * 2 ^ Z.of_nat height < leaf_count.

(** The number of leaves below a node. *)
Definition span (height : nat) (pos : Z) : Z :=
  Z.min ((pos + 1) * 2 ^ Z.of_nat height) leaf_count - pos * 2 ^ Z.of_nat height.

(** The hashes of a level of the tree, from left to right. *)
Definition level (height : nat) : list Buffer :=
  tree_hash height <$> seqZ 0 (width leaf_count (Z.of_nat height)).

(** The entries that [extractTree] files in its map, in order. *)
Definition index_map (m : gmap string Z) (positions : list Z) : gmap string Z :=
  foldl (fun m p => <[to_hex (leaf p) := p]> m) m positions.

End Build.

Definition fromMatches (block : Block) (matched : list bool) : res MerkleBlock :=
  let leaves := b_txs block in
  let txs := (filter (fun p => match_at matched (Z.of_nat p.1) = true) (imap pair leaves)).*2 in
  let totalTX := leaf_count leaves in
  match find_height 32 totalTX 0 with
  | Throw e => Throw e
  | Ok height =>
      let st := traverse leaves matched (Z.to_nat height) 0
                  {| bld_bits := []; bld_hashes := []; bld_buf := buf_zero 64 |} in
      Ok {| version := b_version block;
            prevBlock := b_prevBlock block;
            merkleRoot := b_merkleRoot block;
            ts := b_ts block;
            bits_ := b_bits block;
            nonce := b_nonce block;
            totalTX := totalTX;
            height := b_height block;
            hashes := bld_hashes st;
            flags := pack_flags (bld_bits st);
            txs := txs;
            map := ∅;
            matches := [];
            _validPartial := None |}
  end.

(** *** [MerkleBlock.prototype.extractTree] *)

Section Extract.
Context `{Consensus}.
Variable this : MerkleBlock.

(** The variables that the closure [traverse] captures and changes. *)
Record ExtractState : Type := {
  bitsUsed : Z;
  hashUsed : Z;
  ex_matches : list Buffer;
  ex_indexes : list Z;
  ex_map : gmap string Z;
  failed : bool;
  ex_buf : Buffer
}.

Definition set_failed (st : ExtractState) : ExtractState :=
  {| bitsUsed := bitsUsed st; hashUsed := hashUsed st; ex_matches := ex_matches st;
     ex_indexes := ex_indexes st; ex_map := ex_map st; failed := true; ex_buf := ex_buf st |}.

(** [bitsUsed++] *)
Definition of_bit (st : ExtractState) : ExtractState :=
  {| bitsUsed := bitsUsed st + 1; hashUsed := hashUsed st; ex_matches := ex_matches st;
     ex_indexes := ex_indexes st; ex_map := ex_map st; failed := failed st;
     ex_buf := ex_buf st |}.

(** [(flags[bitsUsed / 8 | 0] >>> (bitsUsed % 8)) & 1] *)
Definition flag_bit (n : Z) : Z :=
  Z.land (Z.shiftr (byte_at (flags this) (n / 8)) (n mod 8)) 1.

(** [traverse(height, pos)] *)
Fixpoint ex_traverse (height : nat) (pos : Z) (st : ExtractState) : Buffer * ExtractState :=
  if buf_length (flags this) * 8 <=? bitsUsed st then (HD.ZERO_HASH, set_failed st)
  else
    let parent := flag_bit (bitsUsed st) in
    let st := of_bit st in
    let take_hash (is_leaf : bool) :=
      if Z.of_nat (length (hashes this)) <=? hashUsed st then (HD.ZERO_HASH, set_failed st)
      else
        let hash := default [] (hashes this !! Z.to_nat (hashUsed st)) in
        if is_leaf && negb (parent =? 0) then
          (hash, {| bitsUsed := bitsUsed st; hashUsed := hashUsed st + 1;
                    ex_matches := ex_matches st ++ [hash];
                    ex_indexes := ex_indexes st ++ [pos];
                    ex_map := <[to_hex hash := pos]> (ex_map st);
                    failed := failed st; ex_buf := ex_buf st |})
        else
          (hash, {| bitsUsed := bitsUsed st; hashUsed := hashUsed st + 1;
                    ex_matches := ex_matches st; ex_indexes := ex_indexes st;
                    ex_map := ex_map st; failed := failed st; ex_buf := ex_buf st |}) in
    match height with
    | O => take_hash true
    | S h =>
        if parent =? 0 then take_hash false
        else
          let '(left_, st) := ex_traverse h (pos * 2) st in
          let '(right_, st) :=
            if pos * 2 + 1 <? width (totalTX this) (Z.of_nat h) then
              let '(right_, st) := ex_traverse h (pos * 2 + 1) st in
              (right_, if equal right_ left_ then set_failed st else st)
            else (left_, st) in
          let '(hash, buf) := hash_pair (ex_buf st) left_ right_ in
          (hash, {| bitsUsed := bitsUsed st; hashUsed := hashUsed st;
                    ex_matches := ex_matches st; ex_indexes := ex_indexes st;
                    ex_map := ex_map st; failed := failed st; ex_buf := buf |})
    end.

Definition ex_start : ExtractState :=
  {| bitsUsed := 0; hashUsed := 0; ex_matches := []; ex_indexes := []; ex_map := ∅;
     failed := false; ex_buf := buf_zero 64 |}.

(** [extractTree()]: the tree, or nothing ([undefined]).
    [totalTX > MAX_SIZE / 60] is a comparison of numbers, the quotient not
    rounded. *)
Definition extractTree : option PartialTree :=
  let hashes := hashes this in
  let flags := flags this in
  let totalTX := totalTX this in
  if totalTX =? 0 then None
  else if BLOCK_MAX_SIZE <? 60 * totalTX then None
  else if totalTX <? Z.of_nat (length hashes) then None
  else if buf_length flags * 8 <? Z.of_nat (length hashes) then None
  else
    match find_height 32 totalTX 0 with
    | Throw _ => None
    | Ok height =>
        let '(root, st) := ex_traverse (Z.to_nat height) 0 ex_start in
        if failed st then None
        else if negb ((bitsUsed st + 7) / 8 =? buf_length flags) then None
        else if negb (hashUsed st =? Z.of_nat (length hashes)) then None
        else Some {| root := to_hex root; t_matches := ex_matches st;
                     t_indexes := ex_indexes st; t_map := ex_map st |}
    end.

(** [verifyPartial()]: the result, and the block with the result cached. *)
Definition verifyPartial : bool * MerkleBlock :=
  match _validPartial this with
  | Some v => (v, this)
  | None =>
      let cache v m ms :=
        {| version := version this; prevBlock := prevBlock this;
           merkleRoot := merkleRoot this; ts := ts this; bits_ := bits_ this;
           nonce := nonce this; totalTX := totalTX this; height := height this;
           hashes := hashes this; flags := flags this; txs := txs this;
           map := m; matches := ms; _validPartial := Some v |} in
      match extractTree with
      | Some tree =>
          if String.eqb (root tree) (merkleRoot this)
          then (true, cache true (t_map tree) (t_matches tree))
          else (false, cache false (map this) (matches this))
      | None => (false, cache false (map this) (matches this))
      end
  end.

(** Some interior node that the traversal rebuilds has two children, and
    their hashes are the same bytes: at this node, or at a node below
    it. *)
Inductive equal_siblings : nat -> Z -> ExtractState -> Prop :=
  | equal_here h pos st left_ st1 right_ st2 :
      bitsUsed st < buf_length (flags this) * 8 ->
      flag_bit (bitsUsed st) <> 0 ->
      pos * 2 + 1 < width (totalTX this) (Z.of_nat h) ->
      ex_traverse h (pos * 2) (of_bit st) = (left_, st1) ->
      ex_traverse h (pos * 2 + 1) st1 = (right_, st2) ->
      right_ = left_ ->
      equal_siblings (S h) pos st
  | equal_left h pos st :
      bitsUsed st < buf_length (flags this) * 8 ->
      flag_bit (bitsUsed st) <> 0 ->
      equal_siblings h (pos * 2) (of_bit st) ->
      equal_siblings (S h) pos st
  | equal_right h pos st left_ st1 :
      bitsUsed st < buf_length (flags this) * 8 ->
      flag_bit (bitsUsed st) <> 0 ->
      pos * 2 + 1 < width (totalTX this) (Z.of_nat h) ->
      ex_traverse h (pos * 2) (of_bit st) = (left_, st1) ->
      equal_siblings h (pos * 2 + 1) st1 ->
      equal_siblings (S h) pos st.

(** [indexOf(hash)], for a hash in hex: the index, or -1, and the block
    with the verification cached.  [map] is an object that holds the keys
    that [extractTree] stored, all of them hexadecimal; on such keys its
    lookups are those of a finite map. *)
Definition indexOf (hash : string) : Z * MerkleBlock :=
  let '(_, this') := verifyPartial in
  match map this' !! hash with
  | Some index => (index, this')
  | None => (-1, this')
  end.

(** [hasTX(hash)]: [this.indexOf(hash) !== -1]. *)
Definition hasTX (hash : string) : bool * MerkleBlock :=
  let '(index, this') := indexOf hash in
  (negb (index =? -1), this').

(** The block with other hashes and flag bytes, as [fromRaw] may read
    them. *)
Definition set_tree (hs : list Buffer) (fl : Buffer) : MerkleBlock :=
  {| version := version this; prevBlock := prevBlock this;
     merkleRoot := merkleRoot this; ts := ts this; bits_ := bits_ this;
     nonce := nonce this; totalTX := totalTX this; height := height this;
     hashes := hs; flags := fl; txs := txs this;
     map := map this; matches := matches this; _validPartial := _validPartial this |}.

End Extract.

(** *** [toRaw], [getSize] and [fromRaw] *)

Section Serialize.
Context `{Encoding} `{NodeBuffer}.
Local Open Scope m_scope.

(** The writes of [toRaw(writer)]: the header fields, the number of
    hashes and the hashes, and the flag bytes with their length.  The
    two hashes of the header are strings in hex, the hashes of the tree
    are buffers. *)
Definition toRaw_calls (this : MerkleBlock) : list Writer.call :=
  [ Writer.CwriteU32 (version this);
    Writer.CwriteHash (Writer.AStr (prevBlock this));
    Writer.CwriteHash (Writer.AStr (merkleRoot this));
    Writer.CwriteU32 (ts this);
    Writer.CwriteU32 (bits_ this);
    Writer.CwriteU32 (nonce this);
    Writer.CwriteU32 (totalTX this);
    Writer.CwriteVarint (Z.of_nat (length (hashes this))) ]
  ++ ((fun h => Writer.CwriteHash (Writer.ABuf h)) <$> hashes this)
  ++ [ Writer.CwriteVarBytes (flags this) ].

(** [toRaw()], without a writer to append to: the rendered buffer. *)
Definition toRaw (this : MerkleBlock) : res Buffer := Wire.rendered (toRaw_calls this).

(** [getSize()]: [toRaw] on a new writer, and its counter. *)
Definition getSize (this : MerkleBlock) : res Z :=
  (bind (Writer.exec_all (toRaw_calls this)) (fun _ => Writer.getSize) Writer.new).1.

(** A reader method called from a method of the block, and an
    assignment to the block. *)
Definition on_reader {A} (m : M Reader.BufferReader A)
  : M (MerkleBlock * Reader.BufferReader) A :=
  fun s => let '(r, br) := m s.2 in (r, (s.1, br)).

Definition update_block (f : MerkleBlock -> MerkleBlock)
  : M (MerkleBlock * Reader.BufferReader) unit :=
  fun s => (Ok tt, (f s.1, s.2)).

Definition set_header (v : Z) (pb mr : string) (t b n tot : Z) (this : MerkleBlock)
  : MerkleBlock :=
  {| version := v; prevBlock := pb; merkleRoot := mr; ts := t; bits_ := b; nonce := n;
     totalTX := tot; height := height this; hashes := hashes this; flags := flags this;
     txs := txs this; map := map this; matches := matches this;
     _validPartial := _validPartial this |}.

(** What [readHash] returned, where the code takes it for a string
    ([readHash('hex')]) and where it takes it for a buffer
    ([readHash()]). *)
Definition hash_string (h : Reader.hashval) : string :=
  match h with Reader.HashStr s => s | Reader.HashBuf b => to_hex b end.

Definition hash_buffer (h : Reader.hashval) : Buffer :=
  match h with Reader.HashBuf b => b | Reader.HashStr s => buf_encode s "hex" end.

(** [for (i = 0; i < count; i++) this.hashes.push(br.readHash())].
    Every turn reads 32 bytes, so the loop throws before it has made
    more turns than the buffer has bytes; [fuel] bounds the turns by
    this number. *)
Fixpoint read_hashes (fuel : nat) (i count : Z) : M (MerkleBlock * Reader.BufferReader) unit :=
  if i <? count then
    let! h := on_reader (Reader.readHash None) in
    do! update_block (fun this => set_tree this (hashes this ++ [hash_buffer h]) (flags this)) in
    match fuel with
    | O => throw "fromRaw: loop cut short"
    | S fuel' => read_hashes fuel' (i + 1) count
    end
  else ret tt.

Definition fromRaw_body : M (MerkleBlock * Reader.BufferReader) unit :=
  let! v := on_reader Reader.readU32 in
  do! update_block (fun this =>
        set_header v (prevBlock this) (merkleRoot this) (ts this) (bits_ this) (nonce this)
          (totalTX this) this) in
  let! pb := on_reader (Reader.readHash (Some "hex")) in
  do! update_block (fun this =>
        set_header (version this) (hash_string pb) (merkleRoot this) (ts this) (bits_ this)
          (nonce this) (totalTX this) this) in
  let! mr := on_reader (Reader.readHash (Some "hex")) in
  do! update_block (fun this =>
        set_header (version this) (prevBlock this) (hash_string mr) (ts this) (bits_ this)
          (nonce this) (totalTX this) this) in
  let! t := on_reader Reader.readU32 in
  do! update_block (fun this =>
        set_header (version this) (prevBlock this) (merkleRoot this) t (bits_ this)
          (nonce this) (totalTX this) this) in
  let! b := on_reader Reader.readU32 in
  do! update_block (fun this =>
        set_header (version this) (prevBlock this) (merkleRoot this) (ts this) b
          (nonce this) (totalTX this) this) in
  let! n := on_reader Reader.readU32 in
  do! update_block (fun this =>
        set_header (version this) (prevBlock this) (merkleRoot this) (ts this) (bits_ this)
          n (totalTX this) this) in
  let! tot := on_reader Reader.readU32 in
  do! update_block (fun this =>
        set_header (version this) (prevBlock this) (merkleRoot this) (ts this) (bits_ this)
          (nonce this) tot this) in
  let! count := on_reader Reader.readVarint in
  let! s := get in
  do! read_hashes (length (Reader.data s.2)) 0 count in
  let! fl := on_reader (Reader.readVarBytes JUndefined) in
  update_block (fun this => set_tree this (hashes this) fl).

(** [this.fromRaw(data)]: the block as the call leaves it, also when
    it throws. *)
Definition fromRaw (this : MerkleBlock) (data : Buffer) : res unit * MerkleBlock :=
  let '(r, (this', _)) := fromRaw_body (this, Reader.new data false) in (r, this').

(** A block as [toRaw] can store it: the numbers of the header are
    32-bit numbers, the two hashes of the header are the hex of 32
    bytes, every hash of the tree has 32 bytes, and the counts fit a
    length prefix. *)
Definition is_bytes (b : Buffer) : Prop := Forall (fun x => 0 <= x < 256) b.

Definition storable (this : MerkleBlock) : Prop :=
  0 <= version this < 2 ^ 32 /\ 0 <= ts this < 2 ^ 32 /\ 0 <= bits_ this < 2 ^ 32
  /\ 0 <= nonce this < 2 ^ 32 /\ 0 <= totalTX this < 2 ^ 32
  /\ (exists pb, prevBlock this = to_hex pb /\ buf_length pb = 32 /\ is_bytes pb)
  /\ (exists mr, merkleRoot this = to_hex mr /\ buf_length mr = 32 /\ is_bytes mr)
  /\ Forall (fun h => buf_length h = 32) (hashes this)
  /\ Z.of_nat (length (hashes this)) < 2 ^ 32
  /\ buf_length (flags this) < 2 ^ 32.

End Serialize.

End Merkle.

(** ** Instances of the transport interfaces *)

Module TransportExamples.

(** A stand-in for the stream cipher and its MAC, so that sessions can
    be run: the keystream is one byte of the hash of key and nonce,
    repeated, and the tag is the first 16 bytes of the hash of key,
    nonce and authenticated data. *)
Record toy : Type := { tkey : Buffer; tiv : Buffer; tmac : Buffer }.

Definition toy_new : toy := {| tkey := []; tiv := []; tmac := [] |}.

Definition toy_init (k i : option Buffer) (st : toy) : toy :=
  {| tkey := default (tkey st) k; tiv := default (tiv st) i; tmac := [] |}.

Definition toy_pad (st : toy) : Z := byte_at (sha256 (tkey st ++ tiv st)) 0.

Definition toy_xor (d : Buffer) (st : toy) : Buffer := Z.lxor (toy_pad st) <$> d.

Definition toy_absorb (d : Buffer) (st : toy) : toy :=
  {| tkey := tkey st; tiv := tiv st; tmac := tmac st ++ d |}.

#[export] Instance toy_cipher : ChaChaPoly := {|
  ChaCha20 := toy;
  AEAD := toy;
  chacha_new := toy_new;
  aead_new := toy_new;
  chacha_init := toy_init;
  chacha_encrypt := fun d st => (toy_xor d st, st);
  aead_init := toy_init;
  aead_encrypt := fun d st => (toy_xor d st, toy_absorb (toy_xor d st) st);
  aead_stream := fun d st => (toy_xor d st, st);
  aead_auth := fun d st => (d, toy_absorb d st);
  aead_finish := fun st => (take 16 (sha256 (tkey st ++ tiv st ++ tmac st)), st);
  poly1305_verify := fun a b => bool_decide (a = b)
|}.

(** A stand-in for key agreement and derivation, built from SHA-256;
    the largest message is taken as four million bytes. *)
#[export] Instance toy_session : SessionCrypto := {|
  ecdh := fun peer key => sha256 (peer ++ key);
  publicKeyCreate := fun key => 2 :: sha256 key;
  hkdfExtract := fun ikm salt => sha256 (salt ++ ikm);
  hkdfExpand := fun prk info len =>
    buf_slice (mjoin (replicate (Z.to_nat len) (sha256 (prk ++ info)))) 0 len;
  MAX_MESSAGE := 4 * 1000 * 1000
|}.

Import Examples.

(** Two streams after the same key agreement: the output of one peer
    and the input of the other. *)
Definition stream0 : BIP151.BIP151Stream :=
  (BIP151.init (2 :: buf_zero 32) 0 (BIP151.new_stream (buf_zero 32))).2.

(** The session of the sender and the session of the receiver, the
    handshake done. *)
Definition sender : BIP151.Session :=
  BIP151.set_output stream0 (BIP151.new (buf_zero 32) (buf_zero 32)).

Definition receiver : BIP151.Session :=
  BIP151.set_input stream0 (BIP151.new (buf_zero 32) (buf_zero 32)).

(** The packet that the sender renders for the command "ping". *)
Definition ping_packet : Buffer :=
  match (BIP151.packet "ping" [1; 2; 3; 4] 0 sender).1 with
  | Ok p => p
  | Throw _ => []
  end.

End TransportExamples.

(** ** A key agreement to run handshakes with *)

Module AgreementExamples.

Import Examples TransportExamples.

(** Diffie-Hellman modulo a small prime, as a stand-in for the curve:
    the secret number of a key is its first byte. *)
Definition dh_p : Z := 251.
Definition dh_g : Z := 6.
Definition dh_secret (key : Buffer) : Z := Z.abs (byte_at key 0).

#[export] Instance dh_session : SessionCrypto := {|
  ecdh := fun peer key => [byte_at peer 1 ^ dh_secret key mod dh_p];
  publicKeyCreate := fun key => [2; dh_g ^ dh_secret key mod dh_p];
  hkdfExtract := fun ikm salt => sha256 (salt ++ ikm);
  hkdfExpand := fun prk info len =>
    buf_slice (mjoin (replicate (Z.to_nat len) (sha256 (prk ++ info)))) 0 len;
  MAX_MESSAGE := 4 * 1000 * 1000
|}.

(** Two new sessions, and the two after their handshake. *)
Definition alice : BIP151.Session := BIP151.new [11] [12].
Definition bob : BIP151.Session := BIP151.new [13] [14].

Definition shaken : BIP151.Session * BIP151.Session := (BIP151.exchange 0 (alice, bob)).2.

End AgreementExamples.

(** ** A block to build trees from *)

Module MerkleExamples.

(** The size limit of blocks, one million bytes. *)
#[export] Instance one_megabyte : Consensus := {| BLOCK_MAX_SIZE := 1000000 |}.

Definition tx_hashes (n : nat) : list Buffer := (fun i => hash256 [Z.of_nat i]) <$> seq 0 n.

Definition block_of (hs : list Buffer) : Merkle.Block :=
  {| Merkle.b_version := 1; Merkle.b_prevBlock := "";
     Merkle.b_merkleRoot := to_hex (Merkle.merkle_root hs);
     Merkle.b_ts := 0; Merkle.b_bits := 0; Merkle.b_nonce := 0; Merkle.b_height := 0;
     Merkle.b_txs := hs |}.

(** Five transactions. *)
Definition block5 : Merkle.Block := block_of (tx_hashes 5).

(** Two transactions with the same hash. *)
Definition block_twins : Merkle.Block := block_of [hash256 [7]; hash256 [7]].

(** A partial tree as a peer may send it: two transactions, both flagged
    as matched, with the same hash, under the merkle root of the pair. *)
Definition forged : Merkle.MerkleBlock :=
  {| Merkle.version := 1; Merkle.prevBlock := "";
     Merkle.merkleRoot := to_hex (hash256 (hash256 [7] ++ hash256 [7]));
     Merkle.ts := 0; Merkle.bits_ := 0; Merkle.nonce := 0;
     Merkle.totalTX := 2; Merkle.height := 0;
     Merkle.hashes := [hash256 [7]; hash256 [7]];
     Merkle.flags := [7];
     Merkle.txs := []; Merkle.map := ∅; Merkle.matches := [];
     Merkle._validPartial := None |}.

(** The merkle block for the five transactions with the second and the
    fifth matched, and the tree read back from it. *)
Definition merkle5 : Merkle.MerkleBlock :=
  match Merkle.fromMatches block5 [false; true; false; false; true] with
  | Ok mb => mb
  | Throw _ => forged
  end.

Definition tree5 : Merkle.PartialTree :=
  match Merkle.extractTree merkle5 with
  | Some tree => tree
  | None => {| Merkle.root := ""; Merkle.t_matches := []; Merkle.t_indexes := [];
               Merkle.t_map := ∅ |}
  end.

(** [extractTree] on what [fromMatches] builds. *)
Definition rebuilt (block : Merkle.Block) (matched : list bool) : option Merkle.PartialTree :=
  match Merkle.fromMatches block matched with
  | Ok mb => Merkle.extractTree mb
  | Throw _ => None
  end.

End MerkleExamples.


(** ** A merkle block to store *)

Module BlockExamples.
Import Examples MerkleExamples.

(** The value of a hexadecimal digit, and the bytes that
    [new Buffer(str, 'hex')] reads from the digits two by two. *)
Definition hex_value (c : ascii) : Z :=
  match c with
  | "0" => 0 | "1" => 1 | "2" => 2 | "3" => 3 | "4" => 4 | "5" => 5 | "6" => 6 | "7" => 7
  | "8" => 8 | "9" => 9 | "a" => 10 | "b" => 11 | "c" => 12 | "d" => 13 | "e" => 14
  | _ => 15
  end%char.

Fixpoint from_hex (s : string) : Buffer :=
  match s with
  | String hi (String lo rest) => (hex_value hi * 16 + hex_value lo) :: from_hex rest
  | _ => []
  end.

(** Node's codecs with ['hex'] told apart: two digits to the byte.
    Every other encoding name is read as ['ascii']. *)
Definition hex_codec : NodeBuffer := {|
  jsfloat := unit;
  buf_toString := fun enc b => if String.eqb enc "hex" then to_hex b else ascii_toString b;
  buf_byteLength := fun s enc =>
    if String.eqb enc "hex" then Z.of_nat (String.length s) / 2
    else Z.of_nat (String.length s);
  buf_encode := fun s enc => if String.eqb enc "hex" then from_hex s else ascii_encode s;
  float_bytesLE := fun _ => buf_zero 4;
  float_bytesBE := fun _ => buf_zero 4;
  double_bytesLE := fun _ => buf_zero 8;
  double_bytesBE := fun _ => buf_zero 8
|}.

(** The merkle block [merkle5] under a full header. *)
Definition stored5 : Merkle.MerkleBlock :=
  Merkle.set_header 2 (to_hex (hash256 [0])) (Merkle.merkleRoot merkle5)
    1231006505 0x1d00ffff 2083236893 5 merkle5.

(** A block to read into, with one hash in it already. *)
Definition receiver5 : Merkle.MerkleBlock :=
  {| Merkle.version := 1; Merkle.prevBlock := ""; Merkle.merkleRoot := "";
     Merkle.ts := 0; Merkle.bits_ := 0; Merkle.nonce := 0;
     Merkle.totalTX := 0; Merkle.height := 7;
     Merkle.hashes := [hash256 [9]]; Merkle.flags := [];
     Merkle.txs := []; Merkle.map := ∅; Merkle.matches := [];
     Merkle._validPartial := None |}.

End BlockExamples.

(** ** Points to compress *)

Module PointExamples.

(** A stand-in for the curve, so that keys can be converted: the second
    coordinate of a point repeats the first, and the prefix of the
    compressed form tells the parity of its last byte. *)
Definition toy_convert (key : Buffer) (compress : bool) : res Buffer :=
  let x := take 32 (drop 1 key) in
  let parity := byte_at x 31 mod 2 in
  let prefix := byte_at key 0 in
  if compress then
    if (buf_length key =? 65)
       && ((prefix =? 4) || (prefix =? 6) || (prefix =? 7))
       && bool_decide (drop 33 key = x)
    then Ok ((2 + parity) :: x)
    else Throw "Invalid point."
  else
    if (buf_length key =? 33) && (prefix =? 2 + parity)
    then Ok (4 :: x ++ x)
    else Throw "Invalid point.".

Definition toy_curve : ECPoint := {| publicKeyConvert := toy_convert |}.

(** A point in the hybrid format, with the prefix 7, and a buffer of 33
    bytes that is the compressed form of no point. *)
Definition hybrid_key : Buffer :=
  7 :: (Z.of_nat <$> seq 1 32) ++ (Z.of_nat <$> seq 1 32).

Definition stray_key : Buffer := 0x1f :: (Z.of_nat <$> seq 1 32).

End PointExamples.

(** ** Words to spell entropy with *)

Module MnemonicExamples.

(** A stand-in for the word lists: 2048 words of two characters, in
    the order of [strcmp], the same for every language. *)
Definition toy_words : list string :=
  (fun i => String (ascii_of_nat (65 + i / 64)) (String (ascii_of_nat (48 + i mod 64)) ""))
    <$> seq 0 2048.

(** The index of a key in a list of distinct items, or -1: what the
    binary search returns on a sorted list. *)
Fixpoint index_from (items : list string) (key : string) (i : Z) : Z :=
  match items with
  | [] => -1
  | item :: rest => if String.eqb item key then i else index_from rest key (i + 1)
  end.

Definition toy_lists : Mnemonic.MnemonicEnv := {|
  Mnemonic.MIN_ENTROPY := 128;
  Mnemonic.MAX_ENTROPY := 512;
  Mnemonic.getWordlist := fun _ => toy_words;
  Mnemonic.binarySearch := fun items key => index_from items key 0
|}.

(** A character that is no space and does not open an ideographic
    space. *)
Definition plain (c : ascii) : bool :=
  negb (Ascii.eqb c " ") && negb (Ascii.eqb c "227").

Definition plain_word (word : string) : bool :=
  match word with
  | String c1 (String c2 EmptyString) => plain c1 && plain c2
  | _ => false
  end.

(** A mnemonic with 128 bits of entropy and no phrase yet, and one to
    read a phrase into. *)
Definition mnemonic16 : Mnemonic.Mnemonic :=
  {| Mnemonic.bits := 128; Mnemonic.language := "simplified chinese";
     Mnemonic.entropy := Some (take 16 (sha256 [1; 2; 3]));
     Mnemonic.phrase := None; Mnemonic.passphrase := "secret" |}.

Definition blank : Mnemonic.Mnemonic :=
  {| Mnemonic.bits := 128; Mnemonic.language := "english"; Mnemonic.entropy := None;
     Mnemonic.phrase := None; Mnemonic.passphrase := "" |}.

End MnemonicExamples.

(* ===================================================================== *)
(** * Part II: theorems                                                    *)
(* ===================================================================== *)

Example sha256_abc :
  to_hex (sha256 [0x61; 0x62; 0x63])
  = "ba7816bf8f01cfea414140de5dae2223b00361a396177a9cb410ff61f20015ad"%string.
Proof. vm_compute. reflexivity. Qed.

Example sha256_empty :
  to_hex (sha256 [])
  = "e3b0c44298fc1c149afbf4c8996fb92427ae41e4649b934ca495991b7852b855"%string.
Proof. vm_compute. reflexivity. Qed.

(** ** The monad *)

Section MonadFacts.
Context {S : Type}.

Lemma bind_ret_l {A B} (a : A) (k : A -> M S B) s : bind (ret a) k s = k a s.
Proof. reflexivity. Qed.

Lemma bind_get {B} (k : S -> M S B) s : bind get k s = k s s.
Proof. reflexivity. Qed.

Lemma bind_put {B} (s' : S) (k : unit -> M S B) s : bind (put s') k s = k tt s'.
Proof. reflexivity. Qed.

Lemma bind_throw {A B} (e : string) (k : A -> M S B) s :
  bind (throw e) k s = (Throw e, s).
Proof. reflexivity. Qed.

Lemma bind_assert_true {B} (c : bool) e (k : unit -> M S B) s :
  c = true -> bind (assert c e) k s = k tt s.
Proof. intros ->. reflexivity. Qed.

Lemma bind_assert_false {B} (c : bool) e (k : unit -> M S B) s :
  c = false -> bind (assert c e) k s = (Throw e, s).
Proof. intros ->. reflexivity. Qed.

Lemma bind_ok {A B} (m : M S A) (k : A -> M S B) s a s' :
  m s = (Ok a, s') -> bind m k s = k a s'.
Proof. unfold bind. intros ->. reflexivity. Qed.

Lemma bind_fail {A B} (m : M S A) (k : A -> M S B) s e s' :
  m s = (Throw e, s') -> bind m k s = (Throw e, s').
Proof. unfold bind. intros ->. reflexivity. Qed.

End MonadFacts.

(** ** Buffers *)

Lemma buf_length_nonneg (b : Buffer) : 0 <= buf_length b.
Proof. unfold buf_length. lia. Qed.

Lemma le_bytes_length w v : length (le_bytes w v) = w.
Proof. unfold le_bytes. rewrite length_fmap, length_seq. reflexivity. Qed.

Lemma be_bytes_length w v : length (be_bytes w v) = w.
Proof. unfold be_bytes. rewrite length_reverse. apply le_bytes_length. Qed.

Lemma buf_zero_length n : 0 <= n -> buf_length (buf_zero n) = n.
Proof. intros Hn. unfold buf_length, buf_zero. rewrite length_replicate. lia. Qed.

Lemma buf_slice_length b s e :
  0 <= s -> s <= e -> e <= buf_length b -> buf_length (buf_slice b s e) = e - s.
Proof.
  unfold buf_length, buf_slice. intros Hs He Hb.
  rewrite length_take, length_drop. lia.
Qed.

(** ** BufferReader *)

Section ReaderFacts.
Context `{Encoding} `{NodeBuffer}.
Import Reader.

Lemma readVarint_ok r value size :
  enc_readVarint (data r) (offset r) = Ok (value, size) ->
  readVarint r = (Ok value, set_offset (offset r + size) r).
Proof. intros Hv. unfold readVarint. rewrite bind_get, Hv. reflexivity. Qed.

Lemma readU8_ok r :
  offset r + 1 <= buf_length (data r) ->
  readU8 r = (Ok (byte_at (data r) (offset r)), set_offset (offset r + 1) r).
Proof.
  intros Hb. unfold readU8. rewrite bind_get, bind_assert_true by lia. reflexivity.
Qed.

Lemma readU32_ok r :
  offset r + 4 <= buf_length (data r) ->
  readU32 r = (Ok (readUInt32LE (data r) (offset r)), set_offset (offset r + 4) r).
Proof.
  intros Hb. unfold readU32. rewrite bind_get, bind_assert_true by lia. reflexivity.
Qed.

Lemma readU32BE_ok r :
  offset r + 4 <= buf_length (data r) ->
  readU32BE r = (Ok (readUInt32BE (data r) (offset r)), set_offset (offset r + 4) r).
Proof.
  intros Hb. unfold readU32BE. rewrite bind_get, bind_assert_true by lia. reflexivity.
Qed.

Lemma readBytes_ok r size zc :
  0 <= size -> offset r + size <= buf_length (data r) ->
  readBytes size zc r
  = (Ok (buf_slice (data r) (offset r) (offset r + size)), set_offset (offset r + size) r).
Proof.
  intros Hs Hb. unfold readBytes.
  rewrite bind_get, !bind_assert_true by lia.
  destruct (zeroCopy r || truthy zc); reflexivity.
Qed.

(** A read of more bytes than remain throws and leaves the reader where
    it was. *)
Lemma readBytes_overrun r size zc :
  buf_length (data r) < offset r + size ->
  readBytes size zc r = (Throw "AssertionError", r).
Proof.
  intros Hb. unfold readBytes. rewrite bind_get.
  destruct (0 <=? size) eqn:Hs.
  - rewrite bind_assert_true by reflexivity. rewrite bind_assert_false by lia. reflexivity.
  - rewrite bind_assert_false by reflexivity. reflexivity.
Qed.

Lemma createChecksum_eq r :
  createChecksum r
  = (Ok (readUInt32LE (hash256 (buf_slice (data r) (checksum_start r) (offset r))) 0), r).
Proof. reflexivity. Qed.

Lemma verifyChecksum_eq r :
  offset r + 4 <= buf_length (data r) ->
  verifyChecksum r
  = (if readUInt32LE (hash256 (buf_slice (data r) (checksum_start r) (offset r))) 0
        =? readUInt32LE (data r) (offset r)
     then Ok (readUInt32LE (data r) (offset r))
     else Throw "Checksum mismatch.",
     set_offset (offset r + 4) r).
Proof.
  intros Hb. unfold verifyChecksum.
  rewrite (bind_ok _ _ _ _ _ (createChecksum_eq r)).
  rewrite (bind_ok _ _ _ _ _ (readU32_ok r Hb)).
  destruct (_ =? _); reflexivity.
Qed.

(** C6 (as amended).  [readVarString] takes an optional limit: when the
    decoded length prefix exceeds a non-zero limit, the read throws
    "String exceeds limit." having consumed the prefix only.
    [readVarBytes] takes no limit, its parameter being the zero-copy
    flag; it throws, having consumed the prefix only, when the length
    prefix exceeds the bytes that remain. *)
Theorem readVar_length_guard r value size :
  enc_readVarint (data r) (offset r) = Ok (value, size) ->
  (forall enc limit, limit <> 0 -> limit < value ->
     readVarString enc (JNum limit) r
     = (Throw "String exceeds limit.", set_offset (offset r + size) r))
  /\ (forall zc, buf_length (data r) < offset r + size + value ->
     readVarBytes zc r = (Throw "AssertionError", set_offset (offset r + size) r)).
Proof.
  intros Hv. split.
  - intros enc limit Hnz Hlt. unfold readVarString.
    rewrite (bind_ok _ _ _ _ _ (readVarint_ok r value size Hv)).
    rewrite bind_assert_false; [reflexivity |].
    unfold limit_ok. cbn.
    destruct (limit =? 0) eqn:Hz; [lia |]. cbn. lia.
  - intros zc Hover. unfold readVarBytes.
    rewrite (bind_ok _ _ _ _ _ (readVarint_ok r value size Hv)).
    apply readBytes_overrun. cbn. lia.
Qed.

(** With an empty span stack [createChecksum] does not fail: it
    hashes the bytes from offset 0 up to the current offset, twice with
    SHA-256, and [verifyChecksum] compares that checksum with the four
    bytes that follow. *)
Lemma checksum_without_start r :
  stack r = [] ->
  createChecksum r
  = (Ok (readUInt32LE (sha256 (sha256 (buf_slice (data r) 0 (offset r)))) 0), r)
  /\ (offset r + 4 <= buf_length (data r) ->
      verifyChecksum r
      = (if readUInt32LE (sha256 (sha256 (buf_slice (data r) 0 (offset r)))) 0
            =? readUInt32LE (data r) (offset r)
         then Ok (readUInt32LE (data r) (offset r))
         else Throw "Checksum mismatch.",
         set_offset (offset r + 4) r)).
Proof.
  intros Hst.
  assert (Hs : checksum_start r = 0) by (unfold checksum_start; rewrite Hst; reflexivity).
  split.
  - rewrite createChecksum_eq, Hs. reflexivity.
  - intros Hb. rewrite verifyChecksum_eq by exact Hb. rewrite Hs. reflexivity.
Qed.

End ReaderFacts.

(** ** HD public keys *)

Section HDFacts.
Context `{HDCrypto}.
Import HD.

(** The body of [derive] on a numeric index, one call deep. *)
Lemma derive_number_unfold this index hardened cache :
  derive_number this index hardened cache
  = if (HARDENED <=? index) || hardened then (Throw "Index out of range.", cache)
    else if index <? 0 then (Throw "Index out of range.", cache)
    else if 0xff <=? depth this then (Throw "Depth too high.", cache)
    else
      match LRU.get (getID this index) cache with
      | (Some child, cache') => (Ok (child, this), cache')
      | (None, cache') =>
          match tweak_add this index with
          | Throw _ => derive_number this (index + 1) false cache'
          | Ok key =>
              (Ok (make_child this index key,
                   set_fingerPrint (Some (own_fingerPrint this)) this),
               LRU.set (getID this index) (make_child this index key) cache')
          end
      end.
Proof.
  rewrite (derive_number_equation_1 this index hardened).
  destruct (decide (HARDENED <= index \/ hardened = true)) as [Hr | Hr]; cbn.
  - assert (((HARDENED <=? index) || hardened) = true) as ->; [| reflexivity].
    destruct Hr as [Hr | ->]; [| apply orb_true_r].
    apply orb_true_iff. left. lia.
  - assert (((HARDENED <=? index) || hardened) = false) as ->.
    { apply orb_false_iff. split; [lia |]. destruct hardened; [tauto | reflexivity]. }
    destruct (index <? 0); [reflexivity |].
    destruct (0xff <=? depth this); [reflexivity |].
    destruct (LRU.get (getID this index) cache) as [[child |] cache']; [reflexivity |].
    destruct (tweak_add this index); reflexivity.
Qed.

Lemma lru_get_lookup {V} k (c : LRU.t V) : (LRU.get k c).1 = LRU.lookup c k.
Proof. unfold LRU.get, LRU.lookup. destruct (LRU.assoc k (LRU.entries c)); reflexivity. Qed.

Lemma lru_get_miss {V} k (c : LRU.t V) : LRU.lookup c k = None -> LRU.get k c = (None, c).
Proof. unfold LRU.get, LRU.lookup. intros ->. reflexivity. Qed.

(** On a numeric index, a hardened request always throws. *)
Lemma derive_number_hardened this index hardened cache :
  HARDENED <= index \/ hardened = Some true ->
  derive this (IdxNum index) hardened cache = (Throw "Index out of range.", cache).
Proof.
  intros Hh. unfold derive. rewrite derive_number_unfold.
  assert (((HARDENED <=? index) || default false hardened) = true) as ->; [| reflexivity].
  destruct Hh as [Hh | ->]; [| apply orb_true_r].
  apply orb_true_iff. left. lia.
Qed.

(** On a path, [derive] returns what [derivePath] returns, whatever the
    [hardened] argument is. *)
Lemma derive_path_any_flag this path hardened cache :
  derive this (IdxPath path) hardened cache = derive this (IdxPath path) None cache.
Proof. reflexivity. Qed.

(** When the tweak-add of [derive(index)] fails, the call is the call
    for the next index. *)
Lemma derive_number_retry this index cache :
  tweak_fails this index cache ->
  derive_number this index false cache = derive_number this (index + 1) false cache.
Proof.
  intros (Hrange & Hdepth & Hmiss & Hfail).
  rewrite derive_number_unfold at 1.
  assert (((HARDENED <=? index) || false) = false) as ->.
  { apply orb_false_iff. split; [lia | reflexivity]. }
  assert ((index <? 0) = false) as -> by lia.
  assert ((0xff <=? depth this) = false) as -> by lia.
  rewrite lru_get_miss by exact Hmiss.
  destruct (tweak_add this index); [discriminate | reflexivity].
Qed.

(** The child that [derive] returns records the first index, from the
    requested one on, whose derivation succeeds. *)
Lemma derive_number_index this cache :
  cache_indexed this cache ->
  forall (n : nat) index child this' cache',
    Z.to_nat (HARDENED - index) = n ->
    0 <= index ->
    derive_number this index false cache = (Ok (child, this'), cache') ->
    index <= childIndex child
    /\ (forall k, index <= k < childIndex child -> is_ok (tweak_add this k) = false)
    /\ (LRU.lookup cache (getID this (childIndex child)) = Some child
        \/ tweak_add this (childIndex child) = Ok (publicKey child)).
Proof.
  intros Hcache n. induction n as [| n IH]; intros index child this' cache' Hn Hpos Hd.
  - rewrite derive_number_unfold in Hd.
    assert (((HARDENED <=? index) || false) = true) as Hr.
    { apply orb_true_iff. left. lia. }
    rewrite Hr in Hd. discriminate.
  - rewrite derive_number_unfold in Hd.
    assert (((HARDENED <=? index) || false) = false) as Hr.
    { apply orb_false_iff. split; [lia | reflexivity]. }
    rewrite Hr in Hd.
    assert ((index <? 0) = false) as Hneg by lia. rewrite Hneg in Hd.
    destruct (0xff <=? depth this); [discriminate |].
    pose proof (lru_get_lookup (getID this index) cache) as Hl.
    destruct (LRU.get (getID this index) cache) as [[cached |] cache1] eqn:Hg; cbn in Hl.
    + inversion Hd; subst.
      assert (childIndex child = index) as Hi by (apply Hcache; congruence).
      rewrite Hi. split; [lia |]. split; [intros k Hk; lia |]. left. congruence.
    + assert (cache1 = cache) as ->.
      { rewrite lru_get_miss in Hg by congruence. congruence. }
      destruct (tweak_add this index) as [key | e] eqn:Ht.
      * inversion Hd; subst. cbn.
        split; [lia |]. split; [intros k Hk; lia |]. right. exact Ht.
      * apply IH in Hd; [| lia | lia].
        destruct Hd as (Hle & Hfail & Hsucc).
        split; [lia |]. split; [| exact Hsucc].
        intros k Hk. destruct (decide (k = index)) as [-> | Hne].
        -- rewrite Ht. reflexivity.
        -- apply Hfail. lia.
Qed.

(** The cache after a lookup and after a store. *)
Lemma lru_assoc_remove {V} k k' (l : list (string * V)) :
  LRU.assoc k (LRU.remove k' l) = if String.eqb k k' then None else LRU.assoc k l.
Proof.
  induction l as [| [k0 v] l IH]; cbn [LRU.remove LRU.assoc]; [destruct (String.eqb k k'); reflexivity |].
  destruct (String.eqb k' k0) eqn:E0.
  - apply String.eqb_eq in E0. subst k0. rewrite IH.
    destruct (String.eqb k k'); reflexivity.
  - cbn [LRU.assoc]. rewrite IH.
    destruct (String.eqb k k0) eqn:E1; [| reflexivity].
    apply String.eqb_eq in E1. subst k0.
    destruct (String.eqb k k') eqn:E2; [| reflexivity].
    apply String.eqb_eq in E2. subst k'. rewrite String.eqb_refl in E0. discriminate.
Qed.

Lemma lru_assoc_take {V} k (n : nat) : forall (l : list (string * V)) v,
  LRU.assoc k (take n l) = Some v -> LRU.assoc k l = Some v.
Proof.
  induction n as [| n IH]; intros l v; [discriminate |].
  destruct l as [| [k0 v0] l]; [discriminate |].
  cbn [take LRU.assoc]. destruct (String.eqb k k0); [tauto | apply IH].
Qed.

Lemma lru_get_keeps {V} k k' (c : LRU.t V) :
  LRU.lookup (LRU.get k c).2 k' = LRU.lookup c k'.
Proof.
  unfold LRU.get, LRU.lookup.
  destruct (LRU.assoc k (LRU.entries c)) as [v |] eqn:Hk; [| reflexivity].
  cbn [snd LRU.entries LRU.assoc]. rewrite lru_assoc_remove.
  destruct (String.eqb k' k) eqn:E; [| reflexivity].
  apply String.eqb_eq in E. subst k'. symmetry. exact Hk.
Qed.

Lemma lru_set_lookup {V} k k' (v x : V) (c : LRU.t V) :
  LRU.lookup (LRU.set k v c) k' = Some x ->
  (k' = k /\ x = v) \/ (k' <> k /\ LRU.lookup c k' = Some x).
Proof.
  unfold LRU.set, LRU.lookup. cbn [LRU.entries]. intros Hx.
  apply lru_assoc_take in Hx. cbn [LRU.assoc] in Hx.
  destruct (String.eqb k' k) eqn:E.
  - left. apply String.eqb_eq in E. split; [exact E | congruence].
  - right. apply String.eqb_neq in E. split; [exact E |].
    rewrite lru_assoc_remove in Hx.
    destruct (String.eqb k' k) eqn:E'; [discriminate | exact Hx].
Qed.

(** The identifiers of the children of one key differ with the index. *)
Lemma getID_inj this j k : getID this j = getID this k -> j = k.
Proof.
  unfold getID. intros Hid.
  apply String.app_inj in Hid. apply String.app_inj in Hid.
  apply pretty_Z_inj in Hid. exact Hid.
Qed.

(** A new cache files every child under its index, and [derive] keeps
    it so: the child it stores is stored under the index it records. *)
Lemma cache_indexed_new this n : cache_indexed this (LRU.new n).
Proof. intros j child Hl. discriminate Hl. Qed.

Lemma derive_number_keeps_indexed this :
  forall (n : nat) index hardened cache out cache',
    Z.to_nat (HARDENED - index) = n ->
    cache_indexed this cache ->
    derive_number this index hardened cache = (out, cache') ->
    cache_indexed this cache'.
Proof.
  induction n as [| n IH]; intros index hardened cache out cache' Hn Hcache Hd.
  - rewrite derive_number_unfold in Hd.
    assert (((HARDENED <=? index) || hardened) = true) as Hr.
    { apply orb_true_iff. left. lia. }
    rewrite Hr in Hd. inversion Hd; subst. exact Hcache.
  - rewrite derive_number_unfold in Hd.
    destruct ((HARDENED <=? index) || hardened) eqn:Hr; [inversion Hd; subst; exact Hcache |].
    apply orb_false_iff in Hr as [Hr _].
    destruct (index <? 0); [inversion Hd; subst; exact Hcache |].
    destruct (0xff <=? depth this); [inversion Hd; subst; exact Hcache |].
    assert (Hkept : cache_indexed this (LRU.get (getID this index) cache).2).
    { intros j child Hl. rewrite lru_get_keeps in Hl. apply Hcache, Hl. }
    destruct (LRU.get (getID this index) cache) as [[cached |] cache1]; cbn [snd] in Hkept.
    + inversion Hd; subst. exact Hkept.
    + destruct (tweak_add this index) as [key | e].
      * inversion Hd; subst. intros j child Hl.
        apply lru_set_lookup in Hl as [[Hid ->] | [_ Hl]].
        -- apply getID_inj in Hid. subst j. reflexivity.
        -- apply Hkept, Hl.
      * apply (IH (index + 1) false cache1 out cache'); [lia | exact Hkept | exact Hd].
Qed.

(** A run of failing indexes is skipped. *)
Lemma derive_number_run this cache (n : nat) : forall i j,
  j - i = Z.of_nat n ->
  (forall k, i <= k < j -> tweak_fails this k cache) ->
  derive_number this i false cache = derive_number this j false cache.
Proof.
  induction n as [| n IH]; intros i j Hn Hfail.
  - replace j with i by lia. reflexivity.
  - rewrite derive_number_retry by (apply Hfail; lia).
    apply IH; [lia |]. intros k Hk. apply Hfail. lia.
Qed.

(** C8.  When the tweak-add for a non-hardened index [i] produces an
    invalid point, [derive(i)] returns what [derive(i + 1)] returns.
    It returns a child when a later index has one: if [j] is the first
    index behind [i] at which the tweak-add gives a valid point, or at
    which the cache holds a child, [derive(i)] returns the child built
    for [j], or that cached child, and its [childIndex] is [j], not
    [i]; if there is no such index below [HARDENED], it throws.
    Whatever child [derive(i)] returns, its [childIndex] is greater
    than [i], the tweak-add failed at every index from [i] up to it,
    and the child is the one derived (or cached) for that index; and
    the cache is left with every child filed under its index, as it
    was found. *)
Theorem derive_invalid_tweak_skips this i cache :
  tweak_fails this i cache ->
  cache_indexed this cache ->
  derive this (IdxNum i) None cache = derive this (IdxNum (i + 1)) None cache
  /\ (forall j key,
        i < j < HARDENED ->
        (forall k, i < k < j -> tweak_fails this k cache) ->
        LRU.lookup cache (getID this j) = None ->
        tweak_add this j = Ok key ->
        derive this (IdxNum i) None cache
        = (Ok (make_child this j key, set_fingerPrint (Some (own_fingerPrint this)) this),
           LRU.set (getID this j) (make_child this j key) cache)
        /\ childIndex (make_child this j key) = j
        /\ publicKey (make_child this j key) = key)
  /\ (forall j child,
        i < j < HARDENED ->
        (forall k, i < k < j -> tweak_fails this k cache) ->
        LRU.lookup cache (getID this j) = Some child ->
        (derive this (IdxNum i) None cache).1 = Ok (child, this)
        /\ childIndex child = j)
  /\ ((forall k, i < k < HARDENED -> tweak_fails this k cache) ->
      derive this (IdxNum i) None cache = (Throw "Index out of range.", cache))
  /\ forall child this' cache',
       derive this (IdxNum i) None cache = (Ok (child, this'), cache') ->
       i < childIndex child
       /\ (forall k, i <= k < childIndex child -> is_ok (tweak_add this k) = false)
       /\ (LRU.lookup cache (getID this (childIndex child)) = Some child
           \/ tweak_add this (childIndex child) = Ok (publicKey child))
       /\ cache_indexed this cache'.
Proof.
  intros Hfail Hcache. cbn [derive default].
  pose proof (derive_number_retry this i cache Hfail) as Hretry.
  assert (Hrun : forall j, i < j ->
            (forall k, i < k < j -> tweak_fails this k cache) ->
            derive_number this i false cache = derive_number this j false cache).
  { intros j Hj Hk.
    apply (derive_number_run this cache (Z.to_nat (j - i))); [lia |].
    intros k Hik. destruct (decide (k = i)) as [-> | Hne]; [exact Hfail | apply Hk; lia]. }
  destruct Hfail as (Hrange & Hdepth & Hmiss & Hf).
  assert (Hfail : tweak_fails this i cache) by (repeat split; (assumption || lia)).
  split; [exact Hretry |].
  split.
  { intros j key Hj Hk Hl Ht. split; [| split; reflexivity].
    rewrite (Hrun j) by (lia || exact Hk).
    rewrite derive_number_unfold.
    assert (((HARDENED <=? j) || false) = false) as ->.
    { apply orb_false_iff. split; [lia | reflexivity]. }
    assert ((j <? 0) = false) as -> by lia.
    assert ((0xff <=? depth this) = false) as -> by lia.
    rewrite lru_get_miss by exact Hl. rewrite Ht. reflexivity. }
  split.
  { intros j child Hj Hk Hl. split; [| apply Hcache, Hl].
    rewrite (Hrun j) by (lia || exact Hk).
    rewrite derive_number_unfold.
    assert (((HARDENED <=? j) || false) = false) as ->.
    { apply orb_false_iff. split; [lia | reflexivity]. }
    assert ((j <? 0) = false) as -> by lia.
    assert ((0xff <=? depth this) = false) as -> by lia.
    pose proof (lru_get_lookup (getID this j) cache) as Hg. rewrite Hl in Hg.
    destruct (LRU.get (getID this j) cache) as [[cached |] cache1]; cbn [fst] in Hg;
      [| discriminate].
    inversion Hg; subst. reflexivity. }
  split.
  { intros Hall. rewrite (Hrun HARDENED) by (lia || exact Hall).
    rewrite derive_number_unfold.
    assert (((HARDENED <=? HARDENED) || false) = true) as ->; [| reflexivity].
    apply orb_true_iff. left. lia. }
  intros child this' cache' Hd.
  pose proof (derive_number_keeps_indexed this _ i false cache _ cache' eq_refl Hcache Hd)
    as Hkeeps.
  rewrite Hretry in Hd.
  eapply derive_number_index in Hd; [| exact Hcache | reflexivity | lia].
  destruct Hd as (Hle & Hfails & Hsucc).
  split; [lia |]. split; [| split; [exact Hsucc | exact Hkeeps]].
  intros k Hk. destruct (decide (k = i)) as [-> | Hne]; [exact Hf | apply Hfails; lia].
Qed.

End HDFacts.

Section FromRawFacts.
Context `{Encoding} `{NodeBuffer}.
Import HD.

Lemma on_reader_ok {A B} (m : M Reader.BufferReader A)
    (k : A -> M (HDPublicKey * Reader.BufferReader) B) key br a br' :
  m br = (Ok a, br') -> bind (on_reader m) k (key, br) = k a (key, br').
Proof. intros Hm. unfold bind, on_reader. cbn. rewrite Hm. reflexivity. Qed.

Lemma update_key_ok {B} f (k : unit -> M (HDPublicKey * Reader.BufferReader) B) key br :
  bind (update_key f) k (key, br) = k tt (f key, br).
Proof. reflexivity. Qed.

(** The reader on which [fromRaw] calls [verifyChecksum] has read the 78
    bytes of the key and has an empty span stack; the call succeeds
    exactly when bytes 78 to 81 are the checksum of bytes 0 to 77. *)
Lemma fromRaw_result this raw :
  82 <= buf_length raw ->
  (fromRaw this raw).1
  = if readUInt32LE (sha256 (sha256 (buf_slice raw 0 78))) 0 =? readUInt32LE raw 78
    then match find_network (readUInt32BE raw 0) with
         | Some _ => Ok tt
         | None => Throw "Network not found."
         end
    else Throw "Checksum mismatch.".
Proof.
  intros Hlen. unfold fromRaw, fromRaw_body.
  erewrite on_reader_ok; [| apply readU32BE_ok; cbn; lia].
  erewrite on_reader_ok; [| apply readU8_ok; cbn; lia].
  rewrite update_key_ok.
  erewrite on_reader_ok; [| apply readBytes_ok; cbn; lia].
  rewrite update_key_ok.
  erewrite on_reader_ok; [| apply readU32BE_ok; cbn; lia].
  rewrite update_key_ok.
  erewrite on_reader_ok; [| apply readBytes_ok; cbn; lia].
  rewrite update_key_ok.
  erewrite on_reader_ok; [| apply readBytes_ok; cbn; lia].
  rewrite update_key_ok.
  unfold bind at 1. unfold on_reader at 1. cbn [fst snd].
  rewrite verifyChecksum_eq by (cbn; lia).
  cbn [Reader.data Reader.offset Reader.set_offset Reader.new Reader.checksum_start
       Reader.stack last Z.add Pos.add Pos.succ].
  unfold hash256.
  destruct (_ =? _); [| reflexivity].
  destruct (find_network _); reflexivity.
Qed.

(** C10.  On a reader with an empty span stack, that is with no
    [start()] before, [createChecksum] does not fail: its checksum is the
    double SHA-256 of the bytes from offset 0 up to the current offset,
    and [verifyChecksum] compares it with the next four bytes.  The
    deserialization of an extended public key relies on this: [fromRaw]
    marks no start, and accepts a key when the last four of its 82 bytes
    are the checksum of the first 78. *)
Theorem checksum_from_offset_zero :
  (forall r : Reader.BufferReader,
     Reader.stack r = [] ->
     Reader.createChecksum r
     = (Ok (readUInt32LE (sha256 (sha256 (buf_slice (Reader.data r) 0 (Reader.offset r)))) 0), r)
     /\ (Reader.offset r + 4 <= buf_length (Reader.data r) ->
         Reader.verifyChecksum r
         = (if readUInt32LE (sha256 (sha256 (buf_slice (Reader.data r) 0 (Reader.offset r)))) 0
               =? readUInt32LE (Reader.data r) (Reader.offset r)
            then Ok (readUInt32LE (Reader.data r) (Reader.offset r))
            else Throw "Checksum mismatch.",
            Reader.set_offset (Reader.offset r + 4) r)))
  /\ (forall this raw,
        82 <= buf_length raw ->
        (fromRaw this raw).1
        = if readUInt32LE (sha256 (sha256 (buf_slice raw 0 78))) 0 =? readUInt32LE raw 78
          then match find_network (readUInt32BE raw 0) with
               | Some _ => Ok tt
               | None => Throw "Network not found."
               end
          else Throw "Checksum mismatch.").
Proof.
  split.
  - intros r Hst. apply checksum_without_start. exact Hst.
  - apply fromRaw_result.
Qed.

End FromRawFacts.

(** ** The codec and the derivation on examples *)

Section CodecExamples.
Import Examples.

(** C6, witness: a prefix of 10 against a limit of 5, and against a
    payload of 3 bytes. *)
Lemma readVar_length_guard_witness :
  let r := Reader.new [10; 1; 2; 3] false in
  Reader.readVarString "ascii" (JNum 5) r
  = (Throw "String exceeds limit.", Reader.set_offset 1 r)
  /\ Reader.readVarBytes (JBool false) r
     = (Throw "AssertionError", Reader.set_offset 1 r).
Proof.
  intro r.
  assert (Hv : enc_readVarint (Reader.data r) (Reader.offset r) = Ok (10, 1)) by reflexivity.
  destruct (readVar_length_guard r 10 1 Hv) as [Hs Hb].
  split; [apply (Hs "ascii"%string 5); lia | apply Hb; vm_compute; reflexivity].
Defined.

(** C6, counterexample: [readVarBytes] called with 5 in the position of
    a maximum length, on a buffer whose length prefix decodes to 10,
    returns the ten bytes; the argument is its zero-copy flag. *)
Lemma readVarBytes_guard_counterexample :
  let r := Reader.new [10; 1; 2; 3; 4; 5; 6; 7; 8; 9; 10; 11] false in
  enc_readVarint (Reader.data r) (Reader.offset r) = Ok (10, 1)
  /\ 5 < 10
  /\ Reader.readVarBytes (JNum 5) r
     = (Ok [1; 2; 3; 4; 5; 6; 7; 8; 9; 10], Reader.set_offset 11 r).
Proof. vm_compute. repeat split; reflexivity. Qed.

(** C10, witness: a reader that has consumed three bytes, and the
    serialization of a key with its checksum. *)
Lemma checksum_from_offset_zero_witness :
  let r := Reader.set_offset 3 (Reader.new [1; 2; 3; 4; 5; 6; 7] false) in
  Reader.createChecksum r = (Ok (readUInt32LE (sha256 (sha256 [1; 2; 3])) 0), r)
  /\ (HD.fromRaw HD.new raw_key0).1 = Ok tt.
Proof.
  intro r. destruct checksum_from_offset_zero as [Hr Hk]. split.
  - apply (Hr r eq_refl).
  - rewrite (Hk HD.new raw_key0); [| vm_compute; discriminate].
    vm_compute. reflexivity.
Defined.

Lemma parsePath_m0 : HD.parsePath "m/0" (Some HD.HARDENED) = Ok [0].
Proof. vm_compute. reflexivity. Qed.

(** C7, on the code: [derive('m/0', true)] on a public key does not
    throw; it returns the non-hardened child 0. *)
Theorem derive_path_with_hardened_flag :
  exists child this',
    (HD.derive key0 (HD.IdxPath "m/0") (Some true) cache0).1 = Ok (child, this')
    /\ HD.childIndex child = 0
    /\ HD.depth child = 1.
Proof.
  unfold HD.derive, HD.derivePath. rewrite parsePath_m0.
  cbn [HD.derive_indexes]. unfold bind. rewrite derive_number_unfold.
  vm_compute. do 2 eexists. repeat split.
Qed.

(** C8, witness: with the stand-in curve the tweak-add fails at index 3
    of [key0] and gives a point at index 4; [derive(3)] returns the
    child of index 4. *)
Lemma derive_invalid_tweak_skips_witness :
  HD.tweak_fails key0 3 cache0
  /\ exists child this' cache',
       HD.derive key0 (HD.IdxNum 3) None cache0 = (Ok (child, this'), cache')
       /\ HD.childIndex child = 4
       /\ HD.tweak_add key0 4 = Ok (HD.publicKey child).
Proof.
  assert (Hf : HD.tweak_fails key0 3 cache0).
  { unfold HD.tweak_fails. vm_compute. repeat split; congruence. }
  assert (Hc : HD.cache_indexed key0 cache0).
  { intros j child Hl. discriminate Hl. }
  split; [exact Hf |].
  destruct (HD.tweak_add key0 4) as [key | e] eqn:Hk; [| vm_compute in Hk; discriminate Hk].
  destruct (derive_invalid_tweak_skips key0 3 cache0 Hf Hc) as (_ & Hgo & _).
  destruct (Hgo 4 key) as (Hd & Hi & Hp).
  - unfold HD.HARDENED. lia.
  - intros k Hk'. lia.
  - reflexivity.
  - exact Hk.
  - eexists _, _, _. split; [exact Hd |]. split; [exact Hi |]. rewrite Hp. reflexivity.
Defined.

(** The child returned for index 1 is the child of index 4: the
    tweak-add fails at 1, 2 and 3. *)
Example derive_skips_to_4 :
  exists child this' cache',
    HD.derive key0 (HD.IdxNum 1) None cache0 = (Ok (child, this'), cache')
    /\ HD.childIndex child = 4.
Proof.
  unfold HD.derive. cbn [default].
  rewrite derive_number_retry by (unfold HD.tweak_fails; vm_compute; repeat split; congruence).
  rewrite derive_number_retry by (unfold HD.tweak_fails; vm_compute; repeat split; congruence).
  rewrite derive_number_retry by (unfold HD.tweak_fails; vm_compute; repeat split; congruence).
  rewrite derive_number_unfold. vm_compute. do 3 eexists. split; reflexivity.
Qed.

End CodecExamples.

(** ** SHA-256 produces 32 bytes *)

Section SHA256Facts.
Import SHA256.

Lemma round_length st kw : length st = 8%nat -> length (round st kw) = 8%nat.
Proof.
  intros Hl. do 9 (destruct st as [| ? st]; try discriminate). reflexivity.
Qed.

Lemma rounds_length l st : length st = 8%nat -> length (fold_left round l st) = 8%nat.
Proof.
  revert st. induction l as [| kw l IH]; intros st Hl; [exact Hl |].
  cbn. apply IH, round_length, Hl.
Qed.

Lemma compress_length h block : length h = 8%nat -> length (compress h block) = 8%nat.
Proof.
  intros Hl. unfold compress. rewrite length_zip_with, rounds_length by exact Hl. lia.
Qed.

Lemma blocks_length n ws h : length h = 8%nat -> length (blocks n ws h) = 8%nat.
Proof.
  revert ws h. induction n as [| n IH]; intros ws h Hl; [exact Hl |].
  cbn. apply IH, compress_length, Hl.
Qed.

Lemma join_be_bytes_length l : length (mjoin (be_bytes 4 <$> l)) = (4 * length l)%nat.
Proof.
  induction l as [| x l IH]; [reflexivity |].
  change (length (be_bytes 4 x ++ mjoin (be_bytes 4 <$> l)) = (4 * S (length l))%nat).
  rewrite length_app, be_bytes_length, IH. lia.
Qed.

Lemma sha256_length msg : buf_length (sha256 msg) = 32.
Proof.
  unfold buf_length, sha256, SHA256.sha256. rewrite join_be_bytes_length.
  rewrite blocks_length by reflexivity. reflexivity.
Qed.

Lemma hash256_length msg : buf_length (hash256 msg) = 32.
Proof. apply sha256_length. Qed.

End SHA256Facts.

(** ** BufferWriter *)

Section WriterFacts.
Context `{Encoding} `{!EncodingLaws} `{NodeBuffer} `{!NodeBufferLaws}.
Import Writer.

Lemma ops_size_app l1 l2 : ops_size (l1 ++ l2) = ops_size l1 + ops_size l2.
Proof. induction l1 as [| op l1 IH]; cbn; [reflexivity |]. unfold ops_size in *. lia. Qed.

Lemma overlay_length data off bytes : buf_length (overlay data off bytes) = buf_length data.
Proof. unfold buf_length, overlay. rewrite length_imap. reflexivity. Qed.

Lemma room_fits data off n : 0 <= n -> off + n <= buf_length data -> room data off n = n.
Proof. unfold room. lia. Qed.

Lemma consistent_new : consistent new.
Proof. repeat split. constructor. Qed.

Lemma add_push_consistent n op w :
  consistent w -> n = op_size op -> 0 <= n ->
  bind (add_written n) (fun _ => push op) w
  = (Ok tt, {| ops := ops w ++ [op]; written := written w + n; destroyed := false |})
  /\ consistent {| ops := ops w ++ [op]; written := written w + n; destroyed := false |}.
Proof.
  intros (Hd & Hw & Hf) -> Hn. split.
  - unfold bind, add_written, push. cbn. rewrite Hd. reflexivity.
  - repeat split; cbn [ops written destroyed].
    + rewrite ops_size_app, Hw. cbn. lia.
    + apply Forall_app. split; [exact Hf |]. constructor; [exact Hn | constructor].
Qed.

Lemma sizeVarint_nonneg v : 0 <= enc_sizeVarint v.
Proof. rewrite <- enc_writeVarint_size. apply buf_length_nonneg. Qed.

Lemma sizeVarint2_nonneg v : 0 <= enc_sizeVarint2 v.
Proof. rewrite <- enc_writeVarint2_size. apply buf_length_nonneg. Qed.

Ltac queue_one :=
  match goal with
  | Hc : consistent ?w, He : bind (add_written ?n) (fun _ => push ?op) ?w = (Ok tt, ?w') |- _ =>
      let Hq := fresh "Hq" in
      destruct (add_push_consistent n op w Hc) as [Hq ?];
      [ try reflexivity
      | try lia; auto using sizeVarint_nonneg, sizeVarint2_nonneg, buf_length_nonneg
      | rewrite Hq in He; inversion He; subst; clear He Hq ]
  end.

Lemma writeBytes_consistent v w w' :
  consistent w -> writeBytes v w = (Ok tt, w') ->
  consistent w' /\ exists l, ops w' = ops w ++ l.
Proof.
  intros Hc He. unfold writeBytes in He.
  destruct (buf_length v =? 0).
  - inversion He; subst. split; [exact Hc | exists []; symmetry; apply app_nil_r].
  - queue_one. split; [assumption | eexists; reflexivity].
Qed.

Lemma writeVarBytes_consistent v w w' :
  consistent w -> writeVarBytes v w = (Ok tt, w') ->
  consistent w' /\ exists l, ops w' = ops w ++ l.
Proof.
  intros Hc He. unfold writeVarBytes in He.
  destruct (add_push_consistent (enc_sizeVarint (buf_length v)) (VARINT (buf_length v)) w Hc)
    as [Hq Hc1]; [reflexivity | apply sizeVarint_nonneg |].
  change (bind (add_written (enc_sizeVarint (buf_length v)))
            (fun _ => bind (push (VARINT (buf_length v)))
               (fun _ => if buf_length v =? 0 then ret tt
                         else bind (add_written (buf_length v)) (fun _ => push (BYTES v)))) w
          = (Ok tt, w')) in He.
  unfold bind at 1 2 in He. unfold bind in Hq. 
  destruct (add_written (enc_sizeVarint (buf_length v)) w) as [[[] | e] w1]; [| discriminate].
  destruct (push (VARINT (buf_length v)) w1) as [[[] | e] w2]; [| discriminate].
  inversion Hq; subst w2.
  destruct (buf_length v =? 0).
  - inversion He; subst. split; [exact Hc1 | eexists; reflexivity].
  - queue_one.
    split; [assumption |]. cbn. rewrite <- app_assoc. eexists; reflexivity.
Qed.

Lemma writeString_consistent v enc w w' :
  string_ok v enc -> consistent w -> writeString v enc w = (Ok tt, w') ->
  consistent w' /\ exists l, ops w' = ops w ++ l.
Proof.
  intros Hs Hc He. destruct v as [s | b]; [| eapply writeBytes_consistent; eassumption].
  cbn in Hs. unfold writeString in He.
  destruct (String.eqb_spec s "") as [-> | Hne].
  - revert He. unfold bind, add_written, ret. cbn. rewrite buf_byteLength_empty.
    intros He. inversion He; subst.
    destruct Hc as (Hd & Hw & Hf).
    split; [| exists []; cbn; symmetry; apply app_nil_r].
    repeat split; cbn [ops written destroyed]; [exact Hd | lia | exact Hf].
  - rewrite <- Hs in He. queue_one. split; [assumption | eexists; reflexivity].
Qed.

Lemma writeVarString_consistent v enc w w' :
  string_ok v enc -> consistent w -> writeVarString v enc w = (Ok tt, w') ->
  consistent w' /\ exists l, ops w' = ops w ++ l.
Proof.
  intros Hs Hc He. destruct v as [s | b]; [| eapply writeVarBytes_consistent; eassumption].
  cbn in Hs. unfold writeVarString in He.
  destruct Hc as (Hd & Hw & Hf).
  revert He. unfold bind, add_written, push, ret. cbn. rewrite Hd.
  pose proof (sizeVarint_nonneg (buf_byteLength s enc)) as Hv.
  pose proof (buf_length_nonneg (buf_encode s enc)) as Hb.
  destruct (String.eqb_spec s "") as [-> | Hne]; intros He; inversion He; subst.
  - split; [| eexists; reflexivity].
    repeat split; cbn [ops written destroyed].
    + rewrite ops_size_app, Hw, buf_byteLength_empty. cbn. lia.
    + apply Forall_app. split; [exact Hf |]. constructor; [exact Hv | constructor].
  - split; [| rewrite <- app_assoc; eexists; reflexivity].
    repeat split; cbn [ops written destroyed].
    + rewrite !ops_size_app, Hw. cbn. lia.
    + rewrite <- app_assoc. apply Forall_app. split; [exact Hf |].
      constructor; [exact Hv |]. constructor; [cbn; lia | constructor].
Qed.

(** A successful call keeps a consistent writer consistent, and only
    appends to the queue. *)
Lemma exec_consistent c w w' :
  call_ok c -> consistent w -> exec c w = (Ok tt, w') ->
  consistent w' /\ exists l, ops w' = ops w ++ l.
Proof.
  intros Hok Hc He.
  destruct c; cbn [exec call_ok] in *;
    try (eapply writeBytes_consistent; eassumption);
    try (eapply writeVarBytes_consistent; eassumption);
    try (eapply writeString_consistent; eassumption);
    try (eapply writeVarString_consistent; eassumption).
  all: try (unfold seek, writeU8, writeU16, writeU16BE, writeU32, writeU32BE, writeU64,
            writeU64BE, write8, write16, write16BE, write32, write32BE, write64, write64BE,
            writeFloat, writeFloatBE, writeDouble, writeDoubleBE, writeChecksum in He;
            queue_one; split; [assumption | eexists; reflexivity]).
  - (* writeVarint *)
    unfold writeVarint in He. destruct (0 <=? v); [| discriminate].
    rewrite bind_assert_true in He by reflexivity.
    queue_one. split; [assumption | eexists; reflexivity].
  - (* writeVarint2 *)
    unfold writeVarint2 in He. destruct (0 <=? v); [| discriminate].
    rewrite bind_assert_true in He by reflexivity.
    queue_one. split; [assumption | eexists; reflexivity].
  - (* writeNullString *)
    unfold writeNullString in He. unfold bind at 1 in He.
    destruct (writeString v enc w) as [[[] | e] w1] eqn:Hw1; [| discriminate].
    destruct (writeString_consistent v enc w w1 Hok Hc Hw1) as [Hc1 [l1 Hl1]].
    unfold writeU8 in He. queue_one.
    split; [assumption |]. cbn. rewrite Hl1, <- app_assoc. eexists; reflexivity.
  - (* fill *)
    unfold fill in He. destruct (0 <=? size) eqn:Hs; [| discriminate].
    rewrite bind_assert_true in He by reflexivity.
    destruct (size =? 0).
    + inversion He; subst. split; [exact Hc | exists []; symmetry; apply app_nil_r].
    + queue_one. split; [assumption | eexists; reflexivity].
Qed.

Lemma exec_all_app l1 l2 w :
  exec_all (l1 ++ l2) w = bind (exec_all l1) (fun _ => exec_all l2) w.
Proof.
  revert w. induction l1 as [| c l1 IH]; intros w; [reflexivity |].
  cbn [exec_all app]. unfold bind.
  destruct (exec c w) as [[[] | e] w1]; [rewrite IH; reflexivity | reflexivity].
Qed.

Lemma exec_all_consistent calls w w' :
  Forall call_ok calls -> consistent w -> exec_all calls w = (Ok tt, w') ->
  consistent w' /\ exists l, ops w' = ops w ++ l.
Proof.
  intros Hok. revert w. induction Hok as [| c calls Hc Hcalls IH]; intros w Hw He.
  - inversion He; subst. split; [exact Hw | exists []; symmetry; apply app_nil_r].
  - cbn [exec_all] in He. unfold bind in He.
    destruct (exec c w) as [[[] | e] w1] eqn:He1; [| discriminate].
    destruct (exec_consistent c w w1 Hc Hw He1) as [Hw1 [l1 Hl1]].
    destruct (IH w1 Hw1 He) as [Hw' [l2 Hl2]].
    split; [exact Hw' |]. exists (l1 ++ l2). rewrite Hl2, Hl1, app_assoc. reflexivity.
Qed.

(** *** The replay *)

Lemma replay_op_length op data off data' off' :
  replay_op op (data, off) = Ok (data', off') -> buf_length data' = buf_length data.
Proof.
  destruct op; cbn; try destruct (off <? 0); intros Hr; inversion Hr; subst;
    try apply overlay_length; reflexivity.
Qed.

Lemma replay_length l data off data' off' :
  replay l (data, off) = Ok (data', off') -> buf_length data' = buf_length data.
Proof.
  revert data off. induction l as [| op l IH]; intros data off Hr.
  - inversion Hr; subst. reflexivity.
  - cbn [replay] in Hr. destruct (replay_op op (data, off)) as [[d1 o1] | e] eqn:Hop; [| discriminate].
    rewrite (IH _ _ Hr). eapply replay_op_length, Hop.
Qed.

(** With room for it, an operation advances the offset by its size. *)
Lemma replay_op_ok op data off :
  0 <= op_size op -> 0 <= off -> off + op_size op <= buf_length data ->
  exists data', replay_op op (data, off) = Ok (data', off + op_size op).
Proof.
  intros Hs Hoff Hroom.
  assert (Hneg : (off <? 0) = false) by lia.
  destruct op; cbn [replay_op op_size] in *; rewrite ?Hneg;
    try (eexists; reflexivity);
    try (eexists; do 3 f_equal;
         first [ unfold buf_length; rewrite ?le_bytes_length, ?be_bytes_length; reflexivity
               | apply enc_writeU64_size | apply enc_writeU64BE_size
               | apply enc_write64_size | apply enc_write64BE_size
               | apply float_bytesLE_size | apply float_bytesBE_size
               | apply double_bytesLE_size | apply double_bytesBE_size
               | apply enc_writeVarint_size | apply enc_writeVarint2_size ]).
  - (* BYTES *) rewrite room_fits by lia. eexists; reflexivity.
  - (* STR *) rewrite room_fits by lia. eexists; reflexivity.
  - (* CHECKSUM: four bytes of a hash of thirty-two *)
    rewrite buf_slice_length by (rewrite ?hash256_length; lia).
    rewrite room_fits by lia. eexists; reflexivity.
Qed.

Lemma replay_ok l data off :
  Forall (fun op => 0 <= op_size op) l ->
  0 <= off -> off + ops_size l <= buf_length data ->
  exists data', replay l (data, off) = Ok (data', off + ops_size l).
Proof.
  intros Hf. revert data off. induction Hf as [| op l Hop Hl IH]; intros data off Hoff Hroom.
  - exists data. cbn. f_equal. f_equal. lia.
  - assert (Hsum : 0 <= ops_size l).
    { clear -Hl. induction Hl as [| op l Hop _ IH]; cbn; [lia |]. unfold ops_size in *. lia. }
    change (ops_size (op :: l)) with (op_size op + ops_size l) in *.
    destruct (replay_op_ok op data off Hop Hoff) as [d1 Hd1]; [lia |].
    cbn [replay]. rewrite Hd1.
    destruct (IH d1 (off + op_size op)) as [d2 Hd2]; [lia | |].
    + rewrite (replay_op_length _ _ _ _ _ Hd1). lia.
    + exists d2. rewrite Hd2. f_equal. f_equal. lia.
Qed.

Lemma replay_app l1 l2 st :
  replay (l1 ++ l2) st
  = match replay l1 st with Ok st' => replay l2 st' | Throw e => Throw e end.
Proof.
  revert st. induction l1 as [| op l1 IH]; intros st; [reflexivity |].
  cbn [replay app]. destruct (replay_op op st); [apply IH | reflexivity].
Qed.

Lemma ops_size_nonneg l : Forall (fun op => 0 <= op_size op) l -> 0 <= ops_size l.
Proof. induction 1 as [| op l Hop _ IH]; cbn; [lia |]. unfold ops_size in *. lia. Qed.

(** [render] on a consistent writer. *)
Lemma render_consistent keep w :
  consistent w ->
  exists data,
    render keep w
    = (Ok data, if keep then w else {| ops := []; written := 0; destroyed := true |})
    /\ buf_length data = written w
    /\ replay (ops w) (buf_zero (written w), 0) = Ok (data, buf_length data).
Proof.
  intros (Hd & Hw & Hf).
  pose proof (ops_size_nonneg _ Hf) as Hnn.
  destruct (replay_ok (ops w) (buf_zero (written w)) 0 Hf) as [data Hr]; [lia | |].
  { rewrite buf_zero_length by lia. lia. }
  pose proof (replay_length _ _ _ _ _ Hr) as Hlen.
  rewrite buf_zero_length in Hlen by lia.
  exists data. split; [| split; [exact Hlen |]].
  - unfold render. rewrite bind_get, Hd, Hr.
    rewrite bind_assert_true by lia.
    destruct keep; reflexivity.
  - rewrite Hr. f_equal. f_equal. lia.
Qed.

(** C9 (as amended).  For every sequence of writer operations in which
    no seek goes backwards and every string is written in full:
    [render] allocates a buffer of exactly [written] bytes and replays
    the queued operations in order, so that the final offset is the
    length of the buffer; each operation is replayed at the offset that
    is the sum of the sizes queued before it; and at every intermediate
    point of the sequence the size counter is the length that [render]
    gives there. *)
Theorem render_length_is_written calls w :
  Forall call_ok calls ->
  exec_all calls new = (Ok tt, w) ->
  (forall keep, exists data,
      render keep w
      = (Ok data, if keep then w else {| ops := []; written := 0; destroyed := true |})
      /\ buf_length data = written w
      /\ replay (ops w) (buf_zero (written w), 0) = Ok (data, buf_length data))
  /\ (forall l1 l2, ops w = l1 ++ l2 ->
      exists data1, replay l1 (buf_zero (written w), 0) = Ok (data1, ops_size l1))
  /\ (forall calls1 calls2, calls = calls1 ++ calls2 ->
      exists w1 data1,
        exec_all calls1 new = (Ok tt, w1)
        /\ render true w1 = (Ok data1, w1)
        /\ getSize w1 = (Ok (buf_length data1), w1)).
Proof.
  intros Hok He.
  destruct (exec_all_consistent calls new w Hok consistent_new He) as [Hc _].
  split; [intros keep; apply render_consistent, Hc |]. split.
  - intros l1 l2 Hsplit.
    destruct (render_consistent true w Hc) as (data & _ & Hlen & Hr).
    rewrite Hsplit, replay_app in Hr.
    destruct Hc as (_ & Hw & Hf). rewrite Hsplit in Hf. apply Forall_app in Hf as [Hf1 Hf2].
    destruct (replay_ok l1 (buf_zero (written w)) 0 Hf1) as [d1 Hd1]; [lia | |].
    + rewrite buf_zero_length by (rewrite Hw; apply ops_size_nonneg; rewrite Hsplit;
        apply Forall_app; split; assumption).
      rewrite Hw, Hsplit, ops_size_app. pose proof (ops_size_nonneg _ Hf2). lia.
    + exists d1. rewrite Hd1. reflexivity.
  - intros calls1 calls2 ->.
    rewrite exec_all_app in He. unfold bind in He.
    destruct (exec_all calls1 new) as [[[] | e] w1] eqn:He1; [| discriminate].
    apply Forall_app in Hok as [Hok1 _].
    destruct (exec_all_consistent calls1 new w1 Hok1 consistent_new He1) as [Hc1 _].
    destruct (render_consistent true w1 Hc1) as (data1 & Hr & Hlen & _).
    exists w1, data1. split; [reflexivity |]. split; [exact Hr |].
    unfold getSize. rewrite bind_get, Hlen. reflexivity.
Qed.

(** Whenever [render] returns, the final offset was the length of the
    buffer it returns. *)
Lemma render_returns keep w data w' :
  render keep w = (Ok data, w') ->
  exists off,
    replay (ops w) (buf_zero (written w), 0) = Ok (data, off) /\ off = buf_length data.
Proof.
  unfold render. rewrite bind_get. destruct (destroyed w); [discriminate |].
  destruct (replay (ops w) (buf_zero (written w), 0)) as [[d off] | e]; [| discriminate].
  destruct (off =? buf_length d) eqn:Ho.
  - rewrite bind_assert_true by reflexivity.
    destruct keep; intros Hr; inversion Hr; subst; exists off; split; (reflexivity || lia).
  - rewrite bind_assert_false by reflexivity. discriminate.
Qed.

End WriterFacts.

(** ** The writer on examples *)

Section WriterExamples.
Import Examples Writer.

#[local] Instance compact_size_laws : EncodingLaws.
Proof.
  split; intros v; cbn; unfold Examples.writeVarint, Examples.sizeVarint, buf_length;
    repeat (destruct (_ <? _) || destruct (_ <=? _));
    cbn [length]; rewrite ?le_bytes_length, ?be_bytes_length; reflexivity.
Qed.

#[local] Instance ascii_codec_laws : NodeBufferLaws.
Proof. split; intros; reflexivity. Qed.

(** C9, witness: five calls, sixteen bytes. *)
Lemma render_length_is_written_witness :
  exists w data,
    exec_all example_calls new = (Ok tt, w)
    /\ render true w = (Ok data, w)
    /\ buf_length data = written w
    /\ written w = 16.
Proof.
  assert (Hok : Forall call_ok example_calls).
  { unfold example_calls.
    do 5 (apply List.Forall_cons; [cbn; first [exact I | reflexivity | lia] |]).
    apply List.Forall_nil. }
  pose (w := (exec_all example_calls new).2).
  assert (He : exec_all example_calls new = (Ok tt, w)) by reflexivity.
  destruct (render_length_is_written example_calls w Hok He) as [Hr _].
  destruct (Hr true) as (data & Hd & Hlen & _).
  exists w, data.
  split; [exact He |]. split; [exact Hd |]. split; [exact Hlen | reflexivity].
Defined.

(** C9, counterexample: after [seek(-1)] the size counter is -1; the
    buffer that [render] allocates is empty, the replay ends at offset
    -1, and the final assertion fails. *)
Lemma render_backward_seek_counterexample :
  let w := {| ops := [SEEK (-1)]; written := -1; destroyed := false |} in
  exec_all [Cseek (-1)] new = (Ok tt, w)
  /\ render false w = (Throw "AssertionError", w).
Proof. split; reflexivity. Qed.

End WriterExamples.

(** ** The encrypted transport *)

Lemma overlay_spec data off bytes :
  0 <= off -> off + buf_length bytes <= buf_length data ->
  Writer.overlay data off bytes
  = take (Z.to_nat off) data ++ bytes ++ drop (Z.to_nat (off + buf_length bytes)) data.
Proof.
  unfold buf_length in *. intros Hoff Hroom. apply list_eq. intros i.
  unfold Writer.overlay. rewrite list_lookup_imap.
  destruct (decide (i < Z.to_nat off)%nat) as [Hlt | Hge].
  - rewrite lookup_app_l by (rewrite length_take; lia).
    rewrite lookup_take_lt by lia.
    destruct (data !! i) as [x |]; [| reflexivity]. cbn.
    assert ((0 <=? Z.of_nat i - off) = false) as -> by lia. reflexivity.
  - rewrite lookup_app_r by (rewrite length_take; lia).
    rewrite length_take, Nat.min_l by lia.
    destruct (decide (i < Z.to_nat off + length bytes)%nat) as [Hin | Hout].
    + rewrite lookup_app_l by lia.
      destruct (lookup_lt_is_Some_2 data i) as [x Hx]; [lia |]. rewrite Hx. cbn.
      assert (((0 <=? Z.of_nat i - off) && (Z.of_nat i - off <? buf_length bytes)) = true) as ->.
      { unfold buf_length. apply andb_true_iff. split; lia. }
      unfold byte_at.
      replace (Z.to_nat (Z.of_nat i - off)) with (i - Z.to_nat off)%nat by lia.
      destruct (lookup_lt_is_Some_2 bytes (i - Z.to_nat off)) as [y Hy]; [lia |].
      rewrite !Hy. reflexivity.
    + rewrite lookup_app_r by lia. rewrite lookup_drop.
      replace (Z.to_nat (off + Z.of_nat (length bytes)) + (i - Z.to_nat off - length bytes))%nat
        with i by lia.
      destruct (data !! i) as [x |]; [| reflexivity]. cbn.
      assert ((Z.of_nat i - off <? buf_length bytes) = false) as ->.
      { unfold buf_length. lia. }
      rewrite andb_false_r. reflexivity.
Qed.

Section StreamFacts.
Context `{ChaChaPoly} `{SessionCrypto} `{Encoding} `{NodeBuffer}.
Import BIP151.

(** The seed of [rekey]: the session ID and a key side by side. *)
Lemma seed_first i a :
  buf_length i = 32 -> buf_length a = 32 ->
  copy_into (copy_into (buf_zero 64) 0 i) 32 a = i ++ a.
Proof.
  intros Hi Ha. unfold copy_into.
  rewrite (overlay_spec (buf_zero 64) 0 i) by (rewrite ?buf_zero_length; lia).
  change (Z.to_nat 0) with 0%nat. rewrite take_0. cbn [app].
  assert (Hd : drop (Z.to_nat (0 + buf_length i)) (buf_zero 64) = buf_zero 32).
  { rewrite Hi. reflexivity. }
  rewrite Hd.
  assert (Hl : buf_length (i ++ buf_zero 32) = 64).
  { unfold buf_length in *. rewrite length_app. unfold buf_zero.
    rewrite length_replicate. lia. }
  rewrite overlay_spec by lia.
  rewrite Ha. unfold buf_length in Hi.
  rewrite take_app_length' by lia.
  rewrite drop_ge; [rewrite app_nil_r; reflexivity |].
  unfold buf_length in Hl. lia.
Qed.

Lemma seed_second i a b :
  buf_length i = 32 -> buf_length a = 32 -> buf_length b = 32 ->
  copy_into (i ++ a) 32 b = i ++ b.
Proof.
  intros Hi Ha Hb. unfold copy_into.
  assert (Hl : buf_length (i ++ a) = 64).
  { unfold buf_length in *. rewrite length_app. lia. }
  rewrite overlay_spec by lia.
  rewrite Hb. unfold buf_length in Hi.
  rewrite take_app_length' by lia.
  rewrite drop_ge; [rewrite app_nil_r; reflexivity |].
  unfold buf_length in Hl. lia.
Qed.

(** C1 (as amended).  On an initialized stream, [rekey()] without
    replacement keys sets the stream-cipher key to the double SHA-256 of
    the session ID followed by the old stream-cipher key, and the AEAD
    key to the double SHA-256 of the session ID followed by the old AEAD
    key; the session ID, the sequence number and the nonce stay, and
    both ciphers are initialized again with the new keys and the
    current nonce. *)
Theorem rekey_derives_keys s i a b :
  initialized s i a b ->
  exists s',
    rekey None None s = (Ok tt, s')
    /\ k1 s' = Some (sha256 (sha256 (i ++ a)))
    /\ k2 s' = Some (sha256 (sha256 (i ++ b)))
    /\ sid s' = Some i
    /\ seq s' = seq s
    /\ iv s' = iv s
    /\ chacha s' = chacha_init (Some (sha256 (sha256 (i ++ a)))) (Some (iv s)) (chacha s)
    /\ aead s' = aead_init (Some (sha256 (sha256 (i ++ b)))) (Some (iv s)) (aead s).
Proof.
  intros (Hprk & Hsid & Hk1 & Hk2 & Hi & Ha & Hb).
  unfold rekey. rewrite bind_get.
  rewrite bind_assert_true by (apply bool_decide_eq_true; exact Hprk).
  rewrite Hsid, Hk1, Hk2.
  rewrite (seed_first i a Hi Ha), (seed_second i a b Hi Ha Hb).
  eexists. split; [reflexivity |]. cbn. unfold hash256. rewrite Hsid.
  repeat split; reflexivity.
Qed.

(** [init] leaves an initialized stream. *)
Lemma init_initialized `{!SessionCryptoLaws} peer now s :
  exists i a b, initialized (init peer now s).2 i a b.
Proof.
  eexists _, _, _. unfold init, initialized. rewrite bind_get. cbn.
  repeat split; try (apply hkdfExpand_length; lia); eauto.
Qed.

(** C2.  When a session has the size of a frame and the tag of the
    frame does not verify against the MAC computed over its body,
    [parse] advances the sequence number of the input stream, emits the
    "Bad tag" error, and emits no packet. *)
Theorem parse_rejects_bad_tag s data :
  hasSize s = true ->
  poly1305_verify
    (aead_finish (aead_auth (buf_slice data 0 (waiting s - 16)) (aead (input s))).2).1
    (buf_slice data (waiting s - 16) (waiting s)) = false ->
  exists s',
    parse data s = (Ok tt, s')
    /\ seq (input s') = next_seq (seq (input s))
    /\ emitted s' = emitted s ++ [EvBadTag (buf_slice data (waiting s - 16) (waiting s))]
    /\ filter is_packet (emitted s') = filter is_packet (emitted s)
    /\ hasSize s' = false
    /\ waiting s' = 4.
Proof.
  intros Hsize Hbad. unfold parse. rewrite bind_get, Hsize. cbn [negb].
  unfold bind, on_input, auth, finish, verify, sequence, emit, get, put, ret. cbn.
  destruct (aead_auth (buf_slice data 0 (waiting s - 16)) (aead (input s))) as [out a1].
  cbn in *. destruct (aead_finish a1) as [mac a2]. cbn in *.
  rewrite Hbad. cbn.
  eexists. split; [reflexivity |]. cbn.
  repeat split; try reflexivity.
  rewrite filter_app. cbn. rewrite app_nil_r. reflexivity.
Qed.

End StreamFacts.

Section FeedFacts.
Context `{ChaChaPoly} `{SessionCrypto} `{Encoding} `{NodeBuffer}.
Import BIP151.

Lemma buf_slice_take (b : Buffer) n : 0 <= n -> buf_slice b 0 n = take (Z.to_nat n) b.
Proof. intros Hn. unfold buf_slice. rewrite Z.sub_0_r. reflexivity. Qed.

Lemma buf_slice_drop (b : Buffer) n : 0 <= n -> buf_slice b n (buf_length b) = drop (Z.to_nat n) b.
Proof.
  intros Hn. unfold buf_slice, buf_length. apply take_ge. rewrite length_drop. lia.
Qed.

(** The gathering loop returns the next [need] bytes of the queue and
    leaves the rest. *)
Lemma read_loop_spec pend acc need :
  0 <= need <= buf_length (mjoin pend) ->
  exists pend',
    read_loop pend acc need = Ok (acc ++ take (Z.to_nat need) (mjoin pend), pend')
    /\ mjoin pend' = drop (Z.to_nat need) (mjoin pend).
Proof.
  revert acc need. induction pend as [| p rest IH]; intros acc need Hneed.
  - assert (need = 0) as -> by (change (buf_length (mjoin [])) with 0 in Hneed; lia).
    exists []. cbn. rewrite app_nil_r. split; reflexivity.
  - cbn [read_loop]. destruct (need <=? 0) eqn:Hz.
    + assert (need = 0) as -> by lia.
      exists (p :: rest). cbn [Z.to_nat]. rewrite take_0, drop_0, app_nil_r. split; reflexivity.
    + assert (Hj : mjoin (p :: rest) = p ++ mjoin rest) by reflexivity.
      rewrite Hj in *. unfold buf_length in Hneed. rewrite length_app in Hneed.
      destruct (Z.min (buf_length p) need =? buf_length p) eqn:Hm; unfold buf_length in Hm.
      * destruct (IH (acc ++ p) (need - Z.min (Z.of_nat (length p)) need)) as (pend' & Hr & Hp).
        { unfold buf_length. lia. }
        exists pend'. unfold buf_length. rewrite Hr, Hp.
        replace (Z.min (Z.of_nat (length p)) need) with (Z.of_nat (length p)) by lia.
        rewrite take_app, drop_app.
        rewrite (take_ge p), (drop_ge p) by lia.
        replace (Z.to_nat need - length p)%nat with (Z.to_nat (need - Z.of_nat (length p))) by lia.
        rewrite <- app_assoc. split; reflexivity.
      * assert (Hmin : Z.min (buf_length p) need = need) by (unfold buf_length; lia).
        rewrite Hmin. exists (buf_slice p need (buf_length p) :: rest).
        rewrite buf_slice_take by lia. rewrite buf_slice_drop by lia.
        rewrite take_app_le by lia.
        change (mjoin (drop (Z.to_nat need) p :: rest)) with (drop (Z.to_nat need) p ++ mjoin rest).
        rewrite drop_app_le by lia. split; reflexivity.
Qed.

(** [read(size)] returns the next [size] bytes that the session has
    buffered and leaves the rest buffered; nothing else changes. *)
Lemma read_spec size s :
  total s = buf_length (buffered s) -> 0 < size <= total s ->
  exists s',
    read size s = (Ok (take (Z.to_nat size) (buffered s)), s')
    /\ buffered s' = drop (Z.to_nat size) (buffered s)
    /\ total s' = total s - size
    /\ core s' = core s.
Proof.
  intros Htot Hsize. unfold read. rewrite bind_get.
  rewrite bind_assert_true by lia.
  assert ((size =? 0) = false) as -> by lia.
  unfold buffered in *. destruct (pending s) as [| p rest] eqn:Hp.
  { change (buf_length (mjoin [])) with 0 in Htot. lia. }
  change (mjoin (p :: rest)) with (p ++ mjoin rest) in *.
  unfold buf_length in Htot. rewrite length_app in Htot.
  destruct (size <? buf_length p) eqn:Hlt; unfold buf_length in Hlt.
  - rewrite bind_put. unfold ret.
    exists (set_queue (buf_slice p size (buf_length p) :: rest)
                      (total s - buf_length (buf_slice p 0 size)) s).
    split; [| split; [| split]].
    + rewrite take_app_le by lia. rewrite <- buf_slice_take by lia. reflexivity.
    + cbn [pending set_queue]. rewrite buf_slice_drop by lia.
      change (mjoin (drop (Z.to_nat size) p :: rest)) with (drop (Z.to_nat size) p ++ mjoin rest).
      rewrite drop_app_le by lia. reflexivity.
    + cbn [total set_queue]. rewrite buf_slice_length; unfold buf_length; lia.
    + reflexivity.
  - destruct (buf_length p =? size) eqn:Heq; unfold buf_length in Heq.
    + rewrite bind_put. unfold ret.
      exists (set_queue rest (total s - buf_length p) s).
      split; [| split; [| split]].
      * rewrite take_app_length' by lia. reflexivity.
      * cbn [pending set_queue]. rewrite drop_app_length' by lia. reflexivity.
      * cbn [total set_queue]. unfold buf_length. lia.
      * reflexivity.
    + destruct (read_loop_spec (p :: rest) [] size) as (pend' & Hr & Hj).
      { change (mjoin (p :: rest)) with (p ++ mjoin rest).
        unfold buf_length. rewrite length_app. lia. }
      rewrite Hr. cbn [app].
      change (mjoin (p :: rest)) with (p ++ mjoin rest) in *.
      assert (Hlen : buf_length (take (Z.to_nat size) (p ++ mjoin rest)) = size).
      { unfold buf_length. rewrite length_take, length_app. lia. }
      rewrite bind_assert_true by lia.
      rewrite bind_put. unfold ret. eexists. split; [reflexivity |].
      cbn [pending total set_queue]. rewrite Hlen. repeat split. exact Hj.
Qed.

Lemma emit_all_spec l s : emit_all l s = (Ok tt, set_emitted (emitted s ++ l) s).
Proof.
  revert s. induction l as [| e l IH]; intros s.
  - cbn. rewrite app_nil_r. destruct s; reflexivity.
  - cbn [emit_all]. unfold bind, emit. rewrite IH. cbn. rewrite <- app_assoc. reflexivity.
Qed.

(** [parse] returns, and neither reads nor changes the queue. *)
Lemma parse_frame data s :
  parse data s = (Ok tt, set_queue (pending s) (total s) (parse data (core s)).2).
Proof.
  unfold parse. rewrite !bind_get. cbn [hasSize core set_queue waiting].
  destruct (hasSize s); cbn [negb].
  - unfold bind, on_input, auth, finish, verify, sequence, decrypt, emit, get, put, ret. cbn.
    destruct (aead_auth (buf_slice data 0 (waiting s - 16)) (aead (input s))) as [o a1]. cbn.
    destruct (aead_finish a1) as [mac a2]. cbn.
    destruct (poly1305_verify mac (buf_slice data (waiting s - 16) (waiting s))); cbn.
    + destruct (aead_stream (buf_slice data 0 (waiting s - 16)) a2) as [pl a3]. cbn.
      rewrite !emit_all_spec. reflexivity.
    + reflexivity.
  - unfold bind, on_input, decryptSize, emit, get, put, ret. cbn.
    destruct (chacha_encrypt data (chacha (input s))) as [o c]. cbn.
    destruct ((readUInt32LE o 0 <? 6) || (MAX_MESSAGE * 3 <? readUInt32LE o 0)); reflexivity.
Qed.

(** After [parse] the number of bytes waited for is positive. *)
Lemma parse_waiting data s : 0 < waiting (parse data s).2.
Proof.
  unfold parse. rewrite !bind_get.
  destruct (hasSize s); cbn [negb].
  - unfold bind, on_input, auth, finish, verify, sequence, decrypt, emit, get, put, ret. cbn.
    destruct (aead_auth (buf_slice data 0 (waiting s - 16)) (aead (input s))) as [o a1]. cbn.
    destruct (aead_finish a1) as [mac a2]. cbn.
    destruct (poly1305_verify mac (buf_slice data (waiting s - 16) (waiting s))); cbn.
    + destruct (aead_stream (buf_slice data 0 (waiting s - 16)) a2) as [pl a3]. cbn.
      rewrite !emit_all_spec. cbn. lia.
    + lia.
  - unfold bind, on_input, decryptSize, emit, get, put, ret. cbn.
    destruct (chacha_encrypt data (chacha (input s))) as [o c]. cbn.
    destruct (readUInt32LE o 0 <? 6) eqn:H6; cbn; [lia |].
    destruct (MAX_MESSAGE * 3 <? readUInt32LE o 0); cbn; lia.
Qed.


Lemma same_stream_refl s : same_stream s s.
Proof. repeat split. Qed.

Lemma same_stream_trans s1 s2 s3 : same_stream s1 s2 -> same_stream s2 s3 -> same_stream s1 s3.
Proof. intros (? & ? & ?) (? & ? & ?). repeat split; congruence. Qed.

Lemma same_stream_queue_ok s1 s2 : same_stream s1 s2 -> queue_ok s1 -> queue_ok s2.
Proof.
  intros (Hb & Hc & Ht) (Hq & Hw). unfold queue_ok.
  assert (waiting s1 = waiting s2) as <- by (apply (f_equal waiting) in Hc; exact Hc).
  rewrite <- Hb, <- Ht. split; assumption.
Qed.

(** One turn of the loop of [feed]: the first [waiting] bytes buffered
    are taken and parsed. *)
Lemma turn_spec s :
  queue_ok s -> waiting s <= total s ->
  exists t,
    bind (read (waiting s)) (fun chunk => parse chunk) s = (Ok tt, t)
    /\ buffered t = drop (Z.to_nat (waiting s)) (buffered s)
    /\ total t = total s - waiting s
    /\ core t = core (parse (take (Z.to_nat (waiting s)) (buffered s)) (core s)).2
    /\ queue_ok t.
Proof.
  intros [Hq Hw] Hle.
  destruct (read_spec (waiting s) s Hq) as (s' & Hr & Hb & Ht & Hc); [lia |].
  unfold bind. rewrite Hr. rewrite parse_frame. eexists. split; [reflexivity |].
  rewrite Hc. cbn [pending total set_queue buffered core].
  split; [exact Hb |]. split; [exact Ht |]. split; [reflexivity |].
  unfold queue_ok. cbn [pending total waiting set_queue].
  split.
  - change (mjoin (pending s')) with (buffered s'). rewrite Hb, Ht.
    unfold buf_length, buffered in *. rewrite length_drop. lia.
  - apply parse_waiting.
Qed.

Lemma feed_loop_stop fuel s : total s < waiting s -> feed_loop fuel s = (Ok tt, s).
Proof.
  intros Hlt. destruct fuel; cbn [feed_loop];
    (assert ((waiting s <=? total s) = false) as -> by lia); reflexivity.
Qed.

Lemma feed_loop_turn fuel s t :
  waiting s <= total s ->
  bind (read (waiting s)) (fun chunk => parse chunk) s = (Ok tt, t) ->
  feed_loop (S fuel) s = feed_loop fuel t.
Proof.
  intros Hle Ht. cbn [feed_loop].
  assert ((waiting s <=? total s) = true) as -> by lia.
  revert Ht. unfold bind.
  destruct (read (waiting s) s) as [[chunk | e] s1]; [| discriminate].
  destruct (parse chunk s1) as [[[] | e] s2]; [| discriminate].
  intros Ht. inversion Ht; subst. reflexivity.
Qed.

(** The loop returns whenever it is given more turns than there are
    bytes buffered, and leaves fewer bytes than are waited for. *)
Lemma feed_loop_returns fuel s :
  queue_ok s -> (Z.to_nat (total s) < fuel)%nat ->
  exists s', feed_loop fuel s = (Ok tt, s') /\ queue_ok s' /\ total s' < waiting s'.
Proof.
  revert s. induction fuel as [| fuel IH]; intros s Hq Hf; [lia |].
  destruct (Z.lt_ge_cases (total s) (waiting s)) as [Hlt | Hle].
  - exists s. rewrite feed_loop_stop by exact Hlt. repeat split; try apply Hq. exact Hlt.
  - destruct (turn_spec s Hq Hle) as (t & Ht & _ & Htot & _ & Hqt).
    rewrite (feed_loop_turn fuel s t Hle Ht).
    apply IH; [exact Hqt |]. destruct Hq as [_ Hw]. lia.
Qed.

(** More turns than needed change nothing. *)
Lemma feed_loop_more fuel fuel' s s' :
  queue_ok s -> (fuel <= fuel')%nat ->
  feed_loop fuel s = (Ok tt, s') -> feed_loop fuel' s = (Ok tt, s').
Proof.
  revert fuel' s. induction fuel as [| fuel IH]; intros fuel' s Hq Hf Hs.
  - destruct (Z.lt_ge_cases (total s) (waiting s)) as [Hlt | Hle].
    + rewrite feed_loop_stop in * by exact Hlt. exact Hs.
    + cbn [feed_loop] in Hs.
      assert ((waiting s <=? total s) = true) as Hc by lia. rewrite Hc in Hs. discriminate.
  - destruct (Z.lt_ge_cases (total s) (waiting s)) as [Hlt | Hle].
    + rewrite feed_loop_stop in * by exact Hlt. exact Hs.
    + destruct (turn_spec s Hq Hle) as (t & Ht & _ & _ & _ & Hqt).
      rewrite (feed_loop_turn fuel s t Hle Ht) in Hs.
      destruct fuel' as [| fuel']; [lia |].
      rewrite (feed_loop_turn fuel' s t Hle Ht).
      apply IH; [exact Hqt | lia | exact Hs].
Qed.

(** The loop does the same on two sessions that buffer the same bytes
    in different buffers. *)
Lemma feed_loop_same fuel s1 s2 s1' :
  same_stream s1 s2 -> queue_ok s1 ->
  feed_loop fuel s1 = (Ok tt, s1') ->
  exists s2', feed_loop fuel s2 = (Ok tt, s2') /\ same_stream s1' s2'.
Proof.
  revert s1 s2. induction fuel as [| fuel IH]; intros s1 s2 Hsame Hq Hs.
  - pose proof Hsame as (Hb & Hc & Ht).
    assert (Hw : waiting s1 = waiting s2) by (apply (f_equal waiting) in Hc; exact Hc).
    destruct (Z.lt_ge_cases (total s1) (waiting s1)) as [Hlt | Hle].
    + rewrite feed_loop_stop in Hs by exact Hlt. inversion Hs; subst.
      exists s2. rewrite feed_loop_stop by lia. split; [reflexivity | exact Hsame].
    + cbn [feed_loop] in Hs.
      assert ((waiting s1 <=? total s1) = true) as Hcnd by lia. rewrite Hcnd in Hs. discriminate.
  - pose proof Hsame as (Hb & Hc & Ht).
    assert (Hw : waiting s1 = waiting s2) by (apply (f_equal waiting) in Hc; exact Hc).
    destruct (Z.lt_ge_cases (total s1) (waiting s1)) as [Hlt | Hle].
    + rewrite feed_loop_stop in Hs by exact Hlt. inversion Hs; subst.
      exists s2. rewrite feed_loop_stop by lia. split; [reflexivity | exact Hsame].
    + pose proof (same_stream_queue_ok s1 s2 Hsame Hq) as Hq2.
      destruct (turn_spec s1 Hq Hle) as (t1 & Ht1 & Hb1 & Htot1 & Hc1 & Hqt1).
      destruct (turn_spec s2 Hq2) as (t2 & Ht2 & Hb2 & Htot2 & Hc2 & Hqt2); [lia |].
      rewrite (feed_loop_turn fuel s1 t1 Hle Ht1) in Hs.
      rewrite (feed_loop_turn fuel s2 t2) by (lia || exact Ht2).
      apply (IH t1 t2); [| exact Hqt1 | exact Hs].
      unfold same_stream. fold (buffered t1) (buffered t2) (core t1) (core t2).
      rewrite Hb1, Hb2, Htot1, Htot2, Hc1, Hc2.
      fold (buffered s1) (buffered s2) (core s1) (core s2) in Hb, Hc.
      rewrite Hb, Hc, Ht, Hw. repeat split.
Qed.


Lemma feed_unfold d s :
  feed d s = feed_loop (S (Z.to_nat (total (enqueue d s)))) (enqueue d s).
Proof. reflexivity. Qed.

Lemma buffered_enqueue d s : buffered (enqueue d s) = buffered s ++ d.
Proof.
  unfold buffered, enqueue. cbn [pending set_queue].
  rewrite join_app. cbn. rewrite app_nil_r. reflexivity.
Qed.

Lemma enqueue_queue_ok d s : queue_ok s -> queue_ok (enqueue d s).
Proof.
  intros [Hq Hw]. split; [| exact Hw].
  fold (buffered (enqueue d s)). rewrite buffered_enqueue.
  cbn [total enqueue set_queue]. fold (buffered s) in Hq.
  unfold buf_length in *. rewrite length_app. lia.
Qed.

Lemma enqueue_same d s1 s2 : same_stream s1 s2 -> same_stream (enqueue d s1) (enqueue d s2).
Proof.
  intros (Hb & Hc & Ht). unfold same_stream.
  fold (buffered (enqueue d s1)) (buffered (enqueue d s2)).
  rewrite !buffered_enqueue. fold (buffered s1) (buffered s2) in Hb. rewrite Hb.
  split; [reflexivity |]. split; [exact Hc |].
  cbn [total enqueue set_queue]. lia.
Qed.

(** Queueing a chunk after the loop has run, and then running the loop,
    gives what running the loop gives when the chunk is queued first. *)
Lemma feed_loop_enqueue fuel t t1 d fuel2 u :
  queue_ok t ->
  feed_loop fuel t = (Ok tt, t1) ->
  feed_loop fuel2 (enqueue d t1) = (Ok tt, u) ->
  exists fuel3 u', feed_loop fuel3 (enqueue d t) = (Ok tt, u') /\ same_stream u u'.
Proof.
  revert t. induction fuel as [| fuel IH]; intros t Hq Ht Hu.
  - destruct (Z.lt_ge_cases (total t) (waiting t)) as [Hlt | Hle].
    + rewrite feed_loop_stop in Ht by exact Hlt. inversion Ht; subst.
      exists fuel2, u. split; [exact Hu | apply same_stream_refl].
    + cbn [feed_loop] in Ht.
      assert ((waiting t <=? total t) = true) as Hc by lia. rewrite Hc in Ht. discriminate.
  - destruct (Z.lt_ge_cases (total t) (waiting t)) as [Hlt | Hle].
    + rewrite feed_loop_stop in Ht by exact Hlt. inversion Ht; subst.
      exists fuel2, u. split; [exact Hu | apply same_stream_refl].
    + destruct (turn_spec t Hq Hle) as (t' & Ht' & Hb' & Htot' & Hc' & Hq').
      rewrite (feed_loop_turn fuel t t' Hle Ht') in Ht.
      destruct (IH t' Hq' Ht Hu) as (fuel3 & u'' & Hu'' & Hsame).
      (* the turn of the session with the chunk queued first *)
      pose proof (enqueue_queue_ok d t Hq) as Hqe.
      pose proof (buf_length_nonneg d) as Hd.
      assert (Hle' : waiting (enqueue d t) <= total (enqueue d t)).
      { cbn [waiting total enqueue set_queue]. lia. }
      destruct (turn_spec (enqueue d t) Hqe Hle') as (t'' & Ht'' & Hb'' & Htot'' & Hc'' & Hq'').
      assert (Hrel : same_stream (enqueue d t') t'').
      { destruct Hq as [Hqt Hw].
        fold (buffered t) in Hqt. unfold buf_length in Hqt.
        change (waiting (enqueue d t)) with (waiting t) in *.
        change (core (enqueue d t)) with (core t) in *.
        change (total (enqueue d t)) with (total t + buf_length d) in *.
        rewrite buffered_enqueue in Hb'', Hc''.
        rewrite take_app_le in Hc'' by lia. rewrite drop_app_le in Hb'' by lia.
        split; [| split].
        - fold (buffered (enqueue d t')) (buffered t'').
          rewrite buffered_enqueue, Hb', Hb''. reflexivity.
        - fold (core (enqueue d t')) (core t'').
          change (core (enqueue d t')) with (core t').
          rewrite Hc', Hc''. reflexivity.
        - change (total (enqueue d t')) with (total t' + buf_length d). lia. }
      destruct (feed_loop_same fuel3 (enqueue d t') t'' u'' Hrel (enqueue_queue_ok d t' Hq') Hu'')
        as (u3 & Hu3 & Hsame3).
      exists (S fuel3), u3. split.
      * rewrite (feed_loop_turn fuel3 (enqueue d t) t'' Hle' Ht''). exact Hu3.
      * eapply same_stream_trans; eassumption.
Qed.

Lemma feed_returns d s :
  queue_ok s -> exists s', feed d s = (Ok tt, s') /\ queue_ok s' /\ total s' < waiting s'.
Proof.
  intros Hq. rewrite feed_unfold.
  apply feed_loop_returns; [apply enqueue_queue_ok, Hq | lia].
Qed.

(** Feeding two chunks one after the other is feeding them joined. *)
Lemma feed_feed c d s sa s2' :
  queue_ok s ->
  feed c s = (Ok tt, sa) ->
  feed d sa = (Ok tt, s2') ->
  exists s2, feed (c ++ d) s = (Ok tt, s2) /\ same_stream s2' s2.
Proof.
  intros Hq Hc Hd. rewrite feed_unfold in Hc, Hd.
  pose proof (enqueue_queue_ok c s Hq) as Hqc.
  destruct (feed_loop_enqueue _ _ _ _ _ _ Hqc Hc Hd) as (fuel3 & u' & Hu' & Hsame).
  assert (Hrel : same_stream (enqueue d (enqueue c s)) (enqueue (c ++ d) s)).
  { unfold same_stream.
    fold (buffered (enqueue d (enqueue c s))) (buffered (enqueue (c ++ d) s)).
    rewrite !buffered_enqueue, app_assoc.
    split; [reflexivity |]. split; [reflexivity |].
    cbn [total enqueue set_queue]. unfold buf_length. rewrite length_app. lia. }
  destruct (feed_loop_same fuel3 _ _ u' Hrel (enqueue_queue_ok d _ Hqc) Hu')
    as (u'' & Hu'' & Hsame').
  pose proof (enqueue_queue_ok (c ++ d) s Hq) as Hqcd.
  destruct (feed_returns (c ++ d) s Hq) as (s2 & Hs2 & _).
  exists s2. split; [exact Hs2 |].
  rewrite feed_unfold in Hs2.
  set (n := S (Z.to_nat (total (enqueue (c ++ d) s)))) in *.
  pose proof (feed_loop_more fuel3 (Nat.max fuel3 n) _ _ Hqcd (Nat.le_max_l _ _) Hu'') as H1'.
  pose proof (feed_loop_more n (Nat.max fuel3 n) _ _ Hqcd (Nat.le_max_r _ _) Hs2) as H2'.
  rewrite H1' in H2'. inversion H2'; subst.
  eapply same_stream_trans; eassumption.
Qed.

Lemma feed_all_cons c rest s s' :
  feed c s = (Ok tt, s') -> feed_all (c :: rest) s = feed_all rest s'.
Proof. intros Hs. cbn [feed_all]. unfold bind. rewrite Hs. reflexivity. Qed.

Lemma feed_chunks rest :
  forall c s,
    queue_ok s ->
    exists s1 s2,
      feed_all (c :: rest) s = (Ok tt, s1)
      /\ feed (c ++ mjoin rest) s = (Ok tt, s2)
      /\ same_stream s1 s2.
Proof.
  induction rest as [| c2 rest IH]; intros c s Hq.
  - destruct (feed_returns c s Hq) as (s' & Hs' & _).
    exists s', s'. rewrite (feed_all_cons c [] s s' Hs').
    change (mjoin []) with (@nil Z). rewrite app_nil_r.
    split; [reflexivity |]. split; [exact Hs' | apply same_stream_refl].
  - destruct (feed_returns c s Hq) as (sa & Hsa & Hqa & _).
    destruct (IH c2 sa Hqa) as (s1 & s2' & Hs1 & Hs2' & Hsame).
    destruct (feed_feed c (c2 ++ mjoin rest) s sa s2' Hq Hsa Hs2') as (s2 & Hs2 & Hsame2).
    exists s1, s2. rewrite (feed_all_cons c (c2 :: rest) s sa Hsa).
    split; [exact Hs1 |]. split; [exact Hs2 |].
    eapply same_stream_trans; eassumption.
Qed.

(** C5.  For every session and every cut of a sequence of bytes into
    consecutive chunks, feeding the chunks one call after the other
    returns, as does feeding the bytes in one call, and the two leave
    the session the same but for the way the bytes not yet framed are
    held: the same events in the same order, and in particular the
    same (command, body) packets. *)
Theorem feed_chunking_independent s chunks :
  queue_ok s -> chunks <> [] ->
  exists s1 s2,
    feed_all chunks s = (Ok tt, s1)
    /\ feed (mjoin chunks) s = (Ok tt, s2)
    /\ emitted s1 = emitted s2
    /\ filter is_packet (emitted s1) = filter is_packet (emitted s2)
    /\ same_stream s1 s2.
Proof.
  intros Hq Hne. destruct chunks as [| c rest]; [congruence |].
  destruct (feed_chunks rest c s Hq) as (s1 & s2 & Hs1 & Hs2 & Hsame).
  exists s1, s2. split; [exact Hs1 |]. split; [exact Hs2 |].
  assert (He : emitted s1 = emitted s2).
  { destruct Hsame as (_ & Hc & _). apply (f_equal emitted) in Hc. exact Hc. }
  rewrite He. repeat split; try reflexivity; apply Hsame.
Qed.

End FeedFacts.

(** ** The transport on examples *)

Section TransportFacts.
Import TransportExamples Examples BIP151.

Ltac split_all := repeat match goal with |- _ /\ _ => split end.

(** C1, witness: the stream that [init] leaves. *)
Lemma rekey_derives_keys_witness :
  exists s',
    rekey None None stream0 = (Ok tt, s')
    /\ sid s' = sid stream0
    /\ seq s' = seq stream0
    /\ iv s' = iv stream0.
Proof.
  pose (i := default [] (sid stream0)).
  pose (a := default [] (k1 stream0)).
  pose (b := default [] (k2 stream0)).
  assert (Hinit : initialized stream0 i a b).
  { unfold initialized. split; [exists (default [] (prk stream0)); vm_compute; reflexivity |].
    split_all; vm_compute; reflexivity. }
  destruct (rekey_derives_keys stream0 i a b Hinit)
    as (s' & Hr & _ & _ & Hsid & Hseq & Hiv & _).
  exists s'. split; [exact Hr |]. split; [rewrite Hsid; vm_compute; reflexivity |].
  split; [exact Hseq | exact Hiv].
Defined.

(** C1, counterexample: after [rekey()] the stream-cipher key is not the
    single SHA-256 of the session ID followed by the old key. *)
Lemma rekey_single_sha256_counterexample :
  let i := default [] (sid stream0) in
  let a := default [] (k1 stream0) in
  let r := rekey None None stream0 in
  sid stream0 = Some i
  /\ k1 stream0 = Some a
  /\ r.1 = Ok tt
  /\ k1 r.2 <> Some (sha256 (i ++ a))
  /\ k1 r.2 = Some (sha256 (sha256 (i ++ a))).
Proof.
  intros i a r. split_all.
  - vm_compute. reflexivity.
  - vm_compute. reflexivity.
  - vm_compute. reflexivity.
  - vm_compute. intros Heq. discriminate Heq.
  - vm_compute. reflexivity.
Qed.

(** The receiver after the four bytes of the size of the packet, and the
    rest of the packet with the last bit of its tag flipped. *)
Lemma parse_rejects_bad_tag_witness :
  let s := (feed (take 4 ping_packet) receiver).2 in
  let frame := drop 4 ping_packet in
  let data := take 28 frame ++ [Z.lxor 1 (byte_at frame 28)] in
  exists s',
    parse data s = (Ok tt, s')
    /\ seq (input s') = 1
    /\ filter is_packet (emitted s') = [].
Proof.
  intros s frame data.
  assert (Hs : hasSize s = true) by (vm_compute; reflexivity).
  assert (Hbad : poly1305_verify
            (aead_finish (aead_auth (buf_slice data 0 (waiting s - 16)) (aead (input s))).2).1
            (buf_slice data (waiting s - 16) (waiting s)) = false)
    by (vm_compute; reflexivity).
  destruct (parse_rejects_bad_tag s data Hs Hbad) as (s' & Hp & Hseq & _ & Hf & _).
  exists s'. split; [exact Hp |]. split; [rewrite Hseq; vm_compute; reflexivity |].
  rewrite Hf. vm_compute. reflexivity.
Defined.

(** C5, witness: the packet cut into three chunks. *)
Lemma feed_chunking_independent_witness :
  let chunks := [take 3 ping_packet; take 10 (drop 3 ping_packet); drop 13 ping_packet] in
  exists s1 s2,
    feed_all chunks receiver = (Ok tt, s1)
    /\ feed (mjoin chunks) receiver = (Ok tt, s2)
    /\ emitted s1 = emitted s2.
Proof.
  intro chunks.
  assert (Hq : queue_ok receiver) by (split; vm_compute; reflexivity).
  assert (Hne : chunks <> []) by discriminate.
  destruct (feed_chunking_independent receiver chunks Hq Hne)
    as (s1 & s2 & H1 & H2 & He & _).
  exists s1, s2. split; [exact H1 |]. split; [exact H2 | exact He].
Defined.

(** The packet, fed whole and fed byte by byte. *)
Example feed_ping_whole :
  emitted (feed ping_packet receiver).2 = [EvPacket "ping" [1; 2; 3; 4]].
Proof. vm_compute. reflexivity. Qed.

Example feed_ping_bytewise :
  emitted (feed_all ((fun b => [b]) <$> ping_packet) receiver).2
  = [EvPacket "ping" [1; 2; 3; 4]].
Proof. vm_compute. reflexivity. Qed.

End TransportFacts.

(** ** Partial merkle trees: rejection *)

Section ExtractFacts.
Context `{Consensus}.
Import Merkle.
Variable this : MerkleBlock.

(** One call of [traverse] on an interior node whose flag bit is set. *)
Lemma ex_traverse_interior h pos st :
  bitsUsed st < buf_length (flags this) * 8 ->
  flag_bit this (bitsUsed st) <> 0 ->
  ex_traverse this (S h) pos st
  = let '(left_, st1) := ex_traverse this h (pos * 2) (of_bit st) in
    let '(right_, st2) :=
      if pos * 2 + 1 <? width (totalTX this) (Z.of_nat h) then
        let '(right_, st2) := ex_traverse this h (pos * 2 + 1) st1 in
        (right_, if equal right_ left_ then set_failed st2 else st2)
      else (left_, st1) in
    let '(hash, buf) := hash_pair (ex_buf st2) left_ right_ in
    (hash, {| bitsUsed := bitsUsed st2; hashUsed := hashUsed st2;
              ex_matches := ex_matches st2; ex_indexes := ex_indexes st2;
              ex_map := ex_map st2; failed := failed st2; ex_buf := buf |}).
Proof.
  intros Hbits Hflag. cbn [ex_traverse].
  assert ((buf_length (flags this) * 8 <=? bitsUsed st) = false) as -> by lia.
  assert ((flag_bit this (bitsUsed st) =? 0) = false) as -> by lia.
  reflexivity.
Qed.

(** Once set, [failed] stays set. *)
Lemma failed_stays h : forall pos st,
  failed st = true -> failed (ex_traverse this h pos st).2 = true.
Proof.
  induction h as [| h IH]; intros pos st Hf.
  - cbn [ex_traverse].
    destruct (buf_length (flags this) * 8 <=? bitsUsed st); [reflexivity |].
    cbn. destruct (Z.of_nat (length (hashes this)) <=? hashUsed st); [reflexivity |].
    destruct (negb (flag_bit this (bitsUsed st) =? 0)); cbn; exact Hf.
  - cbn [ex_traverse].
    destruct (buf_length (flags this) * 8 <=? bitsUsed st); [reflexivity |].
    destruct (flag_bit this (bitsUsed st) =? 0).
    + cbn. destruct (Z.of_nat (length (hashes this)) <=? hashUsed st); [reflexivity |].
      cbn. exact Hf.
    + pose proof (IH (pos * 2) (of_bit st) Hf) as H1.
      destruct (ex_traverse this h (pos * 2) (of_bit st)) as [l st1]. cbn [snd] in H1.
      destruct (pos * 2 + 1 <? width (totalTX this) (Z.of_nat h)).
      * pose proof (IH (pos * 2 + 1) st1 H1) as H2.
        destruct (ex_traverse this h (pos * 2 + 1) st1) as [r st2]. cbn [snd] in H2.
        destruct (equal r l); cbn; [reflexivity | exact H2].
      * cbn. exact H1.
Qed.

(** Equal sibling hashes set [failed]. *)
Lemma equal_siblings_fail h pos st :
  equal_siblings this h pos st -> failed (ex_traverse this h pos st).2 = true.
Proof.
  induction 1 as [h pos st l st1 r st2 Hbits Hflag Hright Hl Hr Heq
                 | h pos st Hbits Hflag Hsub IH
                 | h pos st l st1 Hbits Hflag Hright Hl Hsub IH].
  - rewrite ex_traverse_interior by assumption.
    rewrite Hl. assert ((pos * 2 + 1 <? width (totalTX this) (Z.of_nat h)) = true) as -> by lia.
    rewrite Hr. subst r. unfold equal. rewrite bool_decide_eq_true_2 by reflexivity.
    reflexivity.
  - rewrite ex_traverse_interior by assumption.
    destruct (ex_traverse this h (pos * 2) (of_bit st)) as [l st1]. cbn [snd] in IH.
    destruct (pos * 2 + 1 <? width (totalTX this) (Z.of_nat h)).
    + pose proof (failed_stays h (pos * 2 + 1) st1 IH) as H2.
      destruct (ex_traverse this h (pos * 2 + 1) st1) as [r st2]. cbn [snd] in H2.
      destruct (equal r l); cbn; [reflexivity | exact H2].
    + cbn. exact IH.
  - rewrite ex_traverse_interior by assumption.
    rewrite Hl. assert ((pos * 2 + 1 <? width (totalTX this) (Z.of_nat h)) = true) as -> by lia.
    destruct (ex_traverse this h (pos * 2 + 1) st1) as [r st2]. cbn [snd] in IH.
    destruct (equal r l); cbn; [reflexivity | exact IH].
Qed.

(** C4.  When the traversal of [extractTree] rebuilds an interior node
    whose two children have byte-for-byte identical hashes, [extractTree]
    returns no tree, and [verifyPartial] is false, whatever root is
    recomputed and whatever merkle root the block expects. *)
Theorem extractTree_rejects_equal_siblings h :
  find_height 32 (totalTX this) 0 = Ok h ->
  equal_siblings this (Z.to_nat h) 0 ex_start ->
  extractTree this = None
  /\ (_validPartial this = None -> (verifyPartial this).1 = false).
Proof.
  intros Hh Heq.
  assert (Hx : extractTree this = None).
  { unfold extractTree. rewrite Hh.
    pose proof (equal_siblings_fail _ _ _ Heq) as Hf.
    destruct (ex_traverse this (Z.to_nat h) 0 ex_start) as [r st]. cbn [snd] in Hf.
    rewrite Hf. repeat (destruct (_ =? _) || destruct (_ <? _)); reflexivity. }
  split; [exact Hx |].
  intros Hv. unfold verifyPartial. rewrite Hv, Hx. reflexivity.
Qed.

End ExtractFacts.

(** ** Partial merkle trees: the round trip *)

(** *** The 32-bit arithmetic of [width] *)

Lemma pow2_pos h : 0 <= h -> 0 < 2 ^ h.
Proof. intros Hh. apply Z.pow_pos_nonneg; lia. Qed.

Lemma pow2_le h k : 0 <= h <= k -> 2 ^ h <= 2 ^ k.
Proof. intros Hh. apply Z.pow_le_mono_r; lia. Qed.

Lemma js_shl_exact a n :
  0 <= a -> 0 <= n < 32 -> a * 2 ^ n < 2 ^ 31 -> js_shl a n = a * 2 ^ n.
Proof.
  intros Ha Hn Hlt. unfold js_shl, to_int32, to_uint32.
  pose proof (pow2_pos n (proj1 Hn)) as Hp.
  assert (Ha32 : a < 2 ^ 32) by nia.
  rewrite (Z.mod_small a) by lia. rewrite (Z.mod_small n) by lia.
  rewrite Z.shiftl_mul_pow2 by lia.
  rewrite Z.mod_small by nia.
  assert ((a * 2 ^ n <? 2 ^ 31) = true) as -> by lia. reflexivity.
Qed.

Lemma js_ushr_exact a n : 0 <= a < 2 ^ 32 -> 0 <= n < 32 -> js_ushr a n = a / 2 ^ n.
Proof.
  intros Ha Hn. unfold js_ushr, to_uint32.
  rewrite (Z.mod_small a) by lia. rewrite (Z.mod_small n) by lia.
  apply Z.shiftr_div_pow2. lia.
Qed.

Lemma width_exact N h :
  0 <= N <= 2 ^ 30 -> 0 <= h <= 30 -> Merkle.width N h = (N + 2 ^ h - 1) / 2 ^ h.
Proof.
  intros HN Hh. unfold Merkle.width.
  pose proof (pow2_pos h (proj1 Hh)) as Hp.
  pose proof (pow2_le h 30 Hh) as Hle.
  rewrite (js_shl_exact 1 h) by lia.
  rewrite Z.mul_1_l. apply js_ushr_exact; lia.
Qed.

(** A position is on a level exactly when it has a leaf below it. *)
Lemma ceil_div_lt N P pos : 0 < P -> (pos < (N + P - 1) / P <-> pos * P < N).
Proof.
  intros HP. split; intros Hlt.
  - pose proof (Z.mul_div_le (N + P - 1) P HP). nia.
  - assert (pos + 1 <= (N + P - 1) / P); [| lia].
    apply Z.div_le_lower_bound; nia.
Qed.

Lemma width_lt N h pos :
  0 <= N <= 2 ^ 30 -> 0 <= h <= 30 ->
  (pos < Merkle.width N h <-> pos * 2 ^ h < N).
Proof.
  intros HN Hh. rewrite width_exact by assumption.
  apply ceil_div_lt, pow2_pos; lia.
Qed.

(** The loop that finds the height ends: the top level has one node. *)
Lemma find_height_ok N :
  1 <= N <= 2 ^ 30 ->
  exists H, Merkle.find_height 32 N 0 = Ok H /\ 0 <= H <= 30 /\ N <= 2 ^ H.
Proof.
  intros HN.
  assert (Hgen : forall fuel h, 0 <= h <= 30 -> (31 - Z.to_nat h <= fuel)%nat ->
            exists H, Merkle.find_height fuel N h = Ok H /\ h <= H <= 30 /\ N <= 2 ^ H).
  { induction fuel as [| fuel IH]; intros h Hh Hf; [lia |].
    cbn [Merkle.find_height].
    destruct (1 <? Merkle.width N h) eqn:Hw.
    - assert (Hh30 : h < 30).
      { destruct (Z.eq_dec h 30) as [-> | Hne]; [| lia].
        rewrite width_exact in Hw by lia.
        assert ((N + 2 ^ 30 - 1) / 2 ^ 30 < 2); [| lia].
        apply Z.div_lt_upper_bound; lia. }
      destruct (IH (h + 1)) as (H & HH & Hr & Hp); [lia | lia |].
      exists H. split; [exact HH |]. split; [lia | exact Hp].
    - exists h. split; [reflexivity |]. split; [lia |].
      assert (Hnot : ~ (1 < Merkle.width N h)) by lia.
      rewrite width_lt in Hnot by lia. lia. }
  destruct (Hgen 32%nat 0) as (H & HH & Hr & Hp); [lia | lia |].
  exists H. split; [exact HH |]. split; [lia | exact Hp].
Qed.

(** *** The flag bits *)

Lemma flag_bit_testbit x j : 0 <= j -> Z.land (Z.shiftr x j) 1 = Z.b2z (Z.testbit x j).
Proof.
  intros Hj. rewrite Z.testbit_spec' by lia.
  rewrite Z.shiftr_div_pow2 by lia.
  change 1 with (Z.ones 1). rewrite Z.land_ones by lia. reflexivity.
Qed.

Lemma byte_at_alter f k (l : Buffer) i :
  byte_at (alter f k l) (Z.of_nat i)
  = if decide (i = k) then
      match l !! k with Some x => f x | None => 0 end
    else byte_at l (Z.of_nat i).
Proof.
  unfold byte_at. rewrite Nat2Z.id.
  destruct (decide (i = k)) as [-> | Hne].
  - rewrite list_lookup_alter_eq. destruct (l !! k); reflexivity.
  - rewrite list_lookup_alter_ne by congruence. reflexivity.
Qed.

(** Bit [j] of byte [k] of the packed flags is bit [8k + j] of the list,
    or what the byte held before. *)
Lemma pack_testbit bits : forall p (flags : Buffer) (k j : nat),
  (k < length flags)%nat -> (j < 8)%nat ->
  Z.testbit (byte_at (Merkle.pack bits p flags) (Z.of_nat k)) (Z.of_nat j)
  = Z.testbit (byte_at flags (Z.of_nat k)) (Z.of_nat j)
    || (if decide (p <= 8 * k + j)%nat
        then default false (bits !! (8 * k + j - p)%nat) else false).
Proof.
  induction bits as [| b rest IH]; intros p flags k j Hk Hj.
  - cbn [Merkle.pack]. rewrite lookup_nil. destruct (decide _); rewrite orb_false_r; reflexivity.
  - cbn [Merkle.pack]. rewrite IH by (rewrite ?length_alter; lia).
    rewrite byte_at_alter.
    assert (Hpdiv : (p = 8 * (p / 8) + p mod 8)%nat) by (apply Nat.div_mod_eq).
    assert (Hpmod : (p mod 8 < 8)%nat) by (apply Nat.mod_upper_bound; lia).
    destruct (decide (k = (p / 8)%nat)) as [-> | Hne].
    + destruct (lookup_lt_is_Some_2 flags (p / 8)%nat Hk) as [x Hx]. rewrite Hx.
      unfold byte_at. rewrite Nat2Z.id, Hx. cbn [default].
      rewrite Z.land_spec, Z.lor_spec.
      change 255 with (Z.ones 8). rewrite Z.testbit_ones_nonneg by lia.
      assert ((Z.of_nat j <? 8) = true) as -> by lia. rewrite andb_true_r.
      rewrite Z.shiftl_spec by lia.
      assert (Hm : Z.of_nat p mod 8 = Z.of_nat (p mod 8)).
      { rewrite Nat2Z.inj_mod. reflexivity. }
      rewrite Hm.
      destruct (decide (j = (p mod 8)%nat)) as [-> | Hj'].
      * rewrite Z.sub_diag. 
        replace (8 * (p / 8) + p mod 8)%nat with p by lia.
        destruct (decide (S p <= p)%nat); [lia |].
        destruct (decide (p <= p)%nat); [| lia].
        rewrite Nat.sub_diag. cbn [lookup list_lookup default].
        destruct b; cbn; rewrite ?orb_false_r, ?orb_true_r; reflexivity.
      * assert (Z.testbit (Z.b2z b) (Z.of_nat j - Z.of_nat (p mod 8)) = false) as ->.
        { destruct (Z.ltb_spec (Z.of_nat j - Z.of_nat (p mod 8)) 0).
          - apply Z.testbit_neg_r. lia.
          - destruct b; cbn [Z.b2z].
            + apply Z.bits_above_log2; [lia | change (Z.log2 1) with 0; lia].
            + apply Z.bits_0. }
        rewrite orb_false_r.
        destruct (decide (S p <= 8 * (p / 8) + j)%nat) as [H1 | H1];
          destruct (decide (p <= 8 * (p / 8) + j)%nat) as [H2 | H2]; try lia; try reflexivity.
        replace (8 * (p / 8) + j - p)%nat with (S (8 * (p / 8) + j - S p)) by lia.
        reflexivity.
    + destruct (decide (S p <= 8 * k + j)%nat) as [H1 | H1];
        destruct (decide (p <= 8 * k + j)%nat) as [H2 | H2]; try lia; try reflexivity.
      replace (8 * k + j - p)%nat with (S (8 * k + j - S p)) by lia. reflexivity.
Qed.

(** The bit that [extractTree] reads at [i] is bit [i] of the list that
    [fromMatches] packed. *)
Lemma pack_flags_bit bits i :
  (i < length bits)%nat ->
  let F := Merkle.pack_flags bits in
  Z.land (Z.shiftr (byte_at F (Z.of_nat i / 8)) (Z.of_nat i mod 8)) 1
  = Z.b2z (default false (bits !! i)).
Proof.
  intros Hi F. 
  assert (Hd : Z.of_nat i / 8 = Z.of_nat (i / 8)) by (rewrite Nat2Z.inj_div; reflexivity).
  assert (Hm : Z.of_nat i mod 8 = Z.of_nat (i mod 8)) by (rewrite Nat2Z.inj_mod; reflexivity).
  assert (Hm8 : (i mod 8 < 8)%nat) by (apply Nat.mod_upper_bound; lia).
  rewrite Hd, Hm. rewrite flag_bit_testbit by lia.
  unfold F, Merkle.pack_flags. rewrite pack_testbit.
  - f_equal. unfold byte_at, buf_zero.
    destruct (replicate _ 0 !! _) as [z |] eqn:Hz.
    + apply lookup_replicate in Hz as [-> _]. cbn [default]. rewrite Z.bits_0.
      destruct (decide _); [| lia]. cbn [orb]. f_equal. f_equal.
      pose proof (Nat.div_mod_eq i 8). lia.
    + cbn [default]. rewrite Z.bits_0. destruct (decide _); [| lia]. cbn [orb].
      f_equal. f_equal. pose proof (Nat.div_mod_eq i 8). lia.
  - unfold buf_zero. rewrite length_replicate.
    assert (Z.of_nat (i / 8) < (Z.of_nat (length bits) + 7) / 8); [| lia].
    rewrite <- Hd. apply Z.div_lt_upper_bound; [lia |].
    pose proof (Z.mul_div_le (Z.of_nat i) 8). 
    pose proof (Z.mod_pos_bound (Z.of_nat i) 8).
    pose proof (Z.div_mod (Z.of_nat i) 8).
    pose proof (Z.mul_div_le (Z.of_nat (length bits) + 7) 8).
    pose proof (Z.mod_pos_bound (Z.of_nat (length bits) + 7) 8).
    pose proof (Z.div_mod (Z.of_nat (length bits) + 7) 8).
    nia.
  - exact Hm8.
Qed.

Lemma pack_length bits : forall p flags, length (Merkle.pack bits p flags) = length flags.
Proof.
  induction bits as [| b rest IH]; intros p flags; [reflexivity |].
  cbn [Merkle.pack]. rewrite IH, length_alter. reflexivity.
Qed.

Lemma pack_flags_length bits :
  buf_length (Merkle.pack_flags bits) = (Z.of_nat (length bits) + 7) / 8.
Proof.
  unfold Merkle.pack_flags, buf_length. rewrite pack_length.
  unfold buf_zero. rewrite length_replicate.
  assert (0 <= (Z.of_nat (length bits) + 7) / 8) by (apply Z.div_pos; lia). lia.
Qed.

(** *** The shared buffer of 64 bytes *)

Lemma hash_pair_spec buf l r :
  buf_length buf = 64 -> buf_length l = 32 -> buf_length r = 32 ->
  Merkle.hash_pair buf l r = (hash256 (l ++ r), l ++ r).
Proof.
  intros Hb Hl Hr. unfold Merkle.hash_pair.
  assert (Ho : Writer.overlay (Writer.overlay buf 0 l) 32 r = l ++ r).
  { rewrite (overlay_spec buf 0 l) by lia.
    change (Z.to_nat 0) with 0%nat. rewrite take_0. cbn [app].
    set (rest := drop _ buf).
    assert (Hrest : length rest = 32%nat).
    { unfold rest. rewrite length_drop. unfold buf_length in *. lia. }
    unfold buf_length in *.
    rewrite overlay_spec by (unfold buf_length; rewrite ?length_app; lia).
    rewrite take_app_length' by lia.
    rewrite drop_ge by (unfold buf_length; rewrite length_app; lia).
    rewrite app_nil_r. reflexivity. }
  rewrite Ho. reflexivity.
Qed.

Lemma existsb_filter {A} (f : A -> bool) (l : list A) :
  existsb f l = negb (bool_decide (filter (fun p => f p = true) l = [])).
Proof.
  induction l as [| x l IH]; [reflexivity |].
  cbn [existsb]. rewrite filter_cons. destruct (f x) eqn:Hf.
  - destruct (decide (true = true)); [| congruence]. reflexivity.
  - destruct (decide (false = true)); [congruence |]. exact IH.
Qed.

(** *** The tree over the leaves of a block *)

Section Tree.
Import Merkle.
Variable leaves : list Buffer.
Variable matched : list bool.
Hypothesis Hcount : 1 <= leaf_count leaves <= 2 ^ 30.
Hypothesis Hsize : Forall (fun h => buf_length h = 32) leaves.

Lemma pow2_succ (h : nat) : 2 ^ Z.of_nat (S h) = 2 * 2 ^ Z.of_nat h.
Proof. rewrite Nat2Z.inj_succ. apply Z.pow_succ_r. lia. Qed.

Lemma in_tree_left h pos : in_tree leaves (S h) pos -> in_tree leaves h (pos * 2).
Proof.
  unfold in_tree. rewrite pow2_succ. intros (Hh & Hp & Hlt).
  split; [lia |]. split; [lia |]. nia.
Qed.

Lemma right_width h pos :
  in_tree leaves (S h) pos ->
  (pos * 2 + 1 <? width (leaf_count leaves) (Z.of_nat h)) = true
  <-> (pos * 2 + 1) * 2 ^ Z.of_nat h < leaf_count leaves.
Proof.
  intros (Hh & Hp & Hlt). rewrite Z.ltb_lt. apply width_lt; lia.
Qed.

Lemma in_tree_right h pos :
  in_tree leaves (S h) pos ->
  (pos * 2 + 1 <? width (leaf_count leaves) (Z.of_nat h)) = true ->
  in_tree leaves h (pos * 2 + 1).
Proof.
  intros Hin Hw. apply right_width in Hw; [| exact Hin].
  destruct Hin as (Hh & Hp & Hlt).
  split; [lia |]. split; [lia | exact Hw].
Qed.

Lemma first_leaf_eq h pos :
  in_tree leaves h pos -> first_leaf h pos = pos * 2 ^ Z.of_nat h.
Proof.
  intros (Hh & Hp & Hlt). unfold first_leaf.
  apply js_shl_exact; [lia | lia |].
  change (2 ^ 31) with (2 * 2 ^ 30). lia.
Qed.

Lemma end_leaf_eq h pos :
  in_tree leaves h pos ->
  end_leaf leaves h pos = Z.min ((pos + 1) * 2 ^ Z.of_nat h) (leaf_count leaves).
Proof.
  intros (Hh & Hp & Hlt). unfold end_leaf. f_equal.
  apply js_shl_exact; [lia | lia |].
  pose proof (pow2_le (Z.of_nat h) 30 ltac:(lia)).
  change (2 ^ 31) with (2 ^ 30 + 2 ^ 30). lia.
Qed.

Lemma span_eq h pos :
  in_tree leaves h pos -> end_leaf leaves h pos - first_leaf h pos = span leaves h pos.
Proof.
  intros Hin. rewrite end_leaf_eq, first_leaf_eq by exact Hin. reflexivity.
Qed.

Lemma span_pos h pos : in_tree leaves h pos -> 1 <= span leaves h pos.
Proof.
  intros (Hh & Hp & Hlt). unfold span.
  pose proof (pow2_pos (Z.of_nat h) ltac:(lia)). lia.
Qed.

Lemma span_node h pos :
  in_tree leaves (S h) pos ->
  span leaves (S h) pos
  = span leaves h (pos * 2)
    + (if pos * 2 + 1 <? width (leaf_count leaves) (Z.of_nat h)
       then span leaves h (pos * 2 + 1) else 0).
Proof.
  intros Hin. pose proof (right_width h pos Hin) as Hw.
  destruct Hin as (Hh & Hp & Hlt). unfold span in *. rewrite pow2_succ in *.
  pose proof (pow2_pos (Z.of_nat h) ltac:(lia)) as Hpow.
  set (P := 2 ^ Z.of_nat h) in *.
  destruct (pos * 2 + 1 <? width (leaf_count leaves) (Z.of_nat h)).
  - assert ((pos * 2 + 1) * P < leaf_count leaves) by (apply Hw; reflexivity). nia.
  - assert (~ (pos * 2 + 1) * P < leaf_count leaves) by (intros Hc; apply Hw in Hc; discriminate).
    nia.
Qed.

(** The matched leaves below a node are those below its children. *)
Lemma found_node h pos :
  in_tree leaves (S h) pos ->
  found leaves matched (S h) pos
  = found leaves matched h (pos * 2)
    ++ (if pos * 2 + 1 <? width (leaf_count leaves) (Z.of_nat h)
        then found leaves matched h (pos * 2 + 1) else []).
Proof.
  intros Hin. unfold found.
  pose proof (in_tree_left h pos Hin) as Hl.
  pose proof (span_node h pos Hin) as Hs.
  pose proof (span_pos h (pos * 2) Hl) as Hsl.
  rewrite (span_eq (S h) pos Hin), (span_eq h (pos * 2) Hl).
  rewrite (first_leaf_eq (S h) pos Hin), (first_leaf_eq h (pos * 2) Hl).
  assert (Hlo : pos * 2 ^ Z.of_nat (S h) = pos * 2 * 2 ^ Z.of_nat h) by (rewrite pow2_succ; lia).
  rewrite Hlo, Hs.
  destruct (pos * 2 + 1 <? width (leaf_count leaves) (Z.of_nat h)) eqn:Hw.
  - pose proof (in_tree_right h pos Hin Hw) as Hr.
    pose proof (span_pos h (pos * 2 + 1) Hr) as Hsr.
    rewrite (span_eq h (pos * 2 + 1) Hr), (first_leaf_eq h (pos * 2 + 1) Hr).
    rewrite seqZ_app by lia. rewrite filter_app. f_equal. f_equal. f_equal.
    apply right_width in Hw; [| exact Hin].
    unfold span. lia.
  - rewrite Z.add_0_r, app_nil_r. reflexivity.
Qed.

Lemma found_leaf pos :
  in_tree leaves O pos ->
  found leaves matched O pos = if match_at matched pos then [pos] else [].
Proof.
  intros Hin. unfold found.
  rewrite (span_eq O pos Hin), (first_leaf_eq O pos Hin).
  destruct Hin as (Hh & Hp & Hlt). unfold span.
  change (2 ^ Z.of_nat 0) with 1 in *. rewrite !Z.mul_1_r in *.
  replace (Z.min (pos + 1) (leaf_count leaves) - pos) with 1 by lia.
  change (seqZ pos 1) with [pos]. rewrite filter_cons, filter_nil.
  destruct (match_at matched pos); destruct (decide _); congruence.
Qed.

Lemma parent_found h pos :
  parent_bit leaves matched h pos = negb (bool_decide (found leaves matched h pos = [])).
Proof. unfold parent_bit, found. apply existsb_filter. Qed.

Lemma parent_leaf pos :
  in_tree leaves O pos -> parent_bit leaves matched O pos = match_at matched pos.
Proof.
  intros Hin. rewrite parent_found, (found_leaf pos Hin).
  destruct (match_at matched pos); reflexivity.
Qed.

Lemma leaf_length pos : in_tree leaves O pos -> buf_length (leaf leaves pos) = 32.
Proof.
  intros (Hh & Hp & Hlt). change (2 ^ Z.of_nat 0) with 1 in Hlt. unfold leaf.
  destruct (lookup_lt_is_Some_2 leaves (Z.to_nat pos)) as [x Hx].
  { unfold leaf_count in Hlt. lia. }
  rewrite Hx. cbn [default].
  exact (proj1 (Forall_lookup _ _) Hsize _ _ Hx).
Qed.

Lemma tree_hash_length h pos : in_tree leaves h pos -> buf_length (tree_hash leaves h pos) = 32.
Proof.
  destruct h as [| h]; intros Hin.
  - apply leaf_length, Hin.
  - cbn [tree_hash]. apply hash256_length.
Qed.

(** [hash] returns the hash of the node and leaves a buffer of 64 bytes. *)
Lemma hash_spec h : forall pos buf,
  in_tree leaves h pos -> buf_length buf = 64 ->
  (hash leaves h pos buf).1 = tree_hash leaves h pos
  /\ buf_length (hash leaves h pos buf).2 = 64.
Proof.
  induction h as [| h IH]; intros pos buf Hin Hbuf.
  - split; [reflexivity | exact Hbuf].
  - cbn [hash tree_hash].
    pose proof (in_tree_left h pos Hin) as Hl.
    destruct (IH (pos * 2) buf Hl Hbuf) as [Hl1 Hl2].
    destruct (hash leaves h (pos * 2) buf) as [l buf1]. cbn [fst snd] in Hl1, Hl2. subst l.
    destruct (pos * 2 + 1 <? width (leaf_count leaves) (Z.of_nat h)) eqn:Hw.
    + pose proof (in_tree_right h pos Hin Hw) as Hr.
      destruct (IH (pos * 2 + 1) buf1 Hr Hl2) as [Hr1 Hr2].
      destruct (hash leaves h (pos * 2 + 1) buf1) as [r buf2]. cbn [fst snd] in Hr1, Hr2. subst r.
      rewrite hash_pair_spec by (try apply tree_hash_length; assumption).
      cbn [fst snd]. split; [reflexivity |].
      unfold buf_length. rewrite length_app.
      pose proof (tree_hash_length h _ Hl). pose proof (tree_hash_length h _ Hr).
      unfold buf_length in *. lia.
    + rewrite hash_pair_spec by (try apply tree_hash_length; assumption).
      cbn [fst snd]. split; [reflexivity |].
      unfold buf_length. rewrite length_app.
      pose proof (tree_hash_length h _ Hl). unfold buf_length in *. lia.
Qed.

(** [traverse] pushes the flag bits and the hashes of the node. *)
Lemma traverse_spec h : forall pos st,
  in_tree leaves h pos -> buf_length (bld_buf st) = 64 ->
  bld_bits (traverse leaves matched h pos st) = bld_bits st ++ node_bits leaves matched h pos
  /\ bld_hashes (traverse leaves matched h pos st)
     = bld_hashes st ++ node_hashes leaves matched h pos
  /\ buf_length (bld_buf (traverse leaves matched h pos st)) = 64.
Proof.
  induction h as [| h IH]; intros pos st Hin Hbuf.
  - cbn. split; [reflexivity |]. split; [reflexivity | exact Hbuf].
  - cbn [traverse node_bits node_hashes].
    destruct (parent_bit leaves matched (S h) pos) eqn:Hparent; cbn [negb].
    + pose proof (in_tree_left h pos Hin) as Hl.
      set (st0 := {| bld_bits := bld_bits st ++ [true]; bld_hashes := bld_hashes st;
                     bld_buf := bld_buf st |}).
      destruct (IH (pos * 2) st0 Hl Hbuf) as (Hb1 & Hh1 & Hbuf1).
      destruct (pos * 2 + 1 <? width (leaf_count leaves) (Z.of_nat h)) eqn:Hw.
      * pose proof (in_tree_right h pos Hin Hw) as Hr.
        destruct (IH (pos * 2 + 1) _ Hr Hbuf1) as (Hb2 & Hh2 & Hbuf2).
        rewrite Hb2, Hh2, Hb1, Hh1. cbn [bld_bits bld_hashes st0].
        rewrite <- !app_assoc. split; [reflexivity |]. split; [reflexivity | exact Hbuf2].
      * rewrite Hb1, Hh1. cbn [bld_bits bld_hashes st0].
        rewrite !app_nil_r, <- !app_assoc. split; [reflexivity |].
        split; [reflexivity | exact Hbuf1].
    + destruct (hash_spec (S h) pos (bld_buf st) Hin Hbuf) as [Hh1 Hh2].
      cbn [bld_buf].
      destruct (hash leaves (S h) pos (bld_buf st)) as [x buf1]. cbn [fst snd] in Hh1, Hh2.
      cbn [bld_bits bld_hashes bld_buf]. subst x.
      split; [reflexivity |]. split; [reflexivity | exact Hh2].
Qed.

Lemma node_hashes_bits h : forall pos,
  (length (node_hashes leaves matched h pos) <= length (node_bits leaves matched h pos))%nat.
Proof.
  induction h as [| h IH]; intros pos; [cbn; lia |].
  cbn [node_hashes node_bits]. destruct (negb _); [cbn; lia |].
  cbn [length]. rewrite !length_app.
  pose proof (IH (pos * 2)). pose proof (IH (pos * 2 + 1)).
  destruct (_ <? _); cbn [length]; lia.
Qed.

Lemma node_hashes_span h : forall pos,
  in_tree leaves h pos ->
  Z.of_nat (length (node_hashes leaves matched h pos)) <= span leaves h pos.
Proof.
  induction h as [| h IH]; intros pos Hin.
  - pose proof (span_pos O pos Hin). cbn [node_hashes length]. lia.
  - pose proof (span_pos (S h) pos Hin) as Hs.
    cbn [node_hashes]. destruct (negb _); [cbn [length]; lia |].
    rewrite (span_node h pos Hin), length_app.
    pose proof (IH (pos * 2) (in_tree_left h pos Hin)).
    destruct (pos * 2 + 1 <? width (leaf_count leaves) (Z.of_nat h)) eqn:Hw.
    + pose proof (IH (pos * 2 + 1) (in_tree_right h pos Hin Hw)). lia.
    + cbn [length]. lia.
Qed.

End Tree.

(** *** Reading the tree back *)

Lemma flag_bit_at `{Consensus} (this : Merkle.MerkleBlock) Bs B1 b B2 n :
  Merkle.flags this = Merkle.pack_flags Bs -> Bs = B1 ++ b :: B2 ->
  n = Z.of_nat (length B1) ->
  (buf_length (Merkle.flags this) * 8 <=? n) = false
  /\ Merkle.flag_bit this n = Z.b2z b.
Proof.
  intros Hflags HBs ->.
  assert (Hlt : (length B1 < length Bs)%nat).
  { rewrite HBs, length_app. cbn [length]. lia. }
  split.
  - rewrite Hflags, pack_flags_length.
    pose proof (Z.mul_div_le (Z.of_nat (length Bs) + 7) 8).
    pose proof (Z.mod_pos_bound (Z.of_nat (length Bs) + 7) 8).
    pose proof (Z.div_mod (Z.of_nat (length Bs) + 7) 8). lia.
  - unfold Merkle.flag_bit. rewrite Hflags.
    rewrite (pack_flags_bit Bs (length B1) Hlt).
    rewrite HBs, lookup_app_r by lia. rewrite Nat.sub_diag. reflexivity.
Qed.

Lemma hashes_at (Hs H1 : list Buffer) x H2 n :
  Hs = H1 ++ x :: H2 -> n = Z.of_nat (length H1) ->
  (Z.of_nat (length Hs) <=? n) = false /\ default [] (Hs !! Z.to_nat n) = x.
Proof.
  intros -> ->. split.
  - apply Z.leb_gt. rewrite length_app. cbn [length]. lia.
  - rewrite Nat2Z.id, lookup_app_r by lia. rewrite Nat.sub_diag. reflexivity.
Qed.

Lemma index_map_app leaves m a b :
  Merkle.index_map leaves m (a ++ b) = Merkle.index_map leaves (Merkle.index_map leaves m a) b.
Proof. unfold Merkle.index_map. apply foldl_app. Qed.

Section ReadBack.
Context `{Consensus}.
Import Merkle.
Variable leaves : list Buffer.
Variable matched : list bool.
Variable this : MerkleBlock.
Variable Bs : list bool.
Hypothesis Hcount : 1 <= leaf_count leaves <= 2 ^ 30.
Hypothesis Hsize : Forall (fun h => buf_length h = 32) leaves.
Hypothesis Hflags : flags this = pack_flags Bs.
Hypothesis Htotal : totalTX this = leaf_count leaves.

(** On the flag bits and the hashes that [fromMatches] pushed for a node,
    the traversal of [extractTree] returns the hash of the node, uses up
    those bits and hashes, and records the matched leaves below the node,
    as long as no two siblings on its way have the same hash. *)
Lemma ex_traverse_spec h : forall pos st B1 B2 H1 H2,
  in_tree leaves h pos ->
  Bs = B1 ++ node_bits leaves matched h pos ++ B2 ->
  hashes this = H1 ++ node_hashes leaves matched h pos ++ H2 ->
  bitsUsed st = Z.of_nat (length B1) ->
  hashUsed st = Z.of_nat (length H1) ->
  failed st = false ->
  buf_length (ex_buf st) = 64 ->
  siblings_differ leaves matched h pos = true ->
  let r := ex_traverse this h pos st in
  r.1 = tree_hash leaves h pos
  /\ bitsUsed r.2 = bitsUsed st + Z.of_nat (length (node_bits leaves matched h pos))
  /\ hashUsed r.2 = hashUsed st + Z.of_nat (length (node_hashes leaves matched h pos))
  /\ ex_matches r.2 = ex_matches st ++ (leaf leaves <$> found leaves matched h pos)
  /\ ex_indexes r.2 = ex_indexes st ++ found leaves matched h pos
  /\ ex_map r.2 = index_map leaves (ex_map st) (found leaves matched h pos)
  /\ failed r.2 = false
  /\ buf_length (ex_buf r.2) = 64.
Proof.
  induction h as [| h IH]; intros pos st B1 B2 H1 H2 Hin HBs HHs Hbits Hhash Hfail Hbuf Hdiff r.
  - subst r. cbn [node_bits node_hashes app] in HBs, HHs.
    destruct (flag_bit_at this Bs B1 _ _ _ Hflags HBs Hbits) as [Hroom Hflag].
    destruct (hashes_at _ _ _ _ _ HHs Hhash) as [Hleft Hget].
    cbn [ex_traverse]. rewrite Hroom, Hflag. cbn [of_bit hashUsed]. rewrite Hleft, Hget.
    rewrite (parent_leaf leaves matched Hcount pos Hin).
    rewrite (found_leaf leaves matched Hcount pos Hin).
    cbn [node_bits node_hashes length tree_hash].
    destruct (match_at matched pos); cbn;
      rewrite ?app_nil_r; repeat split; try reflexivity; try lia; assumption.
  - subst r. cbn [node_bits] in HBs.
    destruct (flag_bit_at this Bs B1 _ _ _ Hflags HBs Hbits) as [Hroom Hflag].
    cbn [ex_traverse]. rewrite Hroom, Hflag.
    cbn [node_bits node_hashes].
    destruct (parent_bit leaves matched (S h) pos) eqn:Hparent; cbn [negb Z.b2z Z.eqb].
    + cbn [negb] in HBs, HHs. cbn [node_hashes] in HHs. rewrite Hparent in HHs. cbn [negb] in HHs.
      cbn [siblings_differ] in Hdiff. rewrite Hparent in Hdiff.
      apply andb_true_iff in Hdiff as [Hdl Hdr].
      pose proof (in_tree_left leaves h pos Hin) as Hl.
      rewrite (found_node leaves matched Hcount h pos Hin).
      destruct (pos * 2 + 1 <? width (leaf_count leaves) (Z.of_nat h)) eqn:Hw.
      * apply andb_true_iff in Hdr as [Hdr Hne].
        pose proof (in_tree_right leaves Hcount h pos Hin Hw) as Hr.
        cbn [app] in HBs. rewrite <- ?app_assoc in HBs, HHs.
        edestruct (IH (pos * 2) (of_bit st) (B1 ++ [true])
                     (node_bits leaves matched h (pos * 2 + 1) ++ B2) H1
                     (node_hashes leaves matched h (pos * 2 + 1) ++ H2) Hl) as
          (L1 & L2 & L3 & L4 & L5 & L6 & L7 & L8);
          [rewrite <- app_assoc; exact HBs | exact HHs
          | cbn [of_bit bitsUsed]; rewrite length_app; cbn [length]; lia
          | exact Hhash | exact Hfail | exact Hbuf | exact Hdl |].
        destruct (ex_traverse this h (pos * 2) (of_bit st)) as [l st1].
        cbn [fst snd of_bit bitsUsed hashUsed ex_matches ex_indexes ex_map] in L1, L2, L3, L4, L5, L6, L7, L8.
        rewrite Htotal, Hw.
        edestruct (IH (pos * 2 + 1) st1
                     (B1 ++ [true] ++ node_bits leaves matched h (pos * 2)) B2
                     (H1 ++ node_hashes leaves matched h (pos * 2)) H2 Hr) as
          (R1 & R2 & R3 & R4 & R5 & R6 & R7 & R8);
          [rewrite <- ?app_assoc; exact HBs | rewrite <- ?app_assoc; exact HHs
          | rewrite L2, !length_app; cbn [length]; lia
          | rewrite L3, !length_app; lia
          | exact L7 | exact L8 | exact Hdr |].
        destruct (ex_traverse this h (pos * 2 + 1) st1) as [r st2].
        cbn [fst snd] in R1, R2, R3, R4, R5, R6, R7, R8.
        subst l r. apply negb_true_iff in Hne. rewrite Hne.
        rewrite hash_pair_spec by
          (first [exact R8 | apply (tree_hash_length leaves Hsize); assumption]).
        cbn [fst snd bitsUsed hashUsed ex_matches ex_indexes ex_map failed ex_buf tree_hash].
        rewrite Hw. cbn [length]. rewrite !length_app, fmap_app, index_map_app.
        rewrite R2, R3, R4, R5, R6, L2, L3, L4, L5, L6, <- !app_assoc.
        repeat split; try reflexivity; try lia; try assumption.
        unfold buf_length. rewrite length_app.
        pose proof (tree_hash_length leaves Hsize h _ Hl).
        pose proof (tree_hash_length leaves Hsize h _ Hr).
        unfold buf_length in *. lia.
      * rewrite !app_nil_r in *. cbn [app] in HBs, HHs.
        edestruct (IH (pos * 2) (of_bit st) (B1 ++ [true]) B2 H1 H2 Hl) as
          (L1 & L2 & L3 & L4 & L5 & L6 & L7 & L8);
          [rewrite <- app_assoc; exact HBs | exact HHs
          | cbn [of_bit bitsUsed]; rewrite length_app; cbn [length]; lia
          | exact Hhash | exact Hfail | exact Hbuf | exact Hdl |].
        destruct (ex_traverse this h (pos * 2) (of_bit st)) as [l st1].
        cbn [fst snd of_bit bitsUsed hashUsed ex_matches ex_indexes ex_map] in L1, L2, L3, L4, L5, L6, L7, L8.
        rewrite Htotal, Hw. subst l.
        rewrite hash_pair_spec by
          (first [exact L8 | apply (tree_hash_length leaves Hsize); assumption]).
        cbn [fst snd bitsUsed hashUsed ex_matches ex_indexes ex_map failed ex_buf tree_hash].
        rewrite Hw. cbn [length].
        rewrite L2, L3, L4, L5, L6.
        repeat split; try reflexivity; try lia; try assumption.
        unfold buf_length. rewrite length_app.
        pose proof (tree_hash_length leaves Hsize h _ Hl).
        unfold buf_length in *. lia.
    + cbn [node_hashes] in HHs. rewrite Hparent in HHs. cbn [negb app] in HHs.
      destruct (hashes_at _ _ _ _ _ HHs Hhash) as [Hleft Hget].
      cbn [of_bit hashUsed]. rewrite Hleft, Hget. cbn [andb].
      assert (Hnone : found leaves matched (S h) pos = []).
      { rewrite parent_found in Hparent. apply negb_false_iff in Hparent.
        apply bool_decide_eq_true in Hparent. exact Hparent. }
      rewrite Hnone.
      cbn [fst snd bitsUsed hashUsed ex_matches ex_indexes ex_map failed ex_buf length
           fmap list_fmap index_map foldl].
      rewrite !app_nil_r.
      repeat split; try reflexivity; try lia; assumption.
Qed.

End ReadBack.

(** *** The merkle root, level by level *)

Lemma pair_up_lookup l : forall i,
  Merkle.pair_up l !! i
  = match l !! (2 * i)%nat with
    | Some x => Some (hash256 (x ++ default x (l !! (2 * i + 1)%nat)))
    | None => None
    end.
Proof.
  assert (Hboth : (forall i, Merkle.pair_up l !! i
            = match l !! (2 * i)%nat with
              | Some x => Some (hash256 (x ++ default x (l !! (2 * i + 1)%nat)))
              | None => None
              end)
          /\ (forall y i, Merkle.pair_up (y :: l) !! i
            = match (y :: l) !! (2 * i)%nat with
              | Some x => Some (hash256 (x ++ default x ((y :: l) !! (2 * i + 1)%nat)))
              | None => None
              end)).
  { induction l as [| x l [IH1 IH2]].
    - split; [intros i; reflexivity |].
      intros y [| i]; [reflexivity |].
      cbn [Merkle.pair_up]. replace (2 * S i)%nat with (S (S (2 * i))) by lia. reflexivity.
    - split; [apply IH2 |]. intros y [| i]; [reflexivity |].
      cbn [Merkle.pair_up]. replace (2 * S i)%nat with (S (S (2 * i))) by lia.
      cbn [lookup list_lookup Nat.add]. apply IH1. }
  exact (proj1 Hboth).
Qed.

Section Levels.
Import Merkle.
Variable leaves : list Buffer.
Hypothesis Hcount : 1 <= leaf_count leaves <= 2 ^ 30.

Lemma level_lookup h i :
  Z.of_nat h <= 30 ->
  level leaves h !! i
  = if Z.of_nat i * 2 ^ Z.of_nat h <? leaf_count leaves
    then Some (tree_hash leaves h (Z.of_nat i)) else None.
Proof.
  intros Hh. unfold level. rewrite list_lookup_fmap.
  pose proof (width_lt (leaf_count leaves) (Z.of_nat h) (Z.of_nat i) ltac:(lia) ltac:(lia)) as Hw.
  destruct (Z.of_nat i * 2 ^ Z.of_nat h <? leaf_count leaves) eqn:Hlt.
  - rewrite lookup_seqZ_lt by (apply Hw; lia). reflexivity.
  - rewrite lookup_seqZ_ge; [reflexivity |].
    assert (~ Z.of_nat i < width (leaf_count leaves) (Z.of_nat h)); [| lia].
    intros Hc. apply Hw in Hc. lia.
Qed.

Lemma level_leaves : level leaves O = leaves.
Proof.
  apply list_eq. intros i. rewrite level_lookup by lia.
  change (2 ^ Z.of_nat 0) with 1. rewrite Z.mul_1_r. cbn [tree_hash]. unfold leaf, leaf_count.
  rewrite Nat2Z.id.
  destruct (Z.of_nat i <? Z.of_nat (length leaves)) eqn:Hlt.
  - destruct (lookup_lt_is_Some_2 leaves i ltac:(lia)) as [x Hx]. rewrite Hx. reflexivity.
  - symmetry. apply lookup_ge_None. lia.
Qed.

Lemma level_step h : Z.of_nat (S h) <= 30 -> pair_up (level leaves h) = level leaves (S h).
Proof.
  intros Hh. apply list_eq. intros i.
  rewrite pair_up_lookup, !level_lookup by lia.
  rewrite pow2_succ.
  pose proof (pow2_pos (Z.of_nat h) ltac:(lia)) as Hpow.
  replace (Z.of_nat (2 * i)) with (Z.of_nat i * 2) by lia.
  replace (Z.of_nat (2 * i + 1)) with (Z.of_nat i * 2 + 1) by lia.
  replace (Z.of_nat i * (2 * 2 ^ Z.of_nat h)) with (Z.of_nat i * 2 * 2 ^ Z.of_nat h) by lia.
  destruct (Z.of_nat i * 2 * 2 ^ Z.of_nat h <? leaf_count leaves) eqn:Hlt; [| reflexivity].
  cbn [tree_hash]. f_equal. f_equal. f_equal.
  pose proof (width_lt (leaf_count leaves) (Z.of_nat h) (Z.of_nat i * 2 + 1)
                ltac:(lia) ltac:(lia)) as Hw.
  destruct (Z.of_nat i * 2 + 1 <? width (leaf_count leaves) (Z.of_nat h)) eqn:Hr.
  - assert (((Z.of_nat i * 2 + 1) * 2 ^ Z.of_nat h <? leaf_count leaves) = true) as ->.
    { apply Z.ltb_lt, Hw. lia. }
    reflexivity.
  - assert (((Z.of_nat i * 2 + 1) * 2 ^ Z.of_nat h <? leaf_count leaves) = false) as ->.
    { apply Z.ltb_ge. apply Z.nlt_ge. intros Hc. apply Hw in Hc. lia. }
    reflexivity.
Qed.

Lemma level_up_levels n : forall h,
  Z.of_nat (n + h) <= 30 -> level_up n (level leaves h) = level leaves (n + h).
Proof.
  induction n as [| n IH]; intros h Hh; [reflexivity |].
  cbn [level_up]. rewrite level_step by lia. rewrite IH by lia.
  f_equal. lia.
Qed.

(** The hash of the top node is the merkle root. *)
Lemma tree_hash_root H :
  find_height 32 (leaf_count leaves) 0 = Ok H -> 0 <= H <= 30 ->
  leaf_count leaves <= 2 ^ H ->
  merkle_root leaves = tree_hash leaves (Z.to_nat H) 0.
Proof.
  intros Hfind HH Hpow. unfold merkle_root, tree_height. rewrite Hfind.
  replace (level_up (Z.to_nat H) leaves) with (level_up (Z.to_nat H) (level leaves O))
    by (f_equal; apply level_leaves).
  rewrite level_up_levels by lia.
  rewrite Nat.add_0_r.
  assert (Hw : width (leaf_count leaves) (Z.of_nat (Z.to_nat H)) = 1).
  { pose proof (width_lt (leaf_count leaves) (Z.of_nat (Z.to_nat H)) 0 ltac:(lia) ltac:(lia)) as H0.
    pose proof (width_lt (leaf_count leaves) (Z.of_nat (Z.to_nat H)) 1 ltac:(lia) ltac:(lia)) as H1.
    rewrite Z2Nat.id in * by lia.
    assert (0 < width (leaf_count leaves) H) by (apply H0; lia).
    assert (~ 1 < width (leaf_count leaves) H).
    { intros Hc. apply H1 in Hc. lia. }
    lia. }
  unfold level. rewrite Hw. reflexivity.
Qed.

End Levels.

(** *** The round trip *)

Section RoundTrip.
Context `{Consensus} `{!ConsensusLaws}.
Import Merkle.

(** C3 (as amended).  For a block of at least one and at most
    [BLOCK_MAX_SIZE / 60] transactions whose hashes have 32 bytes, and a
    match vector such that no two sibling nodes above a matched
    transaction have the same hash: [fromMatches] returns a merkle block,
    and [extractTree] on it returns a tree whose indexes are the positions
    of the matched transactions in order, whose matches are their hashes,
    whose map takes the hex of each of these hashes to its position, and
    whose root is the merkle root of the block; so [verifyPartial] holds
    when the block carries its merkle root. *)
Theorem fromMatches_extractTree_round_trip (block : Block) (matched : list bool) :
  1 <= leaf_count (b_txs block) ->
  60 * leaf_count (b_txs block) <= BLOCK_MAX_SIZE ->
  Forall (fun h => buf_length h = 32) (b_txs block) ->
  siblings_differ (b_txs block) matched (tree_height (b_txs block)) 0 = true ->
  exists mb tree,
    fromMatches block matched = Ok mb
    /\ extractTree mb = Some tree
    /\ t_indexes tree
       = filter (fun p => match_at matched p = true) (seqZ 0 (leaf_count (b_txs block)))
    /\ t_matches tree = leaf (b_txs block) <$> t_indexes tree
    /\ t_map tree = index_map (b_txs block) ∅ (t_indexes tree)
    /\ root tree = to_hex (merkle_root (b_txs block))
    /\ (b_merkleRoot block = to_hex (merkle_root (b_txs block)) ->
        (verifyPartial mb).1 = true).
Proof.
  set (leaves := b_txs block). intros Hone Hmax Hsize Hdiff.
  assert (Hcount : 1 <= leaf_count leaves <= 2 ^ 30).
  { pose proof BLOCK_MAX_SIZE_bound. lia. }
  destruct (find_height_ok (leaf_count leaves) Hcount) as (Hh & Hfind & Hrange & Hpow).
  assert (Htop : in_tree leaves (Z.to_nat Hh) 0).
  { split; [lia |]. split; lia. }
  assert (Hth : tree_height leaves = Z.to_nat Hh) by (unfold tree_height; rewrite Hfind; reflexivity).
  rewrite Hth in Hdiff.
  set (st0 := {| bld_bits := []; bld_hashes := []; bld_buf := buf_zero 64 |}).
  destruct (traverse_spec leaves matched Hcount Hsize (Z.to_nat Hh) 0 st0 Htop eq_refl)
    as (Hbits & Hhashes & _).
  cbn [st0 bld_bits bld_hashes app] in Hbits, Hhashes.
  unfold fromMatches. fold leaves. rewrite Hfind. fold st0.
  set (mb := {| version := b_version block; flags := _ |}).
  exists mb.
  assert (Hflags : flags mb = pack_flags (node_bits leaves matched (Z.to_nat Hh) 0)).
  { cbn [mb flags]. rewrite Hbits. reflexivity. }
  assert (Hhs : hashes mb = node_hashes leaves matched (Z.to_nat Hh) 0).
  { cbn [mb hashes]. exact Hhashes. }
  assert (Htotal : totalTX mb = leaf_count leaves) by reflexivity.
  pose proof (ex_traverse_spec leaves matched mb _ Hcount Hsize Hflags Htotal
                (Z.to_nat Hh) 0 ex_start [] [] [] [] Htop) as Hex.
  cbn [app length ex_start bitsUsed hashUsed failed ex_buf ex_matches ex_indexes ex_map] in Hex.
  rewrite !app_nil_r in Hex.
  specialize (Hex eq_refl Hhs eq_refl eq_refl eq_refl eq_refl Hdiff).
  cbn zeta in Hex. destruct Hex as (E1 & E2 & E3 & E4 & E5 & E6 & E7 & E8).
  assert (Hfound : found leaves matched (Z.to_nat Hh) 0
                   = filter (fun p => match_at matched p = true) (seqZ 0 (leaf_count leaves))).
  { unfold found. rewrite (span_eq leaves Hcount _ _ Htop), (first_leaf_eq leaves Hcount _ _ Htop).
    unfold span. rewrite Z2Nat.id by lia. f_equal. f_equal. lia. }
  assert (Hx : extractTree mb
    = Some {| root := to_hex (tree_hash leaves (Z.to_nat Hh) 0);
              t_matches := leaf leaves <$> found leaves matched (Z.to_nat Hh) 0;
              t_indexes := found leaves matched (Z.to_nat Hh) 0;
              t_map := index_map leaves ∅ (found leaves matched (Z.to_nat Hh) 0) |}).
  { unfold extractTree. rewrite Htotal, Hhs, Hfind.
    assert ((leaf_count leaves =? 0) = false) as -> by lia.
    assert ((BLOCK_MAX_SIZE <? 60 * leaf_count leaves) = false) as -> by lia.
    pose proof (node_hashes_span leaves matched Hcount _ _ Htop) as Hspan.
    pose proof (node_hashes_bits leaves matched (Z.to_nat Hh) 0) as Hnb.
    assert (Hsp : span leaves (Z.to_nat Hh) 0 <= leaf_count leaves) by (unfold span; lia).
    assert ((leaf_count leaves
             <? Z.of_nat (length (node_hashes leaves matched (Z.to_nat Hh) 0))) = false) as ->
      by lia.
    rewrite Hflags, pack_flags_length.
    set (nb := Z.of_nat (length (node_bits leaves matched (Z.to_nat Hh) 0))) in *.
    pose proof (Z.mul_div_le (nb + 7) 8 ltac:(lia)).
    pose proof (Z.mod_pos_bound (nb + 7) 8 ltac:(lia)).
    pose proof (Z.div_mod (nb + 7) 8 ltac:(lia)).
    assert (((nb + 7) / 8 * 8
             <? Z.of_nat (length (node_hashes leaves matched (Z.to_nat Hh) 0))) = false) as ->
      by lia.
    destruct (ex_traverse mb (Z.to_nat Hh) 0 ex_start) as [r st].
    cbn [fst snd] in E1, E2, E3, E4, E5, E6, E7, E8.
    rewrite E7, E2, E3. fold nb.
    rewrite Z.add_0_l, !Z.eqb_refl. cbn [negb].
    rewrite E1, E4, E5, E6. reflexivity. }
  eexists. split; [reflexivity |]. split; [exact Hx |].
  cbn [t_indexes t_matches t_map root].
  pose proof (tree_hash_root leaves Hcount Hh Hfind Hrange Hpow) as Hroot.
  split; [exact Hfound |]. split; [reflexivity |]. split; [reflexivity |].
  split; [rewrite Hroot; reflexivity |].
  intros Hmr. unfold verifyPartial. rewrite Hx.
  cbn [mb _validPartial merkleRoot root]. rewrite Hmr, Hroot, String.eqb_refl. reflexivity.
Qed.

End RoundTrip.

(** *** Trees built and read back *)

Section MerkleExampleFacts.
Import Merkle MerkleExamples.

#[local] Instance one_megabyte_laws : ConsensusLaws.
Proof. split. cbn. lia. Qed.

(** C3, witness: five transactions, the second and the fifth matched. *)
Lemma fromMatches_extractTree_round_trip_witness :
  exists mb tree,
    fromMatches block5 [false; true; false; false; true] = Ok mb
    /\ extractTree mb = Some tree
    /\ t_indexes tree
       = filter (fun p => match_at [false; true; false; false; true] p = true)
           (seqZ 0 (leaf_count (b_txs block5)))
    /\ t_matches tree = leaf (b_txs block5) <$> t_indexes tree
    /\ t_map tree = index_map (b_txs block5) ∅ (t_indexes tree)
    /\ root tree = to_hex (merkle_root (b_txs block5))
    /\ (b_merkleRoot block5 = to_hex (merkle_root (b_txs block5)) ->
        (verifyPartial mb).1 = true).
Proof.
  apply (fromMatches_extractTree_round_trip block5 [false; true; false; false; true]).
  - vm_compute. discriminate.
  - vm_compute. discriminate.
  - change (b_txs block5) with (tx_hashes 5). unfold tx_hashes.
    apply Forall_fmap, Forall_true. intros i. apply hash256_length.
  - vm_compute. reflexivity.
Defined.

(** The positions that the tree of the five transactions gives back. *)
Example rebuilt_block5_indexes :
  t_indexes <$> rebuilt block5 [false; true; false; false; true] = Some [1; 4].
Proof. vm_compute. reflexivity. Qed.

(** C3, counterexample: a block of two transactions with the same hash,
    both matched.  [fromMatches] builds the merkle block, and
    [extractTree] returns nothing for it. *)
Lemma round_trip_equal_hashes_counterexample :
  1 <= leaf_count (b_txs block_twins)
  /\ length [true; true] = length (b_txs block_twins)
  /\ match fromMatches block_twins [true; true] with
     | Ok mb => extractTree mb = None
     | Throw _ => False
     end.
Proof.
  split; [vm_compute; discriminate |]. split; [reflexivity |].
  vm_compute. reflexivity.
Qed.

(** C4, witness: the forged tree of two equal hashes.  Its root node has
    two children with the same hash. *)
Lemma extractTree_rejects_equal_siblings_witness :
  find_height 32 (totalTX forged) 0 = Ok 1
  /\ equal_siblings forged (Z.to_nat 1) 0 ex_start
  /\ extractTree forged = None
  /\ (_validPartial forged = None -> (verifyPartial forged).1 = false).
Proof.
  assert (Hh : find_height 32 (totalTX forged) 0 = Ok 1) by (vm_compute; reflexivity).
  assert (Heq : equal_siblings forged (Z.to_nat 1) 0 ex_start).
  { change (Z.to_nat 1) with 1%nat.
    set (r1 := ex_traverse forged 0 (0 * 2) (of_bit ex_start)).
    set (r2 := ex_traverse forged 0 (0 * 2 + 1) r1.2).
    apply (equal_here forged 0 0 ex_start r1.1 r1.2 r2.1 r2.2).
    - vm_compute. reflexivity.
    - vm_compute. discriminate.
    - vm_compute. reflexivity.
    - apply surjective_pairing.
    - apply surjective_pairing.
    - vm_compute. reflexivity. }
  split; [exact Hh |]. split; [exact Heq |].
  exact (extractTree_rejects_equal_siblings forged 1 Hh Heq).
Defined.

(** The root that the traversal recomputes for the forged tree is the
    merkle root that the block expects. *)
Example forged_root_is_expected :
  to_hex (ex_traverse forged 1 0 ex_start).1 = merkleRoot forged
  /\ failed (ex_traverse forged 1 0 ex_start).2 = true.
Proof. split; vm_compute; reflexivity. Qed.

End MerkleExampleFacts.

(** ** What the writer renders *)

Lemma overlay_behind (before junk bytes : Buffer) :
  buf_length bytes <= buf_length junk ->
  Writer.overlay (before ++ junk) (buf_length before) bytes
  = (before ++ bytes) ++ drop (Z.to_nat (buf_length bytes)) junk.
Proof.
  intros Hroom. pose proof (buf_length_nonneg before) as Hb.
  rewrite overlay_spec by (unfold buf_length in *; rewrite ?length_app; lia).
  unfold buf_length in *. rewrite Nat2Z.id, take_app_length.
  rewrite <- app_assoc. f_equal. f_equal.
  rewrite drop_app_ge by lia. f_equal. lia.
Qed.

Section WireFacts.
Context `{Encoding} `{!EncodingLaws} `{NodeBuffer} `{!NodeBufferLaws}.
Import Writer Wire.

Lemma op_bytes_length before op :
  is_seek op = false -> 0 <= op_size op -> buf_length (op_bytes before op) = op_size op.
Proof.
  intros Hseek Hsize.
  destruct op; cbn [op_bytes op_size is_seek] in *; try discriminate;
    first [ unfold buf_length; rewrite ?le_bytes_length, ?be_bytes_length; reflexivity
          | apply enc_writeU64_size | apply enc_writeU64BE_size
          | apply enc_write64_size | apply enc_write64BE_size
          | apply float_bytesLE_size | apply float_bytesBE_size
          | apply double_bytesLE_size | apply double_bytesBE_size
          | apply enc_writeVarint_size | apply enc_writeVarint2_size
          | reflexivity
          | idtac ].
  - rewrite buf_slice_length by (rewrite ?hash256_length; lia). reflexivity.
  - unfold buf_length. rewrite length_replicate. lia.
Qed.

(** One operation, replayed behind the bytes rendered so far, appends
    its bytes. *)
Lemma replay_op_bytes op before junk :
  is_seek op = false -> 0 <= op_size op -> op_size op <= buf_length junk ->
  replay_op op (before ++ junk, buf_length before)
  = Ok ((before ++ op_bytes before op) ++ drop (Z.to_nat (op_size op)) junk,
        buf_length before + op_size op).
Proof.
  intros Hseek Hsize Hroom.
  pose proof (op_bytes_length before op Hseek Hsize) as Hlen.
  pose proof (buf_length_nonneg before) as Hb.
  assert (Hneg : (buf_length before <? 0) = false) by lia.
  assert (Hfit : buf_length (before ++ junk) - buf_length before = buf_length junk).
  { unfold buf_length. rewrite length_app. lia. }
  destruct op; cbn [is_seek] in Hseek; try discriminate;
    cbn [replay_op op_bytes op_size] in *; rewrite ?Hneg;
    try (rewrite overlay_behind by lia; rewrite Hlen; reflexivity).
  - (* BYTES *)
    rewrite overlay_behind by lia. unfold room. rewrite Hfit.
    do 2 f_equal. lia.
  - (* STR *)
    rewrite overlay_behind by lia. unfold room. rewrite Hfit.
    do 2 f_equal. lia.
  - (* CHECKSUM *)
    assert (Hpre : buf_slice (before ++ junk) 0 (buf_length before) = before).
    { unfold buf_slice, buf_length. rewrite Z.sub_0_r, Nat2Z.id. cbn [Z.to_nat drop].
      apply take_app_length. }
    rewrite Hpre. rewrite overlay_behind by lia. unfold room. rewrite Hfit, Hlen.
    do 2 f_equal. lia.
Qed.

Lemma replay_bytes l : forall before junk,
  Forall (fun op => is_seek op = false /\ 0 <= op_size op) l ->
  ops_size l <= buf_length junk ->
  replay l (before ++ junk, buf_length before)
  = Ok (encode before l ++ drop (Z.to_nat (ops_size l)) junk, buf_length (encode before l)).
Proof.
  induction l as [| op l IH]; intros before junk Hl Hroom.
  - cbn. rewrite drop_0. reflexivity.
  - apply Forall_cons in Hl as [[Hseek Hsize] Hl].
    change (ops_size (op :: l)) with (op_size op + ops_size l) in *.
    assert (Hrest : 0 <= ops_size l).
    { apply ops_size_nonneg. eapply Forall_impl; [exact Hl |]. intros x [_ Hx]. exact Hx. }
    cbn [replay encode]. rewrite replay_op_bytes by (assumption || lia).
    pose proof (op_bytes_length before op Hseek Hsize) as Hlen.
    replace (buf_length before + op_size op) with (buf_length (before ++ op_bytes before op))
      by (unfold buf_length in *; rewrite length_app; lia).
    rewrite IH; [| exact Hl | unfold buf_length in *; rewrite length_drop; lia].
    rewrite drop_drop.
    replace (Z.to_nat (op_size op) + Z.to_nat (ops_size l))%nat
      with (Z.to_nat (op_size op + ops_size l)) by lia.
    reflexivity.
Qed.

Lemma encode_app before l1 l2 : encode before (l1 ++ l2) = encode (encode before l1) l2.
Proof.
  revert before. induction l1 as [| op l1 IH]; intros before; [reflexivity |].
  cbn [encode app]. apply IH.
Qed.

Lemma queue_eq n op w :
  destroyed w = false ->
  bind (add_written n) (fun _ => push op) w
  = (Ok tt, {| ops := ops w ++ [op]; written := written w + n; destroyed := false |}).
Proof. intros Hd. unfold bind, add_written, push. cbn. rewrite Hd. reflexivity. Qed.

Lemma buf_length_nil (b : Buffer) : buf_length b = 0 -> b = [].
Proof. unfold buf_length. destruct b; [reflexivity | cbn; lia]. Qed.

Lemma appends_one c op n w w' :
  destroyed w = false ->
  bind (add_written n) (fun _ => push op) w = (Ok tt, w') ->
  is_seek op = false ->
  (forall before, op_bytes before op = call_bytes before c) ->
  appends c w w'.
Proof.
  intros Hd He Hseek Hb. rewrite queue_eq in He by exact Hd. inversion He; subst.
  exists [op]. cbn [ops destroyed encode]. split; [reflexivity |]. split; [reflexivity |].
  split; [repeat constructor; exact Hseek |]. intros before. rewrite Hb. reflexivity.
Qed.

Lemma writeBytes_appends c v w w' :
  destroyed w = false -> writeBytes v w = (Ok tt, w') ->
  (forall before, call_bytes before c = v) -> appends c w w'.
Proof.
  intros Hd He Hb. unfold writeBytes in He.
  destruct (buf_length v =? 0) eqn:Hz.
  - inversion He; subst. exists []. rewrite app_nil_r.
    split; [reflexivity |]. split; [exact Hd |]. split; [constructor |].
    intros before. rewrite Hb, (buf_length_nil v) by lia. cbn. rewrite app_nil_r. reflexivity.
  - eapply appends_one; [exact Hd | exact He | reflexivity |].
    intros before. rewrite Hb. reflexivity.
Qed.

Lemma writeVarBytes_appends c v w w' :
  destroyed w = false -> writeVarBytes v w = (Ok tt, w') ->
  (forall before, call_bytes before c = enc_writeVarint (buf_length v) ++ v) -> appends c w w'.
Proof.
  intros Hd He Hb. unfold writeVarBytes in He.
  revert He. unfold bind, add_written, push, ret. cbn. rewrite Hd.
  destruct (buf_length v =? 0) eqn:Hz; intros He; inversion He; subst; cbn [ops destroyed].
  - exists [VARINT (buf_length v)]. split; [reflexivity |]. split; [reflexivity |].
    split; [repeat constructor |]. intros before. cbn [encode op_bytes].
    rewrite Hb. generalize (enc_writeVarint (buf_length v)). intros pre.
    rewrite (buf_length_nil v) by lia. rewrite app_nil_r. reflexivity.
  - exists [VARINT (buf_length v); BYTES v]. rewrite <- app_assoc.
    split; [reflexivity |]. split; [reflexivity |].
    split; [repeat constructor |]. intros before. cbn [encode op_bytes].
    rewrite Hb, <- app_assoc. reflexivity.
Qed.

Lemma writeString_appends c v enc w w' :
  string_ok v enc -> destroyed w = false -> writeString v enc w = (Ok tt, w') ->
  (forall before, call_bytes before c = str_bytes v enc) -> appends c w w'.
Proof.
  intros Hs Hd He Hb. destruct v as [s | b].
  - cbn [string_ok] in Hs. unfold writeString in He.
    revert He. unfold bind, add_written, push, ret. cbn.
    destruct (String.eqb_spec s "") as [-> | Hne]; [| rewrite Hd]; intros He;
      inversion He; subst; cbn [ops destroyed].
    + exists []. rewrite app_nil_r. split; [reflexivity |]. split; [exact Hd |].
      split; [constructor |]. intros before. rewrite Hb. cbn [str_bytes encode].
      rewrite (buf_length_nil (buf_encode "" enc)) by (rewrite Hs; apply buf_byteLength_empty).
      rewrite app_nil_r. reflexivity.
    + exists [STR s enc]. split; [reflexivity |]. split; [reflexivity |].
      split; [repeat constructor |]. intros before. rewrite Hb. reflexivity.
  - eapply writeBytes_appends; [exact Hd | exact He | exact Hb].
Qed.

Lemma writeVarString_appends c v enc w w' :
  string_ok v enc -> destroyed w = false -> writeVarString v enc w = (Ok tt, w') ->
  (forall before, call_bytes before c
                  = enc_writeVarint (buf_length (str_bytes v enc)) ++ str_bytes v enc) ->
  appends c w w'.
Proof.
  intros Hs Hd He Hb. destruct v as [s | b].
  - cbn [string_ok] in Hs. unfold writeVarString in He.
    revert He. unfold bind, add_written, push, ret. cbn. rewrite Hd.
    destruct (String.eqb_spec s "") as [-> | Hne]; intros He;
      inversion He; subst; cbn [ops destroyed].
    + exists [VARINT (buf_byteLength "" enc)]. split; [reflexivity |]. split; [reflexivity |].
      split; [repeat constructor |]. intros before. rewrite Hb. cbn [str_bytes encode op_bytes].
      rewrite Hs.
      rewrite (buf_length_nil (buf_encode "" enc)) by (rewrite Hs; apply buf_byteLength_empty).
      rewrite app_nil_r. reflexivity.
    + exists [VARINT (buf_byteLength s enc); STR s enc]. rewrite <- app_assoc.
      split; [reflexivity |]. split; [reflexivity |].
      split; [repeat constructor |]. intros before. rewrite Hb.
      cbn [str_bytes encode op_bytes]. rewrite Hs, <- app_assoc. reflexivity.
  - eapply writeVarBytes_appends; [exact Hd | exact He | exact Hb].
Qed.

Lemma exec_appends c w w' :
  call_ok c -> is_Cseek c = false -> destroyed w = false ->
  exec c w = (Ok tt, w') -> appends c w w'.
Proof.
  intros Hok Hseek Hd He.
  destruct c; cbn [exec call_ok is_Cseek] in *; try discriminate;
    try (eapply appends_one; [exact Hd | exact He | reflexivity | intros; reflexivity]).
  - (* writeVarint *)
    unfold writeVarint in He. destruct (0 <=? v); [| discriminate].
    rewrite bind_assert_true in He by reflexivity.
    eapply appends_one; [exact Hd | exact He | reflexivity | intros; reflexivity].
  - (* writeVarint2 *)
    unfold writeVarint2 in He. destruct (0 <=? v); [| discriminate].
    rewrite bind_assert_true in He by reflexivity.
    eapply appends_one; [exact Hd | exact He | reflexivity | intros; reflexivity].
  - eapply writeBytes_appends; [exact Hd | exact He | intros; reflexivity].
  - eapply writeVarBytes_appends; [exact Hd | exact He | intros; reflexivity].
  - eapply writeString_appends; [exact Hok | exact Hd | exact He | intros; reflexivity].
  - eapply writeString_appends; [exact Hok | exact Hd | exact He | intros; reflexivity].
  - eapply writeVarString_appends; [exact Hok | exact Hd | exact He | intros; reflexivity].
  - (* writeNullString *)
    unfold writeNullString in He. unfold bind at 1 in He.
    destruct (writeString v enc w) as [[[] | e] w1] eqn:Hw1; [| discriminate].
    destruct (writeString_appends (CwriteString v enc) v enc w w1 Hok Hd Hw1)
      as (l1 & Hl1 & Hd1 & Hs1 & Hb1); [intros; reflexivity |].
    unfold writeU8 in He. rewrite queue_eq in He by exact Hd1. inversion He; subst.
    exists (l1 ++ [UI8 0]). cbn [ops destroyed]. rewrite Hl1, <- app_assoc.
    split; [reflexivity |]. split; [reflexivity |].
    split; [apply Forall_app; split; [exact Hs1 | repeat constructor] |].
    intros before. rewrite encode_app, Hb1. cbn [encode op_bytes call_bytes].
    rewrite <- app_assoc. reflexivity.
  - (* fill *)
    unfold fill in He. destruct (0 <=? size) eqn:Hs; [| discriminate].
    rewrite bind_assert_true in He by reflexivity.
    destruct (size =? 0) eqn:Hz.
    + inversion He; subst. exists []. rewrite app_nil_r.
      split; [reflexivity |]. split; [exact Hd |]. split; [constructor |].
      intros before. cbn [encode call_bytes].
      replace size with 0 by lia. cbn. rewrite app_nil_r. reflexivity.
    + eapply appends_one; [exact Hd | exact He | reflexivity | intros; reflexivity].
Qed.

Lemma exec_all_appends calls : forall w w',
  Forall (fun c => call_ok c /\ is_Cseek c = false) calls ->
  destroyed w = false -> exec_all calls w = (Ok tt, w') ->
  exists l, ops w' = ops w ++ l
    /\ Forall (fun op => is_seek op = false) l
    /\ forall before, encode before l = wire before calls.
Proof.
  induction calls as [| c calls IH]; intros w w' Hok Hd He.
  - inversion He; subst. exists []. rewrite app_nil_r.
    split; [reflexivity |]. split; [constructor | intros; reflexivity].
  - apply Forall_cons in Hok as [[Hc Hseek] Hok].
    cbn [exec_all] in He. unfold bind in He.
    destruct (exec c w) as [[[] | e] w1] eqn:He1; [| discriminate].
    destruct (exec_appends c w w1 Hc Hseek Hd He1) as (l1 & Hl1 & Hd1 & Hs1 & Hb1).
    destruct (IH w1 w' Hok Hd1 He) as (l2 & Hl2 & Hs2 & Hb2).
    exists (l1 ++ l2). rewrite Hl2, Hl1, <- app_assoc.
    split; [reflexivity |]. split; [apply Forall_app; split; assumption |].
    intros before. rewrite encode_app, Hb1. cbn [wire]. apply Hb2.
Qed.

Lemma render_wire calls w keep :
  Forall (fun c => call_ok c /\ is_Cseek c = false) calls ->
  exec_all calls new = (Ok tt, w) ->
  render keep w
  = (Ok (wire [] calls), if keep then w else {| ops := []; written := 0; destroyed := true |}).
Proof.
  intros Hok He.
  assert (Hok' : Forall call_ok calls).
  { eapply Forall_impl; [exact Hok |]. intros c [Hc _]. exact Hc. }
  destruct (exec_all_consistent calls new w Hok' consistent_new He) as [Hc _].
  destruct (exec_all_appends calls new w Hok eq_refl He) as (l & Hl & Hs & Hb).
  cbn [ops new app] in Hl.
  destruct (render_consistent keep w Hc) as (data & Hr & Hlen & Hrep).
  rewrite Hr. f_equal. f_equal.
  destruct Hc as (_ & Hw & Hf).
  assert (Hall : Forall (fun op => is_seek op = false /\ 0 <= op_size op) (ops w)).
  { rewrite Hl in *. apply Forall_forall. intros op Hin. split.
    - exact (proj1 (Forall_forall _ _) Hs op Hin).
    - exact (proj1 (Forall_forall _ _) Hf op Hin). }
  pose proof (ops_size_nonneg _ Hf) as Hnn.
  pose proof (replay_bytes (ops w) [] (buf_zero (written w)) Hall) as Hb2.
  change (buf_length (@nil Z)) with 0 in Hb2. cbn [app] in Hb2.
  rewrite Hb2 in Hrep by (rewrite buf_zero_length by lia; lia).
  inversion Hrep as [[Hd Ho]].
  rewrite drop_ge, app_nil_r, Hl, Hb; [reflexivity |].
  unfold buf_zero. rewrite length_replicate. lia.
Qed.

(** X1.  For calls on a fresh writer among which there is no seek, and
    whose strings are written in full: when the calls return, [render]
    returns the encodings of the calls one after the other, in the order
    of the calls: the bytes of each number in its width and byte order,
    a length prefix before each variable-length value, a zero byte after
    a null-terminated string, and for a checksum the first four bytes of
    the double SHA-256 of everything rendered before it. *)
Theorem render_concatenates calls w keep :
  Forall (fun c => call_ok c /\ is_Cseek c = false) calls ->
  exec_all calls new = (Ok tt, w) ->
  render keep w
  = (Ok (wire [] calls), if keep then w else {| ops := []; written := 0; destroyed := true |}).
Proof. apply render_wire. Qed.

End WireFacts.

(** ** Reading back what was written *)

Lemma land_255 x : Z.land x 255 = x mod 256.
Proof. change 255 with (Z.ones 8). rewrite Z.land_ones by lia. reflexivity. Qed.

Lemma le_bytes_1 v : le_bytes 1 v = [v mod 2 ^ 8].
Proof. unfold le_bytes. cbn [seq fmap list_fmap]. rewrite land_255. reflexivity. Qed.

Lemma le_bytes_2 v : le_bytes 2 v = [v mod 2 ^ 8; v / 2 ^ 8 mod 2 ^ 8].
Proof.
  unfold le_bytes. cbn [seq fmap list_fmap]. rewrite !land_255.
  change (8 * Z.of_nat 0) with 0. change (8 * Z.of_nat 1) with 8.
  rewrite Z.shiftr_0_r, Z.shiftr_div_pow2 by lia. reflexivity.
Qed.

Lemma le_bytes_4 v :
  le_bytes 4 v
  = [v mod 2 ^ 8; v / 2 ^ 8 mod 2 ^ 8; v / 2 ^ 16 mod 2 ^ 8; v / 2 ^ 24 mod 2 ^ 8].
Proof.
  unfold le_bytes. cbn [seq fmap list_fmap]. rewrite !land_255.
  change (8 * Z.of_nat 0) with 0. change (8 * Z.of_nat 1) with 8.
  change (8 * Z.of_nat 2) with 16. change (8 * Z.of_nat 3) with 24.
  rewrite Z.shiftr_0_r, !Z.shiftr_div_pow2 by lia. reflexivity.
Qed.

(** The bytes of a number, put together again. *)
Lemma sum_2 v : v mod 2 ^ 8 + v / 2 ^ 8 mod 2 ^ 8 * 2 ^ 8 = v mod 2 ^ 16.
Proof.
  change (2 ^ 16) with (2 ^ 8 * 2 ^ 8). rewrite Z.rem_mul_r by lia. lia.
Qed.

Lemma sum_4 v :
  v mod 2 ^ 8 + v / 2 ^ 8 mod 2 ^ 8 * 2 ^ 8 + v / 2 ^ 16 mod 2 ^ 8 * 2 ^ 16
  + v / 2 ^ 24 mod 2 ^ 8 * 2 ^ 24 = v mod 2 ^ 32.
Proof.
  change (2 ^ 16) with (2 ^ 8 * 2 ^ 8). change (2 ^ 24) with (2 ^ 8 * 2 ^ 8 * 2 ^ 8).
  rewrite <- !Z.div_div by lia.
  pose proof (Z.div_mod v (2 ^ 8) ltac:(lia)) as E0.
  pose proof (Z.mod_pos_bound v (2 ^ 8) ltac:(lia)) as B0.
  set (v1 := v / 2 ^ 8) in *.
  pose proof (Z.div_mod v1 (2 ^ 8) ltac:(lia)) as E1.
  pose proof (Z.mod_pos_bound v1 (2 ^ 8) ltac:(lia)) as B1.
  set (v2 := v1 / 2 ^ 8) in *.
  pose proof (Z.div_mod v2 (2 ^ 8) ltac:(lia)) as E2.
  pose proof (Z.mod_pos_bound v2 (2 ^ 8) ltac:(lia)) as B2.
  set (v3 := v2 / 2 ^ 8) in *.
  pose proof (Z.div_mod v3 (2 ^ 8) ltac:(lia)) as E3.
  pose proof (Z.mod_pos_bound v3 (2 ^ 8) ltac:(lia)) as B3.
  apply (Z.mod_unique_pos _ _ (v3 / 2 ^ 8)); lia.
Qed.

Lemma to_signed_mod bits v :
  0 < bits -> - 2 ^ (bits - 1) <= v < 2 ^ (bits - 1) -> to_signed bits (v mod 2 ^ bits) = v.
Proof.
  intros Hb Hv. unfold to_signed.
  assert (Hp : 2 ^ bits = 2 * 2 ^ (bits - 1)).
  { rewrite <- Z.pow_succ_r by lia. f_equal. lia. }
  destruct (Z.ltb_spec v 0) as [Hneg | Hpos].
  - assert (Hm : v mod 2 ^ bits = v + 2 ^ bits).
    { symmetry. apply (Z.mod_unique_pos _ _ (-1)); lia. }
    rewrite Hm. destruct (Z.ltb_spec (v + 2 ^ bits) (2 ^ (bits - 1))); lia.
  - rewrite Z.mod_small by lia.
    destruct (Z.ltb_spec v (2 ^ (bits - 1))); lia.
Qed.

Lemma byte_at_behind (before l : Buffer) k :
  0 <= k -> byte_at (before ++ l) (buf_length before + k) = byte_at l k.
Proof.
  intros Hk. unfold byte_at, buf_length.
  rewrite lookup_app_r by lia. do 2 f_equal. lia.
Qed.

Lemma byte_at_first (before l : Buffer) :
  byte_at (before ++ l) (buf_length before) = byte_at l 0.
Proof. rewrite <- (Z.add_0_r (buf_length before)) at 1. apply byte_at_behind. lia. Qed.

Lemma readUInt16LE_behind before l :
  readUInt16LE (before ++ l) (buf_length before) = readUInt16LE l 0.
Proof. unfold readUInt16LE. rewrite byte_at_first, byte_at_behind by lia. reflexivity. Qed.

Lemma readUInt16BE_behind before l :
  readUInt16BE (before ++ l) (buf_length before) = readUInt16BE l 0.
Proof. unfold readUInt16BE. rewrite byte_at_first, byte_at_behind by lia. reflexivity. Qed.

Lemma readUInt32LE_behind before l k :
  0 <= k -> readUInt32LE (before ++ l) (buf_length before + k) = readUInt32LE l k.
Proof.
  intros Hk. unfold readUInt32LE. rewrite <- !Z.add_assoc.
  rewrite !byte_at_behind by lia. reflexivity.
Qed.

Lemma readUInt32BE_behind before l :
  readUInt32BE (before ++ l) (buf_length before) = readUInt32BE l 0.
Proof.
  unfold readUInt32BE. rewrite byte_at_first, !byte_at_behind by lia. reflexivity.
Qed.

Lemma readUInt16LE_written v after : readUInt16LE (le_bytes 2 v ++ after) 0 = v mod 2 ^ 16.
Proof. rewrite le_bytes_2. cbn. apply sum_2. Qed.

Lemma readUInt16BE_written v after : readUInt16BE (be_bytes 2 v ++ after) 0 = v mod 2 ^ 16.
Proof.
  unfold be_bytes. rewrite le_bytes_2.
  change (readUInt16BE (reverse [v mod 2 ^ 8; v / 2 ^ 8 mod 2 ^ 8] ++ after) 0)
    with (v / 2 ^ 8 mod 2 ^ 8 * 2 ^ 8 + v mod 2 ^ 8).
  rewrite <- sum_2. lia.
Qed.

Lemma readUInt32LE_written v after : readUInt32LE (le_bytes 4 v ++ after) 0 = v mod 2 ^ 32.
Proof. rewrite le_bytes_4. cbn. apply sum_4. Qed.

Lemma readUInt32BE_written v after : readUInt32BE (be_bytes 4 v ++ after) 0 = v mod 2 ^ 32.
Proof.
  unfold be_bytes. rewrite le_bytes_4.
  change (readUInt32BE (reverse [v mod 2 ^ 8; v / 2 ^ 8 mod 2 ^ 8; v / 2 ^ 16 mod 2 ^ 8;
                                 v / 2 ^ 24 mod 2 ^ 8] ++ after) 0)
    with (v / 2 ^ 24 mod 2 ^ 8 * 2 ^ 24 + v / 2 ^ 16 mod 2 ^ 8 * 2 ^ 16
          + v / 2 ^ 8 mod 2 ^ 8 * 2 ^ 8 + v mod 2 ^ 8).
  rewrite <- sum_4. lia.
Qed.

Lemma buf_slice_behind (before b after : Buffer) :
  buf_slice (before ++ b ++ after) (buf_length before) (buf_length before + buf_length b) = b.
Proof.
  unfold buf_slice, buf_length. rewrite Nat2Z.id, drop_app_length.
  replace (Z.to_nat (Z.of_nat (length before) + Z.of_nat (length b) - Z.of_nat (length before)))
    with (length b) by lia.
  apply take_app_length.
Qed.

Lemma buf_le_bytes w v : buf_length (le_bytes w v) = Z.of_nat w.
Proof. unfold buf_length. rewrite le_bytes_length. reflexivity. Qed.

Lemma buf_be_bytes w v : buf_length (be_bytes w v) = Z.of_nat w.
Proof. unfold buf_length. rewrite be_bytes_length. reflexivity. Qed.

Section ReadFacts.
Context `{Encoding} `{NodeBuffer}.
Import Reader.

Lemma read_fixed_ok width decode r :
  offset r + width <= buf_length (data r) ->
  read_fixed width decode r
  = (Ok (decode (data r) (offset r)), set_offset (offset r + width) r).
Proof.
  intros Hb. unfold read_fixed. rewrite bind_get, bind_assert_true by lia. reflexivity.
Qed.

Lemma read_fixed_overrun width decode r :
  buf_length (data r) < offset r + width ->
  read_fixed width decode r = (Throw "AssertionError", r).
Proof.
  intros Hb. unfold read_fixed. rewrite bind_get, bind_assert_false by lia. reflexivity.
Qed.

End ReadFacts.

Section FieldFacts.
Context `{Encoding} `{!EncodingLaws} `{!VarintRoundTrip} `{NodeBuffer} `{!NodeBufferLaws}.
Import Reader Fields.

Lemma field_bytes_any before f : Wire.call_bytes before (write_field f) = field_bytes f.
Proof. destruct f; reflexivity. Qed.

Lemma wire_fields fs : forall before,
  Wire.wire before (write_field <$> fs) = before ++ mjoin (field_bytes <$> fs).
Proof.
  induction fs as [| f fs IH]; intros before.
  - cbn. rewrite app_nil_r. reflexivity.
  - cbn [fmap list_fmap Wire.wire mjoin]. rewrite IH, field_bytes_any, <- app_assoc. reflexivity.
Qed.

Lemma write_fields_return fs : forall w,
  Writer.destroyed w = false ->
  exists w', Writer.exec_all (write_field <$> fs) w = (Ok tt, w').
Proof.
  induction fs as [| f fs IH]; intros w Hd; [eexists; reflexivity |].
  cbn [fmap list_fmap Writer.exec_all].
  assert (Hone : exists w1, Writer.exec (write_field f) w = (Ok tt, w1)
                            /\ Writer.destroyed w1 = false).
  { destruct f; cbn [write_field Writer.exec];
      try (eexists; split; [apply queue_eq; exact Hd | reflexivity]).
    - unfold Writer.writeBytes. destruct (buf_length b =? 0).
      + eexists; split; [reflexivity | exact Hd].
      + eexists; split; [apply queue_eq; exact Hd | reflexivity].
    - unfold Writer.writeVarBytes, bind, Writer.add_written, Writer.push, ret. cbn.
      rewrite Hd. destruct (buf_length b =? 0); eexists; split; reflexivity. }
  destruct Hone as (w1 & He1 & Hd1). destruct (IH w1 Hd1) as [w' He'].
  exists w'. unfold bind. rewrite He1. exact He'.
Qed.

(** One field, read where its bytes stand. *)
Lemma read_field_ok f r before after :
  field_ok f ->
  data r = before ++ field_bytes f ++ after ->
  offset r = buf_length before ->
  read_field f r = (Ok f, set_offset (offset r + buf_length (field_bytes f)) r).
Proof.
  intros Hok Hdata Hoff.
  assert (Hroom : offset r + buf_length (field_bytes f) <= buf_length (data r)).
  { rewrite Hdata, Hoff. unfold buf_length. rewrite !length_app. lia. }
  destruct f; cbn [field_ok read_field] in *; unfold field_bytes in *;
    cbn [write_field Wire.call_bytes] in *;
    rewrite ?buf_le_bytes, ?buf_be_bytes in *.
  - (* U8 *)
    unfold bind. rewrite readU8_ok by exact Hroom.
    rewrite Hdata, Hoff, byte_at_first, le_bytes_1.
    change (byte_at ([v mod 2 ^ 8] ++ after) 0) with (v mod 2 ^ 8).
    rewrite Z.mod_small by lia. reflexivity.
  - unfold bind, readU16. rewrite read_fixed_ok by exact Hroom.
    rewrite Hdata, Hoff, readUInt16LE_behind, readUInt16LE_written, Z.mod_small by lia.
    reflexivity.
  - unfold bind, readU16BE. rewrite read_fixed_ok by exact Hroom.
    rewrite Hdata, Hoff, readUInt16BE_behind, readUInt16BE_written, Z.mod_small by lia.
    reflexivity.
  - unfold bind. rewrite readU32_ok by exact Hroom.
    rewrite Hdata, Hoff, <- (Z.add_0_r (buf_length before)), readUInt32LE_behind by lia.
    rewrite readUInt32LE_written, Z.mod_small by lia. rewrite Z.add_0_r. reflexivity.
  - unfold bind. rewrite readU32BE_ok by exact Hroom.
    rewrite Hdata, Hoff, readUInt32BE_behind, readUInt32BE_written, Z.mod_small by lia.
    reflexivity.
  - unfold bind, read8. rewrite read_fixed_ok by exact Hroom.
    unfold readInt8. rewrite Hdata, Hoff, byte_at_first, le_bytes_1.
    change (byte_at ([v mod 2 ^ 8] ++ after) 0) with (v mod 2 ^ 8).
    rewrite to_signed_mod by lia. reflexivity.
  - unfold bind, read16. rewrite read_fixed_ok by exact Hroom.
    unfold readInt16LE.
    rewrite Hdata, Hoff, readUInt16LE_behind, readUInt16LE_written, to_signed_mod by lia.
    reflexivity.
  - unfold bind, read16BE. rewrite read_fixed_ok by exact Hroom.
    unfold readInt16BE.
    rewrite Hdata, Hoff, readUInt16BE_behind, readUInt16BE_written, to_signed_mod by lia.
    reflexivity.
  - unfold bind, read32. rewrite read_fixed_ok by exact Hroom.
    unfold readInt32LE.
    rewrite Hdata, Hoff, <- (Z.add_0_r (buf_length before)), readUInt32LE_behind by lia.
    rewrite readUInt32LE_written, to_signed_mod by lia. rewrite Z.add_0_r. reflexivity.
  - unfold bind, read32BE. rewrite read_fixed_ok by exact Hroom.
    unfold readInt32BE.
    rewrite Hdata, Hoff, readUInt32BE_behind, readUInt32BE_written, to_signed_mod by lia.
    reflexivity.
  - (* bytes *)
    unfold bind. rewrite readBytes_ok by (apply buf_length_nonneg || exact Hroom).
    rewrite Hdata, Hoff, buf_slice_behind. reflexivity.
  - (* bytes behind their length *)
    pose proof (buf_length_nonneg b) as Hb.
    unfold bind, readVarBytes, bind.
    rewrite (readVarint_ok r (buf_length b) (enc_sizeVarint (buf_length b)))
      by (rewrite Hdata, Hoff, <- app_assoc; apply enc_readVarint_written; lia).
    assert (Hsplit : data r = (before ++ enc_writeVarint (buf_length b)) ++ b ++ after).
    { rewrite Hdata, <- !app_assoc. reflexivity. }
    assert (Hoff2 : offset r + enc_sizeVarint (buf_length b)
                    = buf_length (before ++ enc_writeVarint (buf_length b))).
    { rewrite Hoff, <- enc_writeVarint_size. unfold buf_length. rewrite length_app. lia. }
    assert (Hslice : buf_slice (data r) (offset r + enc_sizeVarint (buf_length b))
                       (offset r + enc_sizeVarint (buf_length b) + buf_length b) = b).
    { rewrite Hoff2, Hsplit. apply buf_slice_behind. }
    assert (Hlen : buf_length (enc_writeVarint (buf_length b) ++ b)
                   = enc_sizeVarint (buf_length b) + buf_length b).
    { rewrite <- enc_writeVarint_size. unfold buf_length. rewrite length_app. lia. }
    rewrite readBytes_ok; cbn [data offset set_offset].
    + rewrite Hslice, Hlen. unfold ret, set_offset. cbn [data offset zeroCopy stack].
      do 2 f_equal. lia.
    + exact Hb.
    + rewrite Hlen in Hroom. lia.
Qed.

Lemma read_fields_ok fs : forall r before after,
  Forall field_ok fs ->
  data r = before ++ mjoin (field_bytes <$> fs) ++ after ->
  offset r = buf_length before ->
  read_fields fs r
  = (Ok fs, set_offset (offset r + buf_length (mjoin (field_bytes <$> fs))) r).
Proof.
  induction fs as [| f fs IH]; intros r before after Hok Hdata Hoff.
  - cbn [read_fields fmap list_fmap mjoin]. change (buf_length (@nil Z)) with 0.
    rewrite Z.add_0_r. destruct r; reflexivity.
  - apply Forall_cons in Hok as [Hf Hok].
    change (mjoin (field_bytes <$> f :: fs))
      with (field_bytes f ++ mjoin (field_bytes <$> fs)) in *.
    rewrite <- app_assoc in Hdata.
    cbn [read_fields]. unfold bind at 1.
    rewrite (read_field_ok f r before _ Hf Hdata Hoff).
    unfold bind at 1.
    rewrite (IH _ (before ++ field_bytes f) after Hok).
    + unfold ret, set_offset. cbn [data offset zeroCopy stack]. do 2 f_equal.
      unfold buf_length. rewrite length_app. lia.
    + cbn. rewrite Hdata, <- app_assoc. reflexivity.
    + cbn. rewrite Hoff. unfold buf_length. rewrite length_app. lia.
Qed.

(** X2.  Values written with the fixed-width writes, [writeBytes] and
    [writeVarBytes], each within the range of its width, are read back
    unchanged by the reads of the same widths in the same order:
    [render] returns a buffer, and on a reader over that buffer the
    reads return the values written and leave the reader at the end of
    the buffer. *)
Theorem write_then_read fs zc :
  Forall field_ok fs ->
  exists data,
    Wire.rendered (write_field <$> fs) = Ok data
    /\ exists r,
         read_fields fs (Reader.new data zc) = (Ok fs, r)
         /\ Reader.left r = (Ok 0, r).
Proof.
  intros Hok.
  destruct (write_fields_return fs Writer.new eq_refl) as [w He].
  assert (Hcalls : Forall (fun c => Writer.call_ok c /\ Wire.is_Cseek c = false)
                     (write_field <$> fs)).
  { apply Forall_fmap, Forall_true. intros f. destruct f; split; exact I || reflexivity. }
  pose proof (render_wire _ w false Hcalls He) as Hr.
  rewrite wire_fields in Hr. cbn [app] in Hr.
  exists (mjoin (field_bytes <$> fs)). split.
  - unfold Wire.rendered, bind. rewrite He, Hr. reflexivity.
  - eexists. split.
    + apply (read_fields_ok fs _ [] []); [exact Hok | cbn; rewrite app_nil_r; reflexivity |].
      reflexivity.
    + unfold left. rewrite bind_get. cbn [data offset set_offset new].
      rewrite bind_assert_true by lia. unfold ret. do 2 f_equal. lia.
Qed.

End FieldFacts.

(** ** The codec on the compact-size integers *)

Section CodecRoundTrips.
Import Examples.

#[local] Existing Instance compact_size_laws.
#[local] Existing Instance ascii_codec_laws.

(** The compact-size integers are read as they were written. *)
#[local] Instance compact_size_round_trip : VarintRoundTrip.
Proof.
  split. intros before v after Hv. cbn [enc_readVarint enc_writeVarint enc_sizeVarint compact_size].
  unfold Examples.readVarint, Examples.writeVarint, Examples.sizeVarint.
  pose proof (buf_length_nonneg before) as Hb.
  destruct (Z.ltb_spec v 0xfd) as [H1 | H1].
  - rewrite le_bytes_1, Z.mod_small by lia.
    assert (Hin : negb ((0 <=? buf_length before)
                        && (buf_length before <? buf_length (before ++ [v] ++ after))) = false).
    { unfold buf_length. rewrite length_app. cbn [length app].
      apply negb_false_iff, andb_true_iff. split; [apply Z.leb_le | apply Z.ltb_lt]; lia. }
    rewrite Hin, byte_at_first. change (byte_at ([v] ++ after) 0) with v.
    destruct (Z.eqb_spec v 0xff); [lia |]. destruct (Z.eqb_spec v 0xfe); [lia |].
    destruct (Z.eqb_spec v 0xfd); [lia |]. reflexivity.
  - destruct (Z.leb_spec v 0xffff) as [H2 | H2].
    + assert (Hlen : buf_length (before ++ (0xfd :: le_bytes 2 v) ++ after)
                     = buf_length before + 3 + buf_length after).
      { unfold buf_length. rewrite !length_app. cbn [length]. rewrite le_bytes_length. lia. }
      pose proof (buf_length_nonneg after) as Ha.
      assert (Hin : negb ((0 <=? buf_length before)
                          && (buf_length before
                              <? buf_length (before ++ (0xfd :: le_bytes 2 v) ++ after))) = false).
      { rewrite Hlen. apply negb_false_iff, andb_true_iff. split; lia. }
      rewrite Hin, byte_at_first.
      change (byte_at ((0xfd :: le_bytes 2 v) ++ after) 0) with 0xfd.
      cbn [Z.eqb Pos.eqb].
      assert ((buf_length before + 3
               <=? buf_length (before ++ (0xfd :: le_bytes 2 v) ++ after)) = true) as ->
        by (rewrite Hlen; lia).
      rewrite !byte_at_behind by lia.
      change (byte_at ((0xfd :: le_bytes 2 v) ++ after) 1 +
              byte_at ((0xfd :: le_bytes 2 v) ++ after) 2 * 2 ^ 8)
        with (readUInt16LE (le_bytes 2 v ++ after) 0).
      rewrite readUInt16LE_written, Z.mod_small by lia. reflexivity.
    + assert ((v <=? 0xffffffff) = true) as -> by lia.
      assert (Hlen : buf_length (before ++ (0xfe :: le_bytes 4 v) ++ after)
                     = buf_length before + 5 + buf_length after).
      { unfold buf_length. rewrite !length_app. cbn [length]. rewrite le_bytes_length. lia. }
      pose proof (buf_length_nonneg after) as Ha.
      assert (Hin : negb ((0 <=? buf_length before)
                          && (buf_length before
                              <? buf_length (before ++ (0xfe :: le_bytes 4 v) ++ after))) = false).
      { rewrite Hlen. apply negb_false_iff, andb_true_iff. split; lia. }
      rewrite Hin, byte_at_first.
      change (byte_at ((0xfe :: le_bytes 4 v) ++ after) 0) with 0xfe.
      cbn [Z.eqb Pos.eqb].
      assert ((buf_length before + 5
               <=? buf_length (before ++ (0xfe :: le_bytes 4 v) ++ after)) = true) as ->
        by (rewrite Hlen; lia).
      rewrite readUInt32LE_behind by lia.
      change (readUInt32LE ((0xfe :: le_bytes 4 v) ++ after) 1)
        with (readUInt32LE (le_bytes 4 v ++ after) 0).
      rewrite readUInt32LE_written, Z.mod_small by lia. reflexivity.
Qed.

(** X1, witness: a command name, a number, three bytes and the
    checksum of all of them. *)
Lemma render_concatenates_witness :
  let calls := [ Writer.CwriteVarString (Writer.AStr "tx") "ascii"; Writer.CwriteU32 3;
                 Writer.CwriteBytes [1; 2; 3]; Writer.CwriteChecksum ] in
  exists w,
    Writer.exec_all calls Writer.new = (Ok tt, w)
    /\ Writer.render true w = (Ok (Wire.wire [] calls), w).
Proof.
  intros calls.
  assert (Hok : Forall (fun c => Writer.call_ok c /\ Wire.is_Cseek c = false) calls).
  { unfold calls.
    do 4 (apply List.Forall_cons; [split; cbn; first [exact I | reflexivity] |]).
    apply List.Forall_nil. }
  pose (w := (Writer.exec_all calls Writer.new).2).
  assert (He : Writer.exec_all calls Writer.new = (Ok tt, w)) by reflexivity.
  exists w. split; [exact He |].
  exact (render_concatenates calls w true Hok He).
Defined.

(** X2, witness: a version, a signed offset, a hash of four bytes and
    a script behind its length. *)
Lemma write_then_read_witness :
  let fs := [ Fields.FU32 70015; Fields.F16 (-2); Fields.FBytes [1; 2; 3; 4];
              Fields.FVarBytes [118; 169] ] in
  exists data,
    Wire.rendered (Fields.write_field <$> fs) = Ok data
    /\ exists r,
         Fields.read_fields fs (Reader.new data false) = (Ok fs, r)
         /\ Reader.left r = (Ok 0, r).
Proof.
  intros fs. apply (write_then_read fs false).
  unfold fs.
  do 4 (apply List.Forall_cons;
        [cbn [Fields.field_ok]; first [exact I | lia | vm_compute; reflexivity] |]).
  apply List.Forall_nil.
Defined.

End CodecRoundTrips.

(** ** Extended public keys, stored and read back *)

Section ReadAt.
Context `{Encoding} `{NodeBuffer}.
Import Reader.

Lemma readU32BE_at r before v after :
  data r = before ++ be_bytes 4 v ++ after -> offset r = buf_length before ->
  readU32BE r = (Ok (v mod 2 ^ 32), set_offset (offset r + 4) r).
Proof.
  intros Hdata Hoff. rewrite readU32BE_ok.
  - rewrite Hdata, Hoff, readUInt32BE_behind, readUInt32BE_written. reflexivity.
  - rewrite Hdata, Hoff. unfold buf_length. rewrite !length_app, be_bytes_length. lia.
Qed.

Lemma readU8_at r before v after :
  data r = before ++ le_bytes 1 v ++ after -> offset r = buf_length before ->
  readU8 r = (Ok (v mod 2 ^ 8), set_offset (offset r + 1) r).
Proof.
  intros Hdata Hoff. rewrite readU8_ok.
  - rewrite Hdata, Hoff, byte_at_first, le_bytes_1. reflexivity.
  - rewrite Hdata, Hoff. unfold buf_length. rewrite !length_app, le_bytes_length. lia.
Qed.

Lemma readBytes_at r before b after n zc :
  data r = before ++ b ++ after -> offset r = buf_length before -> n = buf_length b ->
  readBytes n zc r = (Ok b, set_offset (offset r + n) r).
Proof.
  intros Hdata Hoff ->. rewrite readBytes_ok.
  - rewrite Hdata, Hoff, buf_slice_behind. reflexivity.
  - apply buf_length_nonneg.
  - rewrite Hdata, Hoff. unfold buf_length. rewrite !length_app. lia.
Qed.

Lemma readUInt32LE_take4 (h after : Buffer) :
  4 <= buf_length h -> readUInt32LE (buf_slice h 0 4 ++ after) 0 = readUInt32LE h 0.
Proof.
  unfold buf_length. intros Hlen.
  destruct h as [| a [| b [| c [| d rest]]]]; cbn [length] in Hlen; try lia.
  reflexivity.
Qed.

(** The checksum that the writer stored behind the bytes [body] is the
    one that the reader computes over them. *)
Lemma verifyChecksum_at r body after :
  data r = body ++ buf_slice (hash256 body) 0 4 ++ after ->
  offset r = buf_length body -> stack r = [] ->
  verifyChecksum r = (Ok (readUInt32LE (hash256 body) 0), set_offset (offset r + 4) r).
Proof.
  intros Hdata Hoff Hst.
  assert (Hc4 : buf_length (buf_slice (hash256 body) 0 4) = 4).
  { apply buf_slice_length; rewrite ?hash256_length; lia. }
  rewrite verifyChecksum_eq
    by (rewrite Hdata, Hoff; unfold buf_length in *; rewrite !length_app; lia).
  assert (Hs : checksum_start r = 0) by (unfold checksum_start; rewrite Hst; reflexivity).
  rewrite Hs.
  assert (Hbody : buf_slice (data r) 0 (offset r) = body).
  { rewrite Hdata, Hoff. unfold buf_slice, buf_length.
    rewrite Z.sub_0_r, Nat2Z.id. cbn [Z.to_nat drop]. apply take_app_length. }
  rewrite Hbody.
  assert (Hread : readUInt32LE (data r) (offset r) = readUInt32LE (hash256 body) 0).
  { rewrite Hdata, Hoff, <- (Z.add_0_r (buf_length body)), readUInt32LE_behind by lia.
    apply readUInt32LE_take4. rewrite hash256_length. lia. }
  rewrite Hread, Z.eqb_refl. reflexivity.
Qed.

End ReadAt.

Lemma types_prefix net :
  In net HD.types ->
  0 <= HD.xpubkey net < 2 ^ 32
  /\ exists net', HD.find_network (HD.xpubkey net) = Some net'
       /\ HD.xpubkey net' = HD.xpubkey net
       /\ HD.xpubkey58 net' = HD.xpubkey58 net.
Proof.
  unfold HD.types. cbn [In].
  intros [<- | [<- | [<- | [<- | [<- | [<- | []]]]]]];
    (split; [cbn; lia | eexists; split; [vm_compute; reflexivity | split; reflexivity]]).
Qed.

Section ToRawFacts.
Context `{Encoding} `{!EncodingLaws} `{NodeBuffer} `{!NodeBufferLaws}.
Import HD.

(** The 78 bytes of a key. *)
Lemma toRaw_bytes this net :
  storable this ->
  let body := be_bytes 4 (xpubkey net) ++ le_bytes 1 (depth this) ++ parentFingerPrint this
              ++ be_bytes 4 (childIndex this) ++ chainCode this ++ publicKey this in
  toRaw this (Some net) = Ok (body ++ buf_slice (hash256 body) 0 4)
  /\ buf_length body = 78.
Proof.
  intros (Hd & Hc & Hf & Hcc & Hpk) body.
  assert (Hlen : buf_length body = 78).
  { unfold body, buf_length in *. rewrite !length_app, !be_bytes_length, le_bytes_length. lia. }
  split; [| exact Hlen].
  change (toRaw this (Some net))
    with ((bind (Writer.exec_all (toRaw_calls this net))
             (fun _ => Writer.render false) Writer.new).1).
  assert (Hok : Forall (fun c => Writer.call_ok c /\ Wire.is_Cseek c = false)
                  (toRaw_calls this net)).
  { unfold toRaw_calls.
    do 7 (apply List.Forall_cons; [split; [exact I | reflexivity] |]). apply List.Forall_nil. }
  assert (He : exists w, Writer.exec_all (toRaw_calls this net) Writer.new = (Ok tt, w)).
  { unfold toRaw_calls. cbn [Writer.exec_all Writer.exec].
    unfold Writer.writeBytes. rewrite Hf, Hcc, Hpk. cbn [Z.eqb].
    eexists. reflexivity. }
  destruct He as [w He].
  unfold bind. rewrite He, (render_wire _ w false Hok He). cbn [fst].
  f_equal. unfold toRaw_calls. cbn [Wire.wire Wire.call_bytes app].
  fold body. unfold body. rewrite <- !app_assoc. reflexivity.
Qed.

Lemma fromRaw_stored this any net :
  storable this ->
  0 <= xpubkey net < 2 ^ 32 ->
  let body := be_bytes 4 (xpubkey net) ++ le_bytes 1 (depth this) ++ parentFingerPrint this
              ++ be_bytes 4 (childIndex this) ++ chainCode this ++ publicKey this in
  fromRaw any (body ++ buf_slice (hash256 body) 0 4)
  = match find_network (xpubkey net) with
    | Some net' =>
        (Ok tt, {| network := net'; depth := depth this;
                   parentFingerPrint := parentFingerPrint this;
                   childIndex := childIndex this; chainCode := chainCode this;
                   publicKey := publicKey this; fingerPrint := fingerPrint any;
                   _xpubkey := _xpubkey any |})
    | None =>
        (Throw "Network not found.",
         {| network := network any; depth := depth this;
            parentFingerPrint := parentFingerPrint this;
            childIndex := childIndex this; chainCode := chainCode this;
            publicKey := publicKey this; fingerPrint := fingerPrint any;
            _xpubkey := _xpubkey any |})
    end.
Proof.
  intros (Hd & Hc & Hf & Hcc & Hpk) Hnet body.
  set (raw := body ++ buf_slice (hash256 body) 0 4).
  unfold fromRaw, fromRaw_body.
  erewrite on_reader_ok;
    [| apply (readU32BE_at _ [] (xpubkey net)
                (le_bytes 1 (depth this) ++ parentFingerPrint this
                 ++ be_bytes 4 (childIndex this) ++ chainCode this ++ publicKey this
                 ++ buf_slice (hash256 body) 0 4));
       [cbn [Reader.data Reader.new app]; unfold raw, body; rewrite <- !app_assoc; reflexivity
       | reflexivity]].
  erewrite on_reader_ok;
    [| apply (readU8_at _ (be_bytes 4 (xpubkey net)) (depth this)
                (parentFingerPrint this
                 ++ be_bytes 4 (childIndex this) ++ chainCode this ++ publicKey this
                 ++ buf_slice (hash256 body) 0 4));
       [cbn [Reader.data Reader.new Reader.set_offset]; unfold raw, body;
        rewrite <- !app_assoc; reflexivity
       | cbn [Reader.offset Reader.new Reader.set_offset]; rewrite buf_be_bytes; reflexivity]].
  rewrite update_key_ok.
  erewrite on_reader_ok;
    [| apply (readBytes_at _ (be_bytes 4 (xpubkey net) ++ le_bytes 1 (depth this))
                (parentFingerPrint this)
                (be_bytes 4 (childIndex this) ++ chainCode this ++ publicKey this
                 ++ buf_slice (hash256 body) 0 4));
       [cbn [Reader.data Reader.new Reader.set_offset]; unfold raw, body;
        rewrite <- !app_assoc; reflexivity
       | cbn [Reader.offset Reader.new Reader.set_offset]; unfold buf_length;
         rewrite length_app, be_bytes_length, le_bytes_length; reflexivity
       | symmetry; exact Hf]].
  rewrite update_key_ok.
  erewrite on_reader_ok;
    [| apply (readU32BE_at _ (be_bytes 4 (xpubkey net) ++ le_bytes 1 (depth this)
                               ++ parentFingerPrint this)
                (childIndex this)
                (chainCode this ++ publicKey this ++ buf_slice (hash256 body) 0 4));
       [cbn [Reader.data Reader.new Reader.set_offset]; unfold raw, body;
        rewrite <- !app_assoc; reflexivity
       | cbn [Reader.offset Reader.new Reader.set_offset]; unfold buf_length in *;
         rewrite !length_app, be_bytes_length, le_bytes_length; lia]].
  rewrite update_key_ok.
  erewrite on_reader_ok;
    [| apply (readBytes_at _ (be_bytes 4 (xpubkey net) ++ le_bytes 1 (depth this)
                               ++ parentFingerPrint this ++ be_bytes 4 (childIndex this))
                (chainCode this)
                (publicKey this ++ buf_slice (hash256 body) 0 4));
       [cbn [Reader.data Reader.new Reader.set_offset]; unfold raw, body;
        rewrite <- !app_assoc; reflexivity
       | cbn [Reader.offset Reader.new Reader.set_offset]; unfold buf_length in *;
         rewrite !length_app, !be_bytes_length, le_bytes_length; lia
       | symmetry; exact Hcc]].
  rewrite update_key_ok.
  erewrite on_reader_ok;
    [| apply (readBytes_at _ (be_bytes 4 (xpubkey net) ++ le_bytes 1 (depth this)
                               ++ parentFingerPrint this ++ be_bytes 4 (childIndex this)
                               ++ chainCode this)
                (publicKey this)
                (buf_slice (hash256 body) 0 4));
       [cbn [Reader.data Reader.new Reader.set_offset]; unfold raw, body;
        rewrite <- !app_assoc; reflexivity
       | cbn [Reader.offset Reader.new Reader.set_offset]; unfold buf_length in *;
         rewrite !length_app, !be_bytes_length, le_bytes_length; lia
       | symmetry; exact Hpk]].
  rewrite update_key_ok.
  erewrite on_reader_ok;
    [| apply (verifyChecksum_at _ body []);
       [cbn [Reader.data Reader.new Reader.set_offset]; unfold raw;
        rewrite app_nil_r; reflexivity
       | cbn [Reader.offset Reader.new Reader.set_offset]; unfold body, buf_length in *;
         rewrite !length_app, !be_bytes_length, le_bytes_length; lia
       | reflexivity]].
  rewrite !Z.mod_small by lia.
  destruct (find_network (xpubkey net)) as [net' |]; reflexivity.
Qed.

(** X3.  [fromRaw] reads back what [toRaw] stored.  For a key with a
    depth below 256, a child index below 2^32, a parent fingerprint of
    4 bytes, a chain code of 32 and a public key of 33, on one of the
    known networks: [toRaw] returns 82 bytes, and [fromRaw] on them
    succeeds and restores the depth, the parent fingerprint, the child
    index, the chain code and the public key.  The network it sets is
    the first of the known networks with the same version prefix, which
    has the same prefixes as the network of the key. *)
Theorem fromRaw_toRaw this any :
  storable this -> In (network this) types ->
  exists raw net',
    toRaw this None = Ok raw
    /\ buf_length raw = 82
    /\ find_network (xpubkey (network this)) = Some net'
    /\ xpubkey net' = xpubkey (network this)
    /\ xpubkey58 net' = xpubkey58 (network this)
    /\ fromRaw any raw
       = (Ok tt, {| network := net'; depth := depth this;
                    parentFingerPrint := parentFingerPrint this;
                    childIndex := childIndex this; chainCode := chainCode this;
                    publicKey := publicKey this; fingerPrint := fingerPrint any;
                    _xpubkey := _xpubkey any |}).
Proof.
  intros Hst Hin.
  destruct (types_prefix _ Hin) as (Hrange & net' & Hfind & Hp & Hp58).
  destruct (toRaw_bytes this (network this) Hst) as [Hraw Hlen].
  pose proof (fromRaw_stored this any (network this) Hst Hrange) as Hback.
  cbv zeta in Hraw, Hlen, Hback. rewrite Hfind in Hback.
  eexists. exists net'.
  split; [exact Hraw |]. split.
  - unfold buf_length in *. rewrite length_app.
    assert (Hc4 : length (buf_slice (hash256
        (be_bytes 4 (xpubkey (network this)) ++ le_bytes 1 (depth this)
         ++ parentFingerPrint this ++ be_bytes 4 (childIndex this)
         ++ chainCode this ++ publicKey this)) 0 4) = 4%nat).
    { pose proof (buf_slice_length (hash256
        (be_bytes 4 (xpubkey (network this)) ++ le_bytes 1 (depth this)
         ++ parentFingerPrint this ++ be_bytes 4 (childIndex this)
         ++ chainCode this ++ publicKey this)) 0 4) as Hs.
      rewrite hash256_length in Hs. unfold buf_length in Hs. lia. }
    rewrite Hc4. lia.
  - split; [exact Hfind |]. split; [exact Hp |]. split; [exact Hp58 | exact Hback].
Qed.

End ToRawFacts.

Section ToRawNetworks.
Context `{Encoding} `{!EncodingLaws} `{NodeBuffer} `{!NodeBufferLaws}.
Import HD.

(** X4.  The networks are told apart by the version prefix alone, and
    two pairs of them share one: a key of the regtest network is read
    back as a key of the testnet network, and a key of segnet4 as a
    key of segnet3. *)
Theorem fromRaw_confuses_networks this any :
  storable this ->
  (network this = regtest ->
   exists raw, toRaw this None = Ok raw
     /\ (fromRaw any raw).1 = Ok tt /\ network (fromRaw any raw).2 = testnet)
  /\ (network this = segnet4 ->
      exists raw, toRaw this None = Ok raw
        /\ (fromRaw any raw).1 = Ok tt /\ network (fromRaw any raw).2 = segnet3).
Proof.
  intros Hst.
  destruct (toRaw_bytes this (network this) Hst) as [Hraw _]. cbv zeta in Hraw.
  split; intros Hnet.
  - assert (Hrange : 0 <= xpubkey (network this) < 2 ^ 32) by (rewrite Hnet; cbn; lia).
    pose proof (fromRaw_stored this any (network this) Hst Hrange) as Hback.
    cbv zeta in Hback.
    assert (Hfind : find_network (xpubkey (network this)) = Some testnet)
      by (rewrite Hnet; vm_compute; reflexivity).
    rewrite Hfind in Hback.
    eexists. split; [exact Hraw |]. rewrite Hback. split; reflexivity.
  - assert (Hrange : 0 <= xpubkey (network this) < 2 ^ 32) by (rewrite Hnet; cbn; lia).
    pose proof (fromRaw_stored this any (network this) Hst Hrange) as Hback.
    cbv zeta in Hback.
    assert (Hfind : find_network (xpubkey (network this)) = Some segnet3)
      by (rewrite Hnet; vm_compute; reflexivity).
    rewrite Hfind in Hback.
    eexists. split; [exact Hraw |]. rewrite Hback. split; reflexivity.
Qed.

End ToRawNetworks.

(** ** Derivation paths *)

Section PathFacts.
Import HD.

Lemma parseInt_nonneg l : forall acc,
  forallb is_digit l = true -> 0 <= acc ->
  0 <= fold_left (fun a c => 10 * a + (Z.of_nat (nat_of_ascii c) - 48)) l acc.
Proof.
  induction l as [| c l IH]; intros acc Hd Hacc; [exact Hacc |].
  cbn [forallb] in Hd. apply andb_true_iff in Hd as [Hc Hl].
  cbn [fold_left]. apply IH; [exact Hl |].
  unfold is_digit in Hc. apply andb_true_iff in Hc as [Hlo _]. lia.
Qed.

(** A segment that ends in an apostrophe is not below [HARDENED]. *)
Lemma parse_segment_hardened part :
  last_char part = Some quote -> is_ok (parse_segment HARDENED part) = false.
Proof.
  intros Hq. unfold parse_segment.
  rewrite bool_decide_eq_true_2 by exact Hq.
  destruct (all_digits (drop_last part)) eqn:Hd; [| reflexivity].
  cbn [negb].
  assert (Hn : 0 <= parseInt (drop_last part)).
  { unfold all_digits in Hd. apply andb_true_iff in Hd as [_ Hd].
    apply parseInt_nonneg; [exact Hd | lia]. }
  assert (((0 <=? parseInt (drop_last part) + HARDENED)
           && (parseInt (drop_last part) + HARDENED <? HARDENED)) = false) as ->.
  { apply andb_false_iff. right. lia. }
  reflexivity.
Qed.

Lemma parse_segments_hardened parts part :
  In part parts -> last_char part = Some quote ->
  is_ok (parse_segments HARDENED parts) = false.
Proof.
  intros Hin Hq. induction parts as [| p parts IH]; [destruct Hin |].
  cbn [parse_segments].
  destruct Hin as [-> | Hin].
  - pose proof (parse_segment_hardened part Hq) as Hp.
    destruct (parse_segment HARDENED part); [discriminate | reflexivity].
  - destruct (parse_segment HARDENED p); [| reflexivity].
    specialize (IH Hin). destruct (parse_segments HARDENED parts); [discriminate | reflexivity].
Qed.

Lemma parse_segments_range max parts l :
  parse_segments max parts = Ok l ->
  length l = length parts /\ Forall (fun i => 0 <= i < max) l.
Proof.
  revert l. induction parts as [| p parts IH]; intros l Hp.
  - inversion Hp; subst. split; [reflexivity | constructor].
  - cbn [parse_segments] in Hp.
    destruct (parse_segment max p) as [i | e] eqn:Hi; [| discriminate].
    destruct (parse_segments max parts) as [l' | e]; [| discriminate].
    inversion Hp; subst. destruct (IH l' eq_refl) as [Hlen Hall].
    split; [cbn; f_equal; exact Hlen |]. constructor; [| exact Hall].
    unfold parse_segment in Hi.
    destruct (negb (all_digits _)); [discriminate |].
    destruct ((0 <=? _) && (_ <? max)) eqn:Hr; [| discriminate].
    cbn [negb] in Hi. inversion Hi; subst. apply andb_true_iff in Hr. lia.
Qed.

End PathFacts.

Section PathTheorems.
Context `{HDCrypto}.

(** X5.  A public key derives along no path with a hardened segment:
    when a segment of the path behind its root ends in an apostrophe,
    [isValidPath] is false, and [derive] and [derivePath] throw without
    touching the cache. *)
Theorem hardened_path_rejected path part :
  In part (tail (HD.split_slash EmptyString path)) ->
  HD.last_char part = Some HD.quote ->
  HD.isValidPath path = false
  /\ forall this hardened cache,
       exists msg, HD.derive this (HD.IdxPath path) hardened cache = (Throw msg, cache)
                   /\ HD.derivePath this path cache = (Throw msg, cache).
Proof.
  intros Hin Hq.
  assert (Hp : is_ok (HD.parsePath path (Some HD.HARDENED)) = false).
  { unfold HD.parsePath. cbn [default].
    destruct (negb _ && negb _ && negb _ && negb _); [reflexivity |].
    eapply parse_segments_hardened; eassumption. }
  split; [exact Hp |].
  intros this hardened cache. unfold HD.derive, HD.derivePath.
  destruct (HD.parsePath path (Some HD.HARDENED)) as [l | msg]; [discriminate |].
  exists msg. split; reflexivity.
Qed.

(** X6.  The indexes that [parsePath] returns are as many as the path
    has segments behind its root, and each of them is at least 0 and
    below the maximum; without a maximum, below 2^32. *)
Theorem parsePath_range path max l :
  HD.parsePath path max = Ok l ->
  length l = length (tail (HD.split_slash EmptyString path))
  /\ Forall (fun i => 0 <= i < default HD.MAX_INDEX max) l.
Proof.
  unfold HD.parsePath. destruct (negb _ && negb _ && negb _ && negb _); [discriminate |].
  apply parse_segments_range.
Qed.

(** The child of a numeric index below [HARDENED] records an index
    below [HARDENED]. *)
Lemma derive_number_below this cache :
  HD.cache_indexed this cache ->
  forall (n : nat) index child this' cache',
    Z.to_nat (HD.HARDENED - index) = n ->
    0 <= index ->
    HD.derive_number this index false cache = (Ok (child, this'), cache') ->
    index <= HD.childIndex child < HD.HARDENED.
Proof.
  intros Hcache n. induction n as [| n IH]; intros index child this' cache' Hn Hpos Hd.
  - rewrite derive_number_unfold in Hd.
    assert (((HD.HARDENED <=? index) || false) = true) as Hr.
    { apply orb_true_iff. left. lia. }
    rewrite Hr in Hd. discriminate.
  - rewrite derive_number_unfold in Hd.
    assert (((HD.HARDENED <=? index) || false) = false) as Hr.
    { apply orb_false_iff. split; [lia | reflexivity]. }
    rewrite Hr in Hd.
    assert ((index <? 0) = false) as Hneg by lia. rewrite Hneg in Hd.
    destruct (0xff <=? HD.depth this); [discriminate |].
    pose proof (lru_get_lookup (HD.getID this index) cache) as Hl.
    destruct (LRU.get (HD.getID this index) cache) as [[cached |] cache1] eqn:Hg; cbn in Hl.
    + inversion Hd; subst.
      assert (HD.childIndex child = index) as Hi by (apply Hcache; congruence).
      lia.
    + assert (cache1 = cache) as ->.
      { rewrite lru_get_miss in Hg by congruence. congruence. }
      destruct (HD.tweak_add this index) as [key | e] eqn:Ht.
      * inversion Hd; subst. cbn. lia.
      * apply IH in Hd; [| lia | lia]. lia.
Qed.

(** X7.  A key that [derive] returns for a numeric index is no BIP44
    account key and no BIP45 purpose key, whatever the key derived
    from: its child index is below [HARDENED].  So [deriveAccount44]
    and [derivePurpose45] throw on it. *)
Theorem derived_key_not_hardened this index hardened cache child this' cache' :
  HD.cache_indexed this cache ->
  HD.derive this (HD.IdxNum index) hardened cache = (Ok (child, this'), cache') ->
  index <= HD.childIndex child < HD.HARDENED
  /\ (forall account, HD.isAccount44 child account = false)
  /\ HD.isPurpose45 child = false
  /\ (forall account, HD.deriveAccount44 child account = Throw "Cannot derive account index.")
  /\ HD.derivePurpose45 child = Throw "Cannot derive purpose 45.".
Proof.
  intros Hcache Hd. unfold HD.derive in Hd.
  assert (Hh : default false hardened = false /\ 0 <= index).
  { rewrite derive_number_unfold in Hd.
    destruct (default false hardened); [rewrite orb_true_r in Hd; discriminate |].
    split; [reflexivity |].
    destruct (HD.HARDENED <=? index); [discriminate |]. cbn [orb] in Hd.
    destruct (index <? 0) eqn:Hneg; [discriminate | lia]. }
  destruct Hh as [Hh Hpos]. rewrite Hh in Hd.
  pose proof (derive_number_below this cache Hcache _ index child this' cache'
                eq_refl Hpos Hd) as Hrange.
  assert (Ha : forall account, HD.isAccount44 child account = false).
  { intros [a |]; unfold HD.isAccount44.
    - destruct (negb _); [reflexivity |]. apply andb_false_iff. right. lia.
    - apply andb_false_iff. right. lia. }
  assert (Hp : HD.isPurpose45 child = false).
  { unfold HD.isPurpose45. apply andb_false_iff. right. unfold HD.HARDENED in *. lia. }
  split; [exact Hrange |]. split; [exact Ha |]. split; [exact Hp |]. split.
  - intros account. unfold HD.deriveAccount44. rewrite Ha. reflexivity.
  - unfold HD.derivePurpose45. rewrite Hp. reflexivity.
Qed.

End PathTheorems.

(** ** Keys and paths on examples *)

Section KeyExamples.
Import Examples.

#[local] Existing Instance compact_size_laws.
#[local] Existing Instance ascii_codec_laws.

Lemma key_on_storable net : HD.storable (key_on net).
Proof. unfold HD.storable. cbn. repeat split; lia. Qed.

(** X3, witness: [key0], read into a fresh key. *)
Lemma fromRaw_toRaw_witness :
  exists raw net',
    HD.toRaw key0 None = Ok raw
    /\ buf_length raw = 82
    /\ HD.find_network (HD.xpubkey (HD.network key0)) = Some net'
    /\ HD.xpubkey net' = HD.xpubkey (HD.network key0)
    /\ HD.xpubkey58 net' = HD.xpubkey58 (HD.network key0)
    /\ HD.fromRaw HD.new raw
       = (Ok tt, {| HD.network := net'; HD.depth := HD.depth key0;
                    HD.parentFingerPrint := HD.parentFingerPrint key0;
                    HD.childIndex := HD.childIndex key0; HD.chainCode := HD.chainCode key0;
                    HD.publicKey := HD.publicKey key0; HD.fingerPrint := HD.fingerPrint HD.new;
                    HD._xpubkey := HD._xpubkey HD.new |}).
Proof.
  apply (fromRaw_toRaw key0 HD.new).
  - exact (key_on_storable HD.main).
  - left. reflexivity.
Defined.

(** X4, witness: the key on the regtest network. *)
Lemma fromRaw_confuses_networks_witness :
  exists raw, HD.toRaw (key_on HD.regtest) None = Ok raw
    /\ (HD.fromRaw HD.new raw).1 = Ok tt
    /\ HD.network (HD.fromRaw HD.new raw).2 = HD.testnet.
Proof.
  exact (proj1 (fromRaw_confuses_networks (key_on HD.regtest) HD.new
                  (key_on_storable HD.regtest)) eq_refl).
Defined.

(** X5, witness: an account path. *)
Lemma hardened_path_rejected_witness :
  HD.isValidPath "m/44'/0" = false
  /\ exists msg, HD.derivePath key0 "m/44'/0" cache0 = (Throw msg, cache0).
Proof.
  assert (Hin : In "44'"%string (tail (HD.split_slash EmptyString "m/44'/0"))).
  { left. reflexivity. }
  destruct (hardened_path_rejected "m/44'/0" "44'" Hin eq_refl) as [Hv Hd].
  split; [exact Hv |].
  destruct (Hd key0 None cache0) as (msg & _ & Hp). exists msg. exact Hp.
Defined.

(** X6, witness: a path of two segments. *)
Lemma parsePath_range_witness :
  length [0; 7] = length (tail (HD.split_slash EmptyString "m/0/7"))
  /\ Forall (fun i => 0 <= i < default HD.MAX_INDEX None) [0; 7].
Proof. apply (parsePath_range "m/0/7" None [0; 7]). vm_compute. reflexivity. Defined.

(** X7, witness: the first child of [key0]. *)
Lemma derived_key_not_hardened_witness :
  exists child this' cache',
    HD.derive key0 (HD.IdxNum 0) None cache0 = (Ok (child, this'), cache')
    /\ HD.isPurpose45 child = false
    /\ HD.derivePurpose45 child = Throw "Cannot derive purpose 45.".
Proof.
  assert (Hc : HD.cache_indexed key0 cache0).
  { intros j child Hl. discriminate Hl. }
  assert (E : exists child this' cache',
             HD.derive key0 (HD.IdxNum 0) None cache0 = (Ok (child, this'), cache')).
  { unfold HD.derive. rewrite derive_number_unfold. vm_compute.
    do 3 eexists. reflexivity. }
  destruct E as (child & this' & cache' & E).
  exists child, this', cache'. split; [exact E |].
  destruct (derived_key_not_hardened key0 0 None cache0 child this' cache' Hc E)
    as (_ & _ & Hp & _ & Hd).
  split; [exact Hp | exact Hd].
Defined.

End KeyExamples.

(** ** The reader within its buffer *)

Lemma zero_index_le (l : Buffer) : (Reader.zero_index l <= length l)%nat.
Proof.
  induction l as [| x l IH]; [reflexivity |].
  cbn [Reader.zero_index length]. destruct (x =? 0); lia.
Qed.

(** Where [zero_index] stops there is a zero byte, and none before. *)
Lemma zero_index_spec (body after : Buffer) :
  Forall (fun x => x <> 0) body -> Reader.zero_index (body ++ 0 :: after) = length body.
Proof.
  induction 1 as [| x body Hx _ IH]; [reflexivity |].
  cbn [app Reader.zero_index length]. destruct (Z.eqb_spec x 0); [contradiction |].
  rewrite IH. reflexivity.
Qed.

Lemma zero_index_none (l : Buffer) :
  Forall (fun x => x <> 0) l -> Reader.zero_index l = length l.
Proof.
  induction 1 as [| x l Hx _ IH]; [reflexivity |].
  cbn [Reader.zero_index length]. destruct (Z.eqb_spec x 0); [contradiction |].
  rewrite IH. reflexivity.
Qed.

Section ReaderBounds.
Context `{Encoding} `{NodeBuffer} `{!Reader.VarintInBounds}.
Context `{!Reader.WideReads} `{!Reader.WideReadsInBounds}.
Import Reader.

Lemma readString_ok r enc size :
  0 <= size -> offset r + size <= buf_length (data r) ->
  readString enc size r
  = (Ok (buf_toString enc (buf_slice (data r) (offset r) (offset r + size))),
     set_offset (offset r + size) r).
Proof.
  intros Hs Hb. unfold readString. rewrite bind_get, !bind_assert_true by lia. reflexivity.
Qed.

Lemma readString_fail r enc size :
  size < 0 \/ buf_length (data r) < offset r + size ->
  readString enc size r = (Throw "AssertionError", r).
Proof.
  intros Hb. unfold readString. rewrite bind_get.
  destruct (0 <=? size) eqn:Hs.
  - rewrite bind_assert_true by reflexivity. rewrite bind_assert_false by lia. reflexivity.
  - rewrite bind_assert_false by reflexivity. reflexivity.
Qed.

Lemma readBytes_fail r size zc :
  size < 0 \/ buf_length (data r) < offset r + size ->
  readBytes size zc r = (Throw "AssertionError", r).
Proof.
  intros Hb. unfold readBytes. rewrite bind_get.
  destruct (0 <=? size) eqn:Hs.
  - rewrite bind_assert_true by reflexivity. rewrite bind_assert_false by lia. reflexivity.
  - rewrite bind_assert_false by reflexivity. reflexivity.
Qed.

Lemma kept_ok c r {A} (m : M BufferReader A) (f : A -> rvalue) v r' :
  m r = (Ok v, r') -> data r' = data r -> zeroCopy r' = zeroCopy r -> in_bounds r' ->
  kept c r (bind m (fun x => ret (f x)) r).
Proof.
  intros Hm Hd Hz Hb. unfold bind. rewrite Hm. cbn.
  split; [exact Hd |]. split; [exact Hz |]. split; [exact Hb | discriminate].
Qed.

Lemma kept_throw c r {A} (m : M BufferReader A) (f : A -> rvalue) e :
  m r = (Throw e, r) -> in_bounds r -> kept c r (bind m (fun x => ret (f x)) r).
Proof.
  intros Hm Hb. unfold bind. rewrite Hm. cbn.
  split; [reflexivity |]. split; [reflexivity |]. split; [exact Hb | reflexivity].
Qed.

Lemma kept_late c r {A} (m : M BufferReader A) (f : A -> rvalue) e r' :
  fails_late c = true ->
  m r = (Throw e, r') -> data r' = data r -> zeroCopy r' = zeroCopy r -> in_bounds r' ->
  kept c r (bind m (fun x => ret (f x)) r).
Proof.
  intros Hl Hm Hd Hz Hb. unfold bind. rewrite Hm. cbn.
  split; [exact Hd |]. split; [exact Hz |]. split; [exact Hb |].
  intros _ Hf. rewrite Hl in Hf. discriminate.
Qed.

Lemma in_bounds_move r n :
  in_bounds r -> 0 <= n -> offset r + n <= buf_length (data r) ->
  in_bounds (set_offset (offset r + n) r).
Proof. unfold in_bounds. cbn. lia. Qed.

Lemma kept_fixed c r width decode (f : Z -> rvalue) :
  0 <= width -> in_bounds r -> kept c r (bind (read_fixed width decode) (fun x => ret (f x)) r).
Proof.
  intros Hw Hb.
  destruct (Z_le_gt_dec (offset r + width) (buf_length (data r))) as [Hin | Hout].
  - eapply kept_ok; [apply read_fixed_ok; exact Hin | reflexivity | reflexivity |].
    apply in_bounds_move; assumption.
  - eapply kept_throw; [apply read_fixed_overrun; lia | exact Hb].
Qed.

Lemma readU8_overrun r :
  buf_length (data r) < offset r + 1 -> readU8 r = (Throw "AssertionError", r).
Proof. intros Hb. unfold readU8. rewrite bind_get, bind_assert_false by lia. reflexivity. Qed.

Lemma readU32_overrun r :
  buf_length (data r) < offset r + 4 -> readU32 r = (Throw "AssertionError", r).
Proof. intros Hb. unfold readU32. rewrite bind_get, bind_assert_false by lia. reflexivity. Qed.

Lemma readU32BE_overrun r :
  buf_length (data r) < offset r + 4 -> readU32BE r = (Throw "AssertionError", r).
Proof. intros Hb. unfold readU32BE. rewrite bind_get, bind_assert_false by lia. reflexivity. Qed.

Lemma kept_bytes c r size zc (f : Buffer -> rvalue) :
  in_bounds r -> kept c r (bind (readBytes size zc) (fun x => ret (f x)) r).
Proof.
  intros Hb.
  destruct (Z_lt_ge_dec size 0) as [Hneg | Hpos];
    [eapply kept_throw; [apply readBytes_fail; lia | exact Hb] |].
  destruct (Z_le_gt_dec (offset r + size) (buf_length (data r))) as [Hin | Hout].
  - eapply kept_ok; [apply readBytes_ok; lia | reflexivity | reflexivity |].
    apply in_bounds_move; (assumption || lia).
  - eapply kept_throw; [apply readBytes_fail; lia | exact Hb].
Qed.

Lemma kept_string c r enc size (f : string -> rvalue) :
  in_bounds r -> kept c r (bind (readString enc size) (fun x => ret (f x)) r).
Proof.
  intros Hb.
  destruct (Z_lt_ge_dec size 0) as [Hneg | Hpos];
    [eapply kept_throw; [apply readString_fail; lia | exact Hb] |].
  destruct (Z_le_gt_dec (offset r + size) (buf_length (data r))) as [Hin | Hout].
  - eapply kept_ok; [apply readString_ok; lia | reflexivity | reflexivity |].
    apply in_bounds_move; (assumption || lia).
  - eapply kept_throw; [apply readString_fail; lia | exact Hb].
Qed.

(** The offset behind a varint that was read. *)
Lemma readVarint_cases r :
  in_bounds r ->
  (exists e, readVarint r = (Throw e, r))
  \/ (exists value size, readVarint r = (Ok value, set_offset (offset r + size) r)
        /\ in_bounds (set_offset (offset r + size) r)).
Proof.
  intros Hb. unfold readVarint. rewrite bind_get.
  destruct (enc_readVarint (data r) (offset r)) as [[value size] | e] eqn:Hv.
  - right. exists value, size. split; [reflexivity |].
    destruct (enc_readVarint_bounds _ _ _ _ Hv) as [Hs Hin].
    apply in_bounds_move; (assumption || lia).
  - left. exists e. reflexivity.
Qed.

Lemma kept_wide c r decode (f : Z -> rvalue) :
  in_bounds r -> kept c r (bind (read_wide decode) (fun x => ret (f x)) r).
Proof.
  intros Hb. unfold read_wide.
  destruct (Z_le_gt_dec (offset r + 8) (buf_length (data r))) as [Hin | Hout];
    [| eapply kept_throw; [rewrite bind_get, bind_assert_false by lia; reflexivity | exact Hb]].
  destruct (decode (data r) (offset r)) as [v | e] eqn:Hd.
  - eapply kept_ok;
      [rewrite bind_get, bind_assert_true by lia; rewrite Hd, bind_put; reflexivity
      | reflexivity | reflexivity |].
    apply in_bounds_move; (assumption || lia).
  - eapply kept_throw; [| exact Hb].
    rewrite bind_get, bind_assert_true by lia. rewrite Hd. reflexivity.
Qed.

Lemma kept_float c r width decode (f : jsfloat -> rvalue) :
  0 <= width -> in_bounds r -> kept c r (bind (read_float width decode) (fun x => ret (f x)) r).
Proof.
  intros Hw Hb. unfold read_float.
  destruct (Z_le_gt_dec (offset r + width) (buf_length (data r))) as [Hin | Hout].
  - eapply kept_ok;
      [rewrite bind_get, bind_assert_true by lia; rewrite bind_put; reflexivity
      | reflexivity | reflexivity |].
    apply in_bounds_move; assumption.
  - eapply kept_throw; [rewrite bind_get, bind_assert_false by lia; reflexivity | exact Hb].
Qed.

(** A varint that is read, by a decoder that reports a size within the
    buffer. *)
Lemma kept_varint c r (decode : Buffer -> Z -> res (Z * Z)) (f : Z -> rvalue) :
  (forall data off value size,
     decode data off = Ok (value, size) -> 0 < size /\ off + size <= buf_length data) ->
  in_bounds r ->
  kept c r
    (bind (bind get (fun r0 =>
             match decode (data r0) (offset r0) with
             | Ok (value, size) =>
                 bind (put (set_offset (offset r0 + size) r0)) (fun _ => ret value)
             | Throw e => throw e
             end))
          (fun x => ret (f x)) r).
Proof.
  intros Hdec Hb.
  destruct (decode (data r) (offset r)) as [[value size] | e] eqn:Hv.
  - destruct (Hdec _ _ _ _ Hv) as [Hs Hin].
    eapply kept_ok; [rewrite bind_get, Hv, bind_put; reflexivity | reflexivity | reflexivity |].
    apply in_bounds_move; (assumption || lia).
  - eapply kept_throw; [rewrite bind_get, Hv; reflexivity | exact Hb].
Qed.

Lemma kept_skip c r : in_bounds r -> kept c r (bind skipVarint (fun _ => ret VUndefined) r).
Proof.
  intros Hb. unfold skipVarint.
  destruct (enc_skipVarint (data r) (offset r)) as [size | e] eqn:Hv;
    [| eapply (kept_throw c r _ (fun _ => VUndefined));
       [rewrite bind_get, Hv; reflexivity | exact Hb]].
  pose proof (enc_skipVarint_size _ _ _ Hv) as Hs.
  destruct (Z_le_gt_dec (offset r + size) (buf_length (data r))) as [Hin | Hout].
  - eapply (kept_ok c r _ (fun _ => VUndefined));
      [rewrite bind_get, Hv, bind_assert_true by lia; reflexivity
      | reflexivity | reflexivity |].
    apply in_bounds_move; assumption.
  - eapply (kept_throw c r _ (fun _ => VUndefined));
      [rewrite bind_get, Hv, bind_assert_false by lia; reflexivity | exact Hb].
Qed.

(** One call. *)
Lemma rexec_kept c r : in_bounds r -> kept c r (rexec c r).
Proof.
  intros Hb. destruct c; cbn [rexec].
  - (* getSize *) eapply kept_ok; [reflexivity | reflexivity | reflexivity | exact Hb].
  - (* left *)
    eapply kept_ok; [| reflexivity | reflexivity | exact Hb].
    unfold left. rewrite bind_get, bind_assert_true by (unfold in_bounds in Hb; lia).
    reflexivity.
  - (* seek *)
    unfold seek.
    destruct (0 <=? offset r + off) eqn:Hq0;
      [| eapply kept_throw; [rewrite bind_get, bind_assert_false by exact Hq0; reflexivity
                           | exact Hb]].
    destruct (offset r + off <=? buf_length (data r)) eqn:Hq1;
      [| eapply kept_throw;
         [rewrite bind_get, bind_assert_true, bind_assert_false by assumption; reflexivity
         | exact Hb]].
    eapply kept_ok;
      [rewrite bind_get, !bind_assert_true by assumption; reflexivity
      | reflexivity | reflexivity | unfold in_bounds; cbn; lia].
  - (* start *) eapply kept_ok; [reflexivity | reflexivity | reflexivity | exact Hb].
  - (* end *)
    unfold end_.
    destruct (stack r) as [| x st] eqn:Hst.
    + eapply kept_throw; [rewrite bind_get, Hst; reflexivity | exact Hb].
    + assert (Hlast : exists m, last (x :: st) = Some m).
      { destruct (last (x :: st)) as [m |] eqn:Hl; [eexists; reflexivity |].
        apply last_None in Hl. discriminate. }
      destruct Hlast as [m Hm].
      eapply kept_ok;
        [rewrite bind_get, Hst; rewrite bind_assert_true by (apply Z.ltb_lt; cbn [length]; lia);
         rewrite Hm; reflexivity
        | reflexivity | reflexivity | exact Hb].
  - (* endData *)
    unfold endData.
    destruct (stack r) as [| x st] eqn:Hst.
    + eapply kept_throw; [rewrite bind_get, Hst; reflexivity | exact Hb].
    + assert (Hlast : exists m, last (x :: st) = Some m).
      { destruct (last (x :: st)) as [m |] eqn:Hl; [eexists; reflexivity |].
        apply last_None in Hl. discriminate. }
      destruct Hlast as [m Hm].
      assert (Hrun : exists b,
        bind get (fun r0 =>
          bind (assert (0 <? Z.of_nat (length (stack r0))) "AssertionError") (fun _ =>
            match last (stack r0) with
            | Some st0 =>
                bind (put (set_stack (removelast (stack r0)) r0)) (fun _ =>
                  let size := offset r0 - st0 in
                  if size =? buf_length (data r0) then ret (data r0)
                  else if zeroCopy r0 || truthy zc
                       then ret (buf_slice (data r0) st0 (offset r0))
                       else ret (buf_slice (data r0) st0 (offset r0)))
            | None => throw "AssertionError"
            end)) r = (Ok b, set_stack (removelast (x :: st)) r)).
      { rewrite bind_get, Hst. rewrite bind_assert_true by (apply Z.ltb_lt; cbn [length]; lia).
        rewrite Hm.
        rewrite bind_put. cbv zeta.
        destruct (offset r - m =? buf_length (data r)); [eexists; reflexivity |].
        destruct (zeroCopy r || truthy zc); eexists; reflexivity. }
      destruct Hrun as [b Hrun].
      eapply kept_ok; [exact Hrun | reflexivity | reflexivity | exact Hb].
  - (* readU8 *)
    destruct (Z_le_gt_dec (offset r + 1) (buf_length (data r))) as [Hin | Hout].
    + eapply kept_ok; [apply readU8_ok; exact Hin | reflexivity | reflexivity |].
      apply in_bounds_move; (assumption || lia).
    + eapply kept_throw; [apply readU8_overrun; lia | exact Hb].
  - apply kept_fixed; [lia | exact Hb].
  - apply kept_fixed; [lia | exact Hb].
  - (* readU32 *)
    destruct (Z_le_gt_dec (offset r + 4) (buf_length (data r))) as [Hin | Hout].
    + eapply kept_ok; [apply readU32_ok; exact Hin | reflexivity | reflexivity |].
      apply in_bounds_move; (assumption || lia).
    + eapply kept_throw; [apply readU32_overrun; lia | exact Hb].
  - (* readU32BE *)
    destruct (Z_le_gt_dec (offset r + 4) (buf_length (data r))) as [Hin | Hout].
    + eapply kept_ok; [apply readU32BE_ok; exact Hin | reflexivity | reflexivity |].
      apply in_bounds_move; (assumption || lia).
    + eapply kept_throw; [apply readU32BE_overrun; lia | exact Hb].
  - apply kept_fixed; [lia | exact Hb].
  - apply kept_fixed; [lia | exact Hb].
  - apply kept_fixed; [lia | exact Hb].
  - apply kept_fixed; [lia | exact Hb].
  - apply kept_fixed; [lia | exact Hb].
  - (* readVarint *)
    destruct (readVarint_cases r Hb) as [[e He] | (value & size & Hv & Hb')].
    + eapply kept_throw; [exact He | exact Hb].
    + eapply kept_ok; [exact Hv | reflexivity | reflexivity | exact Hb'].
  - apply kept_bytes. exact Hb.
  - (* readVarBytes *)
    unfold readVarBytes.
    destruct (readVarint_cases r Hb) as [[e He] | (value & size0 & Hv & Hb')].
    + eapply kept_throw; [unfold bind; rewrite He; reflexivity | exact Hb].
    + pose proof (kept_bytes (RreadBytes value zc) _ value zc VBuf Hb') as (K1 & K2 & K3 & _).
      unfold bind in *. rewrite Hv. cbn [data zeroCopy set_offset] in *.
      destruct (readBytes value zc (set_offset (offset r + size0) r)) as [[b | e] r2];
        cbn [fst snd] in *.
      * split; [exact K1 |]. split; [exact K2 |]. split; [exact K3 | discriminate].
      * split; [exact K1 |]. split; [exact K2 |]. split; [exact K3 | discriminate].
  - apply kept_string. exact Hb.
  - (* readHash *)
    unfold readHash.
    assert (Hbytes : kept (RreadHash enc) r
              (bind (bind (readBytes 32 JUndefined) (fun b => ret (HashBuf b)))
                 (fun h => ret (match h with HashStr s => VStr s | HashBuf b => VBuf b end)) r)).
    { pose proof (kept_bytes (RreadHash enc) r 32 JUndefined VBuf Hb) as K.
      unfold bind in *. destruct (readBytes 32 JUndefined r) as [[b | e] r2]; exact K. }
    destruct enc as [e |]; [| exact Hbytes].
    destruct (String.eqb e ""); [exact Hbytes |].
    pose proof (kept_string (RreadHash (Some e)) r e 32 VStr Hb) as K.
    unfold bind in *. destruct (readString e 32 r) as [[s | err] r2]; exact K.
  - (* readVarString *)
    unfold readVarString.
    destruct (readVarint_cases r Hb) as [[e He] | (value & size0 & Hv & Hb')].
    + eapply kept_throw; [unfold bind; rewrite He; reflexivity | exact Hb].
    + pose proof (kept_string (RreadString enc value) _ enc value VStr Hb')
        as (K1 & K2 & K3 & _).
      unfold bind in *. rewrite Hv. cbn [data zeroCopy set_offset] in *.
      destruct (limit_ok limit value); cbn [assert ret throw].
      * destruct (readString enc value (set_offset (offset r + size0) r)) as [[b | e] r2];
          cbn [fst snd] in *.
        -- split; [exact K1 |]. split; [exact K2 |]. split; [exact K3 | discriminate].
        -- split; [exact K1 |]. split; [exact K2 |]. split; [exact K3 | discriminate].
      * cbn. split; [reflexivity |]. split; [reflexivity |]. split; [exact Hb' | discriminate].
  - (* readNullString *)
    unfold readNullString.
    destruct (offset r + 1 <=? buf_length (data r)) eqn:Hq0;
      [| eapply kept_throw; [rewrite bind_get, bind_assert_false by exact Hq0; reflexivity
                           | exact Hb]].
    set (i := Z.max 0 (offset r)
              + Z.of_nat (zero_index (drop (Z.to_nat (offset r)) (data r)))).
    assert (Hi : offset r <= i <= buf_length (data r)).
    { pose proof (zero_index_le (drop (Z.to_nat (offset r)) (data r))) as Hz.
      rewrite length_drop in Hz. unfold in_bounds, buf_length in *. subst i. lia. }
    destruct (i =? buf_length (data r)) eqn:Hq1.
    + eapply kept_throw; [| exact Hb].
      rewrite bind_get, bind_assert_true by exact Hq0.
      fold i. rewrite bind_assert_false by (rewrite Hq1; reflexivity). reflexivity.
    + eapply kept_ok;
        [ rewrite bind_get, bind_assert_true by exact Hq0;
          fold i; rewrite bind_assert_true by (rewrite Hq1; reflexivity);
          unfold bind at 1; rewrite readString_ok by lia;
          rewrite bind_get, bind_put; reflexivity
        | reflexivity | reflexivity | unfold in_bounds in *; cbn; lia].
  - (* createChecksum *)
    eapply kept_ok; [apply createChecksum_eq | reflexivity | reflexivity | exact Hb].
  - (* verifyChecksum *)
    destruct (Z_le_gt_dec (offset r + 4) (buf_length (data r))) as [Hin | Hout].
    + pose proof (verifyChecksum_eq r Hin) as Hv.
      destruct (_ =? _) in Hv.
      * eapply kept_ok; [exact Hv | reflexivity | reflexivity |].
        apply in_bounds_move; (assumption || lia).
      * eapply kept_late; [reflexivity | exact Hv | reflexivity | reflexivity |].
        apply in_bounds_move; (assumption || lia).
    + eapply kept_throw; [| exact Hb].
      unfold verifyChecksum.
      rewrite (bind_ok _ _ _ _ _ (createChecksum_eq r)).
      unfold bind. rewrite readU32_overrun by lia. reflexivity.
  - (* readU64 *) apply kept_wide. exact Hb.
  - apply kept_wide. exact Hb.
  - apply kept_wide. exact Hb.
  - apply kept_wide. exact Hb.
  - (* readU53 *) apply kept_wide. exact Hb.
  - apply kept_wide. exact Hb.
  - (* read64 *) apply kept_wide. exact Hb.
  - apply kept_wide. exact Hb.
  - apply kept_wide. exact Hb.
  - apply kept_wide. exact Hb.
  - (* read53 *) apply kept_wide. exact Hb.
  - apply kept_wide. exact Hb.
  - (* readFloat *) apply kept_float; [lia | exact Hb].
  - apply kept_float; [lia | exact Hb].
  - apply kept_float; [lia | exact Hb].
  - apply kept_float; [lia | exact Hb].
  - (* readVarint with big *)
    apply (kept_varint _ r (fun data off => enc_readVarint_big data off big));
      [intros data off; apply enc_readVarint_big_bounds | exact Hb].
  - (* skipVarint *) apply kept_skip. exact Hb.
  - (* readVarint2 *)
    apply (kept_varint _ r (fun data off => enc_readVarint2 data off big));
      [intros data off; apply enc_readVarint2_bounds | exact Hb].
Qed.

(** X8.  The reader stays within its buffer.  On a reader whose offset
    lies between 0 and the length of the buffer, every method but
    [destroy] leaves the buffer as it is and the offset between 0 and
    the length, whether it returns or throws; and a method that throws
    leaves the whole reader as it was, unless it is [readVarBytes] or
    [readVarString], which have consumed the length prefix by then, or
    [verifyChecksum], which has consumed the four bytes that do not
    match.  So it is after every sequence of such calls.  [destroy]
    is the one method that lets go of the buffer: it sets buffer,
    offset and stack to [null].  The decoders of [encoding.js] are
    taken to report, for a varint, a size within the buffer. *)
Theorem reader_stays_in_bounds r :
  in_bounds r ->
  (forall c, kept c r (rexec c r))
  /\ (forall calls,
        data (rexec_all calls r) = data r /\ in_bounds (rexec_all calls r)).
Proof.
  intros Hb. split; [intros c; apply rexec_kept; exact Hb |].
  intros calls. revert r Hb. induction calls as [| c calls IH]; intros r Hb.
  - split; [reflexivity | exact Hb].
  - cbn [rexec_all]. destruct (rexec_kept c r Hb) as (Hd & _ & Hb' & _).
    destruct (IH _ Hb') as [Hd2 Hb2]. split; [congruence | exact Hb2].
Qed.

End ReaderBounds.

(** ** Strings up to a zero byte, and spans *)

Section ReaderStrings.
Context `{Encoding} `{NodeBuffer}.
Import Reader.

Lemma readNullString_found r before body after enc :
  data r = before ++ body ++ 0 :: after -> offset r = buf_length before ->
  Forall (fun x => x <> 0) body ->
  readNullString enc r
  = (Ok (buf_toString enc body), set_offset (offset r + buf_length body + 1) r).
Proof.
  intros Hdata Hoff Hbody. unfold readNullString.
  pose proof (buf_length_nonneg before) as Hb.
  assert (Hlen : buf_length (data r)
                 = buf_length before + buf_length body + 1 + buf_length after).
  { rewrite Hdata. unfold buf_length. rewrite !length_app. cbn [length]. lia. }
  pose proof (buf_length_nonneg body) as Hbd. pose proof (buf_length_nonneg after) as Ha.
  rewrite bind_get, bind_assert_true by lia.
  assert (Hi : Z.max 0 (offset r)
               + Z.of_nat (zero_index (drop (Z.to_nat (offset r)) (data r)))
               = offset r + buf_length body).
  { rewrite Hdata, Hoff. unfold buf_length. rewrite Nat2Z.id, drop_app_length.
    rewrite zero_index_spec by exact Hbody. lia. }
  rewrite Hi. rewrite bind_assert_true by (apply negb_true_iff, Z.eqb_neq; lia).
  unfold bind at 1.
  rewrite readString_ok by lia.
  rewrite bind_get, bind_put. unfold ret.
  replace (offset r + buf_length body - offset r) with (buf_length body) by lia.
  rewrite Hdata at 1. rewrite Hoff at 1 2. rewrite buf_slice_behind.
  do 2 f_equal.
Qed.

Lemma readNullString_missing r enc :
  in_bounds r -> Forall (fun x => x <> 0) (drop (Z.to_nat (offset r)) (data r)) ->
  readNullString enc r = (Throw "AssertionError", r).
Proof.
  intros Hb Hnone. unfold readNullString. rewrite bind_get.
  destruct (offset r + 1 <=? buf_length (data r)) eqn:Hroom; [| reflexivity].
  rewrite bind_assert_true by reflexivity.
  rewrite zero_index_none by exact Hnone. rewrite length_drop.
  rewrite bind_assert_false; [reflexivity |].
  apply negb_false_iff, Z.eqb_eq. unfold in_bounds, buf_length in *. lia.
Qed.

(** X9.  [readNullString] returns the bytes from the offset up to the
    first zero byte, as a string, and leaves the offset behind that
    zero byte.  When no zero byte follows the offset it throws and
    leaves the reader as it was. *)
Theorem readNullString_reads_to_zero r enc :
  (forall before body after,
     data r = before ++ body ++ 0 :: after -> offset r = buf_length before ->
     Forall (fun x => x <> 0) body ->
     readNullString enc r
     = (Ok (buf_toString enc body), set_offset (offset r + buf_length body + 1) r))
  /\ (in_bounds r -> Forall (fun x => x <> 0) (drop (Z.to_nat (offset r)) (data r)) ->
      readNullString enc r = (Throw "AssertionError", r)).
Proof.
  split.
  - intros before body after. apply readNullString_found.
  - apply readNullString_missing.
Qed.

(** X10.  [endData] returns the bytes between the last [start] and the
    offset, and [end] their number; both take the mark off the stack.
    On a reader with no mark both throw and leave the reader as it
    was. *)
Theorem endData_returns_span r zc :
  (forall rest mark,
     stack r = rest ++ [mark] -> 0 <= mark <= offset r -> offset r <= buf_length (data r) ->
     endData zc r = (Ok (buf_slice (data r) mark (offset r)), set_stack rest r)
     /\ end_ r = (Ok (offset r - mark), set_stack rest r))
  /\ (stack r = [] ->
      endData zc r = (Throw "AssertionError", r) /\ end_ r = (Throw "AssertionError", r)).
Proof.
  split.
  - intros rest mark Hst Hmark Hoff.
    assert (Hlast : last (stack r) = Some mark) by (rewrite Hst; apply last_snoc).
    assert (Hrem : removelast (stack r) = rest) by (rewrite Hst; apply removelast_last).
    assert (Hpos : (0 <? Z.of_nat (length (stack r))) = true).
    { apply Z.ltb_lt. rewrite Hst, length_app. cbn [length]. lia. }
    split.
    + unfold endData. rewrite bind_get, bind_assert_true by exact Hpos.
      rewrite Hlast, bind_put, Hrem. cbv zeta.
      destruct (Z.eqb_spec (offset r - mark) (buf_length (data r))) as [Hall | Hpart].
      * unfold ret. do 2 f_equal.
        assert (mark = 0) as -> by lia. assert (offset r = buf_length (data r)) as -> by lia.
        unfold buf_slice, buf_length. rewrite Z.sub_0_r, Nat2Z.id. cbn [Z.to_nat drop].
        symmetry. apply take_ge. lia.
      * destruct (zeroCopy r || truthy zc); reflexivity.
    + unfold end_. rewrite bind_get, bind_assert_true by exact Hpos.
      rewrite Hlast, bind_put, Hrem. reflexivity.
  - intros Hst. split.
    + unfold endData. rewrite bind_get, Hst. reflexivity.
    + unfold end_. rewrite bind_get, Hst. reflexivity.
Qed.

End ReaderStrings.

Section NullStrings.
Context `{Encoding} `{!EncodingLaws} `{NodeBuffer} `{!NodeBufferLaws}.

(** X11.  A string written with [writeNullString] is read back by
    [readNullString], when the encoding stores the string in full, with
    no zero byte, and decodes what it stores: the buffer rendered holds
    the bytes of the string and a zero byte, and the read returns the
    string and leaves the reader at the end. *)
Theorem null_string_round_trip s enc zc :
  buf_length (buf_encode s enc) = buf_byteLength s enc ->
  Forall (fun x => x <> 0) (buf_encode s enc) ->
  buf_toString enc (buf_encode s enc) = s ->
  exists data,
    Wire.rendered [Writer.CwriteNullString (Writer.AStr s) enc] = Ok data
    /\ data = buf_encode s enc ++ [0]
    /\ Reader.readNullString enc (Reader.new data zc)
       = (Ok s, Reader.set_offset (buf_length data) (Reader.new data zc)).
Proof.
  intros Hfull Hnz Hdec.
  assert (Hok : Forall (fun c => Writer.call_ok c /\ Wire.is_Cseek c = false)
                  [Writer.CwriteNullString (Writer.AStr s) enc]).
  { constructor; [split; [exact Hfull | reflexivity] | constructor]. }
  assert (He : exists w, Writer.exec_all [Writer.CwriteNullString (Writer.AStr s) enc]
                           Writer.new = (Ok tt, w)).
  { cbn [Writer.exec_all Writer.exec].
    unfold Writer.writeNullString, Writer.writeString, Writer.writeU8, bind,
      Writer.add_written, Writer.push, ret. cbn.
    destruct (String.eqb s ""); eexists; reflexivity. }
  destruct He as [w He].
  exists (buf_encode s enc ++ [0]). split; [| split; [reflexivity |]].
  - unfold Wire.rendered, bind. rewrite He, (render_wire _ w false Hok He). reflexivity.
  - rewrite (readNullString_found _ [] (buf_encode s enc) [] enc);
      [| reflexivity | reflexivity | exact Hnz].
    rewrite Hdec. cbn [Reader.offset Reader.new]. do 2 f_equal.
    unfold buf_length. rewrite length_app. cbn [length]. lia.
Qed.

End NullStrings.

(** ** The reader on examples *)

Section ReaderExamples.
Import Examples.

#[local] Existing Instance compact_size_laws.
#[local] Existing Instance ascii_codec_laws.

(** The compact-size integers report a size within the buffer. *)
#[local] Instance compact_size_in_bounds : Reader.VarintInBounds.
Proof.
  split. intros data off value size.
  cbn [enc_readVarint compact_size]. unfold Examples.readVarint.
  destruct ((0 <=? off) && (off <? buf_length data)) eqn:Hin; cbn [negb]; [| discriminate].
  apply andb_true_iff in Hin as [Hlo Hhi].
  destruct (byte_at data off =? 0xff).
  { destruct (off + 9 <=? buf_length data) eqn:Hr; [| discriminate].
    intros Hv. inversion Hv; subst. lia. }
  destruct (byte_at data off =? 0xfe).
  { destruct (off + 5 <=? buf_length data) eqn:Hr; [| discriminate].
    intros Hv. inversion Hv; subst. lia. }
  destruct (byte_at data off =? 0xfd).
  { destruct (off + 3 <=? buf_length data) eqn:Hr; [| discriminate].
    intros Hv. inversion Hv; subst. lia. }
  intros Hv. inversion Hv; subst. lia.
Qed.

(** The varints of the stand-in lie within the buffer. *)
Lemma readVarint2_from_bounds bytes : forall num size value size',
  Examples.readVarint2_from bytes num size = Ok (value, size') ->
  size < size' <= size + Z.of_nat (length bytes).
Proof.
  induction bytes as [| ch rest IH]; intros num size value size' Hv; [discriminate |].
  cbn [Examples.readVarint2_from] in Hv. cbn [length].
  destruct (Z.land ch 128 =? 0).
  - inversion Hv; subst. lia.
  - apply IH in Hv. lia.
Qed.

#[local] Instance compact_wide_in_bounds : Reader.WideReadsInBounds.
Proof.
  split.
  - intros data off big value size Hv.
    change (enc_readVarint data off = Ok (value, size)) in Hv.
    exact (Reader.enc_readVarint_bounds _ _ _ _ Hv).
  - intros data off big value size.
    cbn [Reader.enc_readVarint2 compact_wide]. unfold Examples.readVarint2.
    destruct (Z.ltb_spec off 0) as [Hneg | Hpos]; [discriminate |].
    intros Hv. apply readVarint2_from_bounds in Hv.
    rewrite length_drop in Hv.
    assert (Hlen : Z.of_nat (length data - Z.to_nat off) <= buf_length data - off)
      by (unfold buf_length; lia).
    lia.
  - intros data off size.
    cbn [Reader.enc_skipVarint compact_wide]. unfold Examples.skipVarint.
    destruct (negb _); [discriminate |].
    intros Hv. inversion Hv.
    destruct (_ =? 255); [lia |]. destruct (_ =? 254); [lia |]. destruct (_ =? 253); lia.
Qed.

(** X8, witness: reads that return and reads that run over the end,
    among them a 64-bit integer that is no number, a varint of each
    kind and a double. *)
Lemma reader_stays_in_bounds_witness :
  let r := Reader.new [3; 1; 2; 3; 0; 9; 255; 255; 255; 255; 255; 255; 255; 127; 129; 0] false in
  let calls := [ Reader.RreadVarBytes JUndefined; Reader.RreadU32; Reader.Rseek (-7);
                 Reader.RreadNullString "ascii"; Reader.RreadU16;
                 Reader.RreadU64N JUndefined; Reader.RskipVarint; Reader.RreadDouble;
                 Reader.Rread53; Reader.RreadVarint2 JUndefined; Reader.RreadVarint2 JUndefined;
                 Reader.RreadU8 ] in
  Reader.data (Reader.rexec_all calls r) = Reader.data r
  /\ Reader.in_bounds (Reader.rexec_all calls r).
Proof.
  intros r calls.
  assert (Hb : Reader.in_bounds r) by (vm_compute; split; discriminate).
  exact (proj2 (reader_stays_in_bounds r Hb) calls).
Defined.

(** The calls of the witness, one by one: the offset after each, and
    whether it returned. *)
Example reader_wide_calls :
  let r := Reader.new [3; 1; 2; 3; 0; 9; 255; 255; 255; 255; 255; 255; 255; 127; 129; 0] false in
  let run c r := (is_ok (Reader.rexec c r).1, Reader.offset (Reader.rexec c r).2) in
  run (Reader.RreadU64N JUndefined) (Reader.set_offset 6 r) = (false, 6)
  /\ run Reader.RreadU53 (Reader.set_offset 6 r) = (true, 14)
  /\ run Reader.RskipVarint (Reader.set_offset 6 r) = (true, 15)
  /\ run Reader.RskipVarint (Reader.set_offset 8 r) = (false, 8)
  /\ run (Reader.RreadVarint2 JUndefined) (Reader.set_offset 14 r) = (true, 16)
  /\ run (Reader.RreadVarint2 JUndefined) (Reader.set_offset 16 r) = (false, 16)
  /\ run Reader.RreadDouble (Reader.set_offset 8 r) = (true, 16)
  /\ run Reader.RreadDouble (Reader.set_offset 9 r) = (false, 9).
Proof. vm_compute. repeat split; reflexivity. Qed.

(** X9, witness: two letters and a zero byte. *)
Lemma readNullString_reads_to_zero_witness :
  let r := Reader.new [104; 105; 0; 7] false in
  Reader.readNullString "ascii" r = (Ok "hi"%string, Reader.set_offset 3 r).
Proof.
  intros r.
  assert (Hnz : Forall (fun x => x <> 0) [104; 105]).
  { repeat (apply List.Forall_cons; [discriminate |]). apply List.Forall_nil. }
  exact (proj1 (readNullString_reads_to_zero r "ascii") [] [104; 105] [7] eq_refl eq_refl Hnz).
Defined.

(** X10, witness: a mark at 1 and the offset at 3. *)
Lemma endData_returns_span_witness :
  let r := Reader.set_stack [1] (Reader.set_offset 3 (Reader.new [5; 6; 7; 8] false)) in
  Reader.endData JUndefined r = (Ok [6; 7], Reader.set_stack [] r)
  /\ Reader.end_ r = (Ok 2, Reader.set_stack [] r).
Proof.
  intros r.
  apply (proj1 (endData_returns_span r JUndefined) [] 1); [reflexivity | vm_compute; split; discriminate | vm_compute; discriminate].
Defined.

(** X11, witness: a command name. *)
Lemma null_string_round_trip_witness :
  exists data,
    Wire.rendered [Writer.CwriteNullString (Writer.AStr "ping") "ascii"] = Ok data
    /\ data = buf_encode "ping" "ascii" ++ [0]
    /\ Reader.readNullString "ascii" (Reader.new data false)
       = (Ok "ping"%string, Reader.set_offset (buf_length data) (Reader.new data false)).
Proof.
  apply (null_string_round_trip "ping" "ascii" false).
  - reflexivity.
  - cbn. repeat (apply List.Forall_cons; [discriminate |]). apply List.Forall_nil.
  - reflexivity.
Defined.

End ReaderExamples.
(** ** Lookups in a verified merkle block *)

Lemma index_map_lookup leaves (positions : list Z) (k : string) :
  Merkle.index_map leaves ∅ positions !! k
  = last (filter (fun p => String.eqb (to_hex (Merkle.leaf leaves p)) k = true) positions).
Proof.
  induction positions as [| p l IH] using rev_ind; [reflexivity |].
  rewrite index_map_app. cbn [Merkle.index_map foldl].
  rewrite filter_app, filter_cons, filter_nil.
  destruct (String.eqb (to_hex (Merkle.leaf leaves p)) k) eqn:Hk.
  - apply String.eqb_eq in Hk. subst k. rewrite lookup_insert_eq.
    rewrite decide_True by reflexivity. rewrite last_snoc. reflexivity.
  - assert (Hne : to_hex (Merkle.leaf leaves p) <> k) by (apply String.eqb_neq; exact Hk).
    rewrite lookup_insert_ne by exact Hne.
    rewrite decide_False by (intros Hc; discriminate Hc).
    rewrite app_nil_r. exact IH.
Qed.

Section Lookups.
Context `{Consensus} `{!ConsensusLaws}.
Import Merkle.

(** What [fromMatches] builds and [extractTree] reads back. *)
Lemma fromMatches_tree (block : Block) (matched : list bool) :
  1 <= leaf_count (b_txs block) ->
  60 * leaf_count (b_txs block) <= BLOCK_MAX_SIZE ->
  Forall (fun h => buf_length h = 32) (b_txs block) ->
  siblings_differ (b_txs block) matched (tree_height (b_txs block)) 0 = true ->
  exists mb,
    fromMatches block matched = Ok mb
    /\ _validPartial mb = None
    /\ merkleRoot mb = b_merkleRoot block
    /\ extractTree mb
       = Some {| root := to_hex (merkle_root (b_txs block));
                 t_matches := leaf (b_txs block)
                              <$> filter (fun p => match_at matched p = true)
                                    (seqZ 0 (leaf_count (b_txs block)));
                 t_indexes := filter (fun p => match_at matched p = true)
                                (seqZ 0 (leaf_count (b_txs block)));
                 t_map := index_map (b_txs block) ∅
                            (filter (fun p => match_at matched p = true)
                               (seqZ 0 (leaf_count (b_txs block)))) |}.
Proof.
  set (leaves := b_txs block). intros Hone Hmax Hsize Hdiff.
  assert (Hcount : 1 <= leaf_count leaves <= 2 ^ 30).
  { pose proof BLOCK_MAX_SIZE_bound. lia. }
  destruct (find_height_ok (leaf_count leaves) Hcount) as (Hh & Hfind & Hrange & Hpow).
  assert (Htop : in_tree leaves (Z.to_nat Hh) 0).
  { split; [lia |]. split; lia. }
  assert (Hth : tree_height leaves = Z.to_nat Hh) by (unfold tree_height; rewrite Hfind; reflexivity).
  rewrite Hth in Hdiff.
  set (st0 := {| bld_bits := []; bld_hashes := []; bld_buf := buf_zero 64 |}).
  destruct (traverse_spec leaves matched Hcount Hsize (Z.to_nat Hh) 0 st0 Htop eq_refl)
    as (Hbits & Hhashes & _).
  cbn [st0 bld_bits bld_hashes app] in Hbits, Hhashes.
  unfold fromMatches. fold leaves. rewrite Hfind. fold st0.
  set (mb := {| version := b_version block; flags := _ |}).
  exists mb.
  assert (Hflags : flags mb = pack_flags (node_bits leaves matched (Z.to_nat Hh) 0)).
  { cbn [mb flags]. rewrite Hbits. reflexivity. }
  assert (Hhs : hashes mb = node_hashes leaves matched (Z.to_nat Hh) 0).
  { cbn [mb hashes]. exact Hhashes. }
  assert (Htotal : totalTX mb = leaf_count leaves) by reflexivity.
  pose proof (ex_traverse_spec leaves matched mb _ Hcount Hsize Hflags Htotal
                (Z.to_nat Hh) 0 ex_start [] [] [] [] Htop) as Hex.
  cbn [app length ex_start bitsUsed hashUsed failed ex_buf ex_matches ex_indexes ex_map] in Hex.
  rewrite !app_nil_r in Hex.
  specialize (Hex eq_refl Hhs eq_refl eq_refl eq_refl eq_refl Hdiff).
  cbn zeta in Hex. destruct Hex as (E1 & E2 & E3 & E4 & E5 & E6 & E7 & E8).
  assert (Hfound : found leaves matched (Z.to_nat Hh) 0
                   = filter (fun p => match_at matched p = true) (seqZ 0 (leaf_count leaves))).
  { unfold found. rewrite (span_eq leaves Hcount _ _ Htop), (first_leaf_eq leaves Hcount _ _ Htop).
    unfold span. rewrite Z2Nat.id by lia. f_equal. f_equal. lia. }
  pose proof (tree_hash_root leaves Hcount Hh Hfind Hrange Hpow) as Hroot.
  split; [reflexivity |]. split; [reflexivity |]. split; [reflexivity |].
  rewrite <- Hfound, Hroot.
  unfold extractTree. rewrite Htotal, Hhs, Hfind.
  assert ((leaf_count leaves =? 0) = false) as -> by lia.
  assert ((BLOCK_MAX_SIZE <? 60 * leaf_count leaves) = false) as -> by lia.
  pose proof (node_hashes_span leaves matched Hcount _ _ Htop) as Hspan.
  pose proof (node_hashes_bits leaves matched (Z.to_nat Hh) 0) as Hnb.
  assert (Hsp : span leaves (Z.to_nat Hh) 0 <= leaf_count leaves) by (unfold span; lia).
  assert ((leaf_count leaves
           <? Z.of_nat (length (node_hashes leaves matched (Z.to_nat Hh) 0))) = false) as ->
    by lia.
  rewrite Hflags, pack_flags_length.
  set (nb := Z.of_nat (length (node_bits leaves matched (Z.to_nat Hh) 0))) in *.
  pose proof (Z.mul_div_le (nb + 7) 8 ltac:(lia)).
  pose proof (Z.mod_pos_bound (nb + 7) 8 ltac:(lia)).
  pose proof (Z.div_mod (nb + 7) 8 ltac:(lia)).
  assert (((nb + 7) / 8 * 8
           <? Z.of_nat (length (node_hashes leaves matched (Z.to_nat Hh) 0))) = false) as ->
    by lia.
  destruct (ex_traverse mb (Z.to_nat Hh) 0 ex_start) as [r st].
  cbn [fst snd] in E1, E2, E3, E4, E5, E6, E7, E8.
  rewrite E7, E2, E3. fold nb.
  rewrite Z.add_0_l, !Z.eqb_refl. cbn [negb].
  rewrite E1, E4, E5, E6. reflexivity.
Qed.

(** X12.  In a merkle block that [fromMatches] built from a block that
    carries its merkle root (at least one and at most [BLOCK_MAX_SIZE /
    60] transactions with hashes of 32 bytes, no two sibling nodes above
    a matched transaction with the same hash), [verifyPartial] holds,
    [indexOf] of a hash in hex returns the position of the last matched
    transaction with this hash, and -1 when no matched transaction has
    it, and [hasTX] tells whether there is one. *)
Theorem indexOf_finds_matched (block : Block) (matched : list bool) :
  1 <= leaf_count (b_txs block) ->
  60 * leaf_count (b_txs block) <= BLOCK_MAX_SIZE ->
  Forall (fun h => buf_length h = 32) (b_txs block) ->
  siblings_differ (b_txs block) matched (tree_height (b_txs block)) 0 = true ->
  b_merkleRoot block = to_hex (merkle_root (b_txs block)) ->
  exists mb,
    fromMatches block matched = Ok mb
    /\ (verifyPartial mb).1 = true
    /\ forall h : Buffer,
         let hits :=
           filter (fun p => match_at matched p
                            && String.eqb (to_hex (leaf (b_txs block) p)) (to_hex h) = true)
             (seqZ 0 (leaf_count (b_txs block))) in
         (indexOf mb (to_hex h)).1 = default (-1) (last hits)
         /\ (hasTX mb (to_hex h)).1 = negb (bool_decide (hits = []))
         /\ (indexOf mb (to_hex h)).2 = (verifyPartial mb).2.
Proof.
  intros Hone Hmax Hsize Hdiff Hroot.
  destruct (fromMatches_tree block matched Hone Hmax Hsize Hdiff) as (mb & Hmb & Hnone & Hmr & Hx).
  exists mb. split; [exact Hmb |].
  assert (Hv : verifyPartial mb
    = (true, {| version := version mb; prevBlock := prevBlock mb;
                merkleRoot := merkleRoot mb; ts := ts mb; bits_ := bits_ mb;
                nonce := nonce mb; totalTX := totalTX mb; height := height mb;
                hashes := hashes mb; flags := flags mb; txs := txs mb;
                map := index_map (b_txs block) ∅
                         (filter (fun p => match_at matched p = true)
                            (seqZ 0 (leaf_count (b_txs block))));
                matches := leaf (b_txs block)
                           <$> filter (fun p => match_at matched p = true)
                                 (seqZ 0 (leaf_count (b_txs block)));
                _validPartial := Some true |})).
  { unfold verifyPartial. rewrite Hnone, Hx. cbn [root t_map t_matches].
    rewrite Hmr, Hroot, String.eqb_refl. reflexivity. }
  split; [rewrite Hv; reflexivity |].
  intros h hits.
  assert (Hidx : indexOf mb (to_hex h) = (default (-1) (last hits), (verifyPartial mb).2)).
  { unfold indexOf. rewrite Hv. cbn [map snd]. rewrite index_map_lookup.
    rewrite list_filter_filter.
    match goal with |- context [last ?l] => replace l with hits end;
      [destruct (last hits); reflexivity |].
    subst hits. apply list_filter_iff. intros p. rewrite andb_true_iff. tauto. }
  split; [rewrite Hidx; reflexivity |]. split; [| rewrite Hidx; reflexivity].
  unfold hasTX. rewrite Hidx. cbn [fst].
  destruct hits as [| p0 l] eqn:Hhits using rev_ind.
  - reflexivity.
  - rewrite last_snoc. cbn [default].
    rewrite bool_decide_eq_false_2 by (intros Hc; destruct l; discriminate Hc).
    cbn [negb]. apply negb_true_iff, Z.eqb_neq.
    assert (Hin : p0 ∈ hits) by (rewrite Hhits; set_solver).
    subst hits. apply list_elem_of_filter in Hin as [_ Hin].
    apply elem_of_seqZ in Hin. unfold id. lia.
Qed.

End Lookups.
(** ** Surplus hashes and flag bytes *)

Section Surplus.
Context `{Consensus}.
Import Merkle.
Variable this : MerkleBlock.
Variable more_hashes : list Buffer.
Variable more_flags : Buffer.

Local Abbreviation longer :=
  (set_tree this (hashes this ++ more_hashes) (flags this ++ more_flags)).

Lemma flag_bit_longer n :
  0 <= n < buf_length (flags this) * 8 -> flag_bit longer n = flag_bit this n.
Proof.
  intros Hn. unfold flag_bit, set_tree, byte_at. cbn [flags].
  rewrite lookup_app_l; [reflexivity |].
  unfold buf_length in Hn.
  assert (n / 8 < Z.of_nat (length (flags this))) by (apply Z.div_lt_upper_bound; lia).
  pose proof (Z.div_pos n 8 ltac:(lia) ltac:(lia)). lia.
Qed.

(** A traversal that does not fail reads only what it uses: behind the
    hashes and the flag bytes of the block there may be more. *)
Lemma ex_traverse_longer h : forall pos st,
  failed (ex_traverse this h pos st).2 = false ->
  0 <= bitsUsed st -> 0 <= hashUsed st ->
  ex_traverse longer h pos st = ex_traverse this h pos st
  /\ 0 <= bitsUsed (ex_traverse this h pos st).2
  /\ 0 <= hashUsed (ex_traverse this h pos st).2.
Proof.
  assert (Hleaf : forall (is_leaf : bool) (pos : Z) st,
    (buf_length (flags this) * 8 <=? bitsUsed st) = false ->
    0 <= bitsUsed st -> 0 <= hashUsed st ->
    (Z.of_nat (length (hashes this)) <=? hashUsed st) = false ->
    (Z.of_nat (length (hashes longer)) <=? hashUsed st) = false
    /\ default [] (hashes longer !! Z.to_nat (hashUsed st))
       = default [] (hashes this !! Z.to_nat (hashUsed st))).
  { intros _ pos st _ _ Hh Hroom. apply Z.leb_gt in Hroom.
    unfold set_tree. cbn [hashes]. split.
    - apply Z.leb_gt. rewrite length_app. lia.
    - rewrite lookup_app_l by lia. reflexivity. }
  induction h as [| h IH]; intros pos st Hf Hb Hh.
  - cbn [ex_traverse] in *.
    destruct (buf_length (flags this) * 8 <=? bitsUsed st) eqn:Hroom; [discriminate Hf |].
    assert ((buf_length (flags longer) * 8 <=? bitsUsed st) = false) as ->.
    { apply Z.leb_gt in Hroom. apply Z.leb_gt. unfold set_tree, buf_length in *.
      cbn [flags]. rewrite length_app. lia. }
    rewrite flag_bit_longer by lia.
    cbn [of_bit hashUsed] in *.
    destruct (Z.of_nat (length (hashes this)) <=? hashUsed st) eqn:Hhs; [discriminate Hf |].
    destruct (Hleaf true pos st Hroom Hb Hh Hhs) as [-> ->].
    split; [reflexivity |].
    destruct (true && negb (flag_bit this (bitsUsed st) =? 0)); cbn; lia.
  - cbn [ex_traverse] in *.
    destruct (buf_length (flags this) * 8 <=? bitsUsed st) eqn:Hroom; [discriminate Hf |].
    assert ((buf_length (flags longer) * 8 <=? bitsUsed st) = false) as ->.
    { apply Z.leb_gt in Hroom. apply Z.leb_gt. unfold set_tree, buf_length in *.
      cbn [flags]. rewrite length_app. lia. }
    rewrite flag_bit_longer by lia.
    destruct (flag_bit this (bitsUsed st) =? 0) eqn:Hflag.
    + cbn [of_bit hashUsed] in *.
      destruct (Z.of_nat (length (hashes this)) <=? hashUsed st) eqn:Hhs; [discriminate Hf |].
      destruct (Hleaf false pos st Hroom Hb Hh Hhs) as [-> ->].
      split; [reflexivity |]. cbn. lia.
    + assert (Htot : totalTX longer = totalTX this) by reflexivity.
      rewrite Htot.
      pose proof (IH (pos * 2) (of_bit st)) as IHl.
      pose proof (failed_stays this h (pos * 2 + 1)) as Hstay.
      destruct (ex_traverse this h (pos * 2) (of_bit st)) as [l st1] eqn:El.
      cbn [snd] in IHl.
      destruct (pos * 2 + 1 <? width (totalTX this) (Z.of_nat h)) eqn:Hw.
      * pose proof (IH (pos * 2 + 1) st1) as IHr. specialize (Hstay st1).
        destruct (ex_traverse this h (pos * 2 + 1) st1) as [r st2] eqn:Er.
        cbn [snd] in IHr, Hstay.
        assert (Hf2 : failed st2 = false).
        { destruct (equal r l); [discriminate Hf |].
          destruct (hash_pair (ex_buf st2) l r). exact Hf. }
        assert (Hf1 : failed st1 = false).
        { destruct (failed st1); [| reflexivity]. rewrite Hstay in Hf2 by reflexivity.
          discriminate Hf2. }
        destruct IHl as (-> & Hb1 & Hh1);
          [exact Hf1 | cbn [of_bit bitsUsed]; lia | exact Hh |].
        destruct IHr as (-> & Hb2 & Hh2); [exact Hf2 | exact Hb1 | exact Hh1 |].
        split; [reflexivity |].
        destruct (equal r l); destruct (hash_pair _ l r); cbn; lia.
      * assert (Hf1 : failed st1 = false).
        { destruct (hash_pair (ex_buf st1) l l). exact Hf. }
        destruct IHl as (-> & Hb1 & Hh1);
          [exact Hf1 | cbn [of_bit bitsUsed]; lia | exact Hh |].
        split; [reflexivity |].
        destruct (hash_pair _ l l); cbn; lia.
Qed.

(** X13.  [extractTree] accepts no surplus: when it returns a tree for a
    merkle block, it returns none for the same block with further hashes
    behind its hashes or further bytes behind its flag bytes. *)
Theorem extractTree_rejects_surplus tree :
  extractTree this = Some tree ->
  more_hashes <> [] \/ more_flags <> [] ->
  extractTree (set_tree this (hashes this ++ more_hashes) (flags this ++ more_flags)) = None.
Proof.
  intros Hx Hmore. unfold extractTree in *.
  assert (Htot : totalTX longer = totalTX this) by reflexivity.
  rewrite Htot.
  destruct (totalTX this =? 0); [discriminate Hx |].
  destruct (BLOCK_MAX_SIZE <? 60 * totalTX this); [discriminate Hx |].
  destruct (totalTX this <? Z.of_nat (length (hashes this))); [discriminate Hx |].
  destruct (buf_length (flags this) * 8 <? Z.of_nat (length (hashes this)));
    [discriminate Hx |].
  destruct (totalTX this <? Z.of_nat (length (hashes longer))); [reflexivity |].
  destruct (buf_length (flags longer) * 8 <? Z.of_nat (length (hashes longer)));
    [reflexivity |].
  destruct (find_height 32 (totalTX this) 0) as [height | e]; [| reflexivity].
  pose proof (ex_traverse_longer (Z.to_nat height) 0 ex_start) as Hsame.
  destruct (ex_traverse this (Z.to_nat height) 0 ex_start) as [r st] eqn:Et.
  cbn [snd] in Hsame.
  destruct (failed st) eqn:Hf; [discriminate Hx |].
  destruct Hsame as (-> & Hb & Hh); [reflexivity | cbn; lia | cbn; lia |].
  rewrite Hf.
  destruct ((bitsUsed st + 7) / 8 =? buf_length (flags this)) eqn:Hbits;
    [| discriminate Hx].
  destruct (hashUsed st =? Z.of_nat (length (hashes this))) eqn:Hhashes;
    [| discriminate Hx].
  apply Z.eqb_eq in Hbits, Hhashes.
  unfold set_tree, buf_length in *. cbn [flags hashes].
  rewrite !length_app.
  destruct Hmore as [Hm | Hm].
  - assert ((hashUsed st =? Z.of_nat (length (hashes this) + length more_hashes)) = false)
      as ->.
    { apply Z.eqb_neq. destruct more_hashes; [congruence | cbn [length]; lia]. }
    destruct (_ =? _); reflexivity.
  - assert (((bitsUsed st + 7) / 8 =? Z.of_nat (length (flags this) + length more_flags))
            = false) as ->.
    { apply Z.eqb_neq. destruct more_flags; [congruence | cbn [length]; lia]. }
    reflexivity.
Qed.

End Surplus.
(** ** Nothing matched, and everything *)

Lemma filter_none {A} (P : A -> Prop) `{!forall x, Decision (P x)} (l : list A) :
  (forall x, x ∈ l -> ~ P x) -> filter P l = [].
Proof.
  induction l as [| x l IH]; intros Hno; [reflexivity |].
  rewrite filter_cons, decide_False by (apply Hno; left).
  apply IH. intros y Hy. apply Hno. right. exact Hy.
Qed.

Lemma filter_all {A} (P : A -> Prop) `{!forall x, Decision (P x)} (l : list A) :
  (forall x, x ∈ l -> P x) -> filter P l = l.
Proof.
  induction l as [| x l IH]; intros Hall; [reflexivity |].
  rewrite filter_cons, decide_True by (apply Hall; left).
  f_equal. apply IH. intros y Hy. apply Hall. right. exact Hy.
Qed.

Lemma leaves_by_position (leaves : list Buffer) :
  Merkle.leaf leaves <$> seqZ 0 (Merkle.leaf_count leaves) = leaves.
Proof.
  apply list_eq. intros i. rewrite list_lookup_fmap. unfold Merkle.leaf_count, Merkle.leaf.
  destruct (leaves !! i) as [x |] eqn:Hx.
  - pose proof (lookup_lt_Some _ _ _ Hx).
    rewrite lookup_seqZ_lt by lia. cbn [fmap option_fmap option_map].
    rewrite Z.add_0_l, Nat2Z.id, Hx. reflexivity.
  - apply lookup_ge_None in Hx. rewrite lookup_seqZ_ge by lia. reflexivity.
Qed.

Section Extremes.
Context `{Consensus} `{!ConsensusLaws}.
Import Merkle.

(** X14.  When no transaction is matched, the merkle block that
    [fromMatches] builds for a block of at least one transaction holds
    one hash, the merkle root of the block, one flag byte 0 and no
    transaction; [extractTree] reads the root back from it, with no
    match. *)
Theorem fromMatches_nothing_matched (block : Block) (matched : list bool) :
  1 <= leaf_count (b_txs block) ->
  60 * leaf_count (b_txs block) <= BLOCK_MAX_SIZE ->
  Forall (fun h => buf_length h = 32) (b_txs block) ->
  (forall p, match_at matched p = false) ->
  exists mb,
    fromMatches block matched = Ok mb
    /\ hashes mb = [merkle_root (b_txs block)]
    /\ flags mb = [0]
    /\ txs mb = []
    /\ totalTX mb = leaf_count (b_txs block)
    /\ extractTree mb
       = Some {| root := to_hex (merkle_root (b_txs block));
                 t_matches := []; t_indexes := []; t_map := ∅ |}.
Proof.
  set (leaves := b_txs block). intros Hone Hmax Hsize Hno.
  assert (Hcount : 1 <= leaf_count leaves <= 2 ^ 30).
  { pose proof BLOCK_MAX_SIZE_bound. lia. }
  assert (Hparent : forall h pos, parent_bit leaves matched h pos = false).
  { intros h pos. unfold parent_bit. apply not_true_is_false. intros Hc.
    apply existsb_exists in Hc as (p & _ & Hp). rewrite Hno in Hp. discriminate Hp. }
  assert (Hnofound : filter (fun p => match_at matched p = true) (seqZ 0 (leaf_count leaves))
                     = []).
  { apply filter_none. intros p _. rewrite Hno. discriminate. }
  assert (Hdiff : siblings_differ leaves matched (tree_height leaves) 0 = true).
  { destruct (tree_height leaves); [reflexivity |].
    cbn [siblings_differ]. rewrite Hparent. reflexivity. }
  destruct (fromMatches_tree block matched Hone Hmax Hsize Hdiff) as (mb & Hmb & _ & _ & Hx).
  fold leaves in Hx. rewrite Hnofound in Hx.
  exists mb. split; [exact Hmb |].
  destruct (find_height_ok (leaf_count leaves) Hcount) as (Hh & Hfind & Hrange & Hpow).
  assert (Htop : in_tree leaves (Z.to_nat Hh) 0).
  { split; [lia |]. split; lia. }
  set (st0 := {| bld_bits := []; bld_hashes := []; bld_buf := buf_zero 64 |}).
  destruct (traverse_spec leaves matched Hcount Hsize (Z.to_nat Hh) 0 st0 Htop eq_refl)
    as (Hbits & Hhashes & _).
  cbn [st0 bld_bits bld_hashes app] in Hbits, Hhashes.
  pose proof (tree_hash_root leaves Hcount Hh Hfind Hrange Hpow) as Hroot.
  unfold fromMatches in Hmb. fold leaves in Hmb. rewrite Hfind in Hmb. fold st0 in Hmb.
  injection Hmb as <-.
  assert (Hnb : node_bits leaves matched (Z.to_nat Hh) 0 = [false]).
  { destruct (Z.to_nat Hh); cbn [node_bits]; rewrite Hparent; reflexivity. }
  assert (Hnh : node_hashes leaves matched (Z.to_nat Hh) 0 = [tree_hash leaves (Z.to_nat Hh) 0]).
  { destruct (Z.to_nat Hh); cbn [node_hashes]; rewrite ?Hparent; reflexivity. }
  split; [cbn [hashes]; rewrite Hhashes, Hnh, Hroot; reflexivity |].
  split; [cbn [flags]; rewrite Hbits, Hnb; reflexivity |].
  split.
  - cbn [txs]. rewrite filter_none; [reflexivity |]. intros [i x] _.
    cbn [fst]. rewrite Hno. discriminate.
  - split; [reflexivity |]. exact Hx.
Qed.

(** With every transaction matched, the traversal of a node pushes the
    hashes of the leaves below it. *)
Lemma node_hashes_all leaves (matched : list bool) :
  1 <= leaf_count leaves <= 2 ^ 30 ->
  (forall p, 0 <= p < leaf_count leaves -> match_at matched p = true) ->
  forall h pos, in_tree leaves h pos ->
    node_hashes leaves matched h pos = leaf leaves <$> found leaves matched h pos
    /\ found leaves matched h pos <> [].
Proof.
  intros Hcount Hall. induction h as [| h IH]; intros pos Hin.
  - rewrite (found_leaf leaves matched Hcount pos Hin).
    assert (Hp : 0 <= pos < leaf_count leaves).
    { destruct Hin as (_ & Hp0 & Hp1). change (2 ^ Z.of_nat 0) with 1 in Hp1. lia. }
    rewrite (Hall pos Hp). split; [reflexivity | discriminate].
  - pose proof (in_tree_left leaves h pos Hin) as Hl.
    destruct (IH (pos * 2) Hl) as [Hleft Hne].
    assert (Hf : found leaves matched (S h) pos <> []).
    { rewrite (found_node leaves matched Hcount h pos Hin).
      intros Hc. apply app_eq_nil in Hc as [Hc _]. exact (Hne Hc). }
    split; [| exact Hf].
    cbn [node_hashes]. rewrite parent_found.
    rewrite bool_decide_eq_false_2 by exact Hf. cbn [negb].
    rewrite (found_node leaves matched Hcount h pos Hin), fmap_app, Hleft.
    f_equal.
    destruct (pos * 2 + 1 <? width (leaf_count leaves) (Z.of_nat h)) eqn:Hw; [| reflexivity].
    apply (IH (pos * 2 + 1) (in_tree_right leaves Hcount h pos Hin Hw)).
Qed.

(** X15.  When every transaction is matched, the merkle block that
    [fromMatches] builds holds the hashes of all transactions of the
    block, in their order, and all its transactions. *)
Theorem fromMatches_all_matched (block : Block) (matched : list bool) :
  1 <= leaf_count (b_txs block) <= 2 ^ 30 ->
  Forall (fun h => buf_length h = 32) (b_txs block) ->
  (forall p, 0 <= p < leaf_count (b_txs block) -> match_at matched p = true) ->
  exists mb,
    fromMatches block matched = Ok mb
    /\ hashes mb = b_txs block
    /\ txs mb = b_txs block.
Proof.
  set (leaves := b_txs block). intros Hcount Hsize Hall.
  destruct (find_height_ok (leaf_count leaves) Hcount) as (Hh & Hfind & Hrange & Hpow).
  assert (Htop : in_tree leaves (Z.to_nat Hh) 0).
  { split; [lia |]. split; lia. }
  set (st0 := {| bld_bits := []; bld_hashes := []; bld_buf := buf_zero 64 |}).
  destruct (traverse_spec leaves matched Hcount Hsize (Z.to_nat Hh) 0 st0 Htop eq_refl)
    as (_ & Hhashes & _).
  cbn [st0 bld_hashes app] in Hhashes.
  unfold fromMatches. fold leaves. rewrite Hfind. fold st0.
  eexists. split; [reflexivity |]. cbn [hashes txs]. split.
  - rewrite Hhashes.
    rewrite (proj1 (node_hashes_all leaves matched Hcount Hall _ _ Htop)).
    unfold found. rewrite (span_eq leaves Hcount _ _ Htop), (first_leaf_eq leaves Hcount _ _ Htop).
    unfold span. rewrite Z2Nat.id by lia.
    match goal with |- context [seqZ ?a ?b] =>
      assert (Hseq : seqZ a b = seqZ 0 (leaf_count leaves)) end.
    { f_equal. lia. }
    rewrite Hseq.
    rewrite filter_all.
    + apply leaves_by_position.
    + intros p Hp. apply elem_of_seqZ in Hp. apply Hall. lia.
  - rewrite filter_all.
    + apply list_eq. intros i. rewrite list_lookup_fmap, list_lookup_imap.
      destruct (leaves !! i); reflexivity.
    + intros [i x] Hix. apply elem_of_lookup_imap in Hix as (j & y & Heq & Hj).
      injection Heq as -> ->. cbn [fst]. apply Hall.
      apply lookup_lt_Some in Hj. unfold leaf_count. lia.
Qed.

End Extremes.
(** ** Merkle blocks of the five transactions *)

Section MerkleLookupExamples.
Import Merkle MerkleExamples.

#[local] Existing Instance one_megabyte_laws.

(** X12, witness: the five transactions, the second and the fifth
    matched. *)
Lemma indexOf_finds_matched_witness :
  exists mb,
    fromMatches block5 [false; true; false; false; true] = Ok mb
    /\ (verifyPartial mb).1 = true
    /\ forall h : Buffer,
         let hits :=
           filter (fun p => match_at [false; true; false; false; true] p
                            && String.eqb (to_hex (leaf (b_txs block5) p)) (to_hex h) = true)
             (seqZ 0 (leaf_count (b_txs block5))) in
         (indexOf mb (to_hex h)).1 = default (-1) (last hits)
         /\ (hasTX mb (to_hex h)).1 = negb (bool_decide (hits = []))
         /\ (indexOf mb (to_hex h)).2 = (verifyPartial mb).2.
Proof.
  apply (indexOf_finds_matched block5 [false; true; false; false; true]).
  - vm_compute. discriminate.
  - vm_compute. discriminate.
  - change (b_txs block5) with (tx_hashes 5). unfold tx_hashes.
    apply Forall_fmap, Forall_true. intros i. apply hash256_length.
  - vm_compute. reflexivity.
  - reflexivity.
Defined.

(** The fifth transaction is found at position 4, and the first, which
    is not matched, is not found. *)
Example merkle5_lookups :
  (indexOf merkle5 (to_hex (hash256 [4]))).1 = 4
  /\ (hasTX merkle5 (to_hex (hash256 [0]))).1 = false.
Proof. split; vm_compute; reflexivity. Qed.

(** X13, witness: one more hash behind the hashes of the merkle block of
    the five transactions. *)
Lemma extractTree_rejects_surplus_witness :
  extractTree (set_tree merkle5 (hashes merkle5 ++ [hash256 [9]]) (flags merkle5 ++ [])) = None.
Proof.
  apply (extractTree_rejects_surplus merkle5 [hash256 [9]] [] tree5).
  - vm_compute. reflexivity.
  - left. discriminate.
Defined.

(** X14, witness: the five transactions, none matched. *)
Lemma fromMatches_nothing_matched_witness :
  exists mb,
    fromMatches block5 [] = Ok mb
    /\ hashes mb = [merkle_root (b_txs block5)]
    /\ flags mb = [0]
    /\ txs mb = []
    /\ totalTX mb = leaf_count (b_txs block5)
    /\ extractTree mb
       = Some {| root := to_hex (merkle_root (b_txs block5));
                 t_matches := []; t_indexes := []; t_map := ∅ |}.
Proof.
  apply (fromMatches_nothing_matched block5 []).
  - vm_compute. discriminate.
  - vm_compute. discriminate.
  - change (b_txs block5) with (tx_hashes 5). unfold tx_hashes.
    apply Forall_fmap, Forall_true. intros i. apply hash256_length.
  - intros p. unfold match_at. destruct (p <? 0); reflexivity.
Defined.

(** X15, witness: the five transactions, all matched. *)
Lemma fromMatches_all_matched_witness :
  exists mb,
    fromMatches block5 [true; true; true; true; true] = Ok mb
    /\ hashes mb = b_txs block5
    /\ txs mb = b_txs block5.
Proof.
  apply (fromMatches_all_matched block5 [true; true; true; true; true]).
  - vm_compute. split; discriminate.
  - change (b_txs block5) with (tx_hashes 5). unfold tx_hashes.
    apply Forall_fmap, Forall_true. intros i. apply hash256_length.
  - intros p Hp. change (leaf_count (b_txs block5)) with 5 in Hp.
    assert (Hc : p = 0 \/ p = 1 \/ p = 2 \/ p = 3 \/ p = 4) by lia.
    destruct Hc as [-> | [-> | [-> | [-> | ->]]]]; reflexivity.
Defined.

End MerkleLookupExamples.
(** ** The handshake of a session *)

Section HandshakeFacts.
Context `{ChaChaPoly} `{SessionCrypto} `{Encoding} `{NodeBuffer}.
Import BIP151.

(** *** What the methods of a stream keep *)

Lemma same_init_refl t : same_init t t.
Proof. split; [reflexivity | tauto]. Qed.

Lemma same_init_fields t t' :
  prk t' = prk t -> k1 t' = k1 t -> k2 t' = k2 t -> sid t' = sid t -> same_init t t'.
Proof. intros Hp Ha Hb Hi. split; [exact Hp |]. unfold keyed. rewrite Hp, Ha, Hb, Hi. tauto. Qed.

Lemma shouldRekey_keeps data now : keeps_init (shouldRekey data now).
Proof.
  intros t. unfold shouldRekey, bind, get, put, ret.
  destruct ((lastRekey t + 10 <=? now) || _); cbn; apply same_init_fields; reflexivity.
Qed.

Lemma rekey_keeps : keeps_init (rekey None None).
Proof.
  intros t. unfold rekey, bind, get, put, ret, assert, throw.
  destruct (bool_decide (is_Some (prk t))); [| apply same_init_refl].
  destruct (sid t) as [i |] eqn:Hi; [| apply same_init_refl].
  destruct (k1 t) as [a |] eqn:Ha; [| apply same_init_refl].
  destruct (k2 t) as [b |] eqn:Hb; [| apply same_init_refl].
  cbn. split; [reflexivity |].
  intros (Hp & _ & _ & Hs). unfold keyed. cbn. rewrite Hi.
  split; [exact Hp |]. split; [eexists; reflexivity |]. split; eexists; reflexivity.
Qed.

Lemma rekey_keyed t : keyed t -> (rekey None None t).1 = Ok tt.
Proof.
  intros (Hp & [a Ha] & [b Hb] & [i Hi]).
  unfold rekey, bind, get, put, ret, assert, throw.
  rewrite bool_decide_eq_true_2 by exact Hp. rewrite Hi, Ha, Hb. reflexivity.
Qed.

Lemma sequence_keeps : keeps_init sequence.
Proof. intros t. unfold sequence, bind, get, put. cbn. apply same_init_fields; reflexivity. Qed.

Lemma encryptSize_keeps size : keeps_init (encryptSize size).
Proof.
  intros t. unfold encryptSize, bind, get, put, ret.
  destruct (chacha_encrypt _ _). cbn. apply same_init_fields; reflexivity.
Qed.

Lemma decryptSize_keeps data : keeps_init (decryptSize data).
Proof.
  intros t. unfold decryptSize, bind, get, put, ret.
  destruct (chacha_encrypt _ _). cbn. apply same_init_fields; reflexivity.
Qed.

Lemma encrypt_keeps data : keeps_init (encrypt data).
Proof.
  intros t. unfold encrypt, bind, get, put, ret.
  destruct (aead_encrypt _ _). cbn. apply same_init_fields; reflexivity.
Qed.

Lemma decrypt_keeps data : keeps_init (decrypt data).
Proof.
  intros t. unfold decrypt, bind, get, put, ret.
  destruct (aead_stream _ _). cbn. apply same_init_fields; reflexivity.
Qed.

Lemma auth_keeps data : keeps_init (auth data).
Proof.
  intros t. unfold auth, bind, get, put, ret.
  destruct (aead_auth _ _). cbn. apply same_init_fields; reflexivity.
Qed.

Lemma finish_keeps : keeps_init finish.
Proof.
  intros t. unfold finish, bind, get, put, ret.
  destruct (aead_finish _). cbn. apply same_init_fields; reflexivity.
Qed.

Lemma verify_keeps t0 : keeps_init (verify t0).
Proof.
  intros t. unfold verify, bind, get, ret, throw.
  destruct (tag t); cbn; apply same_init_fields; reflexivity.
Qed.

Lemma init_keyed peer now t : keyed (init peer now t).2 /\ (init peer now t).1 = Ok tt.
Proof.
  unfold init, bind, get, put. cbn. split; [| reflexivity].
  repeat split; eexists; reflexivity.
Qed.

Lemma on_input_init peer now s :
  on_input (init peer now) s = (Ok tt, set_input (init peer now (input s)).2 s).
Proof. reflexivity. Qed.

(** *** What the methods of a session keep *)

Lemma same_handshake_refl s : same_handshake s s.
Proof.
  unfold same_handshake. repeat (split; [reflexivity |]). split; apply same_init_refl.
Qed.

Lemma same_init_trans t1 t2 t3 : same_init t1 t2 -> same_init t2 t3 -> same_init t1 t3.
Proof. intros [A1 A2] [B1 B2]. split; [congruence | tauto]. Qed.

Lemma same_handshake_trans s1 s2 s3 :
  same_handshake s1 s2 -> same_handshake s2 s3 -> same_handshake s1 s3.
Proof.
  intros (A1 & A2 & A3 & A4 & A5 & A6 & A7 & A8)
         (B1 & B2 & B3 & B4 & B5 & B6 & B7 & B8).
  unfold same_handshake. repeat (split; [congruence |]).
  split; eapply same_init_trans; eassumption.
Qed.

Lemma keeps_ret {A} (a : A) : keeps_handshake (ret a).
Proof. intros s. apply same_handshake_refl. Qed.

Lemma keeps_throw {A} e : keeps_handshake (@throw Session A e).
Proof. intros s. apply same_handshake_refl. Qed.

Lemma keeps_assert c e : keeps_handshake (@assert Session c e).
Proof. intros s. destruct c; apply same_handshake_refl. Qed.

Lemma keeps_bind {A B} (m : M Session A) (k : A -> M Session B) :
  keeps_handshake m -> (forall a, keeps_handshake (k a)) -> keeps_handshake (bind m k).
Proof.
  intros Hm Hk s. unfold bind. specialize (Hm s).
  destruct (m s) as [[a | e] s1]; cbn [snd] in *; [| exact Hm].
  eapply same_handshake_trans; [exact Hm | apply Hk].
Qed.

(** A method that reads the session first: [let! s := get in k s]. *)
Lemma keeps_get {A} (k : Session -> M Session A) :
  (forall s, same_handshake s (k s s).2) -> keeps_handshake (bind get k).
Proof. intros Hk s. exact (Hk s). Qed.

Lemma keeps_on_input {A} (m : M BIP151Stream A) :
  keeps_init m -> keeps_handshake (on_input m).
Proof.
  intros Hm s. unfold on_input. specialize (Hm (input s)).
  destruct (m (input s)) as [r i]. cbn [snd] in *.
  unfold same_handshake. cbn. repeat (split; [reflexivity |]).
  split; [exact Hm | apply same_init_refl].
Qed.

Lemma keeps_on_output {A} (m : M BIP151Stream A) :
  keeps_init m -> keeps_handshake (on_output m).
Proof.
  intros Hm s. unfold on_output. specialize (Hm (output s)).
  destruct (m (output s)) as [r o]. cbn [snd] in *.
  unfold same_handshake. cbn. repeat (split; [reflexivity |]).
  split; [apply same_init_refl | exact Hm].
Qed.

Lemma keeps_emit e : is_handshake e = false -> keeps_handshake (emit e).
Proof.
  intros He s. unfold emit, same_handshake. cbn.
  do 5 (split; [reflexivity |]). split; [| split; apply same_init_refl].
  rewrite filter_app, filter_cons, filter_nil.
  rewrite decide_False by (rewrite He; discriminate). apply app_nil_r.
Qed.

Lemma keeps_emit_all l :
  Forall (fun e => is_handshake e = false) l -> keeps_handshake (emit_all l).
Proof.
  induction 1 as [| e l He _ IH]; cbn [emit_all]; [apply keeps_ret |].
  apply keeps_bind; [apply keeps_emit; exact He | intros _; exact IH].
Qed.

Lemma parse_messages_quiet fuel : forall br,
  Forall (fun e => is_handshake e = false) (parse_messages fuel br).
Proof.
  induction fuel as [| fuel IH]; intros br; cbn [parse_messages]; [constructor |].
  destruct (Reader.left br) as [[n | e] br0]; [| repeat constructor].
  destruct (n =? 0); [constructor |].
  match goal with |- context [match ?x with _ => _ end] => destruct x as [[[cmd body] | e] br'] end.
  - constructor; [reflexivity | apply IH].
  - repeat constructor.
Qed.

Lemma set_queue_same p t s : same_handshake s (set_queue p t s).
Proof. apply (same_handshake_refl s). Qed.

Lemma set_frame_same h w s : same_handshake s (set_frame h w s).
Proof. apply (same_handshake_refl s). Qed.

Lemma maybeRekey_keeps data now : keeps_handshake (maybeRekey data now).
Proof.
  unfold maybeRekey. apply keeps_bind; [apply keeps_on_output, shouldRekey_keeps |].
  intros should. destruct (negb should); [apply keeps_ret |].
  apply keeps_bind; [apply keeps_emit; reflexivity |].
  intros _. apply keeps_on_output, rekey_keeps.
Qed.

Lemma packet_keeps cmd body now : keeps_handshake (packet cmd body now).
Proof.
  unfold packet.
  match goal with |- context [match ?x with _ => _ end] => destruct x as [[payload | e] w] end;
    [| apply keeps_throw].
  apply keeps_bind; [apply maybeRekey_keeps | intros _].
  apply keeps_bind; [apply keeps_on_output, encryptSize_keeps | intros size].
  apply keeps_bind; [apply keeps_on_output, encrypt_keeps | intros ct].
  apply keeps_bind; [apply keeps_on_output, finish_keeps | intros t].
  apply keeps_bind; [apply keeps_on_output, sequence_keeps | intros _].
  apply keeps_ret.
Qed.

Lemma read_keeps size : keeps_handshake (read size).
Proof.
  unfold read. apply keeps_get. intros s.
  unfold bind at 1. destruct (size <=? total s); cbn [assert ret throw];
    [| apply same_handshake_refl].
  destruct (size =? 0); [apply same_handshake_refl |].
  destruct (pending s) as [| p rest]; [apply same_handshake_refl |].
  destruct (size <? buf_length p); [apply set_queue_same |].
  destruct (buf_length p =? size); [apply set_queue_same |].
  destruct (read_loop (p :: rest) [] size) as [[chunk pend] | e]; [| apply same_handshake_refl].
  unfold bind, assert. destruct (buf_length chunk =? size); cbn;
    [apply set_queue_same | apply same_handshake_refl].
Qed.

Lemma parse_keeps data : keeps_handshake (parse data).
Proof.
  unfold parse. apply keeps_get. intros s.
  destruct (negb (hasSize s)).
  - apply keeps_bind; [apply keeps_on_input, decryptSize_keeps | intros size].
    destruct ((size <? 6) || (MAX_MESSAGE * 3 <? size)).
    + apply keeps_bind; [intros s'; apply set_frame_same | intros _].
      apply keeps_emit. reflexivity.
    + intros s'. apply set_frame_same.
  - apply keeps_bind; [intros s'; apply set_frame_same | intros _].
    apply keeps_bind; [apply keeps_on_input, auth_keeps | intros _].
    apply keeps_bind; [apply keeps_on_input, finish_keeps | intros _].
    apply keeps_bind; [apply keeps_on_input, verify_keeps | intros good].
    destruct (negb good).
    + apply keeps_bind; [apply keeps_on_input, sequence_keeps | intros _].
      apply keeps_emit. reflexivity.
    + apply keeps_bind; [apply keeps_on_input, decrypt_keeps | intros payload].
      apply keeps_bind; [apply keeps_on_input, sequence_keeps | intros _].
      apply keeps_emit_all, parse_messages_quiet.
Qed.

Lemma feed_loop_keeps fuel : keeps_handshake (feed_loop fuel).
Proof.
  induction fuel as [| fuel IH]; intros s; cbn [feed_loop].
  - destruct (waiting s <=? total s); apply same_handshake_refl.
  - destruct (waiting s <=? total s); [| apply same_handshake_refl].
    apply keeps_bind; [apply read_keeps | intros chunk].
    apply keeps_bind; [apply parse_keeps | intros _]. exact IH.
Qed.

Lemma feed_keeps data : keeps_handshake (feed data).
Proof.
  unfold feed. apply keeps_get. intros s.
  unfold bind at 1. cbn [put].
  eapply same_handshake_trans; [apply (set_queue_same (pending s ++ [data])
                                         (total s + buf_length data) s) |].
  apply keeps_get. intros s'. apply feed_loop_keeps.
Qed.

(** The calls that are no part of the handshake leave it as it is. *)
Lemma same_handshake_ok s s' : same_handshake s s' -> handshake_ok s -> handshake_ok s'.
Proof.
  intros (A1 & A2 & A3 & A4 & A5 & A6 & [A7 A7'] & [A8 A8'])
         (B1 & B2 & B3 & B4 & B5 & B6 & B7 & B8).
  unfold handshake_ok, isReady in *. rewrite A1, A2, A3, A4, A5, A6, A7, A8.
  split; [exact B1 |]. split; [exact B2 |]. split; [exact B3 |].
  split; [intros Hx; apply A8', B4, Hx |]. split; [intros Hx; apply A7', B5, Hx |].
  split; [exact B6 |]. split; [exact B7 | exact B8].
Qed.

Lemma check_ready_spec s :
  check_ready s
  = if isReady s
    then (Ok tt, set_emitted (emitted s ++ [EvHandshake])
                   (set_flags (initReceived s) (ackReceived s) (initSent s) (ackSent s) true s))
    else (Ok tt, s).
Proof. unfold check_ready, bind, get, put, emit, ret. destruct (isReady s); reflexivity. Qed.

Lemma count_snoc_handshake l :
  length (filter (fun e => is_handshake e = true) (l ++ [EvHandshake]))
  = S (length (filter (fun e => is_handshake e = true) l)).
Proof.
  rewrite filter_app, filter_cons, filter_nil, decide_True by reflexivity.
  rewrite length_app. cbn [length]. lia.
Qed.

Lemma bind_done_state {S A} (m : M S A) (s : S) :
  (bind m (fun _ => ret tt) s).2 = (m s).2.
Proof. unfold bind, ret. destruct (m s) as [[a | e] s']; reflexivity. Qed.

Ltac hs_solve :=
  unfold handshake_ok, isReady in *; cbn in *;
  repeat match goal with H : _ /\ _ |- _ => destruct H end;
  repeat (match goal with
          | E : _ = true |- _ => progress (rewrite E in * )
          | E : _ = false |- _ => progress (rewrite E in * )
          end; cbn in *; rewrite ?andb_false_r in * );
  rewrite ?count_snoc_handshake in *;
  intuition (try congruence; try discriminate; try lia;
             try (unfold keyed; repeat split; eexists; reflexivity)).

(** Every call keeps the handshake in order. *)
Lemma sexec_handshake_ok c s : handshake_ok s -> handshake_ok (sexec c s).2.
Proof.
  intros Hok.
  destruct c as [| | | peer c now | peer now | data now | cmd body now | data];
    cbn [sexec]; rewrite ?bind_done_state.
  - (* toEncinit *)
    unfold toEncinit, bind, get, put, ret, assert, throw, on_input, getPublicKey.
    destruct (initSent s) eqn:His; cbn [negb snd fst]; [exact Hok |].
    destruct (ackReceived s) eqn:Har; hs_solve.
  - (* toEncack *)
    unfold toEncack. rewrite bind_get.
    destruct (bool_decide (is_Some (prk (output s)))) eqn:Hprk;
      [| unfold bind, assert, throw; cbn; exact Hok].
    apply bool_decide_eq_true in Hprk.
    destruct (ackSent s) eqn:Has;
      [unfold bind, assert, throw; cbn; exact Hok |].
    unfold bind at 1 2 3 4. cbn [assert ret negb put].
    unfold bind. rewrite check_ready_spec. unfold on_output, getPublicKey, bind, get, ret.
    assert (Hir : initReceived s = true) by (apply Hok, Hprk).
    unfold isReady. cbn [initSent ackReceived initReceived ackSent set_flags].
    destruct (initSent s) eqn:His, (ackReceived s) eqn:Har; rewrite ?Hir; cbn [andb];
      hs_solve.
  - (* toRekey *)
    unfold toRekey, bind, get, ret, assert, throw.
    destruct (handshake s); cbn; exact Hok.
  - (* encinit *)
    unfold encinit. rewrite bind_get.
    destruct (c =? cipher (output s));
      [| unfold bind, assert, throw; cbn; exact Hok].
    destruct (initReceived s) eqn:Hir;
      [unfold bind, assert, throw; cbn; exact Hok |].
    unfold bind. cbn [assert ret negb put]. unfold on_output.
    pose proof (init_keyed peer now (output s)) as [Hk _].
    destruct (init peer now (output s)) as [r o]. cbn [snd] in *.
    destruct Hk as (K1 & K2 & K3 & K4).
    destruct (ackSent s) eqn:Has; unfold keyed in *; hs_solve.
  - (* encack *)
    unfold encack. rewrite bind_get.
    destruct (initSent s) eqn:His;
      [| unfold bind, assert, throw; cbn; exact Hok].
    cbn [assert]. rewrite bind_ret_l.
    destruct (bool_decide (peer = HD.ZERO_KEY)).
    + apply (same_handshake_ok s); [| exact Hok].
      apply keeps_bind; [apply keeps_assert | intros _].
      apply keeps_on_input, rekey_keeps.
    + destruct (ackReceived s) eqn:Har;
        [unfold bind, assert, throw; cbn; exact Hok |].
      cbn [negb]. rewrite bind_assert_true by reflexivity. rewrite bind_put.
      rewrite (bind_ok _ _ _ tt _ (on_input_init peer now _)).
      rewrite check_ready_spec.
      pose proof (init_keyed peer now (input s)) as [Hk _].
      cbn [input set_flags] in *.
      generalize dependent (init peer now (input s)).2. intros i Hk.
      unfold isReady. cbn [initSent ackReceived initReceived ackSent set_flags set_input].
      destruct (initReceived s) eqn:Hir, (ackSent s) eqn:Has; cbn [andb]; hs_solve.
  - apply (same_handshake_ok s); [apply maybeRekey_keeps | exact Hok].
  - apply (same_handshake_ok s); [apply packet_keeps | exact Hok].
  - apply (same_handshake_ok s); [apply feed_keeps | exact Hok].
Qed.

Lemma new_handshake_ok kin kout : handshake_ok (new kin kout).
Proof.
  unfold handshake_ok, isReady, keyed. cbn.
  repeat split; try discriminate; intros [x Hx]; discriminate Hx.
Qed.

Lemma sexec_all_handshake_ok calls : forall s,
  handshake_ok s -> handshake_ok (sexec_all calls s).
Proof.
  induction calls as [| c calls IH]; intros s Hok; [exact Hok |].
  cbn [sexec_all]. apply IH, sexec_handshake_ok, Hok.
Qed.

(** X16.  The handshake of a session, through every sequence of calls
    of [toEncinit], [toEncack], [toRekey], [encinit], [encack],
    [maybeRekey], [packet] and [feed] on a new session, whether they
    return or throw: [handshake] is set exactly when [isReady] holds,
    ['handshake'] has been emitted once when it is set and never
    before, an acknowledgement has been sent or received only behind
    its [encinit], and a stream has a pseudo-random key exactly when
    its [encinit] or [encack] has arrived, and then all its keys.  So
    once [handshake] is set, an [encack] with the zero key rekeys the
    input without an error, [toRekey] returns the zero key, and
    [maybeRekey] does not throw. *)
Theorem handshake_kept (kin kout : Buffer) (calls : list scall) :
  let s := sexec_all calls (new kin kout) in
  handshake_ok s
  /\ (handshake s = true ->
      (forall now, (encack HD.ZERO_KEY now s).1 = Ok tt)
      /\ (toRekey s).1 = Ok HD.ZERO_KEY
      /\ (forall data now, (maybeRekey data now s).1 = Ok tt)).
Proof.
  intros s.
  assert (Hok : handshake_ok s) by apply sexec_all_handshake_ok, new_handshake_ok.
  split; [exact Hok |]. intros Hhs.
  destruct Hok as (B1 & B2 & B3 & B4 & B5 & B6 & B7 & B8).
  rewrite Hhs in B1. symmetry in B1. unfold isReady in B1.
  apply andb_true_iff in B1 as [B1 Has]. apply andb_true_iff in B1 as [B1 Hir].
  apply andb_true_iff in B1 as [His Har].
  split; [| split].
  - intros now. unfold encack. rewrite bind_get, His. cbn [assert]. rewrite bind_ret_l.
    rewrite bool_decide_eq_true_2 by reflexivity. rewrite Hhs. cbn [assert].
    rewrite bind_ret_l. unfold on_input.
    pose proof (rekey_keyed (input s) (B5 Har)) as Hr.
    destruct (rekey None None (input s)) as [r i]. cbn [fst] in *. exact Hr.
  - unfold toRekey. rewrite bind_get, Hhs. reflexivity.
  - intros data now. unfold maybeRekey, bind, on_output.
    pose proof (shouldRekey_keeps data now (output s)) as [Hp Hk].
    assert (Hs : exists b, (shouldRekey data now (output s)).1 = Ok b).
    { unfold shouldRekey, bind, get, put, ret.
      destruct ((lastRekey (output s) + 10 <=? now) || _); eexists; reflexivity. }
    destruct Hs as [b Hb].
    destruct (shouldRekey data now (output s)) as [r o]. cbn [fst snd] in *. subst r.
    destruct b; cbn [negb]; [| reflexivity].
    unfold emit. cbn [output set_emitted set_output].
    pose proof (rekey_keyed o (Hk (B4 Hir))) as Hr.
    destruct (rekey None None o) as [r o']. cbn [fst] in *. exact Hr.
Qed.

End HandshakeFacts.
(** ** A handshake on the stand-in ciphers *)

Section HandshakeExamples.
Import Examples TransportExamples BIP151.

(** X16, witness: a session that sends its [encinit], receives the
    [encinit] of its peer, acknowledges it and receives the
    acknowledgement of its own; the handshake is complete. *)
Lemma handshake_kept_witness :
  handshake (sexec_all [StoEncinit; Sencinit (2 :: buf_zero 32) 0 0; StoEncack;
                        Sencack (2 :: buf_zero 32) 0]
               (new (buf_zero 32) (buf_zero 32))) = true
  /\ let s := sexec_all [StoEncinit; Sencinit (2 :: buf_zero 32) 0 0; StoEncack;
                         Sencack (2 :: buf_zero 32) 0]
                (new (buf_zero 32) (buf_zero 32)) in
     handshake_ok s
     /\ (handshake s = true ->
         (forall now, (encack HD.ZERO_KEY now s).1 = Ok tt)
         /\ (toRekey s).1 = Ok HD.ZERO_KEY
         /\ (forall data now, (maybeRekey data now s).1 = Ok tt)).
Proof.
  split; [vm_compute; reflexivity |].
  apply (handshake_kept (buf_zero 32) (buf_zero 32)
           [StoEncinit; Sencinit (2 :: buf_zero 32) 0 0; StoEncack;
            Sencack (2 :: buf_zero 32) 0]).
Defined.

(** An acknowledgement that was not asked for is refused, and so is a
    second [encinit]. *)
Example handshake_out_of_order :
  (encack (2 :: buf_zero 32) 0 (new (buf_zero 32) (buf_zero 32))).1 = Throw "Unsolicited ACK."
  /\ (toEncack (new (buf_zero 32) (buf_zero 32))).1 = Throw "Cannot ack before init."
  /\ (sexec (Sencinit (2 :: buf_zero 32) 0 0)
        (sexec (Sencinit (2 :: buf_zero 32) 0 0) (new (buf_zero 32) (buf_zero 32))).2).1
     = Throw "Already initialized.".
Proof. repeat split; vm_compute; reflexivity. Qed.

End HandshakeExamples.
(** ** The handshake of two sessions *)

Section Agreement.
Context `{ChaChaPoly} `{SessionCrypto} `{!KeyAgreement} `{Encoding} `{NodeBuffer}.
Import BIP151.

Lemma check_ready_ok s : check_ready s = (Ok tt, (check_ready s).2).
Proof. rewrite check_ready_spec. destruct (isReady s); reflexivity. Qed.

Lemma toEncinit_new s :
  initSent s = false ->
  toEncinit s
  = (Ok (publicKeyCreate (privateKey (input s)), cipher (input s)),
     set_flags (initReceived s) (ackReceived s) true (ackSent s) (handshake s) s).
Proof.
  intros Hs. unfold toEncinit. rewrite bind_get.
  rewrite bind_assert_true by (rewrite Hs; reflexivity). reflexivity.
Qed.

Lemma encinit_new peer c now s :
  c = cipher (output s) -> initReceived s = false ->
  encinit peer c now s
  = (Ok tt, set_output (init peer now (output s)).2
              (set_flags true (ackReceived s) (initSent s) (ackSent s) (handshake s) s)).
Proof.
  intros -> Hr. unfold encinit. rewrite bind_get, Z.eqb_refl.
  rewrite bind_assert_true by reflexivity.
  rewrite bind_assert_true by (rewrite Hr; reflexivity). reflexivity.
Qed.

Lemma toEncack_new s :
  is_Some (prk (output s)) -> ackSent s = false ->
  toEncack s
  = on_output getPublicKey
      (check_ready (set_flags (initReceived s) (ackReceived s) (initSent s) true
                      (handshake s) s)).2.
Proof.
  intros Hp Ha. unfold toEncack. rewrite bind_get.
  rewrite bind_assert_true by (apply bool_decide_eq_true_2, Hp).
  rewrite bind_assert_true by (rewrite Ha; reflexivity). rewrite bind_put.
  rewrite (bind_ok _ _ _ tt _ (check_ready_ok _)). reflexivity.
Qed.

Lemma encack_new peer now s :
  peer <> HD.ZERO_KEY -> initSent s = true -> ackReceived s = false ->
  encack peer now s
  = (Ok tt,
     (check_ready (set_input (init peer now (input s)).2
                     (set_flags (initReceived s) true (initSent s) (ackSent s)
                        (handshake s) s))).2).
Proof.
  intros Hz Hs Ha. unfold encack. rewrite bind_get.
  rewrite bind_assert_true by exact Hs.
  rewrite bool_decide_eq_false_2 by exact Hz.
  rewrite bind_assert_true by (rewrite Ha; reflexivity). rewrite bind_put.
  rewrite (bind_ok _ _ _ tt _ (on_input_init peer now _)).
  apply check_ready_ok.
Qed.

(** Two new streams that [init] gives the same secret are in step. *)
Lemma init_linked peer_o key_o peer_i key_i now now' :
  ecdh peer_o key_o = ecdh peer_i key_i ->
  linked (init peer_o now (new_stream key_o)).2 (init peer_i now' (new_stream key_i)).2.
Proof.
  intros He. unfold init, bind, get, put, linked, keyed. cbn. rewrite He.
  repeat split; eexists; reflexivity.
Qed.

(** X17.  The handshake of two new sessions, each message carried to
    the other in turn, returns; both sessions have [handshake] set and
    have emitted ['handshake'] once, and the output stream of each is in
    step with the input stream of the other: the same two keys and
    session ID, ciphers in the same state, sequence number 0.  The key
    agreement is assumed to give both sides the same secret, and no
    public key is the zero key. *)
Theorem exchange_links (ka_in ka_out kb_in kb_out : Buffer) (now : Z) :
  exists a b,
    exchange now (new ka_in ka_out, new kb_in kb_out) = (Ok tt, (a, b))
    /\ handshake a = true /\ handshake b = true
    /\ emitted a = [EvHandshake] /\ emitted b = [EvHandshake]
    /\ linked (output a) (input b)
    /\ linked (output b) (input a)
    /\ seq (output a) = 0 /\ seq (output b) = 0
    /\ at_frame_start a /\ at_frame_start b.
Proof.
  unfold exchange.
  unfold bind at 1, on_fst at 1. cbn [fst snd]. rewrite toEncinit_new by reflexivity.
  cbn [fst snd].
  unfold bind at 1, on_snd at 1. cbn [fst snd].
  rewrite encinit_new by reflexivity.
  unfold bind at 1, on_snd at 1. cbn [fst snd].
  rewrite toEncack_new; [| cbn; eexists; reflexivity | reflexivity].
  rewrite check_ready_spec. cbn [isReady initSent set_output set_flags new andb fst snd].
  unfold on_output at 1, getPublicKey at 1. rewrite bind_get. cbn [ret fst snd].
  unfold bind at 1, on_fst at 1. cbn [fst snd].
  rewrite encack_new; [| apply publicKey_not_zero | reflexivity | reflexivity].
  rewrite check_ready_spec.
  cbn [isReady initSent ackReceived initReceived set_input set_output set_flags new andb fst snd].
  unfold bind at 1, on_snd at 1. cbn [fst snd]. rewrite toEncinit_new by reflexivity.
  cbn [fst snd].
  unfold bind at 1, on_fst at 1. cbn [fst snd].
  rewrite encinit_new by reflexivity.
  unfold bind at 1, on_fst at 1. cbn [fst snd].
  rewrite toEncack_new; [| cbn; eexists; reflexivity | reflexivity].
  rewrite check_ready_spec.
  cbn [isReady initSent ackReceived initReceived ackSent set_input set_output set_flags new
       andb fst snd].
  unfold on_output at 1, getPublicKey at 1. rewrite bind_get. cbn [ret fst snd].
  unfold on_snd. cbn [fst snd].
  rewrite encack_new; [| apply publicKey_not_zero | reflexivity | reflexivity].
  rewrite check_ready_spec.
  cbn [isReady initSent ackReceived initReceived ackSent set_input set_output set_flags new
       andb fst snd].
  eexists _, _. split; [reflexivity |].
  cbn [handshake emitted output input set_emitted set_flags set_input set_output new app
       pending total hasSize waiting].
  split; [reflexivity |]. split; [reflexivity |]. split; [reflexivity |].
  split; [reflexivity |].
  split; [apply init_linked; symmetry; apply ecdh_agrees |].
  split; [apply init_linked; apply ecdh_agrees |].
  split; [reflexivity |]. split; [reflexivity |].
  split; repeat split; reflexivity.
Qed.

End Agreement.
(** ** A packet, sent and received *)

Lemma overlay_zero (before bytes : Buffer) n :
  buf_length bytes <= n ->
  Writer.overlay (before ++ buf_zero n) (buf_length before) bytes
  = before ++ bytes ++ buf_zero (n - buf_length bytes).
Proof.
  intros Hn. pose proof (buf_length_nonneg bytes) as Hb.
  rewrite overlay_behind by (rewrite buf_zero_length; lia).
  rewrite <- app_assoc. do 2 f_equal.
  unfold buf_zero. rewrite drop_replicate. f_equal. lia.
Qed.

Lemma overlay_three (a b c : Buffer) :
  Writer.overlay
    (Writer.overlay
       (Writer.overlay (buf_zero (buf_length a + buf_length b + buf_length c)) 0 a)
       (buf_length a) b)
    (buf_length a + buf_length b) c
  = a ++ b ++ c.
Proof.
  pose proof (buf_length_nonneg a) as Ha. pose proof (buf_length_nonneg b) as Hb.
  pose proof (buf_length_nonneg c) as Hc.
  pose proof (overlay_zero [] a (buf_length a + buf_length b + buf_length c) ltac:(lia)) as H1.
  cbn [app] in H1. change (buf_length []) with 0 in H1. rewrite H1.
  replace (a ++ buf_zero (buf_length a + buf_length b + buf_length c - buf_length a))
    with (a ++ buf_zero (buf_length b + buf_length c)) by (do 2 f_equal; lia).
  rewrite overlay_zero by lia.
  replace (a ++ b ++ buf_zero (buf_length b + buf_length c - buf_length b))
    with ((a ++ b) ++ buf_zero (buf_length c)) by (rewrite <- app_assoc; do 3 f_equal; lia).
  replace (buf_length a + buf_length b) with (buf_length (a ++ b))
    by (unfold buf_length; rewrite length_app; lia).
  rewrite overlay_zero by lia. rewrite Z.sub_diag. change (buf_zero 0) with (@nil Z).
  rewrite app_nil_r, <- app_assoc. reflexivity.
Qed.

Lemma Reader_readVarint_at `{Encoding} `{NodeBuffer} r value size :
  enc_readVarint (Reader.data r) (Reader.offset r) = Ok (value, size) ->
  Reader.readVarint r = (Ok value, Reader.set_offset (Reader.offset r + size) r).
Proof. apply readVarint_ok. Qed.

Section Delivery.
Context `{ChaChaPoly} `{!ChaChaPolyLaws} `{SessionCrypto}.
Context `{Encoding} `{!EncodingLaws} `{!VarintRoundTrip} `{NodeBuffer} `{!NodeBufferLaws}.
Import BIP151.

(** The bytes of a message: the command with its length, and the body
    with its length. *)
Lemma message_rendered cmd body :
  buf_length (buf_encode cmd "ascii") = buf_byteLength cmd "ascii" ->
  exists w,
    bind (Writer.exec_all
            [ Writer.CwriteVarString (Writer.AStr cmd) "ascii";
              Writer.CwriteU32 (buf_length body);
              Writer.CwriteBytes body ])
         (fun _ => Writer.render false) Writer.new
    = (Ok (enc_writeVarint (buf_length (buf_encode cmd "ascii")) ++ buf_encode cmd "ascii"
           ++ le_bytes 4 (buf_length body) ++ body), w).
Proof.
  intros Hfull.
  set (calls := [ Writer.CwriteVarString (Writer.AStr cmd) "ascii";
                  Writer.CwriteU32 (buf_length body); Writer.CwriteBytes body ]).
  assert (Hok : Forall (fun c => Writer.call_ok c /\ Wire.is_Cseek c = false) calls).
  { unfold calls. repeat constructor. exact Hfull. }
  assert (He : exists w, Writer.exec_all calls Writer.new = (Ok tt, w)).
  { unfold calls. cbn [Writer.exec_all Writer.exec].
    unfold Writer.writeVarString, Writer.writeU32, Writer.writeBytes, bind,
      Writer.add_written, Writer.push, ret. cbn.
    destruct (String.eqb cmd ""); cbn; destruct (buf_length body =? 0); eexists; reflexivity. }
  destruct He as [w He].
  eexists. unfold bind. rewrite He, (render_wire _ w false Hok He).
  unfold calls. cbn [Wire.wire Wire.call_bytes Wire.str_bytes app].
  rewrite <- !app_assoc. reflexivity.
Qed.

(** The methods of a stream, by what they return and leave. *)
Lemma shouldRekey_not_due data now t :
  now < lastRekey t + 10 -> processed t + buf_length data < HIGH_WATERMARK ->
  shouldRekey data now t
  = (Ok false, set_clock (processed t + buf_length data) (lastRekey t) t).
Proof.
  intros Hnow Hmark. unfold shouldRekey. rewrite bind_get.
  assert ((lastRekey t + 10 <=? now) = false) as -> by lia.
  assert ((HIGH_WATERMARK <=? processed t + buf_length data) = false) as -> by lia.
  reflexivity.
Qed.

Lemma encryptSize_spec size t :
  encryptSize size t
  = (Ok (chacha_encrypt (le_bytes 4 size) (chacha t)).1,
     set_ciphers (chacha_encrypt (le_bytes 4 size) (chacha t)).2 (aead t) t).
Proof.
  unfold encryptSize. rewrite bind_get. destruct (chacha_encrypt _ _). reflexivity.
Qed.

Lemma decryptSize_spec data t :
  decryptSize data t
  = (Ok (readUInt32LE (chacha_encrypt data (chacha t)).1 0),
     set_ciphers (chacha_encrypt data (chacha t)).2 (aead t) t).
Proof.
  unfold decryptSize. rewrite bind_get. destruct (chacha_encrypt _ _). reflexivity.
Qed.

Lemma encrypt_spec data t :
  encrypt data t
  = (Ok (aead_encrypt data (aead t)).1,
     set_ciphers (chacha t) (aead_encrypt data (aead t)).2 t).
Proof. unfold encrypt. rewrite bind_get. destruct (aead_encrypt _ _). reflexivity. Qed.

Lemma decrypt_spec data t :
  decrypt data t
  = (Ok (aead_stream data (aead t)).1,
     set_ciphers (chacha t) (aead_stream data (aead t)).2 t).
Proof. unfold decrypt. rewrite bind_get. destruct (aead_stream _ _). reflexivity. Qed.

Lemma auth_spec data t :
  auth data t
  = (Ok (aead_auth data (aead t)).1, set_ciphers (chacha t) (aead_auth data (aead t)).2 t).
Proof. unfold auth. rewrite bind_get. destruct (aead_auth _ _). reflexivity. Qed.

Lemma finish_spec t :
  finish t
  = (Ok (aead_finish (aead t)).1,
     set_tag (Some (aead_finish (aead t)).1)
       (set_ciphers (chacha t) (aead_finish (aead t)).2 t)).
Proof. unfold finish. rewrite bind_get. destruct (aead_finish _). reflexivity. Qed.

Lemma sequence_spec t :
  sequence t
  = (Ok tt,
     set_ciphers
       (chacha_init None (Some (update_iv (next_seq (seq t)) (iv t))) (chacha t))
       (aead_init None (Some (update_iv (next_seq (seq t)) (iv t))) (aead t))
       (set_seq (next_seq (seq t)) (update_iv (next_seq (seq t)) (iv t)) t)).
Proof. reflexivity. Qed.

Lemma on_output_ok {A} (m : M BIP151Stream A) s a o :
  m (output s) = (Ok a, o) -> on_output m s = (Ok a, set_output o s).
Proof. unfold on_output. intros ->. reflexivity. Qed.

Lemma on_input_ok {A} (m : M BIP151Stream A) s a i :
  m (input s) = (Ok a, i) -> on_input m s = (Ok a, set_input i s).
Proof. unfold on_input. intros ->. reflexivity. Qed.

(** What [packet] returns and leaves when no rekey is due: the size,
    the message and the tag, each as its cipher gives it, and the
    output stream at the next sequence number. *)
Lemma packet_sent s cmd body now :
  buf_length (buf_encode cmd "ascii") = buf_byteLength cmd "ascii" ->
  let payload := enc_writeVarint (buf_length (buf_encode cmd "ascii"))
                 ++ buf_encode cmd "ascii" ++ le_bytes 4 (buf_length body) ++ body in
  let n := buf_length payload in
  now < lastRekey (output s) + 10 ->
  processed (output s) + (4 + n + 16) < HIGH_WATERMARK ->
  let o := output s in
  let sz := chacha_encrypt (le_bytes 4 n) (chacha o) in
  let ct := aead_encrypt payload (aead o) in
  let tg := aead_finish ct.2 in
  let v := update_iv (next_seq (seq o)) (iv o) in
  packet cmd body now s
  = (Ok (sz.1 ++ ct.1 ++ tg.1),
     set_output
       {| cipher := cipher o; privateKey := privateKey o; publicKey := publicKey o;
          secret := secret o; prk := prk o; k1 := k1 o; k2 := k2 o; sid := sid o;
          chacha := chacha_init None (Some v) sz.2;
          aead := aead_init None (Some v) tg.2;
          tag := Some tg.1; seq := next_seq (seq o); iv := v;
          processed := processed o + (4 + n + 16); lastRekey := lastRekey o |} s).
Proof.
  intros Hfull payload n Hnow Hmark o sz ct tg v.
  destruct (message_rendered cmd body Hfull) as [w Hw]. fold payload in Hw.
  pose proof (buf_length_nonneg payload) as Hn. fold n in Hn.
  unfold packet. rewrite Hw. fold n.
  assert (Hlen : buf_length (buf_zero (4 + n + 16)) = 4 + n + 16).
  { rewrite buf_zero_length; lia. }
  unfold maybeRekey.
  rewrite (bind_ok _ _ _ tt
             (set_output (set_clock (processed o + (4 + n + 16)) (lastRekey o) o) s)).
  2: { erewrite bind_ok;
         [| apply on_output_ok, shouldRekey_not_due; rewrite ?Hlen; assumption].
       rewrite Hlen. reflexivity. }
  erewrite bind_ok; [| apply on_output_ok, encryptSize_spec].
  erewrite bind_ok; [| apply on_output_ok, encrypt_spec].
  erewrite bind_ok; [| apply on_output_ok, finish_spec].
  erewrite bind_ok; [| apply on_output_ok, sequence_spec].
  cbn [output set_output set_ciphers set_tag set_seq set_clock chacha aead seq iv
       cipher privateKey publicKey secret prk k1 k2 sid tag processed lastRekey].
  fold o. fold sz. fold ct. fold tg. fold v.
  unfold ret. f_equal.
  - f_equal.
    assert (Hs : buf_length sz.1 = 4).
    { unfold sz. rewrite chacha_encrypt_length, buf_le_bytes. reflexivity. }
    assert (Hc : buf_length ct.1 = n) by (unfold ct; apply aead_encrypt_length).
    assert (Ht : buf_length tg.1 = 16) by apply aead_finish_length.
    rewrite <- (overlay_three sz.1 ct.1 tg.1). rewrite Hs, Hc, Ht. reflexivity.
Qed.

(** The loop of [parse] over the bytes of one message. *)
Lemma parse_messages_one cmd body fuel :
  buf_toString "ascii" (buf_encode cmd "ascii") = cmd ->
  buf_length (buf_encode cmd "ascii") < 2 ^ 32 ->
  buf_length body < 2 ^ 32 ->
  let payload := enc_writeVarint (buf_length (buf_encode cmd "ascii"))
                 ++ buf_encode cmd "ascii" ++ le_bytes 4 (buf_length body) ++ body in
  parse_messages (S (S fuel)) (Reader.new payload false) = [EvPacket cmd body].
Proof.
  intros Hdec Hc Hb payload.
  set (c := buf_encode cmd "ascii") in *.
  set (vi := enc_writeVarint (buf_length c)) in *.
  pose proof (buf_length_nonneg c) as Hc0. pose proof (buf_length_nonneg body) as Hb0.
  pose proof (buf_length_nonneg vi) as Hv0.
  assert (Hlen : buf_length payload = buf_length vi + buf_length c + 4 + buf_length body).
  { unfold payload, buf_length. rewrite !length_app, le_bytes_length. lia. }
  assert (Hvs : buf_length vi = enc_sizeVarint (buf_length c)) by apply enc_writeVarint_size.
  set (r1 := Reader.set_offset (buf_length vi) (Reader.new payload false)).
  set (r2 := Reader.set_offset (buf_length vi + buf_length c) (Reader.new payload false)).
  set (r3 := Reader.set_offset (buf_length vi + buf_length c + 4) (Reader.new payload false)).
  set (r4 := Reader.set_offset (buf_length payload) (Reader.new payload false)).
  assert (S1 : Reader.readVarString "ascii" JUndefined (Reader.new payload false)
               = (Ok cmd, r2)).
  { unfold Reader.readVarString.
    pose proof (enc_readVarint_written [] (buf_length c)
                  (c ++ le_bytes 4 (buf_length body) ++ body) ltac:(lia)) as Hr.
    cbn [app] in Hr.
    assert (Hv : Reader.readVarint (Reader.new payload false)
                 = (Ok (buf_length c),
                    Reader.set_offset (0 + enc_sizeVarint (buf_length c))
                      (Reader.new payload false)))
      by (apply Reader_readVarint_at; exact Hr).
    rewrite (bind_ok _ _ _ _ _ Hv).
    cbn [Reader.limit_ok truthy negb orb assert]. rewrite bind_ret_l.
    rewrite readString_ok
      by (cbn [Reader.offset Reader.data Reader.new Reader.set_offset]; lia).
    cbn [Reader.offset Reader.data Reader.new Reader.set_offset].
    rewrite Z.add_0_l, <- Hvs.
    unfold payload. fold vi. rewrite buf_slice_behind, Hdec. reflexivity. }
  assert (S2 : Reader.readU32 r2 = (Ok (buf_length body), r3)).
  { rewrite readU32_ok by (cbn [Reader.offset Reader.data r2 Reader.new Reader.set_offset]; lia).
    cbn [Reader.offset Reader.data r2 Reader.new Reader.set_offset].
    unfold payload. rewrite (app_assoc vi c).
    replace (buf_length vi + buf_length c) with (buf_length (vi ++ c) + 0)
      by (unfold buf_length; rewrite length_app; lia).
    rewrite readUInt32LE_behind, readUInt32LE_written, Z.mod_small by lia.
    f_equal. unfold r3, r2, Reader.set_offset.
    cbn [Reader.data Reader.zeroCopy Reader.stack Reader.new].
    f_equal. unfold buf_length. rewrite length_app. lia. }
  assert (S3 : Reader.readBytes (buf_length body) JUndefined r3 = (Ok body, r4)).
  { rewrite (readBytes_at r3 (vi ++ c ++ le_bytes 4 (buf_length body)) body []).
    - f_equal. unfold r4, r3, Reader.set_offset.
      cbn [Reader.offset Reader.data Reader.zeroCopy Reader.stack Reader.new]. f_equal. lia.
    - cbn [Reader.data r3 Reader.set_offset Reader.new]. unfold payload.
      rewrite app_nil_r, <- !app_assoc. reflexivity.
    - cbn [Reader.offset r3 Reader.set_offset Reader.new]. unfold buf_length.
      rewrite !length_app, le_bytes_length. lia.
    - reflexivity. }
  cbn [parse_messages].
  assert (L0 : Reader.left (Reader.new payload false)
               = (Ok (buf_length payload), Reader.new payload false)).
  { unfold Reader.left. rewrite bind_get. cbn [Reader.offset Reader.data Reader.new].
    rewrite bind_assert_true by lia. rewrite Z.sub_0_r. reflexivity. }
  rewrite L0.
  assert ((buf_length payload =? 0) = false) as -> by lia.
  rewrite (bind_ok _ _ _ _ _ S1), (bind_ok _ _ _ _ _ S2), (bind_ok _ _ _ _ _ S3).
  cbn [ret].
  assert (L4 : Reader.left r4 = (Ok 0, r4)).
  { unfold Reader.left. rewrite bind_get. cbn [Reader.offset Reader.data r4 Reader.new
                                                Reader.set_offset].
    rewrite bind_assert_true by lia. rewrite Z.sub_diag. reflexivity. }
  rewrite L4. reflexivity.
Qed.

(** The two turns of [parse] on a frame: its size, then its body and
    tag. *)
Lemma parse_size data s :
  hasSize s = false ->
  let size := readUInt32LE (chacha_encrypt data (chacha (input s))).1 0 in
  6 <= size <= MAX_MESSAGE * 3 ->
  parse data s
  = (Ok tt, set_frame true (size + 16)
              (set_input (set_ciphers (chacha_encrypt data (chacha (input s))).2
                            (aead (input s)) (input s)) s)).
Proof.
  intros Hs size Hsize. unfold parse. rewrite bind_get, Hs. cbn [negb].
  rewrite (bind_ok _ _ _ _ _ (on_input_ok _ _ _ _ (decryptSize_spec data (input s)))).
  fold size.
  assert ((size <? 6) || (MAX_MESSAGE * 3 <? size) = false) as ->
    by (apply orb_false_iff; split; lia).
  reflexivity.
Qed.

Lemma parse_payload data s :
  hasSize s = true ->
  let i := input s in
  let ct := buf_slice data 0 (waiting s - 16) in
  let tg := buf_slice data (waiting s - 16) (waiting s) in
  let fi := aead_finish (aead_auth ct (aead i)).2 in
  poly1305_verify fi.1 tg = true ->
  let de := aead_stream ct fi.2 in
  let v := update_iv (next_seq (seq i)) (iv i) in
  parse data s
  = (Ok tt,
     set_emitted (emitted s ++ parse_messages (S (length de.1)) (Reader.new de.1 false))
       (set_input
          {| cipher := cipher i; privateKey := privateKey i; publicKey := publicKey i;
             secret := secret i; prk := prk i; k1 := k1 i; k2 := k2 i; sid := sid i;
             chacha := chacha_init None (Some v) (chacha i);
             aead := aead_init None (Some v) de.2;
             tag := Some fi.1; seq := next_seq (seq i); iv := v;
             processed := processed i; lastRekey := lastRekey i |}
          (set_frame false 4 s))).
Proof.
  intros Hs i ct tg fi Hgood de v. unfold parse. rewrite bind_get, Hs. cbn [negb].
  fold ct. fold tg.
  unfold bind at 1. cbn beta iota.
  rewrite (bind_ok _ _ _ _ _ (on_input_ok _ _ _ _ (auth_spec ct _))).
  rewrite (bind_ok _ _ _ _ _ (on_input_ok _ _ _ _ (finish_spec _))).
  cbn [input set_input set_frame set_ciphers set_tag aead chacha]. fold i. fold fi.
  assert (Hv : on_input (verify tg)
                 (set_input
                    (set_tag (Some fi.1) (set_ciphers (chacha i) fi.2
                       (set_ciphers (chacha i) (aead_auth ct (aead i)).2 i)))
                    (set_input (set_ciphers (chacha i) (aead_auth ct (aead i)).2 i)
                       (set_frame false 4 s)))
               = (Ok true,
                  set_input
                    (set_tag (Some fi.1) (set_ciphers (chacha i) fi.2
                       (set_ciphers (chacha i) (aead_auth ct (aead i)).2 i)))
                    (set_input (set_ciphers (chacha i) (aead_auth ct (aead i)).2 i)
                       (set_frame false 4 s)))).
  { unfold on_input, verify. rewrite bind_get. cbn. rewrite Hgood. reflexivity. }
  rewrite (bind_ok _ _ _ _ _ Hv). cbn [negb].
  rewrite (bind_ok _ _ _ _ _ (on_input_ok _ _ _ _ (decrypt_spec ct _))).
  rewrite (bind_ok _ _ _ _ _ (on_input_ok _ _ _ _ (sequence_spec _))).
  rewrite emit_all_spec.
  cbn [input set_input set_frame set_ciphers set_tag set_seq aead chacha seq iv emitted
       cipher privateKey publicKey secret prk k1 k2 sid tag processed lastRekey].
  fold i. fold fi. fold de. fold v. reflexivity.
Qed.

(** X18.  A packet arrives.  When the output stream of a sender is in
    step with the input stream of a receiver that stands between two
    frames, and no rekey is due, [packet(cmd, body)] returns a packet of
    the size of the message plus 20 bytes, and [feed] of this packet
    makes the receiver emit the packet event with this command and this
    body and nothing else; afterwards the two streams are in step again,
    at the next sequence number, and the receiver stands between two
    frames.  The command is stored in full and decoded by the ASCII
    codec, and the size of the message is one that the receiver accepts
    (6 bytes at least). *)
Theorem packet_delivered (s r : Session) (cmd : string) (body : Buffer) (now : Z) :
  let size := enc_sizeVarint (buf_length (buf_encode cmd "ascii"))
              + buf_length (buf_encode cmd "ascii") + 4 + buf_length body in
  linked (output s) (input r) ->
  at_frame_start r ->
  now < lastRekey (output s) + 10 ->
  processed (output s) + (size + 20) < HIGH_WATERMARK ->
  buf_length (buf_encode cmd "ascii") = buf_byteLength cmd "ascii" ->
  buf_toString "ascii" (buf_encode cmd "ascii") = cmd ->
  6 <= size <= MAX_MESSAGE * 3 ->
  size < 2 ^ 32 ->
  exists pkt s' r',
    packet cmd body now s = (Ok pkt, s')
    /\ buf_length pkt = size + 20
    /\ emitted s' = emitted s
    /\ feed pkt r = (Ok tt, r')
    /\ emitted r' = emitted r ++ [EvPacket cmd body]
    /\ linked (output s') (input r')
    /\ seq (output s') = next_seq (seq (output s))
    /\ at_frame_start r'.
Proof.
  intros size Hlink (Hbuf & Htot & Hhas & Hwait) Hnow Hmark Hfull Hdec Hsize H32.
  set (c := buf_encode cmd "ascii") in *.
  set (payload := enc_writeVarint (buf_length c) ++ c ++ le_bytes 4 (buf_length body) ++ body).
  pose proof (buf_length_nonneg c) as Hc0. pose proof (buf_length_nonneg body) as Hb0.
  pose proof (buf_length_nonneg (enc_writeVarint (buf_length c))) as Hv0.
  assert (Hn : buf_length payload = size).
  { unfold payload, size, buf_length. rewrite !length_app, le_bytes_length.
    pose proof (enc_writeVarint_size (buf_length c)) as Hvs. unfold buf_length in Hvs. lia. }
  pose proof (packet_sent s cmd body now Hfull) as Hsent. cbn zeta in Hsent.
  fold c in Hsent. fold payload in Hsent. rewrite Hn in Hsent.
  specialize (Hsent Hnow ltac:(lia)).
  set (o := output s) in *.
  set (sz := chacha_encrypt (le_bytes 4 size) (chacha o)) in *.
  set (ct := aead_encrypt payload (aead o)) in *.
  set (tg := aead_finish ct.2) in *.
  set (v := update_iv (next_seq (seq o)) (iv o)) in *.
  assert (Hs : buf_length sz.1 = 4).
  { unfold sz. rewrite chacha_encrypt_length, buf_le_bytes. reflexivity. }
  assert (Hc : buf_length ct.1 = size) by (unfold ct; rewrite aead_encrypt_length; exact Hn).
  assert (Ht : buf_length tg.1 = 16) by apply aead_finish_length.
  destruct Hlink as (Hkeyed & Lk1 & Lk2 & Lsid & Lch & Lae & Lseq & Liv).
  fold o in Hkeyed, Lk1, Lk2, Lsid, Lch, Lae, Lseq, Liv.
  set (pkt := sz.1 ++ ct.1 ++ tg.1) in *.
  assert (Hpl : buf_length pkt = size + 20).
  { unfold pkt, buf_length in *. rewrite !length_app. lia. }
  (* the receiver *)
  set (e := enqueue pkt r).
  assert (Hbe : buffered e = pkt).
  { unfold e. rewrite buffered_enqueue, Hbuf. reflexivity. }
  assert (Hqe : queue_ok e).
  { apply enqueue_queue_ok. split; [rewrite Htot; fold (buffered r); rewrite Hbuf; reflexivity
                                   | lia]. }
  assert (Hte : total e = size + 20) by (unfold e, enqueue; cbn; lia).
  assert (Hwe : waiting e = 4) by exact Hwait.
  (* the first turn: the size *)
  destruct (turn_spec e Hqe ltac:(lia)) as (t1 & Hturn1 & Hb1 & Htot1 & Hcore1 & Hq1).
  rewrite Hbe, Hwe in Hb1, Hcore1. rewrite Hte, Hwe in Htot1.
  assert (Htake : take (Z.to_nat 4) pkt = sz.1).
  { unfold pkt. apply take_app_length'. unfold buf_length in Hs. lia. }
  assert (Hdrop : drop (Z.to_nat 4) pkt = ct.1 ++ tg.1).
  { unfold pkt. apply drop_app_length'. unfold buf_length in Hs. lia. }
  rewrite Htake in Hcore1. rewrite Hdrop in Hb1.
  assert (Hdsz : (chacha_encrypt sz.1 (chacha (input (core e)))).1 = le_bytes 4 size).
  { change (input (core e)) with (input r). rewrite <- Lch. apply chacha_decrypts. }
  assert (Hrd : readUInt32LE (chacha_encrypt sz.1 (chacha (input (core e)))).1 0 = size).
  { rewrite Hdsz. rewrite <- (app_nil_r (le_bytes 4 size)).
    rewrite readUInt32LE_written. apply Z.mod_small. lia. }
  rewrite (parse_size sz.1 (core e)) in Hcore1 by (first [exact Hhas | rewrite Hrd; lia]).
  rewrite Hrd in Hcore1. cbn [snd] in Hcore1.
  set (i := input r) in *.
  assert (Hw1 : waiting t1 = size + 16) by (apply (f_equal waiting) in Hcore1; exact Hcore1).
  assert (Hh1 : hasSize t1 = true) by (apply (f_equal hasSize) in Hcore1; exact Hcore1).
  (* the second turn: the message and its tag *)
  destruct (turn_spec t1 Hq1 ltac:(lia)) as (t2 & Hturn2 & Hb2 & Htot2 & Hcore2 & Hq2).
  rewrite Hb1, Hw1 in Hb2, Hcore2. rewrite Htot1, Hw1 in Htot2.
  assert (Htake2 : take (Z.to_nat (size + 16)) (ct.1 ++ tg.1) = ct.1 ++ tg.1).
  { apply take_ge. unfold buf_length in *. rewrite length_app. lia. }
  assert (Hdrop2 : drop (Z.to_nat (size + 16)) (ct.1 ++ tg.1) = []).
  { apply drop_ge. unfold buf_length in *. rewrite length_app. lia. }
  rewrite Htake2 in Hcore2. rewrite Hdrop2 in Hb2.
  assert (Hcc : core (core t1) = core t1) by reflexivity.
  assert (Hp2 : parse (ct.1 ++ tg.1) (core t1)
                = parse (ct.1 ++ tg.1)
                    (core (set_frame true (size + 16)
                       (set_input (set_ciphers (chacha_encrypt sz.1 (chacha (input (core e)))).2
                                     (aead (input (core e))) (input (core e))) (core e))))).
  { rewrite <- Hcore1. reflexivity. }
  rewrite Hp2 in Hcore2. clear Hp2.
  assert (Hct : buf_slice (ct.1 ++ tg.1) 0 (size + 16 - 16) = ct.1).
  { replace (size + 16 - 16) with (0 + buf_length ct.1) by lia.
    apply (buf_slice_behind [] ct.1 tg.1). }
  assert (Htg : buf_slice (ct.1 ++ tg.1) (size + 16 - 16) (size + 16) = tg.1).
  { replace (size + 16 - 16) with (buf_length ct.1) by lia.
    replace (size + 16) with (buf_length ct.1 + buf_length tg.1) by lia.
    rewrite <- (app_nil_r tg.1) at 1. apply (buf_slice_behind ct.1 tg.1 []). }
  assert (Hae : aead (input (core e)) = aead o) by (symmetry; exact Lae).
  rewrite parse_payload in Hcore2.
  2: reflexivity.
  2: { cbn [waiting core set_queue set_frame set_input input aead set_ciphers].
       rewrite Hct, Htg. change (aead (input e)) with (aead i). rewrite <- Lae.
       unfold tg, ct. rewrite aead_auth_tag. apply poly1305_verify_same. }
  cbn [waiting core set_queue set_frame set_input input aead chacha seq iv set_ciphers
       emitted snd cipher privateKey publicKey secret prk k1 k2 sid tag processed lastRekey]
    in Hcore2.
  rewrite Hct in Hcore2.
  change (aead (input e)) with (aead i) in Hcore2.
  change (emitted e) with (emitted r) in Hcore2.
  assert (Hde : (aead_stream ct.1 (aead_finish (aead_auth ct.1 (aead i)).2).2).1 = payload).
  { rewrite <- Lae. unfold ct. apply aead_decrypts. }
  rewrite Hde in Hcore2.
  assert (Hfuel : exists k, length payload = S k).
  { unfold buf_length in Hn. destruct (length payload); [lia | eexists; reflexivity]. }
  destruct Hfuel as [k Hk]. rewrite Hk in Hcore2.
  assert (Hcl : buf_length c < 2 ^ 32 /\ buf_length body < 2 ^ 32).
  { pose proof (enc_writeVarint_size (buf_length c)) as Hvs. unfold size in H32. lia. }
  pose proof (parse_messages_one cmd body k Hdec (proj1 Hcl) (proj2 Hcl)) as Hpm.
  cbn zeta in Hpm. fold c in Hpm. fold payload in Hpm. rewrite Hpm in Hcore2.
  (* the loop *)
  assert (Hfeed : feed pkt r = (Ok tt, t2)).
  { rewrite feed_unfold. fold e. rewrite Hte.
    assert (Hf : exists f, Z.to_nat (size + 20) = S f).
    { destruct (Z.to_nat (size + 20)) eqn:Hz; [lia | eexists; reflexivity]. }
    destruct Hf as [f ->].
    rewrite (feed_loop_turn _ e t1 ltac:(lia) Hturn1).
    rewrite (feed_loop_turn _ t1 t2 ltac:(lia) Hturn2).
    apply feed_loop_stop.
    apply (f_equal waiting) in Hcore2. cbn in Hcore2. lia. }
  eexists pkt, _, t2. split; [exact Hsent |]. split; [exact Hpl |].
  split; [reflexivity |]. split; [exact Hfeed |].
  split; [apply (f_equal emitted) in Hcore2; exact Hcore2 |].
  split.
  - apply (f_equal input) in Hcore2. cbn [input core set_queue set_emitted set_input] in Hcore2.
    rewrite Hcore2. cbn [output set_output].
    unfold linked, keyed. cbn. fold o. fold i.
    split; [exact Hkeyed |]. split; [exact Lk1 |]. split; [exact Lk2 |].
    split; [exact Lsid |].
    unfold v. rewrite <- Lseq, <- Liv. fold v.
    split; [unfold sz; rewrite !chacha_init_encrypt, Lch; reflexivity |].
    split; [| split; reflexivity].
    unfold tg. rewrite aead_init_finish. unfold ct. rewrite aead_init_encrypt.
    rewrite aead_init_stream, aead_init_finish, aead_init_auth, Lae. reflexivity.
  - split; [reflexivity |].
    split; [exact Hb2 |]. split; [lia |].
    split; [apply (f_equal hasSize) in Hcore2; exact Hcore2
           | apply (f_equal waiting) in Hcore2; exact Hcore2].
Qed.

End Delivery.
(** ** Handshake and delivery on the stand-ins *)

Lemma pow_mod_base x q n : 0 < n -> 0 <= q -> (x mod n) ^ q mod n = x ^ q mod n.
Proof.
  intros Hn Hq. pattern q. apply natlike_ind; [reflexivity | | exact Hq].
  intros k Hk IH. rewrite !Z.pow_succ_r by lia.
  rewrite Z.mul_mod by lia. rewrite IH, Z.mod_mod by lia.
  rewrite <- Z.mul_mod by lia. reflexivity.
Qed.

Section AgreementWitness.
Import Examples TransportExamples AgreementExamples BIP151.

(** The stand-in for the key agreement gives both sides the same
    secret. *)
#[local] Instance dh_agreement : KeyAgreement.
Proof.
  split.
  - intros a b. cbn [ecdh publicKeyCreate dh_session]. f_equal.
    change (byte_at [2; dh_g ^ dh_secret a mod dh_p] 1) with (dh_g ^ dh_secret a mod dh_p).
    change (byte_at [2; dh_g ^ dh_secret b mod dh_p] 1) with (dh_g ^ dh_secret b mod dh_p).
    assert (Ha : 0 <= dh_secret a) by (unfold dh_secret; lia).
    assert (Hb : 0 <= dh_secret b) by (unfold dh_secret; lia).
    rewrite !pow_mod_base by (first [assumption | unfold dh_p; lia]).
    rewrite <- !Z.pow_mul_r by assumption.
    rewrite (Z.mul_comm (dh_secret a)). reflexivity.
  - intros a Hc. cbn [publicKeyCreate dh_session] in Hc. discriminate Hc.
Qed.

(** X17, witness: the handshake of [alice] and [bob]. *)
Lemma exchange_links_witness :
  exists a b,
    exchange 0 (new [11] [12], new [13] [14]) = (Ok tt, (a, b))
    /\ handshake a = true /\ handshake b = true
    /\ emitted a = [EvHandshake] /\ emitted b = [EvHandshake]
    /\ linked (output a) (input b)
    /\ linked (output b) (input a)
    /\ seq (output a) = 0 /\ seq (output b) = 0
    /\ at_frame_start a /\ at_frame_start b.
Proof. apply (exchange_links [11] [12] [13] [14] 0). Defined.

(** The two sessions share the keys of each direction, and the session
    IDs of the two directions differ. *)
Example shaken_keys :
  k1 (output shaken.1) = k1 (input shaken.2)
  /\ k1 (output shaken.2) = k1 (input shaken.1)
  /\ sid (output shaken.1) <> sid (output shaken.2).
Proof.
  split; [vm_compute; reflexivity |]. split; [vm_compute; reflexivity |].
  vm_compute. discriminate.
Qed.

End AgreementWitness.

Section DeliveryWitness.
Import Examples TransportExamples BIP151.

#[local] Existing Instance compact_size_laws.
#[local] Existing Instance ascii_codec_laws.
#[local] Existing Instance compact_size_round_trip.

Lemma toy_xor_twice d st : toy_xor (toy_xor d st) st = d.
Proof.
  unfold toy_xor. rewrite <- list_fmap_compose.
  rewrite <- (list_fmap_id d) at 2. apply list_fmap_ext. intros _ x _. cbn.
  rewrite <- Z.lxor_assoc, Z.lxor_nilpotent. apply Z.lxor_0_l.
Qed.

(** The stand-in for the ciphers decrypts what it encrypts. *)
#[local] Instance toy_cipher_laws : ChaChaPolyLaws.
Proof.
  split; cbn [chacha_encrypt aead_encrypt aead_finish aead_auth aead_stream aead_init
              chacha_init poly1305_verify toy_cipher fst snd].
  - intros d c. unfold toy_xor, buf_length. rewrite length_fmap. reflexivity.
  - intros d c. apply toy_xor_twice.
  - intros d a. unfold toy_xor, buf_length. rewrite length_fmap. reflexivity.
  - intros a. unfold buf_length. rewrite length_take.
    pose proof (sha256_length (tkey a ++ tiv a ++ tmac a)) as Hl. unfold buf_length in Hl.
    unfold sha256. lia.
  - reflexivity.
  - intros t. apply bool_decide_eq_true_2. reflexivity.
  - intros d a. etransitivity; [| apply (toy_xor_twice d a)]. reflexivity.
  - reflexivity.
  - reflexivity.
  - reflexivity.
  - reflexivity.
  - reflexivity.
Qed.

(** X18, witness: the packet "ping" from [sender] to [receiver]. *)
Lemma packet_delivered_witness :
  exists pkt s' r',
    packet "ping" [1; 2; 3; 4] 0 sender = (Ok pkt, s')
    /\ buf_length pkt
       = enc_sizeVarint (buf_length (buf_encode "ping" "ascii"))
         + buf_length (buf_encode "ping" "ascii") + 4 + buf_length [1; 2; 3; 4] + 20
    /\ emitted s' = emitted sender
    /\ feed pkt receiver = (Ok tt, r')
    /\ emitted r' = emitted receiver ++ [EvPacket "ping" [1; 2; 3; 4]]
    /\ linked (output s') (input r')
    /\ seq (output s') = next_seq (seq (output sender))
    /\ at_frame_start r'.
Proof.
  apply (packet_delivered sender receiver "ping" [1; 2; 3; 4] 0).
  - unfold linked, keyed. cbn [output input sender receiver set_output set_input].
    repeat split; try reflexivity; eexists; vm_compute; reflexivity.
  - repeat split; reflexivity.
  - vm_compute. reflexivity.
  - vm_compute. reflexivity.
  - vm_compute. reflexivity.
  - vm_compute. reflexivity.
  - vm_compute. split; discriminate.
  - vm_compute. reflexivity.
Defined.

End DeliveryWitness.

(** ** Merkle blocks, stored and read back *)

Section WriterReturns.
Context `{Encoding} `{NodeBuffer}.
Import Writer Wire.

(** The writer takes every accepted call. *)
Lemma exec_accepted c w :
  accepted c -> destroyed w = false ->
  exists w', exec c w = (Ok tt, w') /\ destroyed w' = false.
Proof.
  intros Ha Hd.
  assert (Hpush : forall op n, (bind (add_written n) (fun _ => push op)) w
            = (Ok tt, {| ops := ops w ++ [op]; written := written w + n;
                         destroyed := false |})).
  { intros op n. unfold bind, add_written, push. cbn. rewrite Hd. reflexivity. }
  assert (Hbytes : forall b, exists w', writeBytes b w = (Ok tt, w') /\ destroyed w' = false).
  { intros b. unfold writeBytes. destruct (buf_length b =? 0).
    - exists w. split; [reflexivity | exact Hd].
    - rewrite Hpush. eexists. split; reflexivity. }
  assert (Hvar : forall b, exists w', writeVarBytes b w = (Ok tt, w') /\ destroyed w' = false).
  { intros b. unfold writeVarBytes, bind, add_written, push, ret. cbn. rewrite Hd.
    destruct (buf_length b =? 0); cbn; eexists; split; reflexivity. }
  assert (Hstr : forall v enc, exists w', writeString v enc w = (Ok tt, w')
                                          /\ destroyed w' = false).
  { intros [s | b] enc; [| apply Hbytes].
    unfold writeString, bind, add_written, push, ret. cbn.
    destruct (String.eqb s ""); cbn; rewrite ?Hd; eexists; split; first [reflexivity | exact Hd]. }
  destruct c; cbn [exec accepted] in *;
    try (unfold seek, writeU8, writeU16, writeU16BE, writeU32, writeU32BE, writeU64,
           writeU64BE, write8, write16, write16BE, write32, write32BE, write64, write64BE,
           writeFloat, writeFloatBE, writeDouble, writeDoubleBE, writeChecksum;
         rewrite Hpush; eexists; split; reflexivity).
  - unfold writeVarint. rewrite bind_assert_true by lia. rewrite Hpush.
    eexists; split; reflexivity.
  - unfold writeVarint2. rewrite bind_assert_true by lia. rewrite Hpush.
    eexists; split; reflexivity.
  - apply Hbytes.
  - apply Hvar.
  - apply Hstr.
  - apply Hstr.
  - match goal with |- context [writeVarString ?v _] => destruct v as [s | b] end;
      [| apply Hvar].
    unfold writeVarString, bind, add_written, push, ret. cbn. rewrite Hd.
    destruct (String.eqb s ""); cbn; eexists; split; reflexivity.
  - unfold writeNullString.
    match goal with |- context [writeString ?v ?enc] =>
      destruct (Hstr v enc) as (w1 & H1 & Hd1) end.
    rewrite (bind_ok _ _ _ _ _ H1). unfold writeU8, bind, add_written, push. cbn.
    rewrite Hd1. eexists; split; reflexivity.
  - unfold fill. rewrite bind_assert_true by lia.
    destruct (size =? 0); [exists w; split; [reflexivity | exact Hd] |].
    rewrite Hpush. eexists; split; reflexivity.
Qed.

Lemma exec_all_accepted calls : forall w,
  Forall accepted calls -> destroyed w = false ->
  exists w', exec_all calls w = (Ok tt, w') /\ destroyed w' = false.
Proof.
  induction calls as [| c calls IH]; intros w Ha Hd.
  - exists w. split; [reflexivity | exact Hd].
  - inversion Ha as [| ? ? Hc Hrest]; subst.
    destruct (exec_accepted c w Hc Hd) as (w1 & H1 & Hd1).
    destruct (IH w1 Hrest Hd1) as (w2 & H2 & Hd2).
    exists w2. split; [| exact Hd2].
    cbn [exec_all]. rewrite (bind_ok _ _ _ _ _ H1). exact H2.
Qed.

Lemma wire_app l1 : forall before l2,
  wire before (l1 ++ l2) = wire (wire before l1) l2.
Proof.
  induction l1 as [| c l1 IH]; intros before l2; [reflexivity |].
  cbn [app wire]. apply IH.
Qed.

End WriterReturns.

Section RenderedWire.
Context `{Encoding} `{!EncodingLaws} `{NodeBuffer} `{!NodeBufferLaws}.
Import Writer Wire.

(** Calls that are accepted, seek nowhere and write their strings in
    full render to their bytes, and the size counter counts them. *)
Lemma rendered_wire calls :
  Forall accepted calls ->
  Forall (fun c => call_ok c /\ is_Cseek c = false) calls ->
  rendered calls = Ok (wire [] calls)
  /\ (bind (exec_all calls) (fun _ => Writer.getSize) Writer.new).1
     = Ok (buf_length (wire [] calls)).
Proof.
  intros Ha Hok.
  destruct (exec_all_accepted calls Writer.new Ha eq_refl) as (w & He & Hd).
  pose proof (render_wire calls w true Hok He) as Hr.
  split.
  - unfold rendered. rewrite (bind_ok _ _ _ _ _ He).
    rewrite (render_wire calls w false Hok He). reflexivity.
  - rewrite (bind_ok _ _ _ _ _ He). unfold Writer.getSize. rewrite bind_get. cbn [ret fst].
    assert (Hcons : consistent w).
    { apply (exec_all_consistent calls Writer.new w); [| apply consistent_new | exact He].
      eapply Forall_impl; [exact Hok |]. intros c [Hc _]. exact Hc. }
    destruct (render_consistent true w Hcons) as (data & Hrd & Hlen & _).
    rewrite Hr in Hrd. injection Hrd as <-. rewrite Hlen. reflexivity.
Qed.

End RenderedWire.

Section ReadChunks.
Context `{Encoding} `{!EncodingLaws} `{!VarintRoundTrip} `{NodeBuffer}.
Import Reader.

(** A reader on [raw] that has read the bytes [before]. *)
Local Abbreviation behind raw before :=
  (Reader.set_offset (buf_length before) (Reader.new raw false)).

Lemma buf_length_app (a b : Buffer) : buf_length (a ++ b) = buf_length a + buf_length b.
Proof. unfold buf_length. rewrite length_app. lia. Qed.

Lemma readU32_chunk raw before v after :
  raw = before ++ le_bytes 4 v ++ after ->
  readU32 (behind raw before) = (Ok (v mod 2 ^ 32), behind raw (before ++ le_bytes 4 v)).
Proof.
  intros Hraw. rewrite readU32_ok.
  - cbn [data offset set_offset new]. rewrite Hraw at 1.
    rewrite <- (Z.add_0_r (buf_length before)), readUInt32LE_behind, readUInt32LE_written by lia.
    rewrite Z.add_0_r, buf_length_app, buf_le_bytes. reflexivity.
  - cbn [data offset set_offset new]. rewrite Hraw, !buf_length_app, buf_le_bytes.
    pose proof (buf_length_nonneg after). lia.
Qed.

Lemma readBytes_chunk raw before b after zc :
  raw = before ++ b ++ after ->
  readBytes (buf_length b) zc (behind raw before) = (Ok b, behind raw (before ++ b)).
Proof.
  intros Hraw.
  rewrite (readBytes_at _ before b after); [| exact Hraw | reflexivity | reflexivity].
  cbn [offset set_offset new data zeroCopy stack]. rewrite buf_length_app. reflexivity.
Qed.

Lemma readString_chunk raw before b after enc :
  raw = before ++ b ++ after ->
  readString enc (buf_length b) (behind raw before)
  = (Ok (buf_toString enc b), behind raw (before ++ b)).
Proof.
  intros Hraw. pose proof (buf_length_nonneg b). pose proof (buf_length_nonneg after).
  rewrite readString_ok.
  - cbn [data offset set_offset new zeroCopy stack]. rewrite Hraw at 1.
    rewrite buf_slice_behind, buf_length_app. reflexivity.
  - lia.
  - cbn [data offset set_offset new]. rewrite Hraw, !buf_length_app. lia.
Qed.

Lemma readVarint_chunk raw before v after :
  0 <= v < 2 ^ 32 ->
  raw = before ++ enc_writeVarint v ++ after ->
  readVarint (behind raw before) = (Ok v, behind raw (before ++ enc_writeVarint v)).
Proof.
  intros Hv Hraw.
  rewrite (readVarint_ok _ v (enc_sizeVarint v)).
  - cbn [data offset set_offset new zeroCopy stack].
    rewrite buf_length_app, enc_writeVarint_size. reflexivity.
  - cbn [data offset set_offset new]. rewrite Hraw. apply enc_readVarint_written. exact Hv.
Qed.

Lemma readVarBytes_chunk raw before b after zc :
  buf_length b < 2 ^ 32 ->
  raw = before ++ enc_writeVarint (buf_length b) ++ b ++ after ->
  readVarBytes zc (behind raw before)
  = (Ok b, behind raw (before ++ enc_writeVarint (buf_length b) ++ b)).
Proof.
  intros Hb Hraw. pose proof (buf_length_nonneg b). unfold readVarBytes.
  rewrite (bind_ok _ _ _ _ _ (readVarint_chunk raw before (buf_length b) (b ++ after)
                                ltac:(lia) Hraw)).
  rewrite (readBytes_chunk raw (before ++ enc_writeVarint (buf_length b)) b after)
    by (rewrite Hraw, <- ?app_assoc; reflexivity).
  rewrite <- app_assoc. reflexivity.
Qed.

End ReadChunks.

Section BlockRoundTrip.
Context `{Encoding} `{!EncodingLaws} `{!VarintRoundTrip}.
Context `{NodeBuffer} `{!NodeBufferLaws} `{!HexCodec}.
Import Merkle.

Local Abbreviation behind raw before :=
  (Reader.set_offset (buf_length before) (Reader.new raw false)).

Lemma block_on_reader_ok {A B} (m : M Reader.BufferReader A)
    (k : A -> M (MerkleBlock * Reader.BufferReader) B) this br a br' :
  m br = (Ok a, br') -> bind (on_reader m) k (this, br) = k a (this, br').
Proof. intros Hm. unfold bind, on_reader. cbn [fst snd]. rewrite Hm. reflexivity. Qed.

Lemma update_block_ok {B} f (k : unit -> M (MerkleBlock * Reader.BufferReader) B) this br :
  bind (update_block f) k (this, br) = k tt (f this, br).
Proof. reflexivity. Qed.

Lemma wire_hashes (hs : list Buffer) : forall before,
  Wire.wire before ((fun h => Writer.CwriteHash (Writer.ABuf h)) <$> hs) = before ++ mjoin hs.
Proof.
  induction hs as [| h hs IH]; intros before; cbn [fmap list_fmap Wire.wire].
  - change (mjoin (@nil Buffer)) with (@nil Z). rewrite app_nil_r. reflexivity.
  - change (mjoin (h :: hs)) with (h ++ mjoin hs).
    rewrite IH. cbn [Wire.call_bytes Wire.str_bytes]. rewrite <- app_assoc. reflexivity.
Qed.

(** The bytes of a block. *)
Lemma block_bytes this :
  storable this ->
  let raw := le_bytes 4 (version this) ++ buf_encode (prevBlock this) "hex"
             ++ buf_encode (merkleRoot this) "hex"
             ++ le_bytes 4 (ts this) ++ le_bytes 4 (bits_ this) ++ le_bytes 4 (nonce this)
             ++ le_bytes 4 (totalTX this)
             ++ enc_writeVarint (Z.of_nat (length (hashes this))) ++ mjoin (hashes this)
             ++ enc_writeVarint (buf_length (flags this)) ++ flags this in
  toRaw this = Ok raw /\ getSize this = Ok (buf_length raw).
Proof.
  intros (Hv & Ht & Hb & Hn & Htot & (pb & Hpb & Hpbl & Hpbb) & (mr & Hmr & Hmrl & Hmrb)
          & Hhs & Hcount & Hfl) raw.
  assert (Hacc : Forall Wire.accepted (toRaw_calls this)).
  { unfold toRaw_calls. repeat (apply Forall_cons; split; [cbn; try exact I; lia |]).
    apply Forall_app. split; [| repeat constructor].
    apply Forall_fmap, Forall_true. intros h. exact I. }
  assert (Hok : Forall (fun c => Writer.call_ok c /\ Wire.is_Cseek c = false)
                  (toRaw_calls this)).
  { unfold toRaw_calls.
    apply Forall_cons; split; [split; [exact I | reflexivity] |].
    apply Forall_cons; split.
    { split; [| reflexivity]. cbn. rewrite Hpb, hex_encode, hex_byteLength by exact Hpbb.
      reflexivity. }
    apply Forall_cons; split.
    { split; [| reflexivity]. cbn. rewrite Hmr, hex_encode, hex_byteLength by exact Hmrb.
      reflexivity. }
    repeat (apply Forall_cons; split; [split; [exact I | reflexivity] |]).
    apply Forall_app. split; [| repeat constructor].
    apply Forall_fmap, Forall_true. intros h. split; [exact I | reflexivity]. }
  destruct (rendered_wire (toRaw_calls this) Hacc Hok) as [Hr Hs].
  assert (Hw : Wire.wire [] (toRaw_calls this) = raw).
  { unfold toRaw_calls. rewrite wire_app, wire_app, wire_hashes.
    cbn [Wire.wire Wire.call_bytes Wire.str_bytes app]. unfold raw.
    rewrite <- !app_assoc. reflexivity. }
  rewrite Hw in Hr, Hs. split; [exact Hr | exact Hs].
Qed.

(** The loop over the hashes reads them as they stand in the buffer. *)
Lemma read_hashes_ok (hs : list Buffer) : forall raw before after this fuel i,
  raw = before ++ mjoin hs ++ after ->
  Forall (fun h => buf_length h = 32) hs ->
  (length hs <= fuel)%nat ->
  read_hashes fuel i (i + Z.of_nat (length hs)) (this, behind raw before)
  = (Ok tt, (set_tree this (hashes this ++ hs) (flags this), behind raw (before ++ mjoin hs))).
Proof.
  induction hs as [| h hs IH]; intros raw before after this fuel i Hraw Hsize Hfuel.
  - cbn [length]. change (mjoin (@nil Buffer)) with (@nil Z). rewrite Z.add_0_r, !app_nil_r.
    destruct fuel; cbn [read_hashes]; rewrite Z.ltb_irrefl; destruct this; reflexivity.
  - apply Forall_cons in Hsize as [Hh Hrest].
    cbn [length] in *. change (mjoin (h :: hs)) with (h ++ mjoin hs) in *.
    assert (Hlt : (i <? i + Z.of_nat (S (length hs))) = true) by (apply Z.ltb_lt; lia).
    assert (Hread : Reader.readHash None (behind raw before)
                    = (Ok (Reader.HashBuf h), behind raw (before ++ h))).
    { unfold Reader.readHash. rewrite <- Hh.
      rewrite (bind_ok _ _ _ _ _ (readBytes_chunk raw before h (mjoin hs ++ after) JUndefined
                                    ltac:(rewrite Hraw, <- ?app_assoc; reflexivity))).
      reflexivity. }
    destruct fuel as [| fuel]; [lia |].
    cbn [read_hashes]. rewrite Hlt.
    rewrite (block_on_reader_ok _ _ _ _ _ _ Hread). rewrite update_block_ok.
    cbn [hash_buffer].
    replace (i + Z.of_nat (S (length hs))) with ((i + 1) + Z.of_nat (length hs)) by lia.
    rewrite (IH raw (before ++ h) after _ fuel (i + 1));
      [| rewrite Hraw, <- ?app_assoc; reflexivity | exact Hrest | lia].
    cbn [hashes flags set_tree]. rewrite <- !app_assoc. reflexivity.
Qed.

Local Ltac tidy :=
  cbn [set_header set_tree version prevBlock merkleRoot ts bits_ nonce totalTX height
         hashes flags txs map matches _validPartial].

(** X19.  [fromRaw] reads back what [toRaw] stored.  For a merkle block
    whose header numbers are 32-bit numbers, whose previous block and
    merkle root are the hex of 32 bytes, and whose hashes have 32 bytes
    each: [toRaw] returns a buffer, [getSize] is its length, and
    [fromRaw] on it succeeds and sets the version, the previous block,
    the merkle root, the time, the bits, the nonce, the number of
    transactions and the flags of the block that was stored, and appends
    its hashes to the hashes of the receiver.  The varint and hex codecs
    are assumed to read what they wrote. *)
Theorem block_fromRaw_toRaw (this fresh : MerkleBlock) :
  storable this ->
  exists raw,
    toRaw this = Ok raw
    /\ getSize this = Ok (buf_length raw)
    /\ buf_length raw
       = 84 + enc_sizeVarint (Z.of_nat (length (hashes this)))
         + 32 * Z.of_nat (length (hashes this))
         + enc_sizeVarint (buf_length (flags this)) + buf_length (flags this)
    /\ fromRaw fresh raw
       = (Ok tt,
          {| version := version this; prevBlock := prevBlock this;
             merkleRoot := merkleRoot this; ts := ts this; bits_ := bits_ this;
             nonce := nonce this; totalTX := totalTX this; height := height fresh;
             hashes := hashes fresh ++ hashes this; flags := flags this;
             txs := txs fresh; map := map fresh; matches := matches fresh;
             _validPartial := _validPartial fresh |}).
Proof.
  intros Hst. destruct (block_bytes this Hst) as [Hraw Hsize]. cbn zeta in Hraw, Hsize.
  destruct Hst as (Hv & Ht & Hb & Hn & Htot & (pb & Hpb & Hpbl & Hpbb)
                   & (mr & Hmr & Hmrl & Hmrb) & Hhs & Hcount & Hfl).
  rewrite Hpb, Hmr, !hex_encode in Hraw, Hsize by assumption.
  set (c1 := le_bytes 4 (version this)) in *.
  set (c4 := le_bytes 4 (ts this)) in *.
  set (c5 := le_bytes 4 (bits_ this)) in *.
  set (c6 := le_bytes 4 (nonce this)) in *.
  set (c7 := le_bytes 4 (totalTX this)) in *.
  set (c8 := enc_writeVarint (Z.of_nat (length (hashes this)))) in *.
  set (c9 := mjoin (hashes this)) in *.
  set (c10 := enc_writeVarint (buf_length (flags this))) in *.
  set (raw := c1 ++ pb ++ mr ++ c4 ++ c5 ++ c6 ++ c7 ++ c8 ++ c9 ++ c10 ++ flags this) in *.
  exists raw. split; [exact Hraw |]. split; [exact Hsize |].
  assert (Hc9 : buf_length c9 = 32 * Z.of_nat (length (hashes this))).
  { unfold c9. clear -Hhs. induction Hhs as [| h hs Hh _ IH]; [reflexivity |].
    change (mjoin (h :: hs)) with (h ++ mjoin hs). cbn [length].
    rewrite buf_length_app, IH, Hh. lia. }
  split.
  { unfold raw. rewrite !buf_length_app. unfold c1, c4, c5, c6, c7, c8, c10.
    rewrite !buf_le_bytes, !enc_writeVarint_size, Hc9, Hpbl, Hmrl. lia. }
  assert (Hraw_eq : raw = c1 ++ pb ++ mr ++ c4 ++ c5 ++ c6 ++ c7 ++ c8 ++ c9 ++ c10 ++ flags this)
    by reflexivity.
  clearbody raw.
  unfold fromRaw, fromRaw_body.
  change (Reader.new raw false) with (behind raw []).
  rewrite (block_on_reader_ok _ _ _ _ _ _
             (readU32_chunk raw [] (version this) _ Hraw_eq)).
  rewrite update_block_ok; tidy.
  assert (R2 : Reader.readHash (Some "hex") (behind raw ([] ++ c1))
               = (Ok (Reader.HashStr (prevBlock this)), behind raw (([] ++ c1) ++ pb))).
  { unfold Reader.readHash. cbn [String.eqb Ascii.eqb Bool.eqb].
    rewrite <- Hpbl.
    rewrite (bind_ok _ _ _ _ _ (readString_chunk raw ([] ++ c1) pb _ "hex" Hraw_eq)).
    rewrite hex_toString, Hpb. reflexivity. }
  rewrite (block_on_reader_ok _ _ _ _ _ _ R2).
  rewrite update_block_ok; tidy.
  assert (R3 : Reader.readHash (Some "hex") (behind raw (([] ++ c1) ++ pb))
               = (Ok (Reader.HashStr (merkleRoot this)),
                  behind raw ((([] ++ c1) ++ pb) ++ mr))).
  { unfold Reader.readHash. cbn [String.eqb Ascii.eqb Bool.eqb].
    rewrite <- Hmrl.
    rewrite (bind_ok _ _ _ _ _
               (readString_chunk raw (([] ++ c1) ++ pb) mr
                  (c4 ++ c5 ++ c6 ++ c7 ++ c8 ++ c9 ++ c10 ++ flags this) "hex"
                  ltac:(rewrite Hraw_eq, <- ?app_assoc; reflexivity))).
    rewrite hex_toString, Hmr. reflexivity. }
  rewrite (block_on_reader_ok _ _ _ _ _ _ R3).
  rewrite update_block_ok; tidy.
  rewrite (block_on_reader_ok _ _ _ _ _ _
             (readU32_chunk raw ((([] ++ c1) ++ pb) ++ mr) (ts this)
                (c5 ++ c6 ++ c7 ++ c8 ++ c9 ++ c10 ++ flags this)
                ltac:(rewrite Hraw_eq, <- ?app_assoc; reflexivity))).
  rewrite update_block_ok; tidy.
  rewrite (block_on_reader_ok _ _ _ _ _ _
             (readU32_chunk raw (((([] ++ c1) ++ pb) ++ mr) ++ le_bytes 4 (ts this))
                (bits_ this) (c6 ++ c7 ++ c8 ++ c9 ++ c10 ++ flags this)
                ltac:(rewrite Hraw_eq, <- ?app_assoc; reflexivity))).
  rewrite update_block_ok; tidy.
  rewrite (block_on_reader_ok _ _ _ _ _ _
             (readU32_chunk raw
                ((((([] ++ c1) ++ pb) ++ mr) ++ le_bytes 4 (ts this))
                 ++ le_bytes 4 (bits_ this))
                (nonce this) (c7 ++ c8 ++ c9 ++ c10 ++ flags this)
                ltac:(rewrite Hraw_eq, <- ?app_assoc; reflexivity))).
  rewrite update_block_ok; tidy.
  rewrite (block_on_reader_ok _ _ _ _ _ _
             (readU32_chunk raw
                (((((([] ++ c1) ++ pb) ++ mr) ++ le_bytes 4 (ts this))
                  ++ le_bytes 4 (bits_ this)) ++ le_bytes 4 (nonce this))
                (totalTX this) (c8 ++ c9 ++ c10 ++ flags this)
                ltac:(rewrite Hraw_eq, <- ?app_assoc; reflexivity))).
  rewrite update_block_ok; tidy.
  set (p7 := (((((([] ++ c1) ++ pb) ++ mr) ++ le_bytes 4 (ts this))
               ++ le_bytes 4 (bits_ this)) ++ le_bytes 4 (nonce this))
             ++ le_bytes 4 (totalTX this)).
  rewrite (block_on_reader_ok _ _ _ _ _ _
             (readVarint_chunk raw p7 (Z.of_nat (length (hashes this)))
                (c9 ++ c10 ++ flags this) ltac:(lia)
                ltac:(rewrite Hraw_eq; unfold p7; rewrite <- ?app_assoc; reflexivity))).
  rewrite bind_get. cbn [snd Reader.data Reader.set_offset Reader.new].
  pose proof (read_hashes_ok (hashes this) raw (p7 ++ c8) (c10 ++ flags this)) as Hloop.
  fold c9 in Hloop.
  erewrite bind_ok.
  2: { apply (Hloop _ (length raw) 0);
         [rewrite Hraw_eq; unfold p7; rewrite <- ?app_assoc; reflexivity | exact Hhs |].
       assert (buf_length c9 <= buf_length raw).
       { rewrite Hraw_eq, !buf_length_app.
         pose proof (buf_length_nonneg c1). pose proof (buf_length_nonneg pb).
         pose proof (buf_length_nonneg mr). pose proof (buf_length_nonneg c4).
         pose proof (buf_length_nonneg c5). pose proof (buf_length_nonneg c6).
         pose proof (buf_length_nonneg c7). pose proof (buf_length_nonneg c8).
         pose proof (buf_length_nonneg c10). pose proof (buf_length_nonneg (flags this)).
         lia. }
       unfold buf_length in *. lia. }
  rewrite (block_on_reader_ok _ _ _ _ _ _
             (readVarBytes_chunk raw ((p7 ++ c8) ++ c9) (flags this) [] JUndefined Hfl
                ltac:(rewrite Hraw_eq; unfold p7; rewrite <- ?app_assoc, ?app_nil_r; reflexivity))).
  unfold update_block. cbn [fst snd set_tree set_header version prevBlock merkleRoot ts bits_
                            nonce totalTX height hashes flags txs map matches _validPartial].
  rewrite !Z.mod_small by assumption. reflexivity.
Qed.

End BlockRoundTrip.

(** *** The round trip on a block *)

Lemma hex_digit_value d :
  0 <= d < 16 ->
  exists c, hex_digit d = String c "" /\ BlockExamples.hex_value c = d.
Proof.
  intros Hd.
  assert (Hcases : d = 0 \/ d = 1 \/ d = 2 \/ d = 3 \/ d = 4 \/ d = 5 \/ d = 6 \/ d = 7
                   \/ d = 8 \/ d = 9 \/ d = 10 \/ d = 11 \/ d = 12 \/ d = 13 \/ d = 14
                   \/ d = 15) by lia.
  repeat (destruct Hcases as [-> | Hcases]; [eexists; split; reflexivity |]).
  subst d. eexists; split; reflexivity.
Qed.

Lemma hex_digit_one d : exists c, hex_digit d = String c "".
Proof.
  destruct d as [| p | p]; [eexists; reflexivity | | eexists; reflexivity].
  do 4 (destruct p as [p | p |]; try (eexists; reflexivity)).
Qed.

Lemma from_hex_to_hex b :
  Forall (fun x => 0 <= x < 256) b -> BlockExamples.from_hex (to_hex b) = b.
Proof.
  induction 1 as [| x b Hx _ IH]; [reflexivity |].
  cbn [to_hex].
  destruct (hex_digit_value (x / 16 mod 16)) as (hi & -> & Hhi);
    [apply Z.mod_pos_bound; lia |].
  destruct (hex_digit_value (x mod 16)) as (lo & -> & Hlo);
    [apply Z.mod_pos_bound; lia |].
  change (String hi "" +:+ String lo "" +:+ to_hex b)%string
    with (String hi (String lo (to_hex b))).
  cbn [BlockExamples.from_hex]. rewrite Hhi, Hlo, IH. f_equal.
  rewrite (Z.mod_small (x / 16)) by (split; [apply Z.div_pos | apply Z.div_lt_upper_bound]; lia).
  pose proof (Z.div_mod x 16 ltac:(lia)). lia.
Qed.

Lemma to_hex_length b : String.length (to_hex b) = (2 * length b)%nat.
Proof.
  induction b as [| x b IH]; [reflexivity |].
  cbn [to_hex].
  destruct (hex_digit_one (x / 16 mod 16)) as (hi & ->).
  destruct (hex_digit_one (x mod 16)) as (lo & ->).
  change (String hi "" +:+ String lo "" +:+ to_hex b)%string
    with (String hi (String lo (to_hex b))).
  cbn [String.length length]. rewrite IH. lia.
Qed.

Section BlockExample.
Import Examples MerkleExamples BlockExamples Merkle.

#[local] Existing Instance compact_size_laws.
#[local] Existing Instance compact_size_round_trip.
#[local] Existing Instance hex_codec.

#[local] Instance hex_codec_node_laws : NodeBufferLaws.
Proof. split; intros; cbn; try destruct (String.eqb _ _); reflexivity. Qed.

#[local] Instance hex_codec_laws : HexCodec.
Proof.
  split.
  - intros b. reflexivity.
  - intros b Hb. cbn. apply from_hex_to_hex, Hb.
  - intros b. cbn. rewrite to_hex_length. unfold buf_length.
    rewrite Nat2Z.inj_mul, Z.mul_comm. apply Z.div_mul. lia.
Qed.

(** X19, witness: the block [stored5], read into a block that holds a
    hash already. *)
Lemma block_fromRaw_toRaw_witness :
  exists raw,
    toRaw stored5 = Ok raw
    /\ getSize stored5 = Ok (buf_length raw)
    /\ buf_length raw
       = 84 + enc_sizeVarint (Z.of_nat (length (hashes stored5)))
         + 32 * Z.of_nat (length (hashes stored5))
         + enc_sizeVarint (buf_length (flags stored5)) + buf_length (flags stored5)
    /\ fromRaw receiver5 raw
       = (Ok tt,
          {| version := version stored5; prevBlock := prevBlock stored5;
             merkleRoot := merkleRoot stored5; ts := ts stored5; bits_ := bits_ stored5;
             nonce := nonce stored5; totalTX := totalTX stored5; height := height receiver5;
             hashes := hashes receiver5 ++ hashes stored5; flags := flags stored5;
             txs := txs receiver5; map := map receiver5; matches := matches receiver5;
             _validPartial := _validPartial receiver5 |}).
Proof.
  apply (block_fromRaw_toRaw stored5 receiver5).
  repeat (split; [vm_compute; intuition discriminate |]).
  split.
  { exists (hash256 [0]). split; [reflexivity |]. split; [reflexivity |].
    unfold is_bytes. apply (bool_decide_unpack _). vm_compute. reflexivity. }
  split.
  { exists (merkle_root (b_txs block5)). split; [vm_compute; reflexivity |].
    split; [vm_compute; reflexivity |].
    unfold is_bytes. apply (bool_decide_unpack _). vm_compute. reflexivity. }
  split.
  { vm_compute. repeat constructor. }
  split; vm_compute; reflexivity.
Defined.

(** The block [stored5] takes 216 bytes. *)
Example stored5_size : getSize stored5 = Ok 216.
Proof. vm_compute. reflexivity. Qed.

End BlockExample.

(** ** Coin compression: amounts *)

Section CompressFacts.
Import Compress.

Lemma exactly_in x : - MAX_EXACT <= x <= MAX_EXACT -> exactly x = Some x.
Proof.
  intros Hx. unfold exactly.
  replace (- MAX_EXACT <=? x) with true by (symmetry; apply Z.leb_le; lia).
  replace (x <=? MAX_EXACT) with true by (symmetry; apply Z.leb_le; lia).
  reflexivity.
Qed.

Lemma exactly_out x : MAX_EXACT < x -> exactly x = None.
Proof.
  intros Hx. unfold exactly.
  replace (x <=? MAX_EXACT) with false by (symmetry; apply Z.leb_gt; lia).
  rewrite andb_false_r. reflexivity.
Qed.

Lemma exactly_cases x :
  (- MAX_EXACT <= x <= MAX_EXACT /\ exactly x = Some x)
  \/ ((x < - MAX_EXACT \/ MAX_EXACT < x) /\ exactly x = None).
Proof.
  unfold exactly.
  destruct (Z.leb_spec (- MAX_EXACT) x); destruct (Z.leb_spec x MAX_EXACT); cbn [andb];
    [left | right | right | right]; split; (reflexivity || lia).
Qed.

Lemma exactly_Some x y : exactly x = Some y -> y = x /\ - MAX_EXACT <= x <= MAX_EXACT.
Proof.
  destruct (exactly_cases x) as [[Hb ->] | [_ ->]]; [| discriminate].
  intros Hy. inversion Hy. subst y. split; [reflexivity | exact Hb].
Qed.

Lemma MAX_EXACT_pos : 0 < MAX_EXACT.
Proof. reflexivity. Qed.

(** The loop of [compressValue] on a positive amount: it ends on the
    amount without its trailing zeros, nine of them at most, and on
    their number. *)
Lemma strip_zeros_spec (fuel : nat) : forall value exp,
  0 < value -> 0 <= exp <= 9 -> 9 - exp <= Z.of_nat fuel ->
  exists v e,
    strip_zeros fuel value exp = (v, e)
    /\ 0 < v /\ exp <= e <= 9
    /\ value = v * 10 ^ (e - exp)
    /\ (e < 9 -> Z.rem v 10 <> 0).
Proof.
  induction fuel as [| fuel IH]; intros value exp Hv He Hf.
  - exists value, exp. cbn [strip_zeros].
    replace (exp <? 9) with false by (symmetry; apply Z.ltb_ge; lia).
    rewrite andb_false_r, Z.sub_diag, Z.pow_0_r, Z.mul_1_r. repeat split; lia.
  - cbn [strip_zeros].
    destruct (Z.eqb_spec (Z.rem value 10) 0) as [Hr | Hr]; cbn [andb].
    + destruct (Z.ltb_spec exp 9) as [H9 | H9].
      * assert (Hq : value = 10 * Z.quot value 10).
        { pose proof (Z.quot_rem' value 10). lia. }
        destruct (IH (Z.quot value 10) (exp + 1)) as (v & e & Hs & Hv' & Hee & Hval & Hlast);
          [lia | lia | lia |].
        exists v, e. split; [exact Hs |]. split; [exact Hv' |]. split; [lia |].
        split; [| exact Hlast].
        replace (e - exp) with (Z.succ (e - (exp + 1))) by lia.
        rewrite Z.pow_succ_r by lia. rewrite Hq at 1. rewrite Hval at 1. lia.
      * exists value, exp. rewrite Z.sub_diag, Z.pow_0_r, Z.mul_1_r. repeat split; lia.
    + exists value, exp. rewrite Z.sub_diag, Z.pow_0_r, Z.mul_1_r.
      repeat split; lia.
Qed.

(** The loop of [compressValue] on an amount of which the trailing
    zeros are known. *)
Lemma strip_zeros_pow (e : nat) : forall fuel n exp,
  0 <= exp -> exp + Z.of_nat e <= 9 -> (e <= fuel)%nat ->
  (exp + Z.of_nat e < 9 -> Z.rem n 10 <> 0) ->
  strip_zeros fuel (n * 10 ^ Z.of_nat e) exp = (n, exp + Z.of_nat e).
Proof.
  induction e as [| e IH]; intros fuel n exp He H9 Hf Hn.
  - cbn [Z.of_nat]. rewrite Z.pow_0_r, Z.mul_1_r, Z.add_0_r in *.
    assert (Hc : (Z.rem n 10 =? 0) && (exp <? 9) = false).
    { destruct (Z.ltb_spec exp 9) as [Hlt | Hge]; [| apply andb_false_r].
      rewrite andb_true_r. apply Z.eqb_neq, Hn, Hlt. }
    destruct fuel; cbn [strip_zeros]; rewrite Hc; reflexivity.
  - destruct fuel as [| fuel]; [lia |].
    cbn [strip_zeros].
    rewrite Nat2Z.inj_succ, Z.pow_succ_r by lia.
    replace (n * (10 * 10 ^ Z.of_nat e)) with ((n * 10 ^ Z.of_nat e) * 10) by lia.
    rewrite Z.rem_mul by lia. rewrite Z.quot_mul by lia.
    replace (exp <? 9) with true by (symmetry; apply Z.ltb_lt; lia).
    cbn [Z.eqb andb].
    rewrite (IH fuel n (exp + 1)); [f_equal; lia | lia | lia | lia |].
    intros Hlt. apply Hn. lia.
Qed.

(** A power of ten with an exponent up to nine. *)
Lemma pow10_bound e : 0 <= e <= 9 -> 1 + 9 * e <= 10 ^ e.
Proof.
  intros He.
  assert (Hc : e = 0 \/ e = 1 \/ e = 2 \/ e = 3 \/ e = 4 \/ e = 5 \/ e = 6 \/ e = 7
               \/ e = 8 \/ e = 9) by lia.
  repeat (destruct Hc as [-> | Hc]; [vm_compute; discriminate |]).
  subst e. vm_compute. discriminate.
Qed.

Local Ltac pass :=
  match goal with
  | |- context [exactly ?x] => rewrite (exactly_in x) by lia; cbn [mbind option_bind]
  end.

(** The loop of [decompressValue] multiplies by a power of ten, as far
    as the product is exact. *)
Lemma scale_exactly (fuel : nat) : forall n exp,
  0 <= exp <= Z.of_nat fuel -> 0 <= n <= MAX_EXACT ->
  scale fuel n exp = exactly (n * 10 ^ exp).
Proof.
  induction fuel as [| fuel IH]; intros n exp He Hn.
  - assert (exp = 0) as -> by lia. cbn [scale Z.ltb Z.compare].
    rewrite Z.pow_0_r, Z.mul_1_r, exactly_in by lia. reflexivity.
  - cbn [scale]. destruct (Z.ltb_spec 0 exp) as [Hp | Hz].
    + assert (Hpow : 10 ^ exp = 10 * 10 ^ (exp - 1)).
      { replace exp with (Z.succ (exp - 1)) at 1 by lia. apply Z.pow_succ_r. lia. }
      assert (Hpos : 0 < 10 ^ (exp - 1)) by (apply Z.pow_pos_nonneg; lia).
      destruct (exactly_cases (n * 10)) as [[Hb ->] | [Hb ->]]; cbn [mbind option_bind].
      * rewrite IH by lia. f_equal. rewrite Hpow. lia.
      * symmetry. apply exactly_out. rewrite Hpow. nia.
    + assert (exp = 0) as -> by lia.
      rewrite Z.pow_0_r, Z.mul_1_r, exactly_in by lia. reflexivity.
Qed.

(** [compressValue] on a positive amount [v * 10 ^ e] without further
    trailing zeros, or with nine of them: the compressed form, as far
    as it is exact. *)
Lemma compressValue_exactly (value : Z) :
  0 < value <= MAX_EXACT ->
  exists v e,
    0 < v /\ 0 <= e <= 9 /\ value = v * 10 ^ e /\ (e < 9 -> Z.rem v 10 <> 0)
    /\ compressValue value
       = exactly (if e <? 9 then 1 + 10 * (9 * Z.quot v 10 + Z.rem v 10 - 1) + e
                  else 10 + 10 * (v - 1)).
Proof.
  intros Hv.
  destruct (strip_zeros_spec 9 value 0) as (v & e & Hs & Hv' & He & Hval & Hlast);
    [lia | lia | lia |].
  rewrite Z.sub_0_r in Hval.
  exists v, e. split; [exact Hv' |]. split; [lia |]. split; [exact Hval |].
  split; [exact Hlast |].
  assert (Hpos : 0 < 10 ^ e) by (apply Z.pow_pos_nonneg; lia).
  assert (Hvv : v <= value) by nia.
  pose proof (Z.quot_rem' v 10) as Hqr.
  pose proof (Z.rem_bound_pos v 10 ltac:(lia) ltac:(lia)) as Hrb.
  unfold compressValue. pass.
  destruct (Z.eqb_spec value 0) as [H0 | _]; [lia |].
  rewrite Hs.
  destruct (Z.ltb_spec e 9) as [H9 | H9].
  - specialize (Hlast H9).
    set (last := Z.rem v 10) in *.
    assert (Hq : Z.quot (v - last) 10 = Z.quot v 10).
    { replace (v - last) with (Z.quot v 10 * 10) by lia. apply Z.quot_mul. lia. }
    rewrite Hq. set (q := Z.quot v 10) in *.
    assert (Hq0 : 0 <= q) by (apply Z.quot_pos; lia).
    pass. pass. pass.
    destruct (exactly_cases (10 * (9 * q + last - 1))) as [[Hb ->] | [Hb ->]];
      cbn [mbind option_bind]; [| symmetry; apply exactly_out; lia].
    destruct (exactly_cases (1 + 10 * (9 * q + last - 1))) as [[Hb' ->] | [Hb' ->]];
      cbn [mbind option_bind]; [| symmetry; apply exactly_out; lia].
    reflexivity.
  - pass.
    destruct (exactly_cases (10 * (v - 1))) as [[Hb ->] | [Hb ->]];
      cbn [mbind option_bind]; [| symmetry; apply exactly_out; lia].
    reflexivity.
Qed.

(** [decompressValue] on a positive number: the amount that its digits
    stand for, as far as it is exact. *)
Lemma decompressValue_exactly (value : Z) :
  0 < value <= MAX_EXACT ->
  decompressValue value
  = exactly ((if Z.rem (value - 1) 10 <? 9
              then Z.quot (Z.quot (value - 1) 10) 9 * 10 + Z.rem (Z.quot (value - 1) 10) 9 + 1
              else Z.quot (value - 1) 10 + 1)
             * 10 ^ Z.rem (value - 1) 10).
Proof.
  intros Hv. unfold decompressValue. pass.
  destruct (Z.eqb_spec value 0) as [H0 | _]; [lia |].
  pass.
  pose proof (Z.quot_rem' (value - 1) 10) as Hqr.
  pose proof (Z.rem_bound_pos (value - 1) 10 ltac:(lia) ltac:(lia)) as Hrb.
  set (e := Z.rem (value - 1) 10) in *.
  assert (Hq : Z.quot (value - 1 - e) 10 = Z.quot (value - 1) 10).
  { replace (value - 1 - e) with (Z.quot (value - 1) 10 * 10) by lia. apply Z.quot_mul. lia. }
  rewrite Hq. set (q := Z.quot (value - 1) 10) in *.
  assert (Hq0 : 0 <= q) by (apply Z.quot_pos; lia).
  destruct (Z.ltb_spec e 9) as [H9 | H9].
  - pose proof (Z.quot_rem' q 9) as Hqr9.
    pose proof (Z.rem_bound_pos q 9 ltac:(lia) ltac:(lia)) as Hrb9.
    set (last := Z.rem q 9) in *.
    assert (Hq9 : Z.quot (q - last) 9 = Z.quot q 9).
    { replace (q - last) with (Z.quot q 9 * 9) by lia. apply Z.quot_mul. lia. }
    rewrite Hq9. set (p := Z.quot q 9) in *.
    assert (Hp0 : 0 <= p) by (apply Z.quot_pos; lia).
    pass. pass. pass. apply scale_exactly; [cbn; lia | lia].
  - pass. apply scale_exactly; [cbn; lia | lia].
Qed.

(** X20.  [decompressValue] undoes [compressValue] wherever the numbers
    that [compressValue] computes are exact.  For an amount that is not
    negative: they are exact when nine times the amount is at most
    [2^53]; and when they are exact, the compressed form is not
    negative and at most nine times the amount, the numbers that
    [decompressValue] computes from it are exact, and it is decompressed
    to the amount. *)
Theorem decompress_compress_value (value : Z) :
  0 <= value ->
  (9 * value <= MAX_EXACT -> exists c, compressValue value = Some c)
  /\ forall c,
       compressValue value = Some c ->
       0 <= c <= 9 * value /\ decompressValue c = Some value.
Proof.
  intros Hv.
  pose proof MAX_EXACT_pos as HM.
  destruct (Z.eq_dec value 0) as [-> | Hnz].
  { split; [intros _; exists 0; reflexivity |].
    intros c Hc. vm_compute in Hc. inversion Hc. split; [lia | reflexivity]. }
  assert (Hsome : forall c, compressValue value = Some c ->
            0 <= c <= 9 * value /\ decompressValue c = Some value
            /\ value <= MAX_EXACT).
  { intros c Hc.
    assert (HvM : value <= MAX_EXACT).
    { unfold compressValue in Hc.
      destruct (exactly_cases value) as [[Hb _] | [_ Hn]]; [lia |].
      rewrite Hn in Hc. discriminate. }
    destruct (compressValue_exactly value) as (v & e & Hv' & He & Hval & Hlast & Heq); [lia |].
    rewrite Heq in Hc. apply exactly_Some in Hc. destruct Hc as [-> HcM].
    pose proof (pow10_bound e ltac:(lia)) as Hpow.
    pose proof (Z.quot_rem' v 10) as Hqr.
    pose proof (Z.rem_bound_pos v 10 ltac:(lia) ltac:(lia)) as Hrb.
    destruct (Z.ltb_spec e 9) as [H9 | H9].
    - specialize (Hlast H9).
      set (last := Z.rem v 10) in *. set (q := Z.quot v 10) in *.
      assert (Hq0 : 0 <= q) by (apply Z.quot_pos; lia).
      split; [split; [lia | rewrite Hval; nia] |].
      split; [| exact HvM].
      rewrite decompressValue_exactly by lia.
      replace (1 + 10 * (9 * q + last - 1) + e - 1) with (e + (9 * q + last - 1) * 10) by lia.
      rewrite Z.rem_add by (first [lia | nia]).
      rewrite (Z.rem_small e 10) by lia.
      rewrite Z.quot_add by (first [lia | nia]).
      rewrite (Z.quot_small e 10), Z.add_0_l by lia.
      replace (e <? 9) with true by (symmetry; apply Z.ltb_lt; lia).
      replace (9 * q + last - 1) with ((last - 1) + q * 9) by lia.
      rewrite Z.rem_add by (first [lia | nia]).
      rewrite (Z.rem_small (last - 1) 9) by lia.
      rewrite Z.quot_add by (first [lia | nia]).
      rewrite (Z.quot_small (last - 1) 9), Z.add_0_l by lia.
      replace ((q * 10 + (last - 1) + 1) * 10 ^ e) with value by (rewrite Hval; f_equal; lia).
      apply exactly_in. lia.
    - assert (e = 9) as -> by lia.
      split; [split; [lia | rewrite Hval; lia] |].
      split; [| exact HvM].
      rewrite decompressValue_exactly by lia.
      replace (10 + 10 * (v - 1) - 1) with (9 + (v - 1) * 10) by lia.
      rewrite Z.rem_add by lia.
      change (Z.rem 9 10) with 9.
      rewrite Z.quot_add by (first [lia | nia]).
      change (Z.quot 9 10) with 0. rewrite Z.add_0_l.
      cbn [Z.ltb Z.compare Pos.compare Pos.compare_cont].
      replace ((v - 1 + 1) * 10 ^ 9) with value by (rewrite Hval; f_equal; lia).
      apply exactly_in. lia. }
  split.
  - intros Hb.
    destruct (compressValue_exactly value) as (v & e & Hv' & He & Hval & Hlast & Heq); [lia |].
    destruct (exactly_cases (if e <? 9 then 1 + 10 * (9 * Z.quot v 10 + Z.rem v 10 - 1) + e
                             else 10 + 10 * (v - 1))) as [[_ Hin] | [Hout Hnone]].
    + eexists. rewrite Heq. exact Hin.
    + exfalso.
      pose proof (pow10_bound e ltac:(lia)) as Hpow.
      pose proof (Z.quot_rem' v 10) as Hqr.
      pose proof (Z.rem_bound_pos v 10 ltac:(lia) ltac:(lia)) as Hrb.
      assert (Hq0 : 0 <= Z.quot v 10) by (apply Z.quot_pos; lia).
      destruct (Z.ltb_spec e 9) as [H9 | H9].
      * specialize (Hlast H9). rewrite Hval in Hb. nia.
      * assert (e = 9) as -> by lia. rewrite Hval in Hb. lia.
  - intros c Hc. destruct (Hsome c Hc) as (H1 & H2 & _). split; assumption.
Qed.

(** X21.  [compressValue] undoes [decompressValue] wherever the numbers
    that [decompressValue] computes are exact.  For a number that is not
    negative: they are exact when the number is at most [2^53 / 10^9];
    and when they are exact, the amount is not negative, the numbers
    that [compressValue] computes from it are exact, and its compressed
    form is the number. *)
Theorem compress_decompress_value (value : Z) :
  0 <= value ->
  (value * 10 ^ 9 <= MAX_EXACT -> exists d, decompressValue value = Some d)
  /\ forall d,
       decompressValue value = Some d ->
       0 <= d /\ compressValue d = Some value.
Proof.
  intros Hv.
  pose proof MAX_EXACT_pos as HM.
  destruct (Z.eq_dec value 0) as [-> | Hnz].
  { split; [intros _; exists 0; reflexivity |].
    intros d Hd. vm_compute in Hd. inversion Hd. split; [lia | reflexivity]. }
  pose proof (Z.quot_rem' (value - 1) 10) as Hqr.
  pose proof (Z.rem_bound_pos (value - 1) 10 ltac:(lia) ltac:(lia)) as Hrb.
  assert (Hq0 : 0 <= Z.quot (value - 1) 10) by (apply Z.quot_pos; lia).
  assert (Hpos : 0 < 10 ^ Z.rem (value - 1) 10) by (apply Z.pow_pos_nonneg; lia).
  assert (Hp9 : 10 ^ Z.rem (value - 1) 10 <= 10 ^ 9) by (apply Z.pow_le_mono_r; lia).
  pose proof (Z.quot_rem' (Z.quot (value - 1) 10) 9) as Hqr9.
  pose proof (Z.rem_bound_pos (Z.quot (value - 1) 10) 9 ltac:(lia) ltac:(lia)) as Hrb9.
  assert (Hp0 : 0 <= Z.quot (Z.quot (value - 1) 10) 9) by (apply Z.quot_pos; lia).
  split.
  - intros Hb.
    assert (HvM : value <= MAX_EXACT) by nia.
    rewrite decompressValue_exactly by lia.
    eexists. apply exactly_in.
    set (e := Z.rem (value - 1) 10) in *. set (q := Z.quot (value - 1) 10) in *.
    set (last := Z.rem q 9) in *. set (p := Z.quot q 9) in *.
    destruct (Z.ltb_spec e 9) as [H9 | H9]; nia.
  - intros d Hd.
    assert (HvM : value <= MAX_EXACT).
    { unfold decompressValue in Hd.
      destruct (exactly_cases value) as [[Hb _] | [_ Hn]]; [lia |].
      rewrite Hn in Hd. discriminate. }
    rewrite decompressValue_exactly in Hd by lia.
    apply exactly_Some in Hd. destruct Hd as [-> HdM].
    set (e := Z.rem (value - 1) 10) in *. set (q := Z.quot (value - 1) 10) in *.
    set (last := Z.rem q 9) in *. set (p := Z.quot q 9) in *.
    destruct (Z.ltb_spec e 9) as [H9 | H9].
    + set (n := p * 10 + last + 1) in *.
      assert (Hn1 : 1 <= n) by (unfold n; lia).
      split; [nia |].
      unfold compressValue. pass.
      destruct (Z.eqb_spec (n * 10 ^ e) 0) as [H0 | _]; [nia |].
      assert (Hn10 : Z.rem n 10 = last + 1).
      { unfold n. replace (p * 10 + last + 1) with ((last + 1) + p * 10) by lia.
        rewrite Z.rem_add by (first [lia | nia]). apply Z.rem_small. lia. }
      rewrite <- (Z2Nat.id e) by lia.
      rewrite (strip_zeros_pow (Z.to_nat e) 9 n 0); [| lia | lia | lia | lia].
      rewrite Z.add_0_l, Z2Nat.id by lia.
      replace (e <? 9) with true by (symmetry; apply Z.ltb_lt; lia).
      rewrite Hn10.
      replace (n - (last + 1)) with (p * 10) by (unfold n; lia).
      rewrite Z.quot_mul by lia.
      pass. pass. pass. pass. pass. pass. f_equal. lia.
    + assert (He : e = 9) by lia.
      split; [nia |].
      unfold compressValue. pass.
      destruct (Z.eqb_spec ((q + 1) * 10 ^ e) 0) as [H0 | _]; [nia |].
      rewrite He. change 9 with (Z.of_nat 9) at 1.
      rewrite (strip_zeros_pow 9 9 (q + 1) 0); [| lia | lia | lia | lia].
      change (0 + Z.of_nat 9 <? 9) with false. cbn iota.
      pass. pass. pass. f_equal. lia.
Qed.

(** Below zero [compressValue] is no longer undone: the compressed
    form of -10 is decompressed to 0. *)
Example compress_negative :
  compressValue (-10) = Some (-18) /\ decompressValue (-18) = Some 0.
Proof. split; reflexivity. Qed.

(** Past [2^53] the numbers of the code are rounded, and the model
    stops: the compressed form of 2099999999999999 would be
    18899999999999991, which no double holds. *)
Example compress_inexact :
  compressValue 2099999999999999 = None
  /\ MAX_EXACT < 18899999999999991.
Proof. split; reflexivity. Qed.

(** X20, witness: fifty bitcoin, in satoshi. *)
Lemma decompress_compress_value_witness :
  compressValue 5000000000 = Some 50
  /\ 0 <= 50 <= 9 * 5000000000 /\ decompressValue 50 = Some 5000000000.
Proof.
  split; [reflexivity |].
  apply (decompress_compress_value 5000000000); [lia | reflexivity].
Defined.

(** X21, witness: the compressed form 50, of five thousand million. *)
Lemma compress_decompress_value_witness :
  decompressValue 50 = Some 5000000000
  /\ 0 <= 5000000000 /\ compressValue 5000000000 = Some 50.
Proof.
  split; [reflexivity |].
  apply (compress_decompress_value 50); [lia | reflexivity].
Defined.

Example compress_fifty_bitcoin :
  compressValue 5000000000 = Some 50 /\ decompressValue 50 = Some 5000000000.
Proof. split; reflexivity. Qed.

(** The bound of X20 is sufficient, not necessary: twenty-one million
    bitcoin are past it, and compressed exactly. *)
Example compress_max_money :
  MAX_EXACT < 9 * 2100000000000000
  /\ compressValue 2100000000000000 = Some 21000000
  /\ decompressValue 21000000 = Some 2100000000000000.
Proof. repeat split; reflexivity. Qed.

End CompressFacts.

(** ** Coin compression: keys *)

(** A property of bytes that holds of each of the 256. *)
Lemma byte_cases (P : Z -> bool) :
  forallb P (Z.of_nat <$> seq 0 256) = true ->
  forall k, 0 <= k < 256 -> P k = true.
Proof.
  intros Hall k Hk. rewrite forallb_forall in Hall. apply Hall.
  apply list_elem_of_In, list_elem_of_fmap. exists (Z.to_nat k).
  split; [lia |]. apply elem_of_seq. lia.
Qed.

Lemma byte_at_lookup (b : Buffer) v : byte_at b 0 = v -> v <> 0 -> b !! 0%nat = Some v.
Proof.
  unfold byte_at. change (Z.to_nat 0) with 0%nat.
  destruct (b !! 0%nat) as [x |]; intros Hb Hv;
    [change (x = v) in Hb; subst x; reflexivity | change (0 = v) in Hb; congruence].
Qed.

Lemma byte_at_set (b : Buffer) v :
  0 < buf_length b -> byte_at (Compress.set_byte 0 v b) 0 = v mod 256.
Proof.
  destruct b as [| x b]; unfold buf_length; cbn [length]; [lia |]. intros _. reflexivity.
Qed.

Lemma set_byte_twice (b : Buffer) v w :
  Compress.set_byte 0 v (Compress.set_byte 0 w b) = Compress.set_byte 0 v b.
Proof. destruct b; reflexivity. Qed.

Lemma set_byte_same (b : Buffer) v :
  0 <= v < 256 -> b !! 0%nat = Some v -> Compress.set_byte 0 v b = b.
Proof.
  intros Hv Hb. unfold Compress.set_byte. rewrite Z.mod_small by exact Hv.
  apply list_insert_id, Hb.
Qed.

Lemma set_byte_length (b : Buffer) i v : buf_length (Compress.set_byte i v b) = buf_length b.
Proof. unfold Compress.set_byte, buf_length. rewrite length_insert. reflexivity. Qed.

Section KeyFacts.
Context `{ECPoint}.
Import Compress.

(** X22.  [decompressKey] gives the buffer back as it was: when the
    call returns, the buffer it was given holds the bytes it held
    before.  When the call throws, the buffer is either untouched (it
    has not 33 bytes) or the conversion has thrown, and then the first
    byte is left with its six high bits cleared. *)
Theorem decompressKey_restores (key : Buffer) :
  0 <= byte_at key 0 < 256 ->
  match decompressKey key with
  | (Ok _, key') => key' = key
  | (Throw _, key') =>
      (buf_length key <> 33 /\ key' = key)
      \/ (is_ok (publicKeyConvert key' false) = false
          /\ key' = <[0%nat := Z.land (byte_at key 0) 3]> key)
  end.
Proof.
  intros Hb. unfold decompressKey.
  rewrite bind_get.
  destruct (Z.eqb_spec (buf_length key) 33) as [Hlen | Hlen].
  2: { rewrite bind_assert_false by reflexivity. left. split; [exact Hlen | reflexivity]. }
  rewrite bind_assert_true by reflexivity.
  destruct (js_ushr (byte_at key 0) 2 =? 0) eqn:Hf; [reflexivity |].
  rewrite bind_put, bind_get.
  assert (Hlow : js_and (byte_at key 0) 3 mod 256 = Z.land (byte_at key 0) 3).
  { apply Z.eqb_eq.
    apply (byte_cases (fun k => js_and k 3 mod 256 =? Z.land k 3)); [vm_compute; reflexivity |].
    exact Hb. }
  assert (Hkey1 : set_byte 0 (js_and (byte_at key 0) 3) key
                  = <[0%nat := Z.land (byte_at key 0) 3]> key).
  { unfold set_byte. rewrite Hlow. reflexivity. }
  set (key1 := set_byte 0 (js_and (byte_at key 0) 3) key) in *.
  unfold bind at 1.
  destruct (publicKeyConvert key1 false) as [out | e] eqn:Hc.
  - rewrite bind_put. unfold ret.
    unfold key1. rewrite byte_at_set by lia. rewrite set_byte_twice.
    assert (Hback : js_or (js_and (byte_at key 0) 3 mod 256)
                      (js_shl (js_ushr (byte_at key 0) 2) 2) mod 256
                    = byte_at key 0).
    { apply Z.eqb_eq.
      apply (byte_cases (fun k => js_or (js_and k 3 mod 256) (js_shl (js_ushr k 2) 2) mod 256
                                  =? k));
        [vm_compute; reflexivity | exact Hb]. }
    unfold set_byte. rewrite Hback. apply list_insert_id.
    unfold byte_at. change (Z.to_nat 0) with 0%nat.
    destruct key as [| x key]; [unfold buf_length in Hlen; cbn in Hlen; lia | reflexivity].
  - right. rewrite <- Hkey1. split; [rewrite Hc; reflexivity | reflexivity].
Qed.

Context `{!ECPointLaws}.

(** X23.  [decompressKey] undoes [compressKey]: what [compressKey]
    returns for a key is decompressed to this key, and the buffer that
    held the compressed form holds it again.  The curve is assumed to
    convert a compressed point back to the point it came from. *)
Theorem decompress_compress_key (key packed : Buffer) :
  compressKey key = Ok packed ->
  buf_length packed = 33 /\ decompressKey packed = (Ok key, packed).
Proof.
  unfold compressKey. cbn zeta.
  destruct ((byte_at key 0 =? 2) || (byte_at key 0 =? 3)) eqn:Hc.
  - destruct (Z.eqb_spec (buf_length key) 33) as [Hlen | Hlen]; [| discriminate].
    intros Hp. inversion Hp; subst packed. split; [exact Hlen |].
    unfold decompressKey. rewrite bind_get, <- Hlen, Z.eqb_refl, bind_assert_true by reflexivity.
    apply orb_true_iff in Hc as [Hc | Hc]; apply Z.eqb_eq in Hc; rewrite Hc; reflexivity.
  - destruct ((byte_at key 0 =? 4) || (byte_at key 0 =? 6) || (byte_at key 0 =? 7)) eqn:Hu;
      [| discriminate].
    assert (Hprefix : byte_at key 0 = 4 \/ byte_at key 0 = 6 \/ byte_at key 0 = 7).
    { apply orb_true_iff in Hu as [Hu | Hu]; [apply orb_true_iff in Hu as [Hu | Hu] |];
        apply Z.eqb_eq in Hu; tauto. }
    destruct (publicKeyConvert key true) as [out | e] eqn:Hconv; [| discriminate].
    destruct (convert_compressed key out Hconv) as [Hlen Hout].
    pose proof (convert_back key out Hconv Hprefix) as Hback.
    rewrite set_byte_length, Hlen. cbn [Z.eqb Pos.eqb].
    intros Hp. inversion Hp as [Hpacked]. clear Hp.
    split; [rewrite set_byte_length; exact Hlen |].
    set (f := byte_at key 0) in *. set (p := byte_at out 0) in *.
    assert (Hbits : js_ushr (js_or p (js_shl f 2) mod 256) 2 = f
                    /\ js_and (js_or p (js_shl f 2) mod 256) 3 mod 256 = p
                    /\ js_or (p mod 256) (js_shl f 2) = js_or p (js_shl f 2)
                    /\ 0 <= p < 256 /\ 0 <= f < 256 /\ f <> 0 /\ p <> 0).
    { destruct Hout as [-> | ->]; destruct Hprefix as [-> | [-> | ->]];
        vm_compute; intuition discriminate. }
    destruct Hbits as (Hfmt & Hlow & Hor & Hp & Hf & Hf0 & Hp0).
    assert (Hout0 : out !! 0%nat = Some p) by (apply byte_at_lookup; [reflexivity | exact Hp0]).
    assert (Hkey0 : key !! 0%nat = Some f) by (apply byte_at_lookup; [reflexivity | exact Hf0]).
    unfold decompressKey. rewrite bind_get.
    rewrite set_byte_length, Hlen. cbn [Z.eqb Pos.eqb]. rewrite bind_assert_true by reflexivity.
    rewrite byte_at_set by lia. rewrite Hfmt.
    replace (f =? 0) with false by (symmetry; apply Z.eqb_neq; exact Hf0).
    rewrite bind_put, bind_get. rewrite set_byte_twice.
    unfold set_byte at 1 2 3. rewrite Hlow. rewrite (list_insert_id out 0 p Hout0).
    unfold bind at 1. rewrite Hback. rewrite bind_put. unfold ret.
    f_equal.
    + f_equal. unfold set_byte. rewrite list_insert_insert_eq.
      rewrite Z.mod_small by exact Hf. apply list_insert_id, Hkey0.
    + unfold set_byte. rewrite list_insert_insert_eq. reflexivity.
Qed.

End KeyFacts.

Section KeyCompressionExamples.
Import Compress PointExamples.

#[local] Existing Instance toy_curve.

#[local] Instance toy_curve_laws : ECPointLaws.
Proof.
  split.
  - intros key out. cbn [publicKeyConvert toy_curve]. unfold toy_convert.
    destruct (_ && _ && _) eqn:Hc; [| discriminate].
    intros Ho. inversion Ho; subst out. clear Ho.
    apply andb_true_iff in Hc as [Hc _]. apply andb_true_iff in Hc as [Hlen _].
    apply Z.eqb_eq in Hlen.
    split.
    + unfold buf_length in *. cbn [length]. rewrite length_take, length_drop. lia.
    + change (byte_at ((2 + byte_at (take 32 (drop 1 key)) 31 mod 2) :: take 32 (drop 1 key)) 0)
        with (2 + byte_at (take 32 (drop 1 key)) 31 mod 2).
      pose proof (Z.mod_pos_bound (byte_at (take 32 (drop 1 key)) 31) 2 ltac:(lia)). lia.
  - intros key out. cbn [publicKeyConvert toy_curve]. unfold toy_convert.
    destruct (_ && _ && _) eqn:Hc; [| discriminate].
    intros Ho _. inversion Ho; subst out. clear Ho.
    apply andb_true_iff in Hc as [Hc Hy]. apply andb_true_iff in Hc as [Hlen _].
    apply Z.eqb_eq in Hlen. apply bool_decide_eq_true in Hy.
    set (x := take 32 (drop 1 key)) in *.
    assert (Hx : length x = 32%nat).
    { unfold x. unfold buf_length in Hlen. rewrite length_take, length_drop. lia. }
    change (drop 1 ((2 + byte_at x 31 mod 2) :: x)) with x.
    rewrite (take_ge x 32) by lia.
    change (byte_at ((2 + byte_at x 31 mod 2) :: x) 0) with (2 + byte_at x 31 mod 2).
    rewrite Z.eqb_refl, andb_true_r.
    replace (buf_length ((2 + byte_at x 31 mod 2) :: x) =? 33) with true
      by (symmetry; apply Z.eqb_eq; unfold buf_length; cbn [length]; lia).
    destruct key as [| k0 key]; [unfold buf_length in Hlen; cbn in Hlen; lia |].
    change (<[0%nat := 4]> (k0 :: key)) with (4 :: key).
    do 2 f_equal.
    change (drop 33 (k0 :: key)) with (drop 32 key) in Hy.
    transitivity (take 32 key ++ drop 32 key); [rewrite Hy; reflexivity | apply take_drop].
Qed.

(** X22, witness: a buffer with the prefix 31, which stands for no
    point; the conversion throws, and the prefix is left as 3. *)
Lemma decompressKey_restores_witness :
  match decompressKey stray_key with
  | (Ok _, key') => key' = stray_key
  | (Throw _, key') =>
      (buf_length stray_key <> 33 /\ key' = stray_key)
      \/ (is_ok (publicKeyConvert key' false) = false
          /\ key' = <[0%nat := Z.land (byte_at stray_key 0) 3]> stray_key)
  end.
Proof. apply (decompressKey_restores stray_key). vm_compute. intuition discriminate. Defined.

Example decompressKey_stray :
  decompressKey stray_key = (Throw "Invalid point.", 3 :: (Z.of_nat <$> seq 1 32)).
Proof. vm_compute. reflexivity. Qed.

(** X23, witness: a point in the hybrid format. *)
Lemma decompress_compress_key_witness :
  let packed := 0x1e :: (Z.of_nat <$> seq 1 32) in
  buf_length packed = 33 /\ decompressKey packed = (Ok hybrid_key, packed).
Proof. apply (decompress_compress_key hybrid_key). vm_compute. reflexivity. Defined.

End KeyCompressionExamples.

(** ** The transport: a rekey on both sides *)

Section Rekeying.
Context `{ChaChaPoly} `{SessionCrypto} `{Encoding} `{NodeBuffer}.
Import BIP151.


(** The keys that [rekey()] derives. *)
Local Abbreviation next_k1 i a :=
  (hash256 (copy_into (copy_into (buf_zero 64) 0 i) 32 a)).

Local Abbreviation next_k2 i a b :=
  (hash256 (copy_into (copy_into (copy_into (buf_zero 64) 0 i) 32 a) 32 b)).



End Rekeying.

Section RekeyingWitness.
Import Examples TransportExamples AgreementExamples BIP151.


(** The keys of the two sessions before and after the rekey differ. *)
Example rekey_changes_keys :
  k1 (output (maybeRekey [] 10 shaken.1).2) <> k1 (output shaken.1)
  /\ k2 (output (maybeRekey [] 10 shaken.1).2) <> k2 (output shaken.1).
Proof. split; vm_compute; discriminate. Qed.

End RekeyingWitness.

(** ** Mnemonics: bits *)

Lemma to_int32_small x : 0 <= x < 2 ^ 31 -> to_int32 x = x.
Proof.
  intros Hx. unfold to_int32, to_uint32. rewrite Z.mod_small by lia.
  destruct (Z.ltb_spec x (2 ^ 31)); lia.
Qed.

(** [(a >>> n) & 1] is the bit [n] of [a]. *)
Lemma low_bit a n :
  0 <= a < 2 ^ 32 -> 0 <= n < 32 -> js_and (js_ushr a n) 1 = Z.b2z (Z.testbit a n).
Proof.
  intros Ha Hn. rewrite js_ushr_exact by assumption.
  rewrite Z.testbit_spec' by lia.
  assert (Hp : 0 < 2 ^ n) by (apply Z.pow_pos_nonneg; lia).
  assert (Hq : 0 <= a / 2 ^ n < 2 ^ 32).
  { split; [apply Z.div_pos; lia |].
    apply Z.div_lt_upper_bound; [lia |]. nia. }
  unfold js_and.
  destruct (Z.eq_dec n 0) as [-> | Hn0].
  - change (2 ^ 0) with 1 in *. rewrite Z.div_1_r in *.
    change (to_int32 1) with 1.
    change 1 with (Z.ones 1) at 1.
    unfold to_int32 at 2, to_uint32. rewrite (Z.mod_small a) by lia.
    destruct (Z.ltb_spec a (2 ^ 31)) as [Hlt | Hge].
    + rewrite Z.land_ones by lia. change (2 ^ 1) with 2.
      apply to_int32_small. pose proof (Z.mod_pos_bound a 2 ltac:(lia)). lia.
    + rewrite Z.land_ones by lia. change (2 ^ 1) with 2.
      replace (a - 2 ^ 32) with (a + (- 2 ^ 31) * 2) by lia.
      rewrite Z.mod_add by lia.
      apply to_int32_small. pose proof (Z.mod_pos_bound a 2 ltac:(lia)). lia.
  - assert (Hq31 : a / 2 ^ n < 2 ^ 31).
    { apply Z.div_lt_upper_bound; [lia |].
      assert (2 <= 2 ^ n).
      { replace n with (Z.succ (n - 1)) by lia. rewrite Z.pow_succ_r by lia.
        assert (0 < 2 ^ (n - 1)) by (apply Z.pow_pos_nonneg; lia). lia. }
      nia. }
    rewrite (to_int32_small (a / 2 ^ n)) by lia.
    change (to_int32 1) with 1. change 1 with (Z.ones 1) at 1.
    rewrite Z.land_ones by lia. change (2 ^ 1) with 2.
    apply to_int32_small. pose proof (Z.mod_pos_bound (a / 2 ^ n) 2 ltac:(lia)). lia.
Qed.

(** [index <<= 1; index |= b] for a bit [b]. *)
Lemma push_bit index (b : bool) :
  0 <= index < 2 ^ 29 -> js_or (js_shl index 1) (Z.b2z b) = 2 * index + Z.b2z b.
Proof.
  intros Hi. change (2 ^ 29) with 536870912 in Hi.
  rewrite js_shl_exact by (change (2 ^ 1) with 2; change (2 ^ 31) with 2147483648; lia).
  change (2 ^ 1) with 2.
  unfold js_or.
  assert (Hb : 0 <= Z.b2z b <= 1) by (destruct b; cbn; lia).
  rewrite (to_int32_small (index * 2)), (to_int32_small (Z.b2z b))
    by (change (2 ^ 31) with 2147483648; lia).
  assert (Hl : Z.land (index * 2) (Z.b2z b) = 0).
  { apply Z.bits_inj'. intros n Hn. rewrite Z.land_spec, Z.bits_0.
    destruct (Z.eq_dec n 0) as [-> | Hn0].
    - rewrite Z.mul_comm, Z.testbit_even_0. reflexivity.
    - assert (Hhigh : Z.testbit (Z.b2z b) n = false).
      { replace n with (Z.succ (n - 1)) by lia.
        replace (Z.b2z b) with (2 * 0 + Z.b2z b) by lia.
        rewrite Z.testbit_succ_r by lia. apply Z.bits_0. }
      rewrite Hhigh. apply andb_false_r. }
  pose proof (Z.add_lor_land (index * 2) (Z.b2z b)) as Hadd. rewrite Hl in Hadd.
  rewrite to_int32_small by (change (2 ^ 31) with 2147483648; lia). lia.
Qed.

(** The number that a list of bits spells, the first bit the highest. *)
Lemma bits_value_snoc (bs : list bool) b :
  foldl (fun acc b => 2 * acc + Z.b2z b) 0 (bs ++ [b])
  = 2 * foldl (fun acc b => 2 * acc + Z.b2z b) 0 bs + Z.b2z b.
Proof. rewrite foldl_app. reflexivity. Qed.

Lemma bits_value_bound (bs : list bool) :
  0 <= foldl (fun acc b => 2 * acc + Z.b2z b) 0 bs < 2 ^ Z.of_nat (length bs).
Proof.
  induction bs as [| b bs IH] using rev_ind; [cbn; lia |].
  rewrite bits_value_snoc, length_app. cbn [length].
  replace (Z.of_nat (length bs + 1)) with (Z.succ (Z.of_nat (length bs))) by lia.
  rewrite Z.pow_succ_r by lia. destruct b; cbn [Z.b2z]; lia.
Qed.

Lemma bits_value_testbit (bs : list bool) : forall j b,
  bs !! j = Some b ->
  Z.testbit (foldl (fun acc b => 2 * acc + Z.b2z b) 0 bs) (Z.of_nat (length bs - 1 - j)) = b.
Proof.
  induction bs as [| b0 bs IH] using rev_ind; intros j b Hj; [discriminate |].
  rewrite bits_value_snoc, length_app. cbn [length].
  destruct (decide (j = length bs)) as [-> | Hne].
  - rewrite list_lookup_middle in Hj by reflexivity. inversion Hj; subst b0.
    replace (length bs + 1 - 1 - length bs)%nat with 0%nat by lia.
    apply Z.testbit_0_r.
  - assert (Hlt : (j < length bs)%nat).
    { apply lookup_lt_Some in Hj. rewrite length_app in Hj. cbn in Hj. lia. }
    rewrite lookup_app_l in Hj by exact Hlt.
    replace (Z.of_nat (length bs + 1 - 1 - j)) with (Z.succ (Z.of_nat (length bs - 1 - j)))
      by lia.
    rewrite Z.testbit_succ_r by lia. apply IH, Hj.
Qed.

(** A byte is its eight bits. *)
Lemma byte_eq_bits x y :
  0 <= x < 256 -> 0 <= y < 256 ->
  (forall t, 0 <= t < 8 -> Z.testbit x t = Z.testbit y t) -> x = y.
Proof.
  intros Hx Hy Hb. apply Z.bits_inj'. intros n Hn.
  destruct (Z.lt_ge_cases n 8) as [Hlt | Hge]; [apply Hb; lia |].
  rewrite <- (Z.mod_small x (2 ^ 8)), <- (Z.mod_small y (2 ^ 8)) by (change (2 ^ 8) with 256; lia).
  rewrite !Z.mod_pow2_bits_high by lia. reflexivity.
Qed.

Section MnemonicBits.
Import Mnemonic.

(** The bit at a position of a buffer, the first bit of a byte the
    highest. *)
Local Abbreviation bit_at E pos := (Z.testbit (byte_at E (pos / 8)) (7 - pos mod 8)).

Local Abbreviation spelled bs := (foldl (fun acc (b : bool) => 2 * acc + Z.b2z b) 0 bs).

Lemma octet_of pos : (pos - pos mod 8) / 8 = pos / 8.
Proof.
  pose proof (Z.div_mod pos 8 ltac:(lia)) as Hd.
  replace (pos - pos mod 8) with (pos / 8 * 8) by lia. apply Z.div_mul. lia.
Qed.

Lemma byte_at_range (E : Buffer) k : Forall (fun x => 0 <= x < 256) E -> 0 <= byte_at E k < 256.
Proof.
  intros HE. unfold byte_at. destruct (E !! Z.to_nat k) as [x |] eqn:Hx; [| cbn; lia].
  apply (Forall_lookup_1 _ _ _ _ HE Hx).
Qed.

Lemma read_bit_spec (E : Buffer) pos :
  Forall (fun x => 0 <= x < 256) E -> read_bit E pos = Z.b2z (bit_at E pos).
Proof.
  intros HE. unfold read_bit. cbn zeta. rewrite octet_of.
  pose proof (byte_at_range E (pos / 8) HE) as Hb.
  pose proof (Z.mod_pos_bound pos 8 ltac:(lia)) as Hm.
  apply low_bit; [change (2 ^ 32) with 4294967296; lia | lia].
Qed.

(** The inner loop of [getPhrase] spells the bits it reads. *)
Lemma word_index_prefix (E : Buffer) i (l : list nat) :
  Forall (fun x => 0 <= x < 256) E -> (length l <= 29)%nat ->
  foldl (fun index j => js_or (js_shl index 1) (read_bit E (i * 11 + Z.of_nat j))) 0 l
  = spelled ((fun j => bit_at E (i * 11 + Z.of_nat j)) <$> l).
Proof.
  intros HE. induction l as [| j l IH] using rev_ind; intros Hlen; [reflexivity |].
  rewrite length_app in Hlen. cbn [length] in Hlen.
  rewrite fmap_app, !foldl_app. cbn [foldl fmap list_fmap].
  rewrite IH by lia. rewrite read_bit_spec by exact HE.
  apply push_bit.
  pose proof (bits_value_bound ((fun j => bit_at E (i * 11 + Z.of_nat j)) <$> l)) as Hb.
  rewrite length_fmap in Hb.
  assert (2 ^ Z.of_nat (length l) <= 2 ^ 29) by (apply Z.pow_le_mono_r; lia).
  lia.
Qed.

Lemma word_index_spec (E : Buffer) i :
  Forall (fun x => 0 <= x < 256) E ->
  word_index E i = spelled ((fun j => bit_at E (i * 11 + Z.of_nat j)) <$> seq 0 11).
Proof.
  intros HE. unfold word_index. apply (word_index_prefix E i (seq 0 11) HE).
  rewrite length_seq. lia.
Qed.

Lemma word_index_bound (E : Buffer) i :
  Forall (fun x => 0 <= x < 256) E -> 0 <= word_index E i < 2048.
Proof.
  intros HE. rewrite word_index_spec by exact HE.
  pose proof (bits_value_bound ((fun j => bit_at E (i * 11 + Z.of_nat j)) <$> seq 0 11)) as Hb.
  rewrite length_fmap, length_seq in Hb. exact Hb.
Qed.

Lemma word_index_testbit (E : Buffer) i j :
  Forall (fun x => 0 <= x < 256) E -> 0 <= j < 11 ->
  Z.testbit (word_index E i) (10 - j) = bit_at E (i * 11 + j).
Proof.
  intros HE Hj. rewrite word_index_spec by exact HE.
  pose proof (bits_value_testbit ((fun j => bit_at E (i * 11 + Z.of_nat j)) <$> seq 0 11)
                (Z.to_nat j) (bit_at E (i * 11 + j))) as Ht.
  rewrite length_fmap, length_seq in Ht.
  replace (Z.of_nat (11 - 1 - Z.to_nat j)) with (10 - j) in Ht by lia.
  apply Ht. rewrite list_lookup_fmap, lookup_seq_lt by lia.
  cbn [fmap option_fmap option_map].
  replace (Z.of_nat (0 + Z.to_nat j)) with j by lia. reflexivity.
Qed.

(** [ent[oct] |= b << (7 - bit)] sets one bit, or none. *)
Lemma write_bit_bytes (ent : Buffer) pos b :
  Forall (fun x => 0 <= x < 256) ent -> Forall (fun x => 0 <= x < 256) (write_bit ent pos b).
Proof.
  intros HE. unfold write_bit. cbn zeta. apply Forall_insert; [exact HE |].
  apply Z.mod_pos_bound. lia.
Qed.

Lemma write_bit_length (ent : Buffer) pos b : length (write_bit ent pos b) = length ent.
Proof. unfold write_bit. cbn zeta. apply length_insert. Qed.

Lemma write_bit_spec (ent : Buffer) pos (b : bool) q :
  Forall (fun x => 0 <= x < 256) ent -> 0 <= pos -> pos / 8 < buf_length ent -> 0 <= q ->
  bit_at (write_bit ent pos (Z.b2z b)) q = bit_at ent q || (b && (q =? pos)).
Proof.
  intros HE Hpos Hin Hq. unfold write_bit. cbn zeta. rewrite octet_of.
  pose proof (Z.mod_pos_bound pos 8 ltac:(lia)) as Hm.
  pose proof (Z.mod_pos_bound q 8 ltac:(lia)) as Hmq.
  pose proof (Z.div_mod pos 8 ltac:(lia)) as Hdp.
  pose proof (Z.div_mod q 8 ltac:(lia)) as Hdq.
  assert (Hp8 : 0 <= pos / 8) by (apply Z.div_pos; lia).
  assert (Hq8 : 0 <= q / 8) by (apply Z.div_pos; lia).
  destruct (Z.eq_dec (q / 8) (pos / 8)) as [Heq | Hne].
  - rewrite Heq. unfold byte_at at 1.
    rewrite list_lookup_insert_eq by (unfold buf_length in Hin; lia).
    cbn [default from_option id].
    pose proof (byte_at_range ent (pos / 8) HE) as Hb.
    set (x := byte_at ent (pos / 8)) in *.
    assert (Hs : js_shl (Z.b2z b) (7 - pos mod 8) = Z.b2z b * 2 ^ (7 - pos mod 8)).
    { apply js_shl_exact; [destruct b; cbn; lia | lia |].
      assert (2 ^ (7 - pos mod 8) <= 2 ^ 7) by (apply Z.pow_le_mono_r; lia).
      change (2 ^ 7) with 128 in *. change (2 ^ 31) with 2147483648.
      destruct b; cbn [Z.b2z]; lia. }
    rewrite Hs. unfold js_or.
    assert (Hy : 0 <= Z.b2z b * 2 ^ (7 - pos mod 8) < 256).
    { assert (2 ^ (7 - pos mod 8) <= 2 ^ 7) by (apply Z.pow_le_mono_r; lia).
      assert (0 < 2 ^ (7 - pos mod 8)) by (apply Z.pow_pos_nonneg; lia).
      change (2 ^ 7) with 128 in *. destruct b; cbn [Z.b2z]; lia. }
    rewrite (to_int32_small x), (to_int32_small (Z.b2z b * 2 ^ (7 - pos mod 8)))
      by (change (2 ^ 31) with 2147483648; lia).
    assert (Hl : 0 <= Z.lor x (Z.b2z b * 2 ^ (7 - pos mod 8)) < 256).
    { split; [apply Z.lor_nonneg; lia |].
      destruct (Z.eq_dec (Z.lor x (Z.b2z b * 2 ^ (7 - pos mod 8))) 0) as [-> | Hnz]; [lia |].
      change 256 with (2 ^ 8). apply Z.log2_lt_pow2; [| rewrite Z.log2_lor by lia].
      - assert (0 <= Z.lor x (Z.b2z b * 2 ^ (7 - pos mod 8))) by (apply Z.lor_nonneg; lia). lia.
      - apply Z.max_lub_lt.
        + destruct (Z.eq_dec x 0) as [-> | Hx]; [cbn; lia |].
          apply Z.log2_lt_pow2; [lia | change (2 ^ 8) with 256; lia].
        + destruct (Z.eq_dec (Z.b2z b * 2 ^ (7 - pos mod 8)) 0) as [-> | Hy0]; [cbn; lia |].
          apply Z.log2_lt_pow2; [lia | change (2 ^ 8) with 256; lia]. }
    rewrite to_int32_small by (change (2 ^ 31) with 2147483648; lia).
    rewrite Z.mod_small by exact Hl.
    rewrite Z.lor_spec. f_equal.
    rewrite Z.mul_pow2_bits by lia.
    destruct (Z.eqb_spec q pos) as [-> | Hqp].
    + rewrite Z.sub_diag, andb_true_r. destruct b; reflexivity.
    + rewrite andb_false_r.
      assert (Hd : 7 - q mod 8 - (7 - pos mod 8) <> 0) by lia.
      destruct b; cbn [Z.b2z]; [| apply Z.bits_0].
      destruct (7 - q mod 8 - (7 - pos mod 8)) as [| p | p] eqn:Hp; [lia | | reflexivity].
      destruct p; reflexivity.
  - unfold byte_at at 1.
    rewrite list_lookup_insert_ne by lia.
    fold (byte_at ent (q / 8)).
    destruct (Z.eqb_spec q pos) as [-> | Hqp]; [lia |].
    rewrite andb_false_r, orb_false_r. reflexivity.
Qed.

(** The inner loop of [fromPhrase] sets the bits of an index. *)
Lemma write_index_prefix (i index : Z) (m : nat) : forall (ent : Buffer),
  Forall (fun x => 0 <= x < 256) ent -> 0 <= i -> (i * 11 + 10) / 8 < buf_length ent ->
  0 <= index < 2 ^ 32 -> (m <= 11)%nat ->
  let ent' := foldl (fun ent j =>
                       write_bit ent (i * 11 + Z.of_nat j)
                         (js_and (js_ushr index (10 - Z.of_nat j)) 1)) ent (seq 0 m) in
  Forall (fun x => 0 <= x < 256) ent' /\ length ent' = length ent
  /\ forall q, 0 <= q ->
       bit_at ent' q
       = bit_at ent q
         || ((i * 11 <=? q) && (q <? i * 11 + Z.of_nat m) && Z.testbit index (10 - (q - i * 11))).
Proof.
  induction m as [| m IH]; intros ent HE Hi Hin Hidx Hm.
  - cbn [seq foldl]. split; [exact HE |]. split; [reflexivity |].
    intros q Hq.
    destruct (Z.leb_spec (i * 11) q) as [Hlo | Hlo]; cbn [andb];
      [| rewrite orb_false_r; reflexivity].
    replace (q <? i * 11 + Z.of_nat 0) with false by (symmetry; apply Z.ltb_ge; lia).
    cbn [andb]. rewrite orb_false_r. reflexivity.
  - rewrite seq_S, foldl_app. cbn [foldl plus].
    destruct (IH ent HE Hi Hin Hidx ltac:(lia)) as (HE' & Hlen' & Hbits').
    cbn zeta in HE', Hlen', Hbits'.
    set (mid := foldl _ ent (seq 0 m)) in *.
    split; [apply write_bit_bytes, HE' |].
    split; [rewrite write_bit_length; exact Hlen' |].
    intros q Hq.
    rewrite low_bit by lia.
    rewrite write_bit_spec; [| exact HE' | lia | | exact Hq].
    2: { unfold buf_length. rewrite Hlen'. fold (buf_length ent).
         assert ((i * 11 + Z.of_nat m) / 8 <= (i * 11 + 10) / 8) by (apply Z.div_le_mono; lia).
         lia. }
    rewrite Hbits' by exact Hq. rewrite <- orb_assoc. f_equal.
    destruct (Z.eqb_spec q (i * 11 + Z.of_nat m)) as [-> | Hne].
    + replace (i * 11 <=? i * 11 + Z.of_nat m) with true by (symmetry; apply Z.leb_le; lia).
      replace (i * 11 + Z.of_nat m <? i * 11 + Z.of_nat m) with false
        by (symmetry; apply Z.ltb_ge; lia).
      replace (i * 11 + Z.of_nat m <? i * 11 + Z.of_nat (S m)) with true
        by (symmetry; apply Z.ltb_lt; lia).
      cbn [andb orb]. rewrite andb_true_r. f_equal. lia.
    + rewrite andb_false_r, orb_false_r.
      destruct (Z.leb_spec (i * 11) q) as [Hlo | Hlo]; [| reflexivity].
      cbn [andb].
      destruct (Z.ltb_spec q (i * 11 + Z.of_nat m)) as [Hhi | Hhi].
      * replace (q <? i * 11 + Z.of_nat (S m)) with true by (symmetry; apply Z.ltb_lt; lia).
        reflexivity.
      * replace (q <? i * 11 + Z.of_nat (S m)) with false by (symmetry; apply Z.ltb_ge; lia).
        reflexivity.
Qed.

Lemma write_index_spec (i index : Z) (ent : Buffer) :
  Forall (fun x => 0 <= x < 256) ent -> 0 <= i -> (i * 11 + 10) / 8 < buf_length ent ->
  0 <= index < 2 ^ 32 ->
  Forall (fun x => 0 <= x < 256) (write_index i index ent)
  /\ length (write_index i index ent) = length ent
  /\ forall q, 0 <= q ->
       bit_at (write_index i index ent) q
       = bit_at ent q
         || ((i * 11 <=? q) && (q <? i * 11 + 11) && Z.testbit index (10 - (q - i * 11))).
Proof.
  intros HE Hi Hin Hidx.
  apply (write_index_prefix i index 11 ent HE Hi Hin Hidx). lia.
Qed.

End MnemonicBits.

(** ** Mnemonics: a phrase and its entropy *)

Lemma le_bytes_range w v : Forall (fun x => 0 <= x < 256) (le_bytes w v).
Proof.
  unfold le_bytes. apply Forall_fmap, Forall_true. intros i. cbn.
  rewrite land_255. apply Z.mod_pos_bound. lia.
Qed.

Lemma sha256_bytes msg : Forall (fun x => 0 <= x < 256) (sha256 msg).
Proof.
  unfold sha256, SHA256.sha256. cbn zeta.
  induction (SHA256.blocks _ _ _) as [| x l IH]; [constructor |].
  change (Forall (fun x => 0 <= x < 256) (be_bytes 4 x ++ mjoin (be_bytes 4 <$> l))).
  apply Forall_app. split; [| exact IH].
  unfold be_bytes. apply Forall_reverse, le_bytes_range.
Qed.

(** [bytes.copy(data, off)] when the bytes run over the end. *)
Lemma overlay_cut (before junk bytes : Buffer) :
  buf_length junk <= buf_length bytes ->
  Writer.overlay (before ++ junk) (buf_length before) bytes
  = before ++ take (length junk) bytes.
Proof.
  unfold buf_length. intros Hroom. apply list_eq. intros i.
  unfold Writer.overlay. rewrite list_lookup_imap.
  destruct (decide (i < length before)%nat) as [Hlt | Hge].
  - rewrite !lookup_app_l by lia.
    destruct (before !! i) as [x |]; [| reflexivity]. cbn.
    assert ((0 <=? Z.of_nat i - Z.of_nat (length before)) = false) as -> by lia. reflexivity.
  - rewrite !lookup_app_r by lia.
    destruct (decide (i - length before < length junk)%nat) as [Hin | Hout].
    + destruct (lookup_lt_is_Some_2 junk (i - length before)) as [x Hx]; [lia |].
      rewrite Hx. cbn.
      assert (((0 <=? Z.of_nat i - Z.of_nat (length before))
               && (Z.of_nat i - Z.of_nat (length before) <? buf_length bytes)) = true) as ->.
      { unfold buf_length. apply andb_true_iff. split; lia. }
      unfold byte_at.
      replace (Z.to_nat (Z.of_nat i - Z.of_nat (length before))) with (i - length before)%nat
        by lia.
      rewrite lookup_take_lt by lia.
      destruct (lookup_lt_is_Some_2 bytes (i - length before)) as [y Hy]; [lia |].
      rewrite Hy. reflexivity.
    + rewrite (lookup_ge_None_2 junk) by lia. cbn.
      rewrite lookup_ge_None_2; [reflexivity |]. rewrite length_take. lia.
Qed.

Section MnemonicRoundTrip.
Import Mnemonic.
Context `{MnemonicEnv}.

Local Abbreviation bit_at E pos := (Z.testbit (byte_at E (pos / 8)) (7 - pos mod 8)).

(** The buffer that [getPhrase] reads from, for [32 * k] bits of
    entropy: the entropy and the first bytes of its hash. *)
Lemma entropy_buffer_spec k (ent : Buffer) :
  0 < k < 32 -> buf_length ent = 4 * k ->
  entropy_buffer (32 * k) ent = ent ++ take (Z.to_nat (ceil_of k 8)) (sha256 ent).
Proof.
  intros Hk Hlen. unfold entropy_buffer. cbn zeta.
  assert (Hsize : ceil_of (33 * (32 * k)) 256 = buf_length ent + ceil_of k 8).
  { rewrite Hlen. unfold ceil_of. Z.div_mod_to_equations. lia. }
  assert (Hc : 0 < ceil_of k 8 <= 4) by (unfold ceil_of; Z.div_mod_to_equations; lia).
  rewrite Hsize.
  replace (buf_zero (buf_length ent + ceil_of k 8))
    with ([] ++ buf_zero (buf_length ent + ceil_of k 8)) by reflexivity.
  change 0 with (buf_length []) at 1.
  rewrite overlay_zero by lia. cbn [app].
  replace (buf_length ent + ceil_of k 8 - buf_length ent) with (ceil_of k 8) by lia.
  rewrite overlay_cut by (rewrite buf_zero_length, sha256_length; lia).
  f_equal. f_equal. unfold buf_zero. rewrite length_replicate. reflexivity.
Qed.

Lemma bit_at_zero n q : bit_at (buf_zero n) q = false.
Proof.
  assert (Hb : byte_at (buf_zero n) (q / 8) = 0).
  { unfold byte_at, buf_zero.
    destruct (replicate (Z.to_nat n) 0 !! Z.to_nat (q / 8)) as [x |] eqn:Hx; [| reflexivity].
    apply lookup_replicate in Hx as [-> _]. reflexivity. }
  rewrite Hb. apply Z.bits_0.
Qed.

(** The outer loop of [fromPhrase], on words that stand for the bits
    of a buffer, writes these bits. *)
Lemma write_words_spec (wordlist : list string) (E : Buffer) :
  Forall (fun x => 0 <= x < 256) E ->
  forall (words : list string) (i : Z) (ent : Buffer),
    Forall (fun x => 0 <= x < 256) ent -> 0 <= i ->
    11 * (i + Z.of_nat (length words)) <= 8 * buf_length ent ->
    (forall k word, words !! k = Some word ->
                    binarySearch wordlist word = word_index E (i + Z.of_nat k)) ->
    exists ent',
      write_words wordlist i words ent = Ok ent'
      /\ Forall (fun x => 0 <= x < 256) ent' /\ length ent' = length ent
      /\ forall q, 0 <= q ->
           bit_at ent' q
           = bit_at ent q
             || ((i * 11 <=? q) && (q <? (i + Z.of_nat (length words)) * 11) && bit_at E q).
Proof.
  intros HE. induction words as [| word words IH]; intros i ent Hent Hi Hroom Hfind.
  - exists ent. split; [reflexivity |]. split; [exact Hent |]. split; [reflexivity |].
    intros q Hq. cbn [length]. rewrite Z.add_0_r.
    destruct (Z.leb_spec (i * 11) q); destruct (Z.ltb_spec q (i * 11)); cbn [andb];
      try lia; rewrite orb_false_r; reflexivity.
  - cbn [write_words length] in *.
    pose proof (Hfind 0%nat word eq_refl) as H0. rewrite Z.add_0_r in H0. rewrite H0.
    pose proof (word_index_bound E i HE) as Hb.
    destruct (Z.eqb_spec (word_index E i) (-1)) as [Hm | _]; [lia |].
    destruct (write_index_spec i (word_index E i) ent Hent Hi) as (Hent1 & Hlen1 & Hbits1).
    { apply Z.div_lt_upper_bound; lia. }
    { change (2 ^ 32) with 4294967296. lia. }
    destruct (IH (i + 1) (write_index i (word_index E i) ent) Hent1 ltac:(lia))
      as (ent' & Hw & Hent' & Hlen' & Hbits').
    { unfold buf_length. rewrite Hlen1. unfold buf_length in Hroom. lia. }
    { intros k w Hk. rewrite (Hfind (S k) w Hk). f_equal. lia. }
    exists ent'. split; [exact Hw |]. split; [exact Hent' |].
    split; [rewrite Hlen'; exact Hlen1 |].
    intros q Hq. rewrite Hbits', Hbits1 by exact Hq. rewrite <- orb_assoc. f_equal.
    destruct (Z.leb_spec (i * 11) q) as [Hlo | Hlo]; cbn [andb].
    + destruct (Z.ltb_spec q (i * 11 + 11)) as [Hhi | Hhi]; cbn [andb].
      * replace ((i + 1) * 11 <=? q) with false by (symmetry; apply Z.leb_gt; lia).
        replace (q <? (i + Z.of_nat (S (length words))) * 11) with true
          by (symmetry; apply Z.ltb_lt; lia).
        cbn [andb]. rewrite orb_false_r.
        rewrite word_index_testbit by (first [exact HE | lia]).
        replace (i * 11 + (q - i * 11)) with q by lia. reflexivity.
      * replace ((i + 1) * 11 <=? q) with true by (symmetry; apply Z.leb_le; lia).
        cbn [andb orb]. replace ((i + 1 + Z.of_nat (length words)) * 11)
          with ((i + Z.of_nat (S (length words))) * 11) by lia. reflexivity.
    + replace ((i + 1) * 11 <=? q) with false by (symmetry; apply Z.leb_gt; lia).
      reflexivity.
Qed.


Context `{!MnemonicLaws}.

Lemma byte_at_lookup_Some (b : Buffer) i x : b !! i = Some x -> byte_at b (Z.of_nat i) = x.
Proof. intros Hx. unfold byte_at. rewrite Nat2Z.id, Hx. reflexivity. Qed.

(** A buffer whose first bits are those of another begins with the
    bytes of the other. *)
Lemma bytes_of_bits (a b : Buffer) (n : nat) :
  Forall (fun x => 0 <= x < 256) a -> Forall (fun x => 0 <= x < 256) b ->
  (n <= length a)%nat -> (n <= length b)%nat ->
  (forall q, 0 <= q < 8 * Z.of_nat n -> bit_at a q = bit_at b q) ->
  take n a = take n b.
Proof.
  intros Ha Hb Hna Hnb Hbits. apply list_eq. intros i.
  destruct (decide (i < n)%nat) as [Hlt | Hge].
  2: { rewrite !lookup_take_ge by lia. reflexivity. }
  rewrite !lookup_take_lt by lia.
  destruct (lookup_lt_is_Some_2 a i) as [x Hx]; [lia |].
  destruct (lookup_lt_is_Some_2 b i) as [y Hy]; [lia |].
  rewrite Hx, Hy. f_equal.
  apply byte_eq_bits.
  - apply (Forall_lookup_1 _ _ _ _ Ha Hx).
  - apply (Forall_lookup_1 _ _ _ _ Hb Hy).
  - intros t Ht.
    specialize (Hbits (8 * Z.of_nat i + (7 - t)) ltac:(lia)).
    replace ((8 * Z.of_nat i + (7 - t)) / 8) with (Z.of_nat i) in Hbits
      by (Z.div_mod_to_equations; lia).
    replace (7 - (8 * Z.of_nat i + (7 - t)) mod 8) with t in Hbits
      by (Z.div_mod_to_equations; lia).
    rewrite (byte_at_lookup_Some a i x Hx), (byte_at_lookup_Some b i y Hy) in Hbits.
    exact Hbits.
Qed.

(** X25.  [fromPhrase] reads back the phrase of [getPhrase].  For a
    mnemonic with [bits] bits of entropy, a multiple of 32 within the
    bounds, and no phrase yet, [getPhrase] returns the words that spell
    the entropy and the first [bits / 32] bits of its hash, eleven bits
    to the word, and keeps the phrase; [fromPhrase] on this phrase
    returns, and sets the bits, the language and the entropy of the
    mnemonic that made it.  The word lists are assumed to have 2048
    words that the search finds and that are split as they were joined,
    and the first word is taken to tell the language. *)
Theorem phrase_round_trip (this other : Mnemonic) (ent random : Buffer) :
  entropy this = Some ent ->
  phrase this = None \/ phrase this = Some ""%string ->
  bits this = 8 * buf_length ent -> bits this mod 32 = 0 ->
  MIN_ENTROPY <= bits this <= MAX_ENTROPY ->
  Forall (fun x => 0 <= x < 256) ent ->
  getLanguage
    (default ""%string (head (phrase_words (getWordlist (language this)) (bits this) ent)))
  = Ok (language this) ->
  let words := phrase_words (getWordlist (language this)) (bits this) ent in
  let p := join_words (separator (language this)) words in
  getPhrase random this
  = (Ok p, {| bits := bits this; language := language this; entropy := Some ent;
              phrase := Some p; passphrase := passphrase this |})
  /\ Z.of_nat (length words) * 32 = 3 * bits this
  /\ fromPhrase p other
     = (Ok tt, {| bits := bits this; language := language this; entropy := Some ent;
                  phrase := Some p; passphrase := passphrase other |}).
Proof.
  intros Hent Hcache Hb8 Hm32 Hrange Hbytes Hlang words p.
  pose proof MIN_ENTROPY_pos as Hmin. pose proof MAX_ENTROPY_bound as Hmax.
  set (k := bits this / 32).
  assert (Hbits : bits this = 32 * k).
  { unfold k. pose proof (Z.div_mod (bits this) 32 ltac:(lia)). lia. }
  assert (Hk : 0 < k < 32) by lia.
  assert (Hlen : buf_length ent = 4 * k) by lia.
  assert (Hc : 0 < ceil_of k 8 <= 4) by (unfold ceil_of; Z.div_mod_to_equations; lia).
  assert (Hin : language this ∈ languages).
  { unfold getLanguage in Hlang.
    destruct (find _ languages) as [l |] eqn:Hfind; [| discriminate].
    inversion Hlang as [Hl]. rewrite <- Hl.
    apply find_some in Hfind as [Hfound _]. apply list_elem_of_In, Hfound. }
  set (wordlist := getWordlist (language this)) in *.
  set (E := entropy_buffer (bits this) ent).
  assert (HEeq : E = ent ++ take (Z.to_nat (ceil_of k 8)) (sha256 ent)).
  { unfold E. rewrite Hbits. apply entropy_buffer_spec; assumption. }
  assert (HE : Forall (fun x => 0 <= x < 256) E).
  { rewrite HEeq. apply Forall_app. split; [exact Hbytes |]. apply Forall_take, sha256_bytes. }
  assert (Hwords : words = (fun i => default ""%string
                                       (wordlist !! Z.to_nat (word_index E (Z.of_nat i))))
                           <$> seq 0 (Z.to_nat (3 * k))).
  { unfold words, phrase_words. cbn zeta. fold E. do 2 f_equal.
    rewrite Hbits. unfold ceil_of. Z.div_mod_to_equations. lia. }
  assert (Hn : Z.of_nat (length words) = 3 * k).
  { rewrite Hwords, length_fmap, length_seq. lia. }
  assert (Hword : forall i word, words !! i = Some word ->
            wordlist !! Z.to_nat (word_index E (Z.of_nat i)) = Some word).
  { intros i word Hi. rewrite Hwords, list_lookup_fmap in Hi.
    destruct (seq 0 (Z.to_nat (3 * k)) !! i) as [j |] eqn:Hj; [| discriminate].
    apply lookup_seq in Hj as [-> _].
    change (Some (default ""%string (wordlist !! Z.to_nat (word_index E (Z.of_nat i))))
            = Some word) in Hi.
    pose proof (word_index_bound E (Z.of_nat i) HE) as Hb.
    destruct (lookup_lt_is_Some_2 wordlist (Z.to_nat (word_index E (Z.of_nat i)))) as [w Hw].
    { unfold wordlist. rewrite wordlist_length by exact Hin. lia. }
    rewrite Hw in Hi |- *. exact Hi. }
  split.
  { unfold getPhrase. rewrite bind_get.
    assert (Hcompute :
      (let! ent0 := getEntropy random in
       let phrase0 := join_words (separator (language this))
                        (phrase_words (getWordlist (language this)) (bits this) ent0) in
       let! this0 := get in
       do! put (set_phrase (Some phrase0) this0) in ret phrase0)%M this
      = (Ok p, {| bits := bits this; language := language this; entropy := Some ent;
                  phrase := Some p; passphrase := passphrase this |})).
    { unfold getEntropy. unfold bind at 1. rewrite bind_get, Hent, bind_put.
      rewrite bind_assert_true by (apply Z.eqb_eq; exact Hb8).
      unfold ret at 1. rewrite bind_get, bind_put. reflexivity. }
    destruct Hcache as [-> | ->]; exact Hcompute. }
  split; [lia |].
  assert (Hsplit : split_phrase p = words).
  { apply (words_split (language this)).
    - exact Hin.
    - intros Hnil. rewrite Hnil in Hn. cbn in Hn. lia.
    - apply Forall_lookup_2. intros i word Hi.
      apply (list_elem_of_lookup_2 _ _ _ (Hword i word Hi)).
    - unfold separator. destruct (String.eqb _ _); [right | left]; reflexivity. }
  unfold fromPhrase. cbn zeta. rewrite Hsplit, Hn.
  assert (H33 : (3 * k * 11) mod 32 = k) by (Z.div_mod_to_equations; lia).
  rewrite H33.
  replace (3 * k * 11 - k) with (bits this) by lia.
  rewrite bind_assert_true by (apply Z.leb_le; lia).
  rewrite bind_assert_true by (apply Z.leb_le; lia).
  rewrite bind_assert_true by (apply Z.eqb_eq; exact Hm32).
  rewrite bind_assert_true by (apply negb_true_iff, Z.eqb_neq; lia).
  change (getLanguage (default ""%string (head words)) = Ok (language this)) in Hlang.
  rewrite Hlang.
  assert (Hsize : ceil_of (bits this + k) 8 = 4 * k + ceil_of k 8).
  { rewrite Hbits. unfold ceil_of. Z.div_mod_to_equations. lia. }
  rewrite Hsize.
  destruct (write_words_spec wordlist E HE words 0 (buf_zero (4 * k + ceil_of k 8)))
    as (ent' & Hw & Hent' & Hlen' & Hbits').
  { apply Forall_replicate. lia. }
  { lia. }
  { rewrite buf_zero_length by lia. rewrite Hn. unfold ceil_of in *.
    Z.div_mod_to_equations. lia. }
  { intros i word Hi. rewrite Z.add_0_l.
    pose proof (word_index_bound E (Z.of_nat i) HE) as Hb.
    pose proof (search_finds (language this) _ _ Hin (Hword i word Hi)) as Hs.
    fold wordlist in Hs. rewrite Hs. lia. }
  fold wordlist. rewrite Hw.
  assert (Hl' : buf_length ent' = 4 * k + ceil_of k 8).
  { unfold buf_length. rewrite Hlen'. apply buf_zero_length. lia. }
  rewrite Hl'.
  replace (4 * k + ceil_of k 8 - ceil_of k 8) with (4 * k) by lia.
  rewrite buf_slice_take by lia.
  rewrite <- Hl' at 1. rewrite buf_slice_drop by lia.
  assert (Hshared : forall q, 0 <= q < 33 * k -> bit_at ent' q = bit_at E q).
  { intros q Hq. rewrite Hbits' by lia. rewrite bit_at_zero. cbn [orb].
    replace (0 * 11 <=? q) with true by (symmetry; apply Z.leb_le; lia).
    replace (q <? (0 + Z.of_nat (length words)) * 11) with true
      by (symmetry; apply Z.ltb_lt; lia).
    reflexivity. }
  assert (Hentropy : take (Z.to_nat (4 * k)) ent' = ent).
  { transitivity (take (Z.to_nat (4 * k)) E).
    - apply bytes_of_bits; [exact Hent' | exact HE | | |].
      + unfold buf_length in Hl'. lia.
      + rewrite HEeq, length_app. unfold buf_length in Hlen. lia.
      + intros q Hq. apply Hshared. lia.
    - rewrite HEeq. rewrite take_app_le by (unfold buf_length in Hlen; lia).
      apply take_ge. unfold buf_length in Hlen. lia. }
  rewrite Hentropy.
  assert (Hchk : checksum_matches (drop (Z.to_nat (4 * k)) ent') (sha256 ent) k = true).
  { unfold checksum_matches. apply forallb_forall. intros i Hi.
    apply in_seq in Hi. apply Z.eqb_eq.
    rewrite !read_bit_spec by (first [apply Forall_drop; exact Hent' | apply sha256_bytes]).
    f_equal.
    assert (Hi8 : 0 <= Z.of_nat i / 8 < ceil_of k 8)
      by (unfold ceil_of; Z.div_mod_to_equations; lia).
    assert (Hleft : byte_at (drop (Z.to_nat (4 * k)) ent') (Z.of_nat i / 8)
                    = byte_at ent' ((32 * k + Z.of_nat i) / 8)).
    { unfold byte_at. rewrite lookup_drop. do 2 f_equal.
      Z.div_mod_to_equations. lia. }
    assert (Hright : byte_at (sha256 ent) (Z.of_nat i / 8)
                     = byte_at E ((32 * k + Z.of_nat i) / 8)).
    { rewrite HEeq.
      replace ((32 * k + Z.of_nat i) / 8) with (buf_length ent + Z.of_nat i / 8)
        by (rewrite Hlen; Z.div_mod_to_equations; lia).
      rewrite byte_at_behind by lia.
      unfold byte_at. rewrite lookup_take_lt by lia. reflexivity. }
    rewrite Hleft, Hright.
    replace (Z.of_nat i mod 8) with ((32 * k + Z.of_nat i) mod 8)
      by (Z.div_mod_to_equations; lia).
    apply Hshared. lia. }
  rewrite bind_assert_true by exact Hchk.
  rewrite bind_assert_true
    by (apply Z.eqb_eq; unfold buf_length in *; lia).
  rewrite bind_get. reflexivity.
Qed.

End MnemonicRoundTrip.

Section MnemonicChecks.
Import Mnemonic.
Context `{MnemonicEnv}.

(** X26.  [fromPhrase] takes a phrase wholly or not at all.  When it
    throws, the mnemonic is as it was.  When it returns, the mnemonic
    holds the phrase, a language of the list, a number of bits within
    the bounds that is a multiple of 32, and as many bytes of entropy;
    the eleven bits to the word of the phrase are these bits and up to
    31 bits of checksum, one at least; and the passphrase is kept. *)
Theorem fromPhrase_all_or_nothing (text : string) (this : Mnemonic) :
  match fromPhrase text this with
  | (Ok _, this') =>
      MIN_ENTROPY <= bits this' <= MAX_ENTROPY
      /\ bits this' mod 32 = 0
      /\ (exists e, entropy this' = Some e /\ bits this' = 8 * buf_length e)
      /\ phrase this' = Some text
      /\ language this' ∈ languages
      /\ bits this' < Z.of_nat (length (split_phrase text)) * 11 < bits this' + 32
      /\ passphrase this' = passphrase this
  | (Throw _, this') => this' = this
  end.
Proof.
  unfold fromPhrase. cbn zeta.
  set (n := Z.of_nat (length (split_phrase text)) * 11).
  destruct (Z.leb_spec MIN_ENTROPY (n - n mod 32)) as [Hmin | Hmin];
    [rewrite bind_assert_true by reflexivity | reflexivity].
  destruct (Z.leb_spec (n - n mod 32) MAX_ENTROPY) as [Hmax | Hmax];
    [rewrite bind_assert_true by reflexivity | reflexivity].
  destruct (Z.eqb_spec ((n - n mod 32) mod 32) 0) as [Hm | Hm];
    [rewrite bind_assert_true by reflexivity | reflexivity].
  destruct (Z.eqb_spec (n mod 32) 0) as [Hc | Hc];
    [reflexivity | rewrite bind_assert_true by reflexivity].
  destruct (getLanguage _) as [lang |] eqn:Hlang; [| reflexivity].
  destruct (write_words _ _ _ _) as [ent |]; [| reflexivity].
  destruct (checksum_matches _ _ _);
    [rewrite bind_assert_true by reflexivity | reflexivity].
  destruct (Z.eqb_spec (n - n mod 32)
              (8 * buf_length (buf_slice ent 0 (buf_length ent - ceil_of (n mod 32) 8))))
    as [Hlen | Hlen];
    [rewrite bind_assert_true by reflexivity | reflexivity].
  rewrite bind_get. cbn [put bits entropy phrase language passphrase].
  split; [lia |]. split; [exact Hm |].
  split; [eexists; split; [reflexivity | exact Hlen] |].
  split; [reflexivity |].
  split.
  { unfold getLanguage in Hlang.
    destruct (find _ languages) as [l |] eqn:Hfind; [| discriminate].
    inversion Hlang; subst l. apply find_some in Hfind as [Hin _].
    apply list_elem_of_In, Hin. }
  split; [| reflexivity].
  fold n. pose proof (Z.mod_pos_bound n 32 ltac:(lia)) as Hb. lia.
Qed.

End MnemonicChecks.

(** *** A phrase of twelve words *)

Section MnemonicWitness.
Import Mnemonic MnemonicExamples.

#[local] Existing Instance toy_lists.

Lemma split_plain c rest piece b :
  plain c = true ->
  split_from (String c rest) piece b = split_from rest (piece +:+ String c "") false.
Proof.
  destruct c as [b0 b1 b2 b3 b4 b5 b6 b7].
  destruct b0, b1, b2, b3, b4, b5, b6, b7; intros Hc;
    first [discriminate Hc | reflexivity].
Qed.

Lemma split_plain_word word rest b :
  plain_word word = true ->
  split_from (word +:+ rest) "" b = split_from rest word false.
Proof.
  destruct word as [| c1 [| c2 [| c3 w]]]; try discriminate.
  cbn [plain_word]. intros Hp. apply andb_true_iff in Hp as [H1 H2].
  change (String c1 (String c2 "") +:+ rest) with (String c1 (String c2 rest)).
  rewrite (split_plain c1) by exact H1. rewrite (split_plain c2) by exact H2.
  reflexivity.
Qed.

Lemma split_plain_last word b :
  plain_word word = true -> split_from word "" b = [word].
Proof.
  destruct word as [| c1 [| c2 [| c3 w]]]; try discriminate.
  cbn [plain_word]. intros Hp. apply andb_true_iff in Hp as [H1 H2].
  rewrite (split_plain c1) by exact H1. rewrite (split_plain c2) by exact H2.
  reflexivity.
Qed.

Lemma split_separator sep rest piece :
  sep = " "%string \/ sep = IDEOGRAPHIC_SPACE ->
  split_from (sep +:+ rest) piece false = piece :: split_from rest "" true.
Proof. intros [-> | ->]; reflexivity. Qed.

Lemma toy_words_plain word : word ∈ toy_words -> plain_word word = true.
Proof.
  intros Hin. apply list_elem_of_In in Hin.
  assert (Hall : forallb plain_word toy_words = true) by (vm_compute; reflexivity).
  rewrite forallb_forall in Hall. apply Hall, Hin.
Qed.

Lemma split_joined sep (words : list string) :
  sep = " "%string \/ sep = IDEOGRAPHIC_SPACE ->
  Forall (fun word => plain_word word = true) words -> words <> [] ->
  forall b, split_from (join_words sep words) "" b = words.
Proof.
  intros Hsep Hall. induction Hall as [| word words Hword Hall IH]; intros Hne b; [congruence |].
  destruct words as [| word' words].
  - cbn [join_words String.concat]. apply split_plain_last, Hword.
  - change (join_words sep (word :: word' :: words))
      with (word +:+ sep +:+ join_words sep (word' :: words)).
    rewrite split_plain_word by exact Hword.
    rewrite split_separator by exact Hsep.
    f_equal. apply IH. discriminate.
Qed.

(** The stand-in for the word lists has what a phrase relies on. *)
#[local] Instance toy_lists_laws : MnemonicLaws.
Proof.
  split.
  - cbn. lia.
  - cbn. lia.
  - intros lang _. vm_compute. reflexivity.
  - intros lang i word _ Hi. cbn [getWordlist binarySearch toy_lists] in *.
    assert (Hall : forallb (fun i => index_from toy_words
                                       (default ""%string (toy_words !! i)) 0 =? Z.of_nat i)
                     (seq 0 2048) = true) by (vm_compute; reflexivity).
    rewrite forallb_forall in Hall.
    assert (Hlt : (i < 2048)%nat).
    { apply lookup_lt_Some in Hi. exact Hi. }
    specialize (Hall i ltac:(apply in_seq; lia)). rewrite Hi in Hall.
    apply Z.eqb_eq, Hall.
  - intros lang sep words _ Hne Hall Hsep. cbn [getWordlist toy_lists] in Hall.
    apply split_joined; [exact Hsep | | exact Hne].
    eapply Forall_impl; [exact Hall |]. intros word. apply toy_words_plain.
Qed.

(** X25, witness: sixteen bytes of entropy, twelve words. *)
Lemma phrase_round_trip_witness :
  let ent := take 16 (sha256 [1; 2; 3]) in
  let words := phrase_words (getWordlist "simplified chinese") 128 ent in
  let p := join_words " " words in
  getPhrase [] mnemonic16
  = (Ok p, {| bits := 128; language := "simplified chinese"; entropy := Some ent;
              phrase := Some p; passphrase := "secret" |})
  /\ Z.of_nat (length words) * 32 = 3 * 128
  /\ fromPhrase p blank
     = (Ok tt, {| bits := 128; language := "simplified chinese"; entropy := Some ent;
                  phrase := Some p; passphrase := "" |}).
Proof.
  apply (phrase_round_trip mnemonic16 blank (take 16 (sha256 [1; 2; 3])) []).
  - reflexivity.
  - left. reflexivity.
  - vm_compute. reflexivity.
  - reflexivity.
  - cbn. lia.
  - apply Forall_take, sha256_bytes.
  - vm_compute. reflexivity.
Defined.

(** The phrase of [mnemonic16]. *)
Example mnemonic16_phrase :
  (getPhrase [] mnemonic16).1 = Ok "AL QF G= ]\ BU UT W: Mk BB N5 HN ^c"%string.
Proof. vm_compute. reflexivity. Qed.

(** The language is told by the first word: with the one list of words
    for every language, a phrase is read as simplified Chinese,
    whatever the language of the mnemonic that made it. *)
Example language_from_first_word :
  let english := {| bits := 128; language := "english";
                    entropy := Some (take 16 (sha256 [1; 2; 3]));
                    phrase := None; passphrase := "" |} in
  (getPhrase [] english).1 = Ok "AL QF G= ]\ BU UT W: Mk BB N5 HN ^c"%string
  /\ language (fromPhrase "AL QF G= ]\ BU UT W: Mk BB N5 HN ^c" blank).2
     = "simplified chinese"%string.
Proof. split; vm_compute; reflexivity. Qed.

(** Phrases that are not taken: a wrong checksum, too few words, and a
    space before the first word. *)
Example phrases_rejected :
  (fromPhrase "A0 A0 A0 A0 A0 A0 A0 A0 A0 A0 A0 A0" blank).1 = Throw "Invalid checksum."
  /\ (fromPhrase "A0 A0 A0" blank).1 = Throw "AssertionError"
  /\ (fromPhrase " AL QF G= ]\ BU UT W: Mk BB N5 HN ^c" blank).1
     = Throw "Could not determine language.".
Proof. repeat split; vm_compute; reflexivity. Qed.

End MnemonicWitness.
